(** * ZenRead: tokenizer, playback index, sentence ranges, spritz pivot and
      the persistence gateway, embedded from the TypeScript sources.

    - [src/components/Reader.tsx]: tokenization effect, [getSentenceRange],
      [getNextLargeChunk], [enqueueNextChunk], [speakText], [changePosition],
      [navigateBySentence], [handleWordClick], [renderSpritz], [getPivot];
      the speech queue and its callbacks, [flattenChapters], [chapterMap],
      [renderTocItems], the character layout of [WheelDisplay],
      [visualIndex] and the window of rendered tokens.
    - [src/services/parser.ts]: [countTokens] and the text reconstruction of
      [parseEpub]; [extractTokensAndAnchors], the spine loop and the table
      of contents of [parseEpub], the normalisation of plain text in
      [parseFile].
    - [src/services/storage.ts]: [moveItems], [exportBackup], [importBackup]
      and the collection accessors they call; the save, get and delete
      functions of the gateway.
    - [src/components/Library.tsx]: [getBreadcrumbs].
    - [src/constants.ts]: the default settings, and [loadData] and
      [handleGlossaryUpdate] of the application shell. *)

From Stdlib Require Import ZArith List Lia Bool QArith Qround Qcanon Qminmax Lqa.
From stdpp Require Import gmap strings list fin_maps.

Local Open Scope Z_scope.

(* ===================================================================== *)
(** ** JavaScript strings and arrays *)
(* ===================================================================== *)

(** A JavaScript string is a sequence of UTF-16 code units. *)
Abbreviation char := N (only parsing).
Abbreviation jsstring := (list N) (only parsing).

(** String literals of the sources, written as Rocq strings. *)
Definition str (s : string) : jsstring :=
  map Ascii.N_of_ascii (String.list_ascii_of_string s).

Definition LF : char := 10%N.
Definition SPACE : char := 32%N.

Definition is_space (c : char) : bool := (c =? SPACE)%N.
Definition is_newline (c : char) : bool := (c =? LF)%N.

(** The characters removed by [String.prototype.trim]: ECMAScript WhiteSpace
    and LineTerminator code points. *)
Definition is_white_space (c : char) : bool :=
  ((9 <=? c) && (c <=? 13) || (c =? 32) || (c =? 160) || (c =? 5760)
   || (8192 <=? c) && (c <=? 8202) || (c =? 8232) || (c =? 8233)
   || (c =? 8239) || (c =? 8287) || (c =? 12288) || (c =? 65279))%N.

Fixpoint trimStart (s : jsstring) : jsstring :=
  match s with
  | [] => []
  | c :: r => if is_white_space c then trimStart r else s
  end.

Fixpoint trimEnd (s : jsstring) : jsstring :=
  match s with
  | [] => []
  | c :: r =>
      match trimEnd r with
      | [] => if is_white_space c then [] else [c]
      | kept => c :: kept
      end
  end.

Definition trim (s : jsstring) : jsstring := trimEnd (trimStart s).

(** [s === '\n'] *)
Definition is_break (s : jsstring) : bool :=
  match s with
  | [c] => is_newline c
  | _ => false
  end.

(** [text.split(/(\n)/)]: the pieces between newlines, with every newline
    kept as a piece of its own (the capture group). *)
Fixpoint split_newlines (s : jsstring) : list jsstring :=
  match s with
  | [] => [[]]
  | c :: r =>
      if is_newline c then [] :: [LF] :: split_newlines r
      else match split_newlines r with
           | seg :: segs => (c :: seg) :: segs
           | [] => [[c]]
           end
  end.

(** [s.split(/[ ]+/)]: the pieces between maximal runs of spaces.  The flag
    records that the previous character belonged to a run, so that the run
    separates only once.  The empty string splits into one empty piece. *)
Fixpoint split_spaces_from (in_run : bool) (s : jsstring) : list jsstring :=
  match s with
  | [] => [[]]
  | c :: r =>
      if is_space c then
        if in_run then split_spaces_from true r
        else [] :: split_spaces_from true r
      else match split_spaces_from false r with
           | piece :: pieces => (c :: piece) :: pieces
           | [] => [[c]]
           end
  end.

Definition split_spaces (s : jsstring) : list jsstring :=
  split_spaces_from false s.

(** Relative index resolution shared by [Array.prototype.slice] and
    [String.prototype.slice]. *)
Definition rel_index (len i : Z) : Z :=
  if i <? 0 then Z.max (len + i) 0 else Z.min i len.

Definition slice {A} (l : list A) (from to : Z) : list A :=
  let len := Z.of_nat (length l) in
  let k := rel_index len from in
  let f := rel_index len to in
  take (Z.to_nat (f - k)) (drop (Z.to_nat k) l).

(** [l.slice(from)] *)
Definition slice_from {A} (l : list A) (from : Z) : list A :=
  slice l from (Z.of_nat (length l)).

(** [l[i]] with a number index: [None] is [undefined]. *)
Definition at_index {A} (l : list A) (i : Z) : option A :=
  if i <? 0 then None else l !! Z.to_nat i.

(** [tokens.join(sep)] *)
Fixpoint join (sep : jsstring) (l : list jsstring) : jsstring :=
  match l with
  | [] => []
  | [w] => w
  | w :: rest => w ++ sep ++ join sep rest
  end.

(* ===================================================================== *)
(** ** Tokenizer (Reader.tsx:607-620) and token counter (parser.ts:6-18) *)
(* ===================================================================== *)

Module Tokenizer.

(** [words.forEach(w => { if (w.length > 0) tokens.push(w); })] *)
Definition push_words (tokens : list jsstring) (words : list jsstring)
  : list jsstring :=
  fold_left (fun acc w => if (0 <? length w)%nat then acc ++ [w] else acc)
            words tokens.

(** The body of [rawSegments.forEach] in the Reader. *)
Definition push_segment (tokens : list jsstring) (seg : jsstring)
  : list jsstring :=
  if is_break seg then tokens ++ [[LF]]
  else push_words tokens (split_spaces (trim seg)).

Definition tokenize (content : jsstring) : list jsstring :=
  fold_left push_segment (split_newlines content) [].

(** [words.forEach(w => { if (w.length > 0) count++; })] *)
Definition count_words (count : nat) (words : list jsstring) : nat :=
  fold_left (fun n w => if (0 <? length w)%nat then S n else n) words count.

(** The body of [rawSegments.forEach] in the parser. *)
Definition count_segment (count : nat) (seg : jsstring) : nat :=
  if is_break seg then S count
  else count_words count (split_spaces (trim seg)).

Definition countTokens (text : jsstring) : nat :=
  fold_left count_segment (split_newlines text) 0%nat.

(** Text reconstruction of [parseEpub] (parser.ts:234-246): words separated
    by one space, break tokens written as a newline with no space around. *)
Fixpoint rejoin (tokens : list jsstring) : jsstring :=
  match tokens with
  | [] => []
  | t :: rest =>
      if is_break t then LF :: rejoin rest
      else t ++ match rest with
                | [] => []
                | next :: _ => if is_break next then [] else [SPACE]
                end ++ rejoin rest
  end.

(** The same normal form computed on the pieces that the tokenizer itself
    cuts (an auxiliary notion for the proofs; [normal_form] below is the
    one that follows the specification's words). *)
Fixpoint collapse_spaces (s : jsstring) : jsstring :=
  match s with
  | [] => []
  | c :: r =>
      if is_space c && match r with
                       | c' :: _ => is_space c'
                       | [] => false
                       end
      then collapse_spaces r
      else c :: collapse_spaces r
  end.

Definition normalize_segment (seg : jsstring) : jsstring :=
  if is_break seg then seg else collapse_spaces (trim seg).

Definition normalize_whitespace (text : jsstring) : jsstring :=
  concat (map normalize_segment (split_newlines text)).

(** *** The whitespace-normal form, following the specification's words

    "Equal to the original text up to collapsing runs of spaces and
    trimming" the segments between newlines.  These definitions use none
    of the tokenizer's functions: the text is cut into its lines, every
    line loses the white space at its two ends and every space that
    follows a space, and the lines are put together again with one
    newline between them. *)

(** The lines of a text: the pieces between its newline characters. *)
Fixpoint lines_of (text : jsstring) (line : jsstring) : list jsstring :=
  match text with
  | [] => [rev line]
  | c :: rest =>
      if (c =? 10)%N then rev line :: lines_of rest []
      else lines_of rest (c :: line)
  end.

Definition lines (text : jsstring) : list jsstring := lines_of text [].

Fixpoint drop_white_space (s : jsstring) : jsstring :=
  match s with
  | c :: r => if is_white_space c then drop_white_space r else s
  | [] => []
  end.

(** A line without the white space at its two ends. *)
Definition strip (line : jsstring) : jsstring :=
  rev (drop_white_space (rev (drop_white_space line))).

(** A line without the spaces that follow a space. *)
Fixpoint squeeze (after_space : bool) (line : jsstring) : jsstring :=
  match line with
  | [] => []
  | c :: r =>
      if (c =? 32)%N then
        if after_space then squeeze true r else c :: squeeze true r
      else c :: squeeze false r
  end.

(** Lines put together with one newline between them. *)
Fixpoint unlines (ls : list jsstring) : jsstring :=
  match ls with
  | [] => []
  | [l] => l
  | l :: rest => l ++ 10%N :: unlines rest
  end.

Definition normal_form (text : jsstring) : jsstring :=
  unlines (map (fun line => squeeze false (strip line)) (lines text)).

(** The characters of a text that are not white space, in their order. *)
Definition visible (text : jsstring) : jsstring :=
  List.filter (fun c => negb (is_white_space c)) text.

(** Auxiliary notions for the proofs. *)

Definition nonempty (w : jsstring) : bool := (0 <? length w)%nat.

(** The tokens contributed by one segment. *)
Definition segment_tokens (seg : jsstring) : list jsstring :=
  if is_break seg then [[LF]]
  else List.filter nonempty (split_spaces (trim seg)).

Definition no_newline (s : jsstring) : Prop := Forall (fun c => is_newline c = false) s.

Definition no_space (s : jsstring) : Prop := Forall (fun c => is_space c = false) s.

(** The shape of the result of [split_newlines]: newline-free segments
    separated by break segments. *)
Inductive segments : list jsstring -> Prop :=
| segments_last seg : no_newline seg -> segments [seg]
| segments_cons seg rest :
    no_newline seg -> segments rest -> segments (seg :: [LF] :: rest).

(** A space in front of a non-empty sequence of words joined by spaces. *)
Definition space_join (ws : list jsstring) : jsstring :=
  match ws with
  | [] => []
  | _ => SPACE :: join [SPACE] ws
  end.

(** No whitespace at either end. *)
Definition edge_ok (c : option char) : Prop :=
  match c with
  | Some c => is_white_space c = false
  | None => True
  end.

Definition trimmed (s : jsstring) : Prop :=
  edge_ok (head s) /\ edge_ok (last s).

End Tokenizer.

(* ===================================================================== *)
(** ** Sentence ranges (Reader.tsx:81-97) *)
(* ===================================================================== *)

Module Sentence.

(** [/[.!?]$/.test(w)]: the last code unit is a full stop, an exclamation
    mark or a question mark. *)
Definition ends_sentence (w : jsstring) : bool :=
  match last w with
  | Some c => ((c =? 46) || (c =? 33) || (c =? 63))%N
  | None => false
  end.

(** [w === undefined || w === '\n' || /[.!?]$/.test(w)] *)
Definition is_boundary (w : option jsstring) : bool :=
  match w with
  | None => true
  | Some w => is_break w || ends_sentence w
  end.

Record Range := { r_start : Z; r_end : Z }.

(** [while (start > 0) { ... start--; }]; the fuel is the value of [start]
    on entry, so the guard [start > 0] is the fuel being non-zero. *)
Fixpoint scan_start (words : list jsstring) (fuel : nat) (start : Z) : Z :=
  match fuel with
  | O => start
  | S fuel' =>
      if is_boundary (at_index words (start - 1)) then start
      else scan_start words fuel' (start - 1)
  end.

(** [while (end < words.length - 1) { ... end++; }]; the fuel is
    [words.length - 1 - end] on entry. *)
Fixpoint scan_end (words : list jsstring) (fuel : nat) (end_ : Z) : Z :=
  match fuel with
  | O => end_
  | S fuel' =>
      if is_boundary (at_index words end_) then end_
      else scan_end words fuel' (end_ + 1)
  end.

Definition getSentenceRange (words : list jsstring) (currentIndex : Z)
  : Range :=
  let len := Z.of_nat (length words) in
  {| r_start := scan_start words (Z.to_nat currentIndex) currentIndex;
     r_end := scan_end words (Z.to_nat (len - 1 - currentIndex)) currentIndex |}.

(** Auxiliary notions for the proofs: what makes [s] the start and [e] the
    end of the sentence around position [i]. *)

Definition sentence_start (words : list jsstring) (i s : Z) : Prop :=
  s <= i
  /\ (s <= 0 \/ is_boundary (at_index words (s - 1)) = true)
  /\ forall j, s <= j < i -> is_boundary (at_index words j) = false.

Definition sentence_end (words : list jsstring) (i e : Z) : Prop :=
  i <= e <= Z.max i (Z.of_nat (length words) - 1)
  /\ (Z.of_nat (length words) - 1 <= e
      \/ is_boundary (at_index words e) = true)
  /\ forall j, i <= j < e -> is_boundary (at_index words j) = false.

End Sentence.

(* ===================================================================== *)
(** ** Spritz renderer (Reader.tsx:1445-1452, 183-186) *)
(* ===================================================================== *)

Module Spritz.

(** [Math.floor((word.length + 1) / 2) - 1] *)
Definition pivot_of (word : jsstring) : Z :=
  (Z.of_nat (length word) + 1) / 2 - 1.

Record Parts := { pre : jsstring; center : jsstring; post : jsstring }.

(** [renderSpritz]: the word at the floor of the visual index, split around
    its pivot.  [words[i] || ''] and [word[pivot] || ''] turn [undefined]
    into the empty string. *)
Definition renderSpritz (words : list jsstring) (floorVisualIndex : Z)
  : Parts :=
  let word := default [] (at_index words floorVisualIndex) in
  let pivot := pivot_of word in
  {| pre := slice word 0 pivot;
     center := match at_index word pivot with
               | Some c => [c]
               | None => []
               end;
     post := slice_from word (pivot + 1) |}.

(** [WheelDisplay.getPivot] *)
Definition getPivot (w : option jsstring) : Z :=
  match w with
  | None => 0
  | Some [] => 0
  | Some w => pivot_of w
  end.

End Spritz.

(* ===================================================================== *)
(** ** Playback synchronizer (Reader.tsx:983-1210, 782-810, 1299-1310) *)
(* ===================================================================== *)

Module Playback.

Import Sentence.

Inductive ReadingMode := scroll | paginated | spritz | wheel | tiktok.

Inductive RepeatMode := repeat_off | repeat_word | repeat_phrase | repeat_sentence.

(** The settings read by the playback code.  [activeWpm] is the memoised
    words-per-minute value of the active mode. *)
Record Config := {
  mode : ReadingMode;
  normalEnabled : bool;
  spritzEnabled : bool;
  wheelEnabled : bool;
  tiktokEnabled : bool;
  wheelContinuousMode : bool;
  repeatMode : RepeatMode;
  activeWpm : Z
}.

(** A chunk handed to the speech engine: [{ text, start, end }]. *)
Record Chunk := { c_text : jsstring; c_start : Z; c_end : Z }.

(** What the callbacks of one utterance close over. *)
Record Utterance := {
  u_chunk : Chunk;
  u_firstPart : jsstring;
  u_isRepeating : bool
}.

Record Reader := {
  words : list jsstring;        (* wordsRef.current *)
  currentIndex : Z;
  isPlaying : bool;
  shouldPlay : bool;            (* shouldPlayRef.current *)
  timer : option Q;             (* the live interval and its delay in ms *)
  queueNext : Z;                (* chunkQueueNextIndex.current *)
  active : list Utterance       (* activeUtterancesRef.current *)
}.

Definition set_currentIndex (i : Z) (r : Reader) : Reader :=
  {| words := words r; currentIndex := i; isPlaying := isPlaying r;
     shouldPlay := shouldPlay r; timer := timer r; queueNext := queueNext r;
     active := active r |}.

Definition set_isPlaying (b : bool) (r : Reader) : Reader :=
  {| words := words r; currentIndex := currentIndex r; isPlaying := b;
     shouldPlay := shouldPlay r; timer := timer r; queueNext := queueNext r;
     active := active r |}.

Definition set_shouldPlay (b : bool) (r : Reader) : Reader :=
  {| words := words r; currentIndex := currentIndex r; isPlaying := isPlaying r;
     shouldPlay := b; timer := timer r; queueNext := queueNext r;
     active := active r |}.

Definition set_timer (t : option Q) (r : Reader) : Reader :=
  {| words := words r; currentIndex := currentIndex r; isPlaying := isPlaying r;
     shouldPlay := shouldPlay r; timer := t; queueNext := queueNext r;
     active := active r |}.

Definition set_queueNext (i : Z) (r : Reader) : Reader :=
  {| words := words r; currentIndex := currentIndex r; isPlaying := isPlaying r;
     shouldPlay := shouldPlay r; timer := timer r; queueNext := i;
     active := active r |}.

Definition set_active (us : list Utterance) (r : Reader) : Reader :=
  {| words := words r; currentIndex := currentIndex r; isPlaying := isPlaying r;
     shouldPlay := shouldPlay r; timer := timer r; queueNext := queueNext r;
     active := us |}.

Definition total (r : Reader) : Z := Z.of_nat (length (words r)).

(** [window.speechSynthesis.cancel(); activeUtterancesRef.current.clear()] *)
Definition cancel_speech (r : Reader) : Reader := set_active [] r.

(** [clearInterval(timerRef.current)] *)
Definition clear_timer (r : Reader) : Reader := set_timer None r.

(** *** Chunking *)

(** [/[.!?]$/.test(w) || w === '\n'] on a possibly undefined word. *)
Definition large_chunk_stop (w : option jsstring) : bool :=
  match w with
  | Some w => ends_sentence w || is_break w
  | None => false
  end.

Definition is_quote (c : char) : bool := ((c =? 39) || (c =? 34))%N.

Definition is_sentence_mark (c : char) : bool :=
  ((c =? 46) || (c =? 33) || (c =? 63))%N.

Definition is_phrase_mark (c : char) : bool :=
  (is_sentence_mark c || (c =? 10) || (c =? 44) || (c =? 59) || (c =? 58))%N.

(** A regular expression of the form [/[marks][quote]?$/], where the
    optional quote is an apostrophe or a double quote. *)
Definition ends_with_mark (mark : char -> bool) (w : jsstring) : bool :=
  match rev w with
  | [] => false
  | c :: before =>
      mark c || (is_quote c && match before with
                               | [] => false
                               | c' :: _ => mark c'
                               end)
  end.

(** The word tests of the phrase and sentence scans. *)
Definition unit_stop (mark : char -> bool) (w : option jsstring) : bool :=
  match w with
  | Some w => ends_with_mark mark w || is_break w
  | None => false
  end.

(** [while (lookback > limit) { ... lookback--; }] of [getNextLargeChunk];
    the fuel is [lookback - limit] on entry. *)
Fixpoint lookback_scan (ws : list jsstring) (fuel : nat) (lookback end_ : Z)
  : Z :=
  match fuel with
  | O => end_
  | S fuel' =>
      if large_chunk_stop (at_index ws lookback) then lookback + 1
      else lookback_scan ws fuel' (lookback - 1) end_
  end.

Definition getNextLargeChunk (ws : list jsstring) (startIndex : Z) : Chunk :=
  let len := Z.of_nat (length ws) in
  let end0 := Z.min len (startIndex + 4000) in
  let end_ :=
    if end0 <? len then
      let limit := Z.max startIndex (end0 - 500) in
      lookback_scan ws (Z.to_nat (end0 - limit)) end0 end0
    else end0 in
  {| c_text := join [SPACE] (slice ws startIndex end_);
     c_start := startIndex; c_end := end_ |}.

(** [while (endIdx < words.length) { ... endIdx++; }]; the fuel is
    [words.length - endIdx] on entry. *)
Fixpoint unit_scan (mark : char -> bool) (ws : list jsstring) (fuel : nat)
  (endIdx : Z) : Z :=
  match fuel with
  | O => endIdx
  | S fuel' =>
      if unit_stop mark (at_index ws endIdx) then endIdx
      else unit_scan mark ws fuel' (endIdx + 1)
  end.

Definition unit_chunk (mark : char -> bool) (ws : list jsstring)
  (currentStart : Z) : Chunk :=
  let len := Z.of_nat (length ws) in
  let endIdx := unit_scan mark ws (Z.to_nat (len - currentStart)) currentStart in
  let sliceEnd := Z.min len (endIdx + 1) in
  {| c_text := join [SPACE] (slice ws currentStart sliceEnd);
     c_start := currentStart; c_end := sliceEnd |}.

(** The chunk selection of [enqueueNextChunk].  In word mode the text is
    [words[currentStart]]; when that is [undefined] the later
    [chunk.text.trim()] throws, which is [None] here. *)
Definition next_chunk (rm : RepeatMode) (ws : list jsstring) (currentStart : Z)
  : option Chunk :=
  match rm with
  | repeat_word =>
      match at_index ws currentStart with
      | Some w => Some {| c_text := w; c_start := currentStart;
                          c_end := currentStart + 1 |}
      | None => None
      end
  | repeat_phrase => Some (unit_chunk is_phrase_mark ws currentStart)
  | repeat_sentence => Some (unit_chunk is_sentence_mark ws currentStart)
  | repeat_off => Some (getNextLargeChunk ws currentStart)
  end.

(** [textMain.replace(/[.!?\n,;:]+$/, '')] *)
Fixpoint drop_marks (s : jsstring) : jsstring :=
  match s with
  | [] => []
  | c :: r => if is_phrase_mark c then drop_marks r else s
  end.

Definition strip_trailing_marks (s : jsstring) : jsstring :=
  rev (drop_marks (rev s)).

(** [!chunk.text.trim()] *)
Definition is_blank (s : jsstring) : bool :=
  match trim s with
  | [] => true
  | _ => false
  end.

Definition is_repeating (cfg : Config) : bool :=
  match repeatMode cfg with
  | repeat_off => false
  | _ => true
  end.

Definition make_utterance (cfg : Config) (chunk : Chunk) : Utterance :=
  {| u_chunk := chunk;
     u_firstPart := strip_trailing_marks (c_text chunk);
     u_isRepeating := is_repeating cfg |}.

(** *** The speech queue *)

(** [enqueueNextChunk] calls itself after skipping a blank chunk and after
    queueing an utterance; every such call has either moved the queue
    position forward or added an utterance, which the fuel counts.  [None]
    is a call that does not return normally. *)
Fixpoint enqueue_loop (fuel : nat) (cfg : Config) (r : Reader)
  : option Reader :=
  match fuel with
  | O => None
  | S fuel' =>
      if negb (shouldPlay r) then Some r
      else if (2 <=? length (active r))%nat then Some r
      else if total r <=? queueNext r then Some r
      else
        match next_chunk (repeatMode cfg) (words r) (queueNext r) with
        | None => None
        | Some chunk =>
            if is_blank (c_text chunk) then
              let r' := set_queueNext (c_end chunk) r in
              if c_end chunk <? total r then enqueue_loop fuel' cfg r'
              else Some r'
            else
              enqueue_loop fuel' cfg
                (set_active (active r ++ [make_utterance cfg chunk])
                            (set_queueNext (c_end chunk) r))
        end
  end.

Definition enqueue_fuel (r : Reader) : nat :=
  (Z.to_nat (total r - queueNext r) + 3)%nat.

Definition enqueueNextChunk (cfg : Config) (r : Reader) : option Reader :=
  enqueue_loop (enqueue_fuel r) cfg r.

Definition isVoiceEnabled (cfg : Config) : bool :=
  match mode cfg with
  | spritz => spritzEnabled cfg
  | wheel => wheelEnabled cfg
  | tiktok => tiktokEnabled cfg
  | _ => normalEnabled cfg
  end.

Definition is_wheel (m : ReadingMode) : bool :=
  match m with
  | wheel => true
  | _ => false
  end.

(** [60000 / activeWpm], in milliseconds. *)
Definition tick_delay (cfg : Config) : Q :=
  (inject_Z 60000 / inject_Z (activeWpm cfg))%Q.

(** One firing of the interval callback installed by [speakText]. *)
Definition timer_tick (r : Reader) : Reader :=
  if negb (shouldPlay r) then clear_timer r
  else if total r - 1 <=? currentIndex r then
    clear_timer (set_shouldPlay false (set_isPlaying false r))
  else set_currentIndex (currentIndex r + 1) r.

Definition speakText (cfg : Config) (startIndex : Z) (r : Reader)
  : option Reader :=
  let r1 := set_queueNext startIndex
              (clear_timer (cancel_speech (set_shouldPlay true r))) in
  if negb (isVoiceEnabled cfg) then
    if is_wheel (mode cfg) && wheelContinuousMode cfg then Some r1
    else Some (set_timer (Some (tick_delay cfg)) r1)
  else
    match enqueueNextChunk cfg r1 with
    | Some r2 => enqueueNextChunk cfg r2
    | None => None
    end.

(** *** Callbacks of an utterance *)

(** [(textBefore.match(/ /g) || []).length] *)
Definition count_spaces (s : jsstring) : Z :=
  Z.of_nat (length (filter (fun c => is_space c = true) s)).

(** [u.onboundary] for a word boundary at [event.charIndex]. *)
Definition onboundary (u : Utterance) (charIndex : Z) (r : Reader) : Reader :=
  let firstLen := Z.of_nat (length (u_firstPart u)) in
  let splitPoint := firstLen + 1 in
  let charIndex' :=
    if u_isRepeating u && (splitPoint <=? charIndex)
    then charIndex - splitPoint else charIndex in
  if u_isRepeating u && (firstLen <? charIndex') then r
  else
    let referenceText :=
      if u_isRepeating u then u_firstPart u else c_text (u_chunk u) in
    let textBefore := slice referenceText 0 charIndex' in
    let newIndex := c_start (u_chunk u) + count_spaces textBefore in
    if newIndex =? currentIndex r then r else set_currentIndex newIndex r.

(** [u.onend] for the [k]-th utterance in flight. *)
Definition onend (cfg : Config) (k : nat) (r : Reader) : option Reader :=
  match enqueueNextChunk cfg (set_active (delete k (active r)) r) with
  | Some r' =>
      if (length (active r') =? 0)%nat && (total r' <=? queueNext r')
      then Some (set_shouldPlay false (set_isPlaying false r'))
      else Some r'
  | None => None
  end.

(** [u.onerror] for the [k]-th utterance in flight. *)
Definition onerror (k : nat) (r : Reader) : Reader :=
  set_active (delete k (active r)) r.

(** *** Seeks *)

(** [changePosition(delta)] *)
Definition changePosition (cfg : Config) (delta : Z) (r : Reader)
  : option Reader :=
  let newIndex := Z.max 0 (Z.min (total r - 1) (currentIndex r + delta)) in
  let r' := set_currentIndex newIndex r in
  if isPlaying r then speakText cfg newIndex r' else Some r'.

(** The index chosen by [navigateBySentence(direction)]. *)
Definition navigate_target (ws : list jsstring) (currentIndex : Z)
  (forward : bool) : Z :=
  let range := getSentenceRange ws currentIndex in
  if forward then Z.min (Z.of_nat (length ws) - 1) (r_end range + 1)
  else if r_start range + 2 <? currentIndex then r_start range
  else r_start (getSentenceRange ws (Z.max 0 (r_start range - 2))).

(** [navigateBySentence(direction)]; the restart of the speech, which the
    source defers by 10 ms, is taken at once. *)
Definition navigateBySentence (cfg : Config) (forward : bool) (r : Reader)
  : option Reader :=
  let newIndex := navigate_target (words r) (currentIndex r) forward in
  let r' := set_currentIndex newIndex r in
  if isPlaying r then
    speakText cfg newIndex
      (set_queueNext newIndex (cancel_speech (set_shouldPlay true r')))
  else Some r'.

(** [handleWordClick(index, e)] with the main button and no selection. *)
Definition handleWordClick (cfg : Config) (index : Z) (r : Reader)
  : option Reader :=
  speakText cfg index
    (set_shouldPlay true (set_isPlaying true (set_currentIndex index r))).

(** [togglePlay()].  To pause it calls [window.speechSynthesis.cancel()]
    and leaves [activeUtterancesRef] as it is: the utterances in flight
    stay registered until their callbacks ([onend], [onerror]) or the next
    [speakText] take them out. *)
Definition togglePlay (cfg : Config) (r : Reader) : option Reader :=
  if isPlaying r then
    Some (set_isPlaying false (clear_timer (set_shouldPlay false r)))
  else
    speakText cfg (currentIndex r)
      (set_isPlaying true (set_shouldPlay true r)).

(** *** Events of a reading session *)

Inductive Event :=
| TogglePlay
| ChangePosition (delta : Z)
| NavigateBySentence (forward : bool)
| WordClick (index : Z)
| TimerTick
| SpeechBoundary (k : nat) (charIndex : Z)
| SpeechEnd (k : nat)
| SpeechError (k : nat).

(** One event.  [None] when the event does not occur in the state: a
    click on a word that is not rendered, a tick without a live interval,
    a callback of an utterance that is not registered ([onend] does
    nothing for such an utterance, [onerror] finds nothing to delete, and
    the speech engine sends no word boundary for an utterance that
    [speakText] has cancelled). *)
Definition step (cfg : Config) (r : Reader) (ev : Event) : option Reader :=
  match ev with
  | TogglePlay => togglePlay cfg r
  | ChangePosition delta => changePosition cfg delta r
  | NavigateBySentence forward => navigateBySentence cfg forward r
  | WordClick index =>
      if (0 <=? index) && (index <? total r) then handleWordClick cfg index r
      else None
  | TimerTick =>
      match timer r with
      | Some _ => Some (timer_tick r)
      | None => None
      end
  | SpeechBoundary k charIndex =>
      match active r !! k with
      | Some u => Some (onboundary u charIndex r)
      | None => None
      end
  | SpeechEnd k =>
      match active r !! k with
      | Some _ => onend cfg k r
      | None => None
      end
  | SpeechError k =>
      match active r !! k with
      | Some _ => Some (onerror k r)
      | None => None
      end
  end.

Fixpoint run (cfg : Config) (r : Reader) (evs : list Event) : option Reader :=
  match evs with
  | [] => Some r
  | ev :: evs' =>
      match step cfg r ev with
      | Some r' => run cfg r' evs'
      | None => None
      end
  end.

(** The Reader after the tokenization effect ran for a book. *)
Definition open_book (content : jsstring) (lastPosition : Z) : Reader :=
  {| words := Tokenizer.tokenize content; currentIndex := lastPosition;
     isPlaying := false; shouldPlay := false; timer := None;
     queueNext := 0; active := [] |}.

(** The tokenization effect, [wordsRef.current = tokens]. *)
Definition tokenization_effect (content : jsstring) (r : Reader) : Reader :=
  {| words := Tokenizer.tokenize content; currentIndex := currentIndex r;
     isPlaying := isPlaying r; shouldPlay := shouldPlay r; timer := timer r;
     queueNext := queueNext r; active := active r |}.


(** Auxiliary notions for the proofs. *)

(** The events that can occur in a state. *)
Definition enabled (r : Reader) (ev : Event) : bool :=
  match ev with
  | TogglePlay | ChangePosition _ | NavigateBySentence _ => true
  | WordClick index => (0 <=? index) && (index <? total r)
  | TimerTick => match timer r with Some _ => true | None => false end
  | SpeechBoundary k _ | SpeechEnd k | SpeechError k =>
      match active r !! k with Some _ => true | None => false end
  end.

(** A chunk of the token array [ws]: a non-empty range of tokens whose text
    holds fewer spaces than the range holds tokens. *)
Definition valid_chunk (ws : list jsstring) (c : Chunk) : Prop :=
  0 <= c_start c < c_end c
  /\ c_end c <= Z.of_nat (length ws)
  /\ count_spaces (c_text c) <= c_end c - c_start c - 1.

Definition valid_utterance (ws : list jsstring) (u : Utterance) : Prop :=
  valid_chunk ws (u_chunk u)
  /\ u_firstPart u = strip_trailing_marks (c_text (u_chunk u)).

(** A configuration with the voice of the active mode off, at 300 WPM. *)
Definition silent_config : Config :=
  {| mode := spritz; normalEnabled := true; spritzEnabled := false;
     wheelEnabled := false; tiktokEnabled := false;
     wheelContinuousMode := false; repeatMode := repeat_off;
     activeWpm := 300 |}.


(** A short text of two paragraphs, and a text of 1,000 words. *)
Definition demo_text : jsstring :=
  str "It rained.  We stayed in and read all day!
Then the sun came out.".

Definition demo_tokens : list jsstring := Tokenizer.tokenize demo_text.


(** The invariant of a reading session. *)
Record reader_ok (r : Reader) : Prop := {
  ok_words : Forall Tokenizer.no_space (words r);
  ok_index : 0 <= currentIndex r <= total r - 1;
  ok_queue : 0 <= queueNext r;
  ok_active : Forall (valid_utterance (words r)) (active r)
}.

End Playback.

(* ===================================================================== *)
(** ** Persistence gateway (storage.ts) *)
(* ===================================================================== *)

Module Storage.

(** Values held by the collections and by a parsed backup: the JSON data
    model.  A number is a rational (every finite double is one).  An object
    is a finite map from its own property names to values; a property
    holding [undefined] is an absent property. *)
#[warnings="-register-all"]
Inductive jsval :=
| JNull
| JBool (b : bool)
| JNum (n : Qc)
| JStr (s : string)
| JArr (items : list jsval)
| JObj (props : gmap string jsval).

(** An integral number. *)
Definition JInt (z : Z) : jsval := JNum (Q2Qc (inject_Z z)).

(** [v.name]; [None] is [undefined]. *)
Definition get_prop (v : jsval) (name : string) : option jsval :=
  match v with
  | JObj props => props !! name
  | _ => None
  end.

(** [v.name = x] on a record. *)
Definition set_prop (v : jsval) (name : string) (x : jsval) : jsval :=
  match v with
  | JObj props => JObj (<[name := x]> props)
  | _ => v
  end.

(** JavaScript truthiness. *)
Definition truthy (v : option jsval) : bool :=
  match v with
  | None => false
  | Some JNull => false
  | Some (JBool b) => b
  | Some (JNum n) => negb (bool_decide (n = Q2Qc 0))
  | Some (JStr s) => negb (String.eqb s "")
  | Some (JArr _) => true
  | Some (JObj _) => true
  end.

(** [v && Array.isArray(v)]: the elements of [v], none when the guard
    fails. *)
Definition array_items (v : option jsval) : list jsval :=
  match v with
  | Some (JArr items) => items
  | _ => []
  end.

(** The four object stores of [ZenReadDB].  [books] and [folders] have key
    path [id], [glossary] has key path [word], [settings] has out-of-line
    keys.  The stores are modelled for string keys, the type that the
    interfaces [Book], [Folder] and [GlossaryItem] give to [id] and
    [word]; see [put_in] for records whose key is of another kind. *)
Record Store := {
  books : gmap string jsval;
  folders : gmap string jsval;
  settings : gmap string jsval;
  glossary : gmap string jsval
}.


Definition set_books (m : gmap string jsval) (db : Store) : Store :=
  {| books := m; folders := folders db; settings := settings db;
     glossary := glossary db |}.

Definition set_folders (m : gmap string jsval) (db : Store) : Store :=
  {| books := books db; folders := m; settings := settings db;
     glossary := glossary db |}.

Definition set_settings (m : gmap string jsval) (db : Store) : Store :=
  {| books := books db; folders := folders db; settings := m;
     glossary := glossary db |}.

Definition set_glossary (m : gmap string jsval) (db : Store) : Store :=
  {| books := books db; folders := folders db; settings := settings db;
     glossary := m |}.

(** The string found by evaluating a key path on a record; [None] when
    the key path finds no string. *)
Definition key_at (keyPath : string) (v : jsval) : option string :=
  match get_prop v keyPath with
  | Some (JStr k) => Some k
  | _ => None
  end.

(** [store.put(v)] on a store with in-line keys, for a record with a
    string key. *)
Definition put (keyPath : string) (v : jsval) (m : gmap string jsval)
  : option (gmap string jsval) :=
  match key_at keyPath v with
  | Some k => Some (<[k := v]> m)
  | None => None
  end.

(** Every record sits under the key found at its key path, as the object
    stores guarantee. *)
Definition keyed (keyPath : string) (m : gmap string jsval) : Prop :=
  forall k v, m !! k = Some v -> key_at keyPath v = Some k.

Definition store_wf (db : Store) : Prop :=
  keyed "id" (books db) /\ keyed "id" (folders db) /\ keyed "word" (glossary db).

(** What the gateway takes from the platform: the JSON codec, which gives a
    value back from the text written for it, and the order in which
    [getAll] and [Object.values] list the entries of a collection or of an
    object ([getAll] lists by key, [Object.values] by property order). *)
Class Platform := {
  text : Type;
  JSON_parse : text -> option jsval;       (* [None]: a [SyntaxError] *)
  JSON_stringify : jsval -> text;
  JSON_parse_stringify : forall v, JSON_parse (JSON_stringify v) = Some v;
  getAll : gmap string jsval -> list jsval;
  getAll_values : forall m, getAll m ≡ₚ (map_to_list m).*2;
  Object_values : gmap string jsval -> list jsval;
  Object_values_values : forall m, Object_values m ≡ₚ (map_to_list m).*2
}.

(** *** Batch move (storage.ts:178-215) *)

(** [targetParentId] as a property value. *)
Definition parent_value (targetParentId : option string) : jsval :=
  match targetParentId with
  | Some t => JStr t
  | None => JNull
  end.

(** The success callback of one [bookStore.get(id)].  All the [get]
    requests are placed before any callback runs, so each reads the
    collection as it was when the transaction started. *)
Definition move_book (targetParentId : option string)
  (before : gmap string jsval) (acc : option (gmap string jsval))
  (id : string) : option (gmap string jsval) :=
  match acc with
  | None => None
  | Some m =>
      match before !! id with
      | Some book =>
          if truthy (Some book)
          then put "id" (set_prop book "parentId" (parent_value targetParentId)) m
          else Some m
      | None => Some m
      end
  end.

(** The success callback of one [folderStore.get(id)]. *)
Definition move_folder (targetParentId : option string)
  (before : gmap string jsval) (acc : option (gmap string jsval))
  (id : string) : option (gmap string jsval) :=
  match acc with
  | None => None
  | Some m =>
      match before !! id with
      | Some folder =>
          if truthy (Some folder) then
            if bool_decide (Some id <> targetParentId)
            then put "id" (set_prop folder "parentId"
                                    (parent_value targetParentId)) m
            else Some m
          else Some m
      | None => Some m
      end
  end.

(** [moveItems]; [None] when a callback throws, which aborts the
    transaction and leaves the collections as they were. *)
Definition moveItems (bookIds folderIds : list string)
  (targetParentId : option string) (db : Store) : option Store :=
  match fold_left (move_book targetParentId (books db)) bookIds
                  (Some (books db)),
        fold_left (move_folder targetParentId (folders db)) folderIds
                  (Some (folders db)) with
  | Some bs, Some fs => Some (set_folders fs (set_books bs db))
  | _, _ => None
  end.

(** The parent reference of a folder. *)
Definition parent_of (db : Store) (id : string) : option string :=
  match folders db !! id with
  | Some folder =>
      match get_prop folder "parentId" with
      | Some (JStr p) => Some p
      | _ => None
      end
  | None => None
  end.

(** [a] is an ancestor of [d]: [a] is reached from [d] by following parent
    references at least once. *)
Definition ancestor (db : Store) (a d : string) : Prop :=
  tc (fun x y => parent_of db x = Some y) d a.

Definition acyclic (db : Store) : Prop :=
  forall id, ~ ancestor db id id.

(** *** Backup and restore (storage.ts:308-362) *)

(** What ends a computation of the gateway early.  [SyntaxError],
    [InvalidBackup] and [DataError] are the exceptions of the program.
    [KeyNotString] is none: it marks a [put] of a record whose key is a
    number or an array of keys.  The program stores such a record; the
    model, whose stores are keyed by strings, does not follow it further. *)
Inductive error := SyntaxError | InvalidBackup | DataError | KeyNotString.

(** The values that IndexedDB takes as keys, among the values of the data
    model: numbers, strings, and arrays of such values. *)
Fixpoint valid_key (v : jsval) : bool :=
  match v with
  | JNum _ | JStr _ => true
  | JArr items => forallb valid_key items
  | _ => false
  end.

(** Whether the key path of a store finds a valid key in a record. *)
Definition valid_key_at (keyPath : string) (v : jsval) : bool :=
  match get_prop v keyPath with
  | Some k => valid_key k
  | None => false
  end.

(** A computation inside the gateway: it may throw, and the writes made
    before the throw stay queued in the transaction. *)
Definition tx (A : Type) : Type := Store -> (A + error) * Store.

Definition ret {A} (a : A) : tx A := fun db => (inl a, db).

Definition throw {A} (e : error) : tx A := fun db => (inr e, db).

Definition bind {A B} (m : tx A) (f : A -> tx B) : tx B :=
  fun db =>
    match m db with
    | (inl a, db') => f a db'
    | (inr e, db') => (inr e, db')
    end.

#[local] Notation "m >>- k" := (bind m (fun _ => k))
  (at level 100, right associativity).

Fixpoint forEach {A} (f : A -> tx unit) (l : list A) : tx unit :=
  match l with
  | [] => ret tt
  | x :: rest => f x >>- forEach f rest
  end.

Definition when (b : bool) (m : tx unit) : tx unit :=
  if b then m else ret tt.

(** [store.put(v)] inside a computation of the gateway.  A record in
    which the key path finds no valid key makes [put] throw a [DataError];
    the writes queued before stay queued. *)
Definition put_in (coll : Store -> gmap string jsval)
  (set_coll : gmap string jsval -> Store -> Store)
  (keyPath : string) (v : jsval) : tx unit :=
  fun db =>
    match put keyPath v (coll db) with
    | Some m => (inl tt, set_coll m db)
    | None =>
        if valid_key_at keyPath v then (inr KeyNotString, db)
        else (inr DataError, db)
    end.

(** [store.put(value, key)] on the settings store. *)
Definition put_setting (key : string) (v : jsval) : tx unit :=
  fun db => (inl tt, set_settings (<[key := v]> (settings db)) db).

(** [obj[name] = v] on a plain object ([{}]), given by the finite map of
    its own properties.  For the name [__proto__] the assignment reaches
    the setter that [Object.prototype] has under that name: it changes
    the prototype of the object, or nothing, and creates no own
    property. *)
Definition assign_property (name : string) (v : jsval)
  (obj : gmap string jsval) : gmap string jsval :=
  if bool_decide (name = "__proto__"%string) then obj
  else <[name := v]> obj.

(** [getGlossary]: [glossaryMap[item.word] = item] for every entry, on a
    plain object.  The entries of the collection carry a string at the
    key path.  The result is the finite map of the own properties of
    [glossaryMap], which is what [Object.values] and the spread of it
    read. *)
Definition getGlossary `{Platform} (db : Store) : gmap string jsval :=
  fold_left (fun glossaryMap item =>
               match key_at "word" item with
               | Some w => assign_property w item glossaryMap
               | None => glossaryMap
               end)
            (getAll (glossary db)) ∅.

(** [{ app, voice }] from [getSettings], as [JSON.stringify] sees it. *)
Definition settings_object (db : Store) : jsval :=
  let with_prop name (props : gmap string jsval) :=
    match settings db !! name with
    | Some v => <[name := v]> props
    | None => props
    end in
  JObj (with_prop "app" (with_prop "voice" ∅)).

(** [exportBackup]; [now] is [Date.now()]. *)
Definition exportBackup `{Platform} (now : Z) (db : Store) : text :=
  let backup :=
    JObj (<["version" := JInt 1]>
         (<["timestamp" := JInt now]>
         (<["books" := JArr (getAll (books db))]>
         (<["folders" := JArr (getAll (folders db))]>
         (<["glossary" := JArr (Object_values (getGlossary db))]>
         (<["settings" := settings_object db]> ∅)))))) in
  JSON_stringify backup.

(** The validation of [importBackup]: [!data || !data.version] is false. *)
Definition valid_backup (data : jsval) : bool :=
  truthy (Some data) && truthy (get_prop data "version").

Definition settings_prop (data : jsval) (name : string) : option jsval :=
  match get_prop data "settings" with
  | Some s => get_prop s name
  | None => None
  end.

(** The writes of [importBackup], in one transaction. *)
Definition import_writes (data : jsval) : tx unit :=
  forEach (put_in books set_books "id") (array_items (get_prop data "books")) >>-
  forEach (put_in folders set_folders "id")
          (array_items (get_prop data "folders")) >>-
  forEach (put_in glossary set_glossary "word")
          (array_items (get_prop data "glossary")) >>-
  when (truthy (get_prop data "settings"))
    (when (truthy (settings_prop data "app"))
       (match settings_prop data "app" with
        | Some v => put_setting "app" v
        | None => ret tt
        end) >>-
     when (truthy (settings_prop data "voice"))
       (match settings_prop data "voice" with
        | Some v => put_setting "voice" v
        | None => ret tt
        end)).

Definition importBackup `{Platform} (jsonString : text) : tx unit :=
  match JSON_parse jsonString with
  | None => throw SyntaxError
  | Some data =>
      if valid_backup data then import_writes data
      else throw InvalidBackup
  end.

(** Auxiliary notions for the proofs. *)

(** The effect of putting a list of keyed records, one after the other. *)
Definition upsert_all (keyPath : string) (records : list jsval)
  (m : gmap string jsval) : gmap string jsval :=
  fold_left (fun acc v =>
               match key_at keyPath v with
               | Some k => <[k := v]> acc
               | None => acc
               end)
            records m.

(** The last record of a list that carries the key [k]. *)
Fixpoint last_with_key (keyPath k : string) (records : list jsval)
  : option jsval :=
  match records with
  | [] => None
  | v :: rest =>
      match last_with_key keyPath k rest with
      | Some w => Some w
      | None => if bool_decide (key_at keyPath v = Some k) then Some v else None
      end
  end.

Definition has_key (keyPath : string) (v : jsval) : Prop :=
  is_Some (key_at keyPath v).

(** [if (v) store.put(v, key)] *)
Definition put_if_truthy (key : string) (v : option jsval)
  (m : gmap string jsval) : gmap string jsval :=
  match v with
  | Some x => if truthy v then <[key := x]> m else m
  | None => m
  end.

(** The collections after the writes of a backup whose records all carry
    their keys. *)
Definition imported (data : jsval) (db : Store) : Store :=
  {| books := upsert_all "id" (array_items (get_prop data "books")) (books db);
     folders := upsert_all "id" (array_items (get_prop data "folders"))
                           (folders db);
     settings :=
       if truthy (get_prop data "settings")
       then put_if_truthy "voice" (settings_prop data "voice")
              (put_if_truthy "app" (settings_prop data "app") (settings db))
       else settings db;
     glossary := upsert_all "word" (array_items (get_prop data "glossary"))
                            (glossary db) |}.

(** The folders that [moveItems] rewrites. *)
Definition moved (folderIds : list string) (targetParentId : option string)
  (db : Store) (id : string) : Prop :=
  id ∈ folderIds /\ Some id <> targetParentId /\ is_Some (folders db !! id).

(** Example records with the required fields of the interfaces [Folder],
    [Book] and [GlossaryItem] (src/constants.ts:379-420).  They serve the
    examples only: the gateway itself handles untyped values. *)
Definition folder_record (id name : string) (parentId : option string)
  (createdAt : Z) : jsval :=
  JObj (<["id" := JStr id]>
       (<["name" := JStr name]>
       (<["parentId" := parent_value parentId]>
       (<["createdAt" := JInt createdAt]> ∅)))).

Definition book_record (id title content : string) (parentId : option string)
  (lastPosition totalWords : Z) : jsval :=
  JObj (<["id" := JStr id]>
       (<["title" := JStr title]>
       (<["type" := JStr "txt"]>
       (<["content" := JStr content]>
       (<["parentId" := parent_value parentId]>
       (<["createdAt" := JInt 1690000000000]>
       (<["lastPosition" := JInt lastPosition]>
       (<["lastRead" := JInt 1695000000000]>
       (<["totalWords" := JInt totalWords]> ∅))))))))).

Definition glossary_record (word definition : string) : jsval :=
  JObj (<["word" := JStr word]>
       (<["definition" := JStr definition]>
       (<["createdAt" := JInt 1692000000000]> ∅))).

(** A library with folder [B] inside folder [A], one book in [B] and one
    glossary entry. *)
Definition demo_store : Store :=
  {| books := {["b1" := book_record "b1" "Walden" "I went to the woods."
                                    (Some "B") 3 5]};
     folders := <["A" := folder_record "A" "Essays" None 1]>
                {["B" := folder_record "B" "Thoreau" (Some "A") 2]};
     settings := ∅;
     glossary := {["woods" := glossary_record "woods" "a forest"]} |}.

(** The example library with folder [A] given [B] as its parent. *)
Definition demo_store_after_move : Store :=
  set_folders (<["A" := folder_record "A" "Essays" (Some "B") 1]>
                 (folders demo_store))
              demo_store.

(** A backup that replaces book [b1] and adds folder [C]. *)
Definition demo_backup : jsval :=
  JObj (<["version" := JInt 1]>
       (<["timestamp" := JInt 1700000000000]>
       (<["books" := JArr [book_record "b1" "Walden" "I went to the woods."
                                       None 0 5]]>
       (<["folders" := JArr [folder_record "C" "Poems" None 3]]>
       (<["glossary" := JArr []]> ∅))))).


(** A backup that passes the validation and holds, between a book and a
    folder, a record without an [id]. *)
Definition keyless_backup : jsval :=
  JObj (<["version" := JInt 1]>
       (<["books" := JArr [book_record "b2" "Moby-Dick" "Call me Ishmael."
                                       None 0 3;
                           JObj {["title" := JStr "No id"]}]]>
       (<["folders" := JArr [folder_record "C" "Poems" None 3]]> ∅))).

(** The platform used for the examples: a JSON text is given by the value
    it parses to, or does not parse. *)
#[local] Instance demo_platform : Platform := {|
  text := option jsval;
  JSON_parse := fun t => t;
  JSON_stringify := Some;
  JSON_parse_stringify := fun v => eq_refl;
  getAll := fun m => (map_to_list m).*2;
  getAll_values := fun m => Permutation_refl _;
  Object_values := fun m => (map_to_list m).*2;
  Object_values_values := fun m => Permutation_refl _
|}.

End Storage.

(* ===================================================================== *)
(** ** Persistence gateway: single records and batches (storage.ts:76-304) *)
(* ===================================================================== *)

Module Gateway.

Import Storage.

(** [saveBook], [saveFolder] and [saveGlossaryItem]: one [store.put] in a
    transaction of its own.  A record without a valid key at the key path
    makes [put] throw, the promise rejects and nothing is written. *)
Definition saveBook (book : jsval) : tx unit :=
  put_in books set_books "id" book.

Definition saveFolder (folder : jsval) : tx unit :=
  put_in folders set_folders "id" folder.

Definition saveGlossaryItem (item : jsval) : tx unit :=
  put_in glossary set_glossary "word" item.

(** [getBooks] and [getFolders]: [store.getAll()]. *)
Definition getBooks `{Platform} (db : Store) : list jsval := getAll (books db).

Definition getFolders `{Platform} (db : Store) : list jsval :=
  getAll (folders db).

(** [deleteBook], [deleteFolder] and [deleteGlossaryItem]:
    [store.delete(key)], which succeeds whether or not the key is there. *)
Definition deleteBook (id : string) (db : Store) : Store :=
  set_books (delete id (books db)) db.

Definition deleteFolder (id : string) (db : Store) : Store :=
  set_folders (delete id (folders db)) db.

Definition deleteGlossaryItem (word : string) (db : Store) : Store :=
  set_glossary (delete word (glossary db)) db.

(** [ids.forEach(id => store.delete(id))] *)
Definition delete_all (ids : list string) (m : gmap string jsval)
  : gmap string jsval :=
  fold_left (fun acc id => delete id acc) ids m.

(** [deleteItems]: the listed books, then the listed folders, in one
    transaction. *)
Definition deleteItems (bookIds folderIds : list string) (db : Store)
  : Store :=
  set_folders (delete_all folderIds (folders db))
    (set_books (delete_all bookIds (books db)) db).

(** [saveProgress(id, position)]; [now] is [Date.now()].  A missing book
    is not written and the promise still resolves. *)
Definition saveProgress (now : Z) (id : string) (position : Qc) : tx unit :=
  fun db =>
    match books db !! id with
    | Some book =>
        if truthy (Some book) then
          put_in books set_books "id"
            (set_prop (set_prop book "lastPosition" (JNum position))
                      "lastRead" (JInt now))
            db
        else (inl tt, db)
    | None => (inl tt, db)
    end.

(** [getSettings]: [{ app, voice }], each [undefined] when never saved. *)
Definition getSettings (db : Store) : option jsval * option jsval :=
  (settings db !! "app", settings db !! "voice").

(** [saveSettings(key, value)] *)
Definition saveSettings (key : string) (value : jsval) : tx unit :=
  put_setting key value.

End Gateway.

(* ===================================================================== *)
(** ** Application state (App.tsx: loadData, handleGlossaryUpdate) *)
(* ===================================================================== *)

Module App.

Import Storage Gateway.

(** A [GlossaryItem]: the [word], which the type requires to be a string,
    and the other fields. *)
Record GlossaryItem := {
  gi_word : string;
  gi_fields : gmap string jsval
}.

(** The item as the object that is stored. *)
Definition item_value (item : GlossaryItem) : jsval :=
  JObj (<["word" := JStr (gi_word item)]> (gi_fields item)).

(** The argument [item: GlossaryItem | string] and the [action]. *)
Inductive GlossaryArg := an_item (item : GlossaryItem) | a_word (word : string).

Inductive GlossaryAction := add | remove.

(** [handleGlossaryUpdate]: the glossary held in the state of [App] and
    the store, after the state update and the write have both been
    applied. *)
Definition handleGlossaryUpdate (item : GlossaryArg) (action : GlossaryAction)
  (glossaryState : gmap string jsval) (db : Store)
  : gmap string jsval * Store :=
  match action, item with
  | add, an_item it =>
      (<[gi_word it := item_value it]> glossaryState,
       snd (saveGlossaryItem (item_value it) db))
  | remove, a_word w => (delete w glossaryState, deleteGlossaryItem w db)
  | _, _ => (glossaryState, db)
  end.

(** [a ?? b] *)
Definition nullish (v : option jsval) : bool :=
  match v with
  | None | Some JNull => true
  | _ => false
  end.

Definition coalesce (a b : option jsval) : option jsval :=
  if nullish a then b else a.

(** [{ ...obj, name: v }]; a property given [undefined] counts as absent. *)
Definition with_prop (name : string) (v : option jsval)
  (obj : gmap string jsval) : gmap string jsval :=
  match v with
  | Some x => <[name := x]> obj
  | None => delete name obj
  end.

Definition JDec (n d : Z) : jsval := JNum (Q2Qc (Qmake n (Z.to_pos d))).

(** [DEFAULT_SETTINGS] (constants.ts:21-98) *)
Definition DEFAULT_SETTINGS : gmap string jsval :=
  list_to_map [
    ("theme", JStr "dark"); ("fontFamily", JStr "Inter");
    ("uiScale", JDec 11 10);
    ("libraryLayout", JStr "grid"); ("librarySortField", JStr "lastRead");
    ("librarySortOrder", JStr "desc"); ("libraryCardSize", JStr "small");
    ("spritzWpm", JInt 300); ("spritzFontSize", JInt 32);
    ("showGhostWords", JBool false); ("spritzGhostLayout", JStr "vertical");
    ("spritzGhostOpacity", JDec 5 10);
    ("wheelContinuousMode", JBool false);
    ("tiktokBuildUp", JBool true); ("tiktokNoOverlap", JBool false);
    ("tiktokWordCount", JInt 3); ("tiktokCountMode", JStr "range");
    ("tiktokAlign", JStr "center"); ("tiktokLayout", JStr "row");
    ("tiktokWordsPerLine", JInt 0); ("tiktokShowWholeChunk", JBool false);
    ("tiktokVerticalAlign", JStr "center"); ("tiktokCustomPosition", JNull);
    ("tiktokAllCaps", JBool false);
    ("normalWpm", JInt 200); ("normalFontSize", JInt 18);
    ("normalFontFamily", JStr "Source Code Pro");
    ("normalViewMode", JStr "scroll"); ("normalMaxWidth", JInt 650);
    ("wordsPerPage", JInt 150); ("textAlignment", JStr "justify");
    ("fontWeight", JStr "bold"); ("fontStyle", JStr "normal");
    ("lineHeight", JDec 16 10);
    ("paginatedColumns", JInt 1);
    ("autoScrollDuration", JInt 250); ("autoScrollMode", JStr "continuous");
    ("autoScrollTriggerMargin", JInt 2); ("continuousScrollSpeed", JInt 1);
    ("audioTextDelay", JInt 0); ("highlightScope", JStr "word");
    ("highlightWindowSize", JInt 1);
    ("floatingBarOpacity", JDec 9 10); ("floatingBarScale", JInt 1);
    ("floatingBarBg", JStr "opaque"); ("floatingBarColor", JStr "dark");
    ("floatingBarShowTimeRemaining", JBool true);
    ("floatingBarShowTotalTime", JBool false);
    ("sidebarLanguage", JStr "pt"); ("sidebarFontSize", JInt 14);
    ("sidebarMatchTextStyle", JBool true); ("sidebarCustomColor", JStr "none");
    ("sidebarAlwaysOpen", JBool false);
    ("showGlossaryDefinitions", JBool true);
    ("pauseAudioOnGlossary", JBool true);
    ("resumeFromSentenceStart", JBool true);
    ("sidebarShowAllDefinitions", JBool false)
  ].

(** [DEFAULT_VOICE_SETTINGS] (constants.ts:100-110) *)
Definition DEFAULT_VOICE_SETTINGS : gmap string jsval :=
  list_to_map [
    ("normalEnabled", JBool true); ("spritzEnabled", JBool true);
    ("wheelEnabled", JBool true); ("tiktokEnabled", JBool true);
    ("voiceURI", JNull); ("pitch", JInt 1); ("rate", JInt 2);
    ("favorites",
     JArr [JStr "EmmaMultiLingual";
           JStr "Microsoft Emma Multilingual Online (Natural)"]);
    ("repeatMode", JStr "off")
  ].

(** The application settings computed by [loadData] from [saved.app],
    which is an [AppSettings] object or [undefined]: the defaults, the
    saved properties over them, and the two renamed fields. *)
Definition load_app_settings (saved : option (gmap string jsval))
  : gmap string jsval :=
  match saved with
  | Some savedApp =>
      with_prop "spritzFontSize"
        (coalesce (savedApp !! "spritzFontSize")
           (coalesce (savedApp !! "fontSize")
                     (DEFAULT_SETTINGS !! "spritzFontSize")))
        (with_prop "spritzWpm"
           (coalesce (savedApp !! "spritzWpm")
              (coalesce (savedApp !! "wpm") (DEFAULT_SETTINGS !! "spritzWpm")))
           (savedApp ∪ DEFAULT_SETTINGS))
  | None => DEFAULT_SETTINGS
  end.

(** The voice settings computed by [loadData] from [saved.voice]. *)
Definition load_voice_settings (saved : option (gmap string jsval))
  : gmap string jsval :=
  match saved with
  | Some v =>
      with_prop "spritzEnabled"
        (coalesce (v !! "spritzEnabled")
                  (DEFAULT_VOICE_SETTINGS !! "spritzEnabled"))
        (with_prop "normalEnabled"
           (coalesce (v !! "normalEnabled")
              (coalesce (v !! "enabled")
                        (DEFAULT_VOICE_SETTINGS !! "normalEnabled")))
           (v ∪ DEFAULT_VOICE_SETTINGS))
  | None => DEFAULT_VOICE_SETTINGS
  end.

(** Auxiliary notions for the proofs. *)

(** The shape shared by the two computations of [loadData]. *)
Definition load_with (defaults : gmap string jsval)
  (k1 legacy1 k2 : string) (legacy2 : option string)
  (saved : option (gmap string jsval)) : gmap string jsval :=
  match saved with
  | Some s =>
      with_prop k2
        (coalesce (s !! k2)
           (match legacy2 with
            | Some l => coalesce (s !! l) (defaults !! k2)
            | None => defaults !! k2
            end))
        (with_prop k1
           (coalesce (s !! k1) (coalesce (s !! legacy1) (defaults !! k1)))
           (s ∪ defaults))
  | None => defaults
  end.

(** A glossary entry as the dictionary card saves it, and one for the
    word [__proto__]. *)
Definition demo_item : GlossaryItem :=
  {| gi_word := "pond";
     gi_fields := <["definition" := JStr "a small lake"]>
                  {["createdAt" := JInt 1692000000000]} |}.

Definition proto_item : GlossaryItem :=
  {| gi_word := "__proto__";
     gi_fields := <["definition" := JStr "the prototype of an object"]>
                  {["createdAt" := JInt 1692000000000]} |}.

End App.

(* ===================================================================== *)
(** ** Library view (Library.tsx:489-495) *)
(* ===================================================================== *)

Module Library.

(** [Folder] (src/constants.ts:394-399) *)
Record Folder := {
  f_id : string;
  f_name : string;
  f_parentId : option string;     (* [None] is [null] *)
  f_createdAt : Z
}.

(** [folders.find(f => f.id === id)], where [id] may be [null]: the first
    folder with that id. *)
Definition find_folder (folders : list Folder) (id : option string)
  : option Folder :=
  match id with
  | Some i => find (fun f => bool_decide (f_id f = i)) folders
  | None => None
  end.

(** [while (curr) { crumbs.unshift(curr); curr = folders.find(...); }] of
    [getBreadcrumbs].  The loop has no bound of its own; [None] is a run
    that has not left the loop after [fuel] rounds. *)
Fixpoint breadcrumbs_loop (fuel : nat) (folders : list Folder)
  (curr : option Folder) (crumbs : list Folder) : option (list Folder) :=
  match curr with
  | None => Some crumbs
  | Some c =>
      match fuel with
      | O => None
      | S fuel' =>
          breadcrumbs_loop fuel' folders
            (find_folder folders (f_parentId c)) (c :: crumbs)
      end
  end.

(** The folders listed by [getBreadcrumbs], outermost first. *)
Definition getBreadcrumbs (fuel : nat) (folders : list Folder)
  (currentFolderId : option string) : option (list Folder) :=
  breadcrumbs_loop fuel folders (find_folder folders currentFolderId) [].

(** Auxiliary notions for the proofs. *)

(** [p] is the folder that the loop visits after [c]. *)
Definition parent_step (folders : list Folder) (c p : Folder) : Prop :=
  find_folder folders (f_parentId c) = Some p.

(** Following parent references from [c] leads into a cycle. *)
Definition reaches_cycle (folders : list Folder) (c : Folder) : Prop :=
  exists x, rtc (parent_step folders) c x /\ tc (parent_step folders) x x.

(** The folders visited from [curr], innermost first: each is followed by
    the folder its parent reference finds, and the last one has a parent
    reference that finds nothing. *)
Inductive parent_chain (folders : list Folder)
  : option Folder -> list Folder -> Prop :=
| parent_chain_end : parent_chain folders None []
| parent_chain_step c path :
    parent_chain folders (find_folder folders (f_parentId c)) path ->
    parent_chain folders (Some c) (c :: path).

(** A run of the loop from [c]: the folders visited so far, innermost
    first, each followed by the folder its parent reference finds. *)
Inductive visits (folders : list Folder) : Folder -> list Folder -> Prop :=
| visits_one c : visits folders c [c]
| visits_more c p path :
    parent_step folders c p -> visits folders p path ->
    visits folders c (c :: path).

(** Two folders that name each other as parent, and a folder inside one
    of them. *)
Definition looped_folders : list Folder :=
  [ {| f_id := "A"; f_name := "Essays"; f_parentId := Some "B"%string;
       f_createdAt := 1 |};
    {| f_id := "B"; f_name := "Thoreau"; f_parentId := Some "A"%string;
       f_createdAt := 2 |};
    {| f_id := "C"; f_name := "Drafts"; f_parentId := Some "B"%string;
       f_createdAt := 3 |} ].

(** A folder inside a folder at the top level; the parent reference of
    the third folder names a folder that is not there. *)
Definition nested_folders : list Folder :=
  [ {| f_id := "A"; f_name := "Essays"; f_parentId := None;
       f_createdAt := 1 |};
    {| f_id := "B"; f_name := "Thoreau"; f_parentId := Some "A"%string;
       f_createdAt := 2 |};
    {| f_id := "D"; f_name := "Lost"; f_parentId := Some "gone"%string;
       f_createdAt := 3 |} ].

End Library.

(* ===================================================================== *)
(** ** EPUB import (parser.ts:20-62, 162-278) *)
(* ===================================================================== *)

Module Epub.

Import Tokenizer.

(** What [extractTokensAndAnchors] reads of a DOM node: of an element its
    [id] (empty when it has none), its [tagName] in upper case and its
    child nodes; of a text node its [textContent]; of any other node
    nothing. *)
#[warnings="-register-all"]
Inductive Node :=
| Element (id : jsstring) (upperTagName : jsstring) (childNodes : list Node)
| TextNode (textContent : jsstring)
| OtherNode.

Definition block_tags : list jsstring :=
  map str ["P"; "DIV"; "H1"; "H2"; "H3"; "H4"; "H5"; "H6"; "LI"; "TR";
           "BLOCKQUOTE"; "SECTION"; "ARTICLE"; "HR"]%string.

Definition isBlock (tagName : jsstring) : bool :=
  bool_decide (tagName ∈ block_tags).

Definition isBreak (tagName : jsstring) : bool :=
  bool_decide (tagName = str "BR").

(** [s.replace(/[cls]+/g, by)]: every maximal run of characters of the
    class is replaced by one [by].  The flag records that the previous
    character belonged to a run. *)
Fixpoint replace_runs_from (in_run : bool) (cls : char -> bool) (by_ : char)
  (s : jsstring) : jsstring :=
  match s with
  | [] => []
  | c :: r =>
      if cls c then
        if in_run then replace_runs_from true cls by_ r
        else by_ :: replace_runs_from true cls by_ r
      else c :: replace_runs_from false cls by_ r
  end.

Definition replace_runs (cls : char -> bool) (by_ : char) (s : jsstring)
  : jsstring :=
  replace_runs_from false cls by_ s.

(** [[\n\r\t]] *)
Definition is_line_or_tab (c : char) : bool :=
  ((c =? 10) || (c =? 13) || (c =? 9))%N.

(** [s.split(' ')]: the pieces between the spaces, one piece more than
    there are spaces. *)
Fixpoint split_on_space (s : jsstring) : list jsstring :=
  match s with
  | [] => [[]]
  | c :: r =>
      if is_space c then [] :: split_on_space r
      else match split_on_space r with
           | piece :: pieces => (c :: piece) :: pieces
           | [] => [[c]]
           end
  end.

(** The text branch of [process]: the words of a text node, none when the
    cleaned text is blank. *)
Definition text_tokens (textContent : jsstring) : list jsstring :=
  let clean :=
    replace_runs is_space SPACE (replace_runs is_line_or_tab SPACE textContent) in
  match trim clean with
  | [] => []
  | _ => List.filter nonempty (split_on_space clean)
  end.

(** *** Plain objects used as dictionaries

    [anchors] and [hrefToIndexMap] are plain objects ([{}]) that hold
    numbers.  Such an object is given by the finite map of its own
    properties; what it inherits from [Object.prototype] shows in the two
    operations below. *)

(** The names under which a plain object finds a member of
    [Object.prototype]. *)
Definition object_prototype_names : list jsstring :=
  map str ["constructor"; "__defineGetter__"; "__defineSetter__";
           "hasOwnProperty"; "__lookupGetter__"; "__lookupSetter__";
           "isPrototypeOf"; "propertyIsEnumerable"; "toString"; "valueOf";
           "__proto__"; "toLocaleString"]%string.

(** [obj[key] = n] for a number [n].  Under the name [__proto__] the
    assignment reaches the setter of [Object.prototype], which ignores a
    number: nothing is recorded. *)
Definition assign_index (key : jsstring) (n : nat) (obj : gmap (list N) nat)
  : gmap (list N) nat :=
  if bool_decide (key = str "__proto__") then obj else <[key := n]> obj.

(** What [obj[key]] finds: the number held by an own property, or else,
    under one of the names above, the member of [Object.prototype] of that
    name (a function, or for [__proto__] the prototype itself), which is
    neither a number nor nullish. *)
Inductive Found :=
| Index (n : nat)
| Inherited (name : jsstring).

Definition read_index (obj : gmap (list N) nat) (key : jsstring)
  : option Found :=
  match obj !! key with
  | Some n => Some (Index n)
  | None =>
      if bool_decide (key ∈ object_prototype_names)
      then Some (Inherited key) else None
  end.

(** [process(n)] of [extractTokensAndAnchors], on the tokens pushed so far
    and the anchors recorded so far. *)
Fixpoint process (n : Node) (st : list jsstring * gmap (list N) nat)
  : list jsstring * gmap (list N) nat :=
  match n with
  | Element id tagName childNodes =>
      let anchors1 :=
        if nonempty id then assign_index id (length st.1) st.2 else st.2 in
      let tokens1 := if isBreak tagName then st.1 ++ [[LF]] else st.1 in
      let st2 :=
        (fix children (ns : list Node) (st : list jsstring * gmap (list N) nat) :=
           match ns with
           | [] => st
           | c :: rest => children rest (process c st)
           end) childNodes (tokens1, anchors1) in
      (if isBlock tagName then st2.1 ++ [[LF]] else st2.1, st2.2)
  | TextNode textContent => (st.1 ++ text_tokens textContent, st.2)
  | OtherNode => st
  end.

(** [extractTokensAndAnchors(node, currentTokens)]: the tokens after the
    walk and the anchors. *)
Definition extractTokensAndAnchors (node : Node) (currentTokens : list jsstring)
  : list jsstring * gmap (list N) nat :=
  process node (currentTokens, ∅).

(** What the spine loop reads of a spine item: its [href] ([None] when
    undefined), the result of [decodeURI(item.href)] ([None] when it
    throws), and the body of the document it loads ([None] when nothing
    is loaded, the load fails or the document has no usable body). *)
Record SpineItem := {
  href : option jsstring;
  decodedHref : option jsstring;
  body : option Node
}.

(** [`${item.href}#${id}`] *)
Definition full_href (href : option jsstring) (id : jsstring) : jsstring :=
  default (str "undefined") href ++ str "#" ++ id.

(** The newline forced between spine items: pushed when tokens are there
    already, the last one is not a newline and the chunk does not start
    with one. *)
Definition separator (allTokens chunkTokens : list jsstring)
  : list jsstring :=
  match last allTokens, head chunkTokens with
  | Some t, Some t' => if is_break t || is_break t' then [] else [[LF]]
  | _, _ => []
  end.

(** One round of the loop over the spine items, on [allTokens] and
    [hrefToIndexMap].  The anchors of a chunk are entered under keys that
    differ with the ids, so the order of [Object.keys] does not matter. *)
Definition spine_step (st : list jsstring * gmap (list N) nat)
  (item : SpineItem) : list jsstring * gmap (list N) nat :=
  let chunkStartIndex := length st.1 in
  let map1 :=
    match href item with
    | Some h =>
        if nonempty h then
          let m := assign_index h chunkStartIndex st.2 in
          match decodedHref item with
          | Some d => assign_index d chunkStartIndex m
          | None => m
          end
        else st.2
    | None => st.2
    end in
  match body item with
  | Some b =>
      let chunk := extractTokensAndAnchors b [] in
      let map2 :=
        fold_left (fun m entry =>
                     assign_index (full_href (href item) entry.1)
                                  (chunkStartIndex + entry.2)%nat m)
                  (map_to_list chunk.2) map1 in
      (match chunk.1 with
       | [] => st.1
       | _ => st.1 ++ separator st.1 chunk.1 ++ chunk.1
       end, map2)
  | None => (st.1, map1)
  end.

(** The tokens and the index map after the loop over the spine. *)
Definition spine_tokens (items : list SpineItem)
  : list jsstring * gmap (list N) nat :=
  fold_left spine_step items ([], ∅).

(** An entry of the table of contents as [mapTocItem] reads it: [href],
    the result of [decodeURI(href)] ([None] when it throws), [label] and
    [subitems] (none when undefined). *)
#[warnings="-register-all"]
Inductive TocItem :=
| toc_item (href : jsstring) (decoded : option jsstring) (label : jsstring)
           (subitems : list TocItem).

(** The interface [Chapter] (src/constants.ts:401-405); a chapter
    without [subchapters] has none. *)
#[warnings="-register-all"]
Inductive Chapter :=
| chapter (title : jsstring) (position : Z) (subchapters : list Chapter).

(** A chapter as [mapTocItem] builds it: its [position] is whatever the
    lookup in [hrefToIndexMap] found, a number or not. *)
#[warnings="-register-all"]
Inductive ParsedChapter :=
| parsed_chapter (title : jsstring) (position : Found)
                 (subchapters : list ParsedChapter).

(** [cleanHref.split('#')[0]] *)
Fixpoint before_hash (s : jsstring) : jsstring :=
  match s with
  | [] => []
  | c :: r => if (c =? 35)%N then [] else c :: before_hash r
  end.

(** [a ?? b] on the results of looking up the index map. *)
Definition or_else (a b : option Found) : option Found :=
  match a with
  | Some _ => a
  | None => b
  end.

(** [mapTocItem]; [None] when [decodeURI] throws for the item or for one
    of its sub-items. *)
Fixpoint mapTocItem (hrefToIndexMap : gmap (list N) nat) (item : TocItem)
  : option ParsedChapter :=
  match item with
  | toc_item cleanHref decoded label subitems =>
      match decoded with
      | Some decodedHref =>
          let position :=
            default (Index 0)
              (or_else (read_index hrefToIndexMap cleanHref)
                 (or_else (read_index hrefToIndexMap decodedHref)
                          (read_index hrefToIndexMap
                                      (before_hash cleanHref)))) in
          match
            (fix all (items : list TocItem) : option (list ParsedChapter) :=
               match items with
               | [] => Some []
               | i :: rest =>
                   match mapTocItem hrefToIndexMap i, all rest with
                   | Some c, Some cs => Some (c :: cs)
                   | _, _ => None
                   end
               end) subitems
          with
          | Some subchapters =>
              Some (parsed_chapter (trim label) position subchapters)
          | None => None
          end
      | None => None
      end
  end.

(** [toc.toc.map(mapTocItem)] *)
Fixpoint mapTocItems (hrefToIndexMap : gmap (list N) nat)
  (items : list TocItem) : option (list ParsedChapter) :=
  match items with
  | [] => Some []
  | i :: rest =>
      match mapTocItem hrefToIndexMap i, mapTocItems hrefToIndexMap rest with
      | Some c, Some cs => Some (c :: cs)
      | _, _ => None
      end
  end.

(** What [parseEpub] resolves with for the spine and the table of
    contents: the text rebuilt from the tokens, and the chapters, which
    stay empty when mapping the table of contents throws. *)
Definition epub_text (items : list SpineItem) : jsstring :=
  rejoin (spine_tokens items).1.

Definition epub_chapters (items : list SpineItem) (toc : list TocItem)
  : list ParsedChapter :=
  default [] (mapTocItems (spine_tokens items).2 toc).

(** The parsed chapter as a [Chapter], when its position and those of the
    chapters below it are numbers. *)
Fixpoint as_chapter (c : ParsedChapter) : option Chapter :=
  match c with
  | parsed_chapter title (Index n) subchapters =>
      match
        (fix all (cs : list ParsedChapter) : option (list Chapter) :=
           match cs with
           | [] => Some []
           | c' :: rest =>
               match as_chapter c', all rest with
               | Some x, Some xs => Some (x :: xs)
               | _, _ => None
               end
           end) subchapters
      with
      | Some subs => Some (chapter title (Z.of_nat n) subs)
      | None => None
      end
  | parsed_chapter _ (Inherited _) _ => None
  end.

(** Auxiliary notions for the proofs. *)

(** A token of the walk: a newline, or a non-empty word without space,
    tab, line feed or carriage return. *)
Definition walker_word (w : jsstring) : Prop :=
  w <> [] /\ Forall (fun c => is_space c = false /\ is_line_or_tab c = false) w.

Definition walker_token (t : jsstring) : Prop := t = [LF] \/ walker_word t.

(** A token that the Reader finds again: a newline, or a non-empty word
    without space or newline that neither starts nor ends with white
    space. *)
Definition reader_token (t : jsstring) : Prop :=
  t = [LF] \/ (t <> [] /\ no_space t /\ no_newline t /\ trimmed t).

(** What one call of [process] does to the tokens and the anchors. *)
Definition process_ok (n : Node) : Prop :=
  forall tokens (anchors : gmap (list N) nat),
    exists new,
      (process n (tokens, anchors)).1 = tokens ++ new
      /\ Forall walker_token new
      /\ (forall id pos,
             (process n (tokens, anchors)).2 !! id = Some pos ->
             anchors !! id = Some pos
             \/ (length tokens <= pos <= length (tokens ++ new))%nat)
      /\ (anchors !! str "__proto__" = None ->
          (process n (tokens, anchors)).2 !! str "__proto__" = None).

(** The invariant of the loop over the spine: walker tokens, and no
    index beyond their number. *)
Definition spine_ok (st : list jsstring * gmap (list N) nat) : Prop :=
  Forall walker_token st.1
  /\ map_Forall (fun _ pos => (pos <= length st.1)%nat) st.2.

(** The positions of a parsed chapter and of all the chapters below it. *)
Fixpoint chapter_positions (c : ParsedChapter) : list Found :=
  match c with
  | parsed_chapter _ position subchapters =>
      position :: flat_map chapter_positions subchapters
  end.

(** A position that [mapTocItem] can give for a book of [count] tokens: a
    number up to [count], or a member of [Object.prototype]. *)
Definition position_ok (count : nat) (p : Found) : Prop :=
  match p with
  | Index n => (n <= count)%nat
  | Inherited name => name ∈ object_prototype_names
  end.

(** The keys under which [mapTocItem] looks an entry up, for an entry and
    the entries below it. *)
Fixpoint lookup_keys (item : TocItem) : list jsstring :=
  match item with
  | toc_item cleanHref decoded _ subitems =>
      cleanHref :: default [] ((fun d => [d]) <$> decoded)
      ++ before_hash cleanHref :: flat_map lookup_keys subitems
  end.

(** A book with a paragraph that begins with a no-break space and a
    space, in front of a heading with an anchor. *)
Definition NBSP : char := 160%N.

Definition nbsp_spine : list SpineItem :=
  [ {| href := Some (str "ch1.xhtml");
       decodedHref := Some (str "ch1.xhtml");
       body := Some (Element [] (str "BODY")
                 [ Element [] (str "P") [TextNode (NBSP :: str " Intro")];
                   Element (str "title") (str "H1")
                     [TextNode (str "Title")] ]) |} ].

Definition nbsp_toc : list TocItem :=
  [ toc_item (str "ch1.xhtml#title") (Some (str "ch1.xhtml#title"))
             (str "Title") [] ].

(** A table of contents with an entry whose [href] is [constructor]. *)
Definition constructor_toc : list TocItem :=
  [ toc_item (str "constructor") (Some (str "constructor"))
             (str "Notes") [] ].

(** A book of one spine item, a heading with an anchor and a paragraph,
    and its table of contents. *)
Definition demo_spine : list SpineItem :=
  [ {| href := Some (str "ch1.xhtml");
       decodedHref := Some (str "ch1.xhtml");
       body := Some (Element [] (str "BODY")
                 [ Element (str "start") (str "H1")
                     [TextNode (str "Chapter One")];
                   Element [] (str "P")
                     [TextNode (str "It was a dark night.")] ]) |} ].

Definition demo_toc : list TocItem :=
  [ toc_item (str "ch1.xhtml#start") (Some (str "ch1.xhtml#start"))
             (str " Chapter One ") [] ].

End Epub.

(* ===================================================================== *)
(** ** Plain-text import (parser.ts:83-93) *)
(* ===================================================================== *)

Module Txt.

Import Epub.

Definition CR : char := 13%N.
Definition TAB : char := 9%N.

(** [s.replace(/\r\n/g, '\n')] *)
Fixpoint crlf_to_lf (s : jsstring) : jsstring :=
  match s with
  | [] => []
  | c :: r =>
      match r with
      | c' :: r' =>
          if (c =? CR)%N && (c' =? LF)%N then LF :: crlf_to_lf r'
          else c :: crlf_to_lf r
      | [] => [c]
      end
  end.

(** [s.replace(/x/g, 'y')] for single characters. *)
Definition replace_char (x y : char) (s : jsstring) : jsstring :=
  map (fun c => if (c =? x)%N then y else c) s.

(** The length of what [\s*\n] matches at the start of [r], where [\s*]
    takes as much white space as leaves a newline to end the match; [None]
    when the white space at the start of [r] holds no newline. *)
Fixpoint paragraph_gap (r : jsstring) : option nat :=
  match r with
  | [] => None
  | c :: r' =>
      if is_white_space c then
        match paragraph_gap r' with
        | Some n => Some (S n)
        | None => if is_newline c then Some 1%nat else None
        end
      else None
  end.

Definition PARAGRAPH : jsstring := str "___PARAGRAPH___".

(** [s.replace(/\n\s*\n/g, '___PARAGRAPH___')]; [skip] counts the
    characters still covered by the match just replaced. *)
Fixpoint mark_paragraphs_from (skip : nat) (s : jsstring) : jsstring :=
  match s with
  | [] => []
  | c :: r =>
      match skip with
      | S k => mark_paragraphs_from k r
      | O =>
          if is_newline c then
            match paragraph_gap r with
            | Some n => PARAGRAPH ++ mark_paragraphs_from n r
            | None => c :: mark_paragraphs_from 0 r
            end
          else c :: mark_paragraphs_from 0 r
      end
  end.

Definition mark_paragraphs (s : jsstring) : jsstring :=
  mark_paragraphs_from 0 s.

(** [pat] is a prefix of [s]. *)
Fixpoint starts_with (pat s : jsstring) : bool :=
  match pat, s with
  | [], _ => true
  | p :: pat', c :: s' => (p =? c)%N && starts_with pat' s'
  | _ :: _, [] => false
  end.

(** [s.replace(/pat/g, by)] for a literal, non-empty [pat]: the
    occurrences found from left to right, none overlapping the one
    before. *)
Fixpoint replace_all_from (skip : nat) (pat by_ : jsstring) (s : jsstring)
  : jsstring :=
  match s with
  | [] => []
  | c :: r =>
      match skip with
      | S k => replace_all_from k pat by_ r
      | O =>
          if starts_with pat s
          then by_ ++ replace_all_from (length pat - 1) pat by_ r
          else c :: replace_all_from 0 pat by_ r
      end
  end.

Definition replace_all (pat by_ : jsstring) (s : jsstring) : jsstring :=
  replace_all_from 0 pat by_ s.

(** [[ \t]] *)
Definition is_space_or_tab (c : char) : bool := ((c =? SPACE) || (c =? TAB))%N.

(** The normalization that [parseFile] applies to the text of a file that
    is not an EPUB. *)
Definition normalize_txt (content : jsstring) : jsstring :=
  let content := replace_char CR LF (crlf_to_lf content) in
  let content := mark_paragraphs content in
  let content := replace_char LF SPACE content in
  let content := replace_all PARAGRAPH [LF] content in
  let content := replace_runs is_space_or_tab SPACE content in
  let content := replace_runs is_newline LF content in
  trim content.

(** Auxiliary notions for the proofs. *)

(** [x] is directly followed by [y] somewhere in [s]. *)
Definition adjacent (s : jsstring) (x y : char) : Prop :=
  exists before after, s = before ++ x :: y :: after.

End Txt.

(* ===================================================================== *)
(** ** Auxiliary notions for the speech queue (Reader.tsx:983-1123) *)
(* ===================================================================== *)

Module SpeechQueue.

Import Playback.

(** The chunks in flight are non-empty ranges that come one after the
    other without overlap, and the queue goes on behind the last one. *)
Fixpoint in_order (us : list Utterance) (next : Z) : Prop :=
  match us with
  | [] => True
  | u :: rest =>
      c_start (u_chunk u) < c_end (u_chunk u)
      /\ c_end (u_chunk u) <= match rest with
                              | u' :: _ => c_start (u_chunk u')
                              | [] => next
                              end
      /\ in_order rest next
  end.

Record queue_ok (r : Reader) : Prop := {
  q_size : (length (active r) <= 2)%nat;
  q_order : in_order (active r) (queueNext r);
  q_text : Forall (fun u => is_blank (c_text (u_chunk u)) = false) (active r)
}.

(** What is left of the book for the queue, counting every token twice
    and every utterance in flight once. *)
Definition remaining (r : Reader) : nat :=
  (2 * Z.to_nat (total r - queueNext r) + length (active r))%nat.

(** The offset at which the [k]-th word starts in words joined by single
    spaces: the lengths of the words before it and one space after each. *)
Definition word_offset (ws : list jsstring) (k : nat) : Z :=
  Z.of_nat (list_sum (map (fun w => S (length w)) (take k ws))).

(** A configuration with the voice on in every mode, repeating each
    sentence. *)
Definition voiced_config : Config :=
  {| mode := scroll; normalEnabled := true; spritzEnabled := true;
     wheelEnabled := true; tiktokEnabled := true;
     wheelContinuousMode := false; repeatMode := repeat_sentence;
     activeWpm := 400 |}.

(** The utterance for the first sentence of the example text. *)
Definition demo_utterance : Utterance :=
  make_utterance voiced_config
    {| c_text := join [SPACE] [str "It"; str "rained."];
       c_start := 0; c_end := 2 |}.

End SpeechQueue.

(* ===================================================================== *)
(** ** Table of contents (Reader.tsx:129-138, 452-458, 1912-1990) *)
(* ===================================================================== *)

Module Toc.

Import Epub.

Definition title_of (c : Chapter) : jsstring :=
  match c with chapter title _ _ => title end.

Definition position_of (c : Chapter) : Z :=
  match c with chapter _ position _ => position end.

(** [flattenChapters]: every chapter, followed by the chapters below it. *)
Fixpoint flatten_chapter (c : Chapter) : list Chapter :=
  match c with
  | chapter _ _ subchapters => c :: flat_map flatten_chapter subchapters
  end.

Definition flattenChapters (chapters : list Chapter) : list Chapter :=
  flat_map flatten_chapter chapters.

(** [chapterMap]: [flat.forEach(c => map.set(c.position, c.title))] *)
Definition chapterMap (chapters : list Chapter) : gmap Z jsstring :=
  fold_left (fun m c => <[position_of c := title_of c]> m)
            (flattenChapters chapters) ∅.

Definition MAX_SAFE_INTEGER : Z := 9007199254740991.

(** [items[0]?.position ?? otherwise] *)
Definition first_position (items : list Chapter) (otherwise : Z) : Z :=
  match items with
  | c :: _ => position_of c
  | [] => otherwise
  end.

(** What [renderTocItems] shows of one chapter: the label and the
    indentation level of its button, the position a click goes to, and
    whether the button is marked as the active one. *)
Record TocButton := {
  b_title : jsstring;
  b_position : Z;
  b_depth : nat;
  b_active : bool
}.

(** The button of a chapter followed by the buttons of its subchapters;
    [nextSiblingPos] is [items[idx + 1]?.position ?? parentLimit]. *)
Fixpoint render_chapter (currentIndex : Z) (depth : nat) (c : Chapter)
  (nextSiblingPos : Z) : list TocButton :=
  match c with
  | chapter title position subchapters =>
      let startsBefore := position <=? currentIndex in
      let endsAfter := currentIndex <? nextSiblingPos in
      let isActiveRange := startsBefore && endsAfter in
      let firstChildPos := first_position subchapters MAX_SAFE_INTEGER in
      let hasStartedChild := firstChildPos <=? currentIndex in
      let isActive := isActiveRange && negb hasStartedChild in
      {| b_title := title; b_position := position; b_depth := depth;
         b_active := isActive |}
      :: (fix items (cs : list Chapter) : list TocButton :=
            match cs with
            | [] => []
            | c' :: rest =>
                render_chapter currentIndex (S depth) c'
                  (first_position rest nextSiblingPos)
                ++ items rest
            end) subchapters
  end.

Fixpoint render_items (currentIndex : Z) (depth : nat) (items : list Chapter)
  (parentLimit : Z) : list TocButton :=
  match items with
  | [] => []
  | c :: rest =>
      render_chapter currentIndex depth c (first_position rest parentLimit)
      ++ render_items currentIndex depth rest parentLimit
  end.

(** [renderTocItems(book.chapters)], with the default arguments
    [depth = 0] and [parentLimit = book.totalWords]. *)
Definition renderTocItems (currentIndex totalWords : Z)
  (chapters : list Chapter) : list TocButton :=
  render_items currentIndex 0 chapters totalWords.

(** Auxiliary notions for the proofs. *)

(** A table of contents in reading order between [lo] and [limit]: the
    positions of the chapters of a level do not decrease, and the chapters
    below a chapter lie between its position and that of the next chapter
    of its level (or the limit of the level). *)
Inductive toc_ok : Z -> Z -> list Chapter -> Prop :=
| toc_ok_nil lo limit : toc_ok lo limit []
| toc_ok_cons lo limit title position subchapters rest :
    lo <= position ->
    position <= first_position rest limit ->
    toc_ok position (first_position rest limit) subchapters ->
    toc_ok position limit rest ->
    toc_ok lo limit (chapter title position subchapters :: rest).

Definition inactive (b : TocButton) : Prop := b_active b = false.

(** A book of two parts; the first part has two chapters, one of which
    starts with the part. *)
Definition demo_chapters : list Chapter :=
  [chapter (str "Part One") 0
     [chapter (str "Chapter 1") 0 []; chapter (str "Chapter 2") 40 []];
   chapter (str "Part Two") 100 []].

End Toc.

(* ===================================================================== *)
(** ** The wheel display (Reader.tsx:183-186, 264-311) *)
(* ===================================================================== *)

Module Wheel.

Import Spritz.

(** An entry of [charList]. *)
Record WheelChar := {
  wc_char : char;
  wc_wordIndex : Z;
  wc_isCenter : bool
}.

Definition contextRange : Z := 8.

Definition startIdx (floorIndex : Z) : Z := Z.max 0 (floorIndex - contextRange).

Definition endIdx (words : list jsstring) (floorIndex : Z) : Z :=
  Z.min (Z.of_nat (length words)) (floorIndex + contextRange + 1).

(** One round of the loop that fills [charList]: nothing for a word that
    is [undefined] or empty, else the characters of the word and, except
    behind the last word of the window, a space. *)
Definition word_chars (words : list jsstring) (endIdx i : Z)
  : list WheelChar :=
  match at_index words i with
  | Some (c :: w) =>
      ((fun c' => {| wc_char := c'; wc_wordIndex := i;
                     wc_isCenter := false |}) <$> c :: w)
      ++ (if i <? endIdx - 1
          then [{| wc_char := SPACE; wc_wordIndex := i;
                   wc_isCenter := false |}]
          else [])
  | _ => []
  end.

(** [for (let i = startIdx; i < endIdx; i++) { ... }] *)
Definition charList (words : list jsstring) (floorIndex : Z)
  : list WheelChar :=
  flat_map (word_chars words (endIdx words floorIndex))
           (seqZ (startIdx floorIndex)
                 (endIdx words floorIndex - startIdx floorIndex)).

(** [if (w) activeCharIndex += (w.length + 1)] *)
Definition add_width (words : list jsstring) (activeCharIndex i : Z) : Z :=
  match at_index words i with
  | Some (c :: w) => activeCharIndex + (Z.of_nat (length (c :: w)) + 1)
  | _ => activeCharIndex
  end.

(** [for (let i = startIdx; i < floorIndex; i++) { ... }], then the pivot
    of the current word. *)
Definition activeCharIndex (words : list jsstring) (floorIndex : Z) : Z :=
  fold_left (add_width words)
            (seqZ (startIdx floorIndex) (floorIndex - startIdx floorIndex)) 0
  + getPivot (at_index words floorIndex).

(** [words[floorIndex]?.length || 0] *)
Definition curLen (words : list jsstring) (floorIndex : Z) : Z :=
  match at_index words floorIndex with
  | Some w => Z.of_nat (length w)
  | None => 0
  end.

(** [(curLen + 1) + nextPivot - curPivot] *)
Definition stepDist (words : list jsstring) (floorIndex : Z) : Z :=
  (curLen words floorIndex + 1)
  + getPivot (at_index words (floorIndex + 1))
  - getPivot (at_index words floorIndex).

End Wheel.

(* ===================================================================== *)
(** ** The rendered window (Reader.tsx:598-604, 644-667) *)
(* ===================================================================== *)

Module Window.

Import Playback.

Local Open Scope Q_scope.

Definition Qlt_bool (x y : Q) : bool := negb (Qle_bool y x).

(** [visualIndex]; a delay that is [0] or not set is falsy. *)
Definition visualIndex (isPlaying : bool) (audioTextDelay : option Q)
  (activeWpm : Q) (currentIndex : Q) (len : Z) : Q :=
  match audioTextDelay with
  | None => currentIndex
  | Some delay =>
      if negb isPlaying || Qeq_bool delay 0 then currentIndex
      else
        let offsetWords := (delay / 60000) * activeWpm in
        let newIdx := currentIndex + offsetWords in
        Qmin (inject_Z len - 1) newIdx
  end.

Definition WINDOW_SIZE : Q := 2500.
Definition BUFFER : Q := 500.

Definition is_scroll (m : ReadingMode) : bool :=
  match m with
  | scroll => true
  | _ => false
  end.

(** The effect that moves the window of the scroll view after the visual
    index; the result is the next value of [normalWindowStart]. *)
Definition window_effect (mode : ReadingMode) (pageView : bool)
  (browserWindowStart : option Q) (visualIndex normalWindowStart : Q) : Q :=
  if negb (is_scroll mode) || pageView then normalWindowStart
  else
    match browserWindowStart with
    | Some _ => normalWindowStart
    | None =>
        if Qle_bool (normalWindowStart + WINDOW_SIZE - BUFFER) visualIndex
        then Qmax 0 (visualIndex - 200)
        else if Qlt_bool visualIndex (normalWindowStart + 100)
                && Qlt_bool 0 normalWindowStart
        then Qmax 0 (visualIndex - WINDOW_SIZE + 200)
        else normalWindowStart
    end.

(** [paginatedWindow]: [{ start, end }]. *)
Definition paginatedWindow (mode : ReadingMode) (len : Z) (visualIndex : Q)
  : Q * Q :=
  match mode with
  | paginated =>
      (Qmax 0 (visualIndex - 500), Qmin (inject_Z len) (visualIndex + 3000))
  | _ => (0, 0)
  end.

End Window.

(* ===================================================================== *)
(** * Facts about the tokenizer *)
(* ===================================================================== *)

Module TokenizerFacts.

Import Tokenizer.

Example tokenize_two_paragraphs :
  tokenize (str "  the  cat
sat. ") = [str "the"; str "cat"; [LF]; str "sat."].
Proof. reflexivity. Qed.

Example tokenize_blank_line :
  tokenize (str "a

 b") = [str "a"; [LF]; [LF]; str "b"].
Proof. reflexivity. Qed.

Example tokenize_empty : tokenize [] = [].
Proof. reflexivity. Qed.

Example rejoin_two_paragraphs :
  rejoin (tokenize (str "  the  cat
sat. ")) = str "the cat
sat.".
Proof. reflexivity. Qed.

Lemma push_words_filter tokens ws :
  push_words tokens ws = tokens ++ List.filter nonempty ws.
Proof.
  unfold push_words. revert tokens.
  induction ws as [|w ws IH]; intros tokens; simpl.
  - by rewrite app_nil_r.
  - rewrite IH. unfold nonempty. destruct (0 <? length w)%nat; [|done].
    by rewrite <- app_assoc.
Qed.

Lemma push_segment_tokens tokens seg :
  push_segment tokens seg = tokens ++ segment_tokens seg.
Proof.
  unfold push_segment, segment_tokens.
  destruct (is_break seg); [done|]. apply push_words_filter.
Qed.

Lemma fold_push_segment segs tokens :
  fold_left push_segment segs tokens = tokens ++ flat_map segment_tokens segs.
Proof.
  revert tokens. induction segs as [|seg segs IH]; intros tokens; simpl.
  - by rewrite app_nil_r.
  - rewrite IH, push_segment_tokens. by rewrite <- app_assoc.
Qed.

Lemma tokenize_flat_map content :
  tokenize content = flat_map segment_tokens (split_newlines content).
Proof. unfold tokenize. by rewrite fold_push_segment. Qed.

Lemma count_words_length count ws :
  count_words count ws = (count + length (List.filter nonempty ws))%nat.
Proof.
  unfold count_words. revert count.
  induction ws as [|w ws IH]; intros count; simpl; [lia|].
  rewrite IH. unfold nonempty. destruct (0 <? length w)%nat; simpl; lia.
Qed.

Lemma count_segment_length count seg :
  count_segment count seg = (count + length (segment_tokens seg))%nat.
Proof.
  unfold count_segment, segment_tokens.
  destruct (is_break seg); simpl; [lia|]. apply count_words_length.
Qed.

Lemma fold_count_segment segs count :
  fold_left count_segment segs count
  = (count + length (flat_map segment_tokens segs))%nat.
Proof.
  revert count. induction segs as [|seg segs IH]; intros count; simpl; [lia|].
  rewrite IH, count_segment_length, length_app. lia.
Qed.

(** ** Shape of the segments *)

Lemma is_newline_LF c : is_newline c = true -> c = LF.
Proof. unfold is_newline. intros H. by apply N.eqb_eq in H. Qed.

Lemma is_space_SPACE c : is_space c = true -> c = SPACE.
Proof. unfold is_space. intros H. by apply N.eqb_eq in H. Qed.

Lemma split_newlines_segments s : segments (split_newlines s).
Proof.
  induction s as [|c r IH]; simpl.
  - constructor. constructor.
  - destruct (is_newline c) eqn:Hc.
    + constructor; [constructor | done].
    + inversion IH as [seg Hseg Heq | seg rest Hseg Hrest Heq];
        constructor; try done; by constructor.
Qed.

Lemma no_newline_not_break seg : no_newline seg -> is_break seg = false.
Proof.
  intros H. destruct seg as [|c [|c' r]]; try done.
  simpl. by inversion H.
Qed.

Lemma split_newlines_no_newline seg :
  no_newline seg -> split_newlines seg = [seg].
Proof.
  induction 1 as [|c r Hc Hr IH]; simpl; [done|].
  by rewrite Hc, IH.
Qed.

Lemma split_newlines_app seg s :
  no_newline seg ->
  split_newlines (seg ++ LF :: s) = seg :: [LF] :: split_newlines s.
Proof.
  induction 1 as [|c r Hc Hr IH]; simpl; [done|].
  by rewrite Hc, IH.
Qed.

Lemma concat_split_newlines s : concat (split_newlines s) = s.
Proof.
  induction s as [|c r IH]; simpl; [done|].
  destruct (is_newline c) eqn:Hc.
  - simpl. rewrite IH. by rewrite (is_newline_LF c Hc).
  - destruct (split_newlines r) as [|seg segs]; simpl in *; by rewrite <- IH.
Qed.

(** ** Trimming *)

Lemma trimStart_sublist s : sublist (trimStart s) s.
Proof.
  induction s as [|c r IH]; simpl; [done|].
  destruct (is_white_space c); [by apply sublist_cons | done].
Qed.

Lemma trimEnd_sublist s : sublist (trimEnd s) s.
Proof.
  induction s as [|c r IH]; simpl; [done|].
  destruct (trimEnd r) as [|k ks] eqn:Hk.
  - destruct (is_white_space c).
    + apply sublist_nil_l.
    + apply sublist_skip. apply sublist_nil_l.
  - by apply sublist_skip.
Qed.

Lemma trim_sublist s : sublist (trim s) s.
Proof.
  unfold trim. etrans; [apply trimEnd_sublist | apply trimStart_sublist].
Qed.

Lemma trimStart_head s : edge_ok (head (trimStart s)).
Proof.
  induction s as [|c r IH]; simpl; [done|].
  destruct (is_white_space c) eqn:Hc; [done | by simpl].
Qed.

Lemma trimEnd_last s : edge_ok (last (trimEnd s)).
Proof.
  induction s as [|c r IH]; simpl; [done|].
  destruct (trimEnd r) as [|k ks] eqn:Hk.
  - destruct (is_white_space c) eqn:Hc; [done | by simpl].
  - by rewrite last_cons_cons.
Qed.

Lemma trimEnd_head s : edge_ok (head s) -> edge_ok (head (trimEnd s)).
Proof.
  destruct s as [|c r]; simpl; [done|]. intros Hc.
  destruct (trimEnd r); [by rewrite Hc | done].
Qed.

Lemma trim_trimmed s : trimmed (trim s).
Proof.
  split; [apply trimEnd_head, trimStart_head | apply trimEnd_last].
Qed.

Lemma trimStart_id s : edge_ok (head s) -> trimStart s = s.
Proof. destruct s as [|c r]; simpl; [done|]. by intros ->. Qed.

Lemma trimEnd_id s : edge_ok (last s) -> trimEnd s = s.
Proof.
  induction s as [|c r IH]; simpl; [done|].
  destruct r as [|c' r'].
  - simpl. by intros ->.
  - rewrite last_cons_cons. intros H. by rewrite (IH H).
Qed.

Lemma trim_id s : trimmed s -> trim s = s.
Proof.
  intros [Hh Hl]. unfold trim. rewrite (trimStart_id s Hh). by apply trimEnd_id.
Qed.

Lemma no_newline_sublist s t : sublist s t -> no_newline t -> no_newline s.
Proof.
  unfold no_newline. rewrite !Forall_forall. intros Hs Ht c Hc.
  apply Ht. by eapply sublist_subseteq.
Qed.

(** ** Splitting at runs of spaces *)

Lemma split_spaces_from_cons b s :
  exists piece pieces, split_spaces_from b s = piece :: pieces.
Proof.
  revert b. induction s as [|c r IH]; intros b; simpl; [by eauto|].
  destruct (is_space c).
  - destruct b; [apply IH | by eauto].
  - destruct (IH false) as (p & ps & ->). by eauto.
Qed.

Lemma split_spaces_from_no_space b s :
  Forall no_space (split_spaces_from b s).
Proof.
  revert b. induction s as [|c r IH]; intros b; simpl.
  - repeat constructor.
  - destruct (is_space c) eqn:Hc.
    + destruct b; [apply IH | constructor; [constructor | apply IH]].
    + specialize (IH false).
      destruct (split_spaces_from false r) as [|p ps].
      * repeat constructor. done.
      * inversion IH; subst. constructor; [by constructor | done].
Qed.

Lemma split_spaces_from_subset b s c :
  Exists (fun w => c ∈ w) (split_spaces_from b s) -> c ∈ s.
Proof.
  revert b. induction s as [|a r IH]; intros b; simpl.
  - intros H. inversion H as [? ? H1 | ? ? H1]; subst; [by inversion H1 | by inversion H1].
  - destruct (is_space a).
    + destruct b.
      * intros H. right. by eapply IH.
      * intros H. inversion H as [? ? H1 | ? ? H1]; subst; [by inversion H1|].
        right. by eapply IH.
    + specialize (IH false).
      destruct (split_spaces_from false r) as [|p ps].
      * intros H. inversion H as [? ? H1 | ? ? H1]; subst; [|by inversion H1].
        apply list_elem_of_singleton in H1 as ->. by left.
      * intros H. inversion H as [? ? H1 | ? ? H1]; subst.
        -- apply elem_of_cons in H1 as [-> | H1]; [by left|].
           right. apply IH. by left.
        -- right. apply IH. by right.
Qed.

(** Collapsing runs of spaces does not change the pieces. *)
Lemma split_spaces_from_collapse b s :
  split_spaces_from b (collapse_spaces s) = split_spaces_from b s.
Proof.
  revert b. induction s as [|c r IH]; intros b; [done|].
  simpl. destruct (is_space c) eqn:Hc; simpl.
  - destruct r as [|c' r'].
    + simpl. by rewrite Hc.
    + destruct (is_space c') eqn:Hc'.
      * rewrite IH. simpl. rewrite Hc'. by destruct b.
      * cbn [split_spaces_from]. rewrite Hc. by rewrite IH.
  - rewrite Hc. by rewrite IH.
Qed.

Lemma join_cons sep w ws : join sep (w :: ws) = w ++ match ws with [] => [] | _ => sep ++ join sep ws end.
Proof. destruct ws; simpl; [by rewrite app_nil_r | done]. Qed.

Lemma join_space_cons w ws : join [SPACE] (w :: ws) = w ++ space_join ws.
Proof. rewrite join_cons. by destruct ws. Qed.

(** The collapsed text read off the pieces: with [split_spaces_from false]
    the first piece is a prefix, with [split_spaces_from true] the text is
    taken with one space in front. *)
Lemma collapse_spaces_pieces s :
  last s <> Some SPACE ->
  (forall piece pieces,
      split_spaces_from false s = piece :: pieces ->
      collapse_spaces s = piece ++ space_join (List.filter nonempty pieces))
  /\ (s <> [] ->
      collapse_spaces (SPACE :: s)
      = space_join (List.filter nonempty (split_spaces_from true s))).
Proof.
  induction s as [|c r IH]; intros Hlast.
  - split; [|done]. simpl. by intros ? ? [= <- <-].
  - assert (Hr : r <> [] -> last r <> Some SPACE).
    { intros Hne. destruct r; [done|]. by rewrite last_cons_cons in Hlast. }
    destruct (is_space c) eqn:Hc.
    + assert (c = SPACE) as -> by by apply is_space_SPACE.
      assert (Hne : r <> []) by (by intros ->).
      destruct (IH (Hr Hne)) as [_ IH2]. specialize (IH2 Hne).
      split.
      * intros piece pieces. simpl. intros [= <- <-]. simpl. apply IH2.
      * intros _. change (collapse_spaces (SPACE :: SPACE :: r))
          with (collapse_spaces (SPACE :: r)). rewrite IH2. done.
    + destruct (split_spaces_from_cons false r) as (p & ps & Hsplit).
      assert (Hcol : collapse_spaces r = p ++ space_join (List.filter nonempty ps)).
      { destruct r as [|c' r'].
        - simpl in Hsplit. by injection Hsplit as <- <-.
        - destruct (IH (Hr ltac:(done))) as [IH1 _]. by apply IH1. }
      split.
      * intros piece pieces. simpl. rewrite Hc, Hsplit. intros [= <- <-].
        by rewrite Hcol.
      * intros _. simpl. rewrite Hc, Hsplit.
        change (List.filter nonempty ((c :: p) :: ps))
          with ((c :: p) :: List.filter nonempty ps).
        unfold space_join at 1. rewrite join_space_cons. by rewrite Hcol.
Qed.

Lemma trimmed_last_not_space s : trimmed s -> last s <> Some SPACE.
Proof. intros [_ H] Hl. rewrite Hl in H. done. Qed.

Lemma not_white_space_not_space c : is_white_space c = false -> is_space c = false.
Proof.
  intros H. unfold is_space. destruct (c =? SPACE)%N eqn:E; [|done].
  apply N.eqb_eq in E. subst c. by vm_compute in H.
Qed.

(** The words of a trimmed segment, joined by single spaces, are the
    segment with its runs of spaces collapsed. *)
Lemma join_words_collapse s :
  trimmed s ->
  join [SPACE] (List.filter nonempty (split_spaces s)) = collapse_spaces s.
Proof.
  intros Ht. destruct s as [|c r]; [done|].
  assert (Hc : is_space c = false).
  { apply not_white_space_not_space. by destruct Ht as [Hh _]. }
  destruct (collapse_spaces_pieces (c :: r) (trimmed_last_not_space _ Ht))
    as [H1 _].
  destruct (split_spaces_from_cons false (c :: r)) as (p & ps & Hsplit).
  rewrite (H1 _ _ Hsplit). unfold split_spaces. rewrite Hsplit.
  assert (Hp : nonempty p = true).
  { simpl in Hsplit. rewrite Hc in Hsplit.
    by destruct (split_spaces_from false r); injection Hsplit as <- <-. }
  change (List.filter nonempty (p :: ps))
    with (if nonempty p then p :: List.filter nonempty ps
          else List.filter nonempty ps).
  rewrite Hp. apply join_space_cons.
Qed.

(** ** Words and break tokens *)

Lemma words_no_newline seg :
  no_newline seg ->
  Forall no_newline (List.filter nonempty (split_spaces (trim seg))).
Proof.
  intros Hseg. apply Forall_forall. intros w Hw.
  apply list_elem_of_In, filter_In in Hw as [Hw _].
  unfold no_newline. apply Forall_forall. intros c Hc.
  assert (Hin : c ∈ trim seg).
  { apply (split_spaces_from_subset false). apply Exists_exists.
    exists w. split; [by apply list_elem_of_In | done]. }
  pose proof (no_newline_sublist _ _ (trim_sublist seg) Hseg) as Ht.
  unfold no_newline in Ht. rewrite Forall_forall in Ht. by apply Ht.
Qed.

Lemma rejoin_words ws rest :
  Forall no_newline ws ->
  match rest with [] => True | t :: _ => is_break t = true end ->
  rejoin (ws ++ rest) = join [SPACE] ws ++ rejoin rest.
Proof.
  intros Hws Hrest. induction Hws as [|w ws Hw Hws IH]; [done|].
  rewrite join_space_cons, <- app_assoc. cbn [app rejoin].
  rewrite (no_newline_not_break w Hw), IH. f_equal.
  destruct ws as [|w' ws'].
  - simpl. destruct rest as [|t rest']; [done|]. by rewrite Hrest.
  - inversion Hws; subst.
    cbn [app]. by rewrite (no_newline_not_break w') by done.
Qed.

Lemma rejoin_segment seg rest :
  no_newline seg ->
  match rest with [] => True | t :: _ => is_break t = true end ->
  rejoin (segment_tokens seg ++ rest) = normalize_segment seg ++ rejoin rest.
Proof.
  intros Hseg Hrest. unfold segment_tokens, normalize_segment.
  rewrite (no_newline_not_break seg Hseg).
  rewrite rejoin_words; [| by apply words_no_newline | done].
  by rewrite join_words_collapse by apply trim_trimmed.
Qed.

Lemma rejoin_segments segs :
  segments segs ->
  rejoin (flat_map segment_tokens segs) = concat (map normalize_segment segs).
Proof.
  induction 1 as [seg Hseg | seg rest Hseg Hrest IH].
  - simpl. rewrite rejoin_segment by done. done.
  - cbn [flat_map map concat].
    rewrite rejoin_segment; [|done|done].
    by rewrite <- IH.
Qed.

(** ** The normal form tokenizes like the text *)

Lemma collapse_spaces_sublist s : sublist (collapse_spaces s) s.
Proof.
  induction s as [|c r IH]; [done|]. simpl.
  destruct (is_space c && _); [by apply sublist_cons | by apply sublist_skip].
Qed.

Lemma collapse_spaces_head s :
  edge_ok (head s) -> edge_ok (head (collapse_spaces s)).
Proof.
  destruct s as [|c r]; [done|]. simpl. intros Hc.
  by rewrite (not_white_space_not_space c Hc).
Qed.

Lemma collapse_spaces_last s : last (collapse_spaces s) = last s.
Proof.
  induction s as [|c r IH]; [done|].
  destruct r as [|c' r'].
  - simpl. by rewrite andb_false_r.
  - change (collapse_spaces (c :: c' :: r'))
      with (if is_space c && is_space c' then collapse_spaces (c' :: r')
            else c :: collapse_spaces (c' :: r')).
    destruct (is_space c && is_space c').
    + by rewrite IH, last_cons_cons.
    + by rewrite !(last_cons c), IH.
Qed.

Lemma collapse_spaces_trimmed s : trimmed s -> trimmed (collapse_spaces s).
Proof.
  intros [Hh Hl]. split; [by apply collapse_spaces_head|].
  by rewrite collapse_spaces_last.
Qed.

Lemma normalize_segment_no_newline seg :
  no_newline seg -> no_newline (normalize_segment seg).
Proof.
  intros Hseg. unfold normalize_segment.
  rewrite (no_newline_not_break seg Hseg).
  eapply no_newline_sublist; [|exact Hseg].
  etrans; [apply collapse_spaces_sublist | apply trim_sublist].
Qed.

Lemma segment_tokens_normalize seg :
  no_newline seg ->
  segment_tokens (normalize_segment seg) = segment_tokens seg.
Proof.
  intros Hseg. unfold segment_tokens.
  rewrite (no_newline_not_break _ (normalize_segment_no_newline seg Hseg)).
  rewrite (no_newline_not_break seg Hseg).
  unfold normalize_segment. rewrite (no_newline_not_break seg Hseg).
  rewrite trim_id by apply collapse_spaces_trimmed, trim_trimmed.
  unfold split_spaces. by rewrite split_spaces_from_collapse.
Qed.

Lemma split_newlines_normalize segs :
  segments segs ->
  split_newlines (concat (map normalize_segment segs))
  = map normalize_segment segs.
Proof.
  induction 1 as [seg Hseg | seg rest Hseg Hrest IH].
  - simpl. rewrite app_nil_r.
    by apply split_newlines_no_newline, normalize_segment_no_newline.
  - cbn [map concat]. change (normalize_segment [LF]) with [LF].
    cbn [app]. rewrite split_newlines_app by by apply normalize_segment_no_newline.
    by rewrite IH.
Qed.

Lemma segment_tokens_normalize_all segs :
  segments segs ->
  flat_map segment_tokens (map normalize_segment segs)
  = flat_map segment_tokens segs.
Proof.
  induction 1 as [seg Hseg | seg rest Hseg Hrest IH].
  - simpl. by rewrite segment_tokens_normalize.
  - cbn [map flat_map]. rewrite segment_tokens_normalize by done.
    by rewrite IH.
Qed.

Lemma rejoin_tokenize text :
  rejoin (tokenize text) = normalize_whitespace text.
Proof.
  rewrite tokenize_flat_map. apply rejoin_segments, split_newlines_segments.
Qed.

Lemma tokenize_normalize text :
  tokenize (normalize_whitespace text) = tokenize text.
Proof.
  rewrite !tokenize_flat_map. unfold normalize_whitespace.
  rewrite split_newlines_normalize by apply split_newlines_segments.
  apply segment_tokens_normalize_all, split_newlines_segments.
Qed.

Lemma normalize_whitespace_idempotent text :
  normalize_whitespace (normalize_whitespace text) = normalize_whitespace text.
Proof.
  rewrite <- (rejoin_tokenize (normalize_whitespace text)).
  by rewrite tokenize_normalize, rejoin_tokenize.
Qed.

(** ** Joining with a space between all tokens *)

Lemma join_app sep ws1 ws2 :
  join sep (ws1 ++ ws2)
  = join sep ws1
    ++ match ws1, ws2 with
       | _ :: _, _ :: _ => sep
       | _, _ => []
       end
    ++ join sep ws2.
Proof.
  induction ws1 as [|w ws1 IH]; [by destruct ws2|].
  destruct ws1 as [|w' ws1'].
  - destruct ws2 as [|v ws2']; simpl; [by rewrite !app_nil_r | done].
  - change (join sep ((w :: w' :: ws1') ++ ws2))
      with (w ++ sep ++ join sep ((w' :: ws1') ++ ws2)).
    rewrite IH. change (join sep (w :: w' :: ws1'))
      with (w ++ sep ++ join sep (w' :: ws1')).
    by rewrite <- !app_assoc.
Qed.

Lemma trimEnd_app_space s : trimEnd (s ++ [SPACE]) = trimEnd s.
Proof. induction s as [|c r IH]; [done|]. simpl. by rewrite IH. Qed.

Lemma trim_app_space s : trimmed s -> trim (s ++ [SPACE]) = s.
Proof.
  intros Ht. destruct s as [|c r]; [done|].
  unfold trim. rewrite trimStart_id by (destruct Ht as [Hh _]; exact Hh).
  rewrite trimEnd_app_space. by apply trimEnd_id, Ht.
Qed.

Lemma trim_cons_space s : trim (SPACE :: s) = trim s.
Proof. done. Qed.

Lemma collapse_spaces_idempotent s :
  trimmed s -> collapse_spaces (collapse_spaces s) = collapse_spaces s.
Proof.
  intros Ht.
  rewrite <- (join_words_collapse (collapse_spaces s))
    by by apply collapse_spaces_trimmed.
  unfold split_spaces. rewrite split_spaces_from_collapse.
  by apply join_words_collapse.
Qed.

(** The words of a segment, joined and followed or preceded by a space,
    normalize to the joined words. *)
Lemma normalize_segment_words seg front back :
  no_newline seg ->
  normalize_segment
    ((if front : bool then [SPACE] else [])
     ++ normalize_segment seg
     ++ (if back : bool then [SPACE] else []))
  = normalize_segment seg.
Proof.
  intros Hseg. unfold normalize_segment at 2 3.
  rewrite (no_newline_not_break seg Hseg).
  set (y := collapse_spaces (trim seg)).
  assert (Hy : trimmed y) by apply collapse_spaces_trimmed, trim_trimmed.
  assert (Hcol : collapse_spaces y = y)
    by apply collapse_spaces_idempotent, trim_trimmed.
  assert (Hnl : no_newline y).
  { pose proof (normalize_segment_no_newline seg Hseg) as H.
    unfold normalize_segment in H. by rewrite (no_newline_not_break seg Hseg) in H. }
  assert (Hback : trim (y ++ (if back then [SPACE] else [])) = y).
  { destruct back; [by apply trim_app_space|].
    rewrite app_nil_r. by apply trim_id. }
  unfold normalize_segment.
  assert (Hbreak : is_break ((if front then [SPACE] else [])
                             ++ y ++ (if back then [SPACE] else [])) = false).
  { apply no_newline_not_break. unfold no_newline.
    rewrite !Forall_app.
    repeat split; [destruct front | done | destruct back]; by repeat constructor. }
  rewrite Hbreak. destruct front.
  - cbn [app]. rewrite trim_cons_space, Hback. done.
  - cbn [app]. by rewrite Hback.
Qed.

Lemma normalize_whitespace_cons_space s :
  normalize_whitespace (SPACE :: s) = normalize_whitespace s.
Proof.
  unfold normalize_whitespace. cbn [split_newlines].
  change (is_newline SPACE) with false. cbv iota.
  pose proof (split_newlines_segments s) as Hsegs.
  destruct Hsegs as [seg Hseg | seg rest Hseg Hrest]; cbn [map concat];
    f_equal; unfold normalize_segment;
    rewrite (no_newline_not_break seg Hseg);
    (rewrite (no_newline_not_break (SPACE :: seg)) by by constructor);
    done.
Qed.

Lemma normalize_whitespace_app seg s :
  no_newline seg ->
  normalize_whitespace (seg ++ LF :: s)
  = normalize_segment seg ++ LF :: normalize_whitespace s.
Proof.
  intros Hseg. unfold normalize_whitespace.
  by rewrite split_newlines_app.
Qed.

Lemma normalize_whitespace_no_newline seg :
  no_newline seg -> normalize_whitespace seg = normalize_segment seg.
Proof.
  intros Hseg. unfold normalize_whitespace.
  rewrite split_newlines_no_newline by done. simpl. apply app_nil_r.
Qed.

Lemma join_words_normalize seg :
  no_newline seg ->
  join [SPACE] (segment_tokens seg) = normalize_segment seg.
Proof.
  intros Hseg. unfold segment_tokens, normalize_segment.
  rewrite (no_newline_not_break seg Hseg).
  apply join_words_collapse, trim_trimmed.
Qed.

Lemma join_segments segs :
  segments segs ->
  normalize_whitespace (join [SPACE] (flat_map segment_tokens segs))
  = concat (map normalize_segment segs).
Proof.
  induction 1 as [seg Hseg | seg rest Hseg Hrest IH].
  - simpl. rewrite !app_nil_r, join_words_normalize by done.
    rewrite normalize_whitespace_no_newline
      by by apply normalize_segment_no_newline.
    pose proof (normalize_segment_words seg false false Hseg) as H.
    cbn [app] in H. by rewrite app_nil_r in H.
  - cbn [flat_map map concat].
    change (segment_tokens [LF]) with [[LF]].
    change (normalize_segment [LF]) with [LF].
    set (T := flat_map segment_tokens rest) in *.
    rewrite join_app, join_words_normalize by done.
    change ([[LF]] ++ T) with ([LF] :: T). rewrite join_space_cons.
    assert (Hshape :
      normalize_segment seg
      ++ match segment_tokens seg, [LF] :: T with
         | _ :: _, _ :: _ => [SPACE]
         | _, _ => []
         end ++ [LF] ++ space_join T
      = (normalize_segment seg
         ++ (if match segment_tokens seg with [] => false | _ => true end
             then [SPACE] else []))
        ++ LF :: space_join T).
    { rewrite <- app_assoc. by destruct (segment_tokens seg). }
    rewrite Hshape, normalize_whitespace_app.
    + pose proof (normalize_segment_words seg false
        (match segment_tokens seg with [] => false | _ => true end) Hseg) as Hn.
      cbn [app] in Hn. rewrite Hn.
      f_equal. f_equal. rewrite <- IH.
      unfold space_join. destruct T; [done|].
      apply normalize_whitespace_cons_space.
    + unfold no_newline. rewrite Forall_app. split.
      * by apply normalize_segment_no_newline.
      * by destruct (match segment_tokens seg with [] => false | _ => true end);
          repeat constructor.
Qed.

Lemma join_tokenize text :
  normalize_whitespace (join [SPACE] (tokenize text))
  = normalize_whitespace text.
Proof.
  rewrite tokenize_flat_map. apply join_segments, split_newlines_segments.
Qed.

Lemma tokenize_join text :
  tokenize (join [SPACE] (tokenize text)) = tokenize text.
Proof.
  rewrite <- (tokenize_normalize (join _ _)), join_tokenize.
  apply tokenize_normalize.
Qed.

(** ** What a token looks like *)

Lemma segment_tokens_no_space seg : Forall no_space (segment_tokens seg).
Proof.
  unfold segment_tokens. destruct (is_break seg).
  - by repeat constructor.
  - apply Forall_forall. intros w Hw.
    apply list_elem_of_In, filter_In in Hw as [Hw _].
    pose proof (split_spaces_from_no_space false (trim seg)) as H.
    rewrite Forall_forall in H. by apply H, list_elem_of_In.
Qed.

Lemma tokenize_no_space text : Forall no_space (tokenize text).
Proof.
  rewrite tokenize_flat_map.
  induction (split_newlines text) as [|seg segs IH]; simpl; [constructor|].
  apply Forall_app. split; [apply segment_tokens_no_space | done].
Qed.

Lemma segment_tokens_nonempty seg :
  Forall (fun w => w <> []) (segment_tokens seg).
Proof.
  unfold segment_tokens. destruct (is_break seg).
  - by repeat constructor.
  - apply Forall_forall. intros w Hw.
    apply list_elem_of_In, filter_In in Hw as [_ Hw]. by intros ->.
Qed.

Lemma tokenize_nonempty text : Forall (fun w => w <> []) (tokenize text).
Proof.
  rewrite tokenize_flat_map.
  induction (split_newlines text) as [|seg segs IH]; simpl; [constructor|].
  apply Forall_app. split; [apply segment_tokens_nonempty | done].
Qed.

(** The importer's token counter and the Reader's tokenizer agree on every
    text. *)
Lemma countTokens_length_tokenize (text : jsstring) :
  countTokens text = length (tokenize text).
Proof.
  unfold countTokens. rewrite fold_count_segment, tokenize_flat_map. lia.
Qed.

(** ** The normal form of the specification and the tokenizer's pieces *)

Lemma lines_of_nonempty text acc : lines_of text acc <> [].
Proof.
  revert acc. induction text as [|c r IH]; intros acc; simpl; [done|].
  destruct (c =? 10)%N; [done | apply IH].
Qed.

Lemma lines_of_acc text acc :
  lines_of text acc
  = match lines text with
    | l :: ls => (rev acc ++ l) :: ls
    | [] => []
    end.
Proof.
  unfold lines. revert acc. induction text as [|c r IH]; intros acc; simpl.
  - by rewrite app_nil_r.
  - destruct (c =? 10)%N; simpl.
    + by rewrite app_nil_r.
    + rewrite (IH (c :: acc)), (IH [c]).
      destruct (lines_of r []) as [|l ls]; [done|].
      simpl. by rewrite <- app_assoc.
Qed.

Lemma lines_nil : lines [] = [[]].
Proof. reflexivity. Qed.

Lemma lines_cons c r :
  lines (c :: r)
  = if (c =? 10)%N then [] :: lines r
    else match lines r with
         | l :: ls => (c :: l) :: ls
         | [] => []
         end.
Proof.
  unfold lines at 1. simpl. destruct (c =? 10)%N; [done|].
  rewrite lines_of_acc. by destruct (lines r).
Qed.

Lemma unlines_cons l ls :
  unlines (l :: ls) = l ++ concat (map (fun x => 10%N :: x) ls).
Proof.
  revert l. induction ls as [|l' ls IH]; intros l.
  - simpl. by rewrite app_nil_r.
  - change (unlines (l :: l' :: ls)) with (l ++ 10%N :: unlines (l' :: ls)).
    by rewrite IH.
Qed.

Lemma unlines_lines text : unlines (lines text) = text.
Proof.
  induction text as [|c r IH]; [done|].
  rewrite lines_cons. destruct (c =? 10)%N eqn:Hc.
  - apply N.eqb_eq in Hc. subst c.
    pose proof (lines_of_nonempty r []) as Hne. fold (lines r) in Hne.
    destruct (lines r) as [|l ls]; [done|].
    change (unlines ([] :: l :: ls)) with (10%N :: unlines (l :: ls)).
    by rewrite IH.
  - pose proof (lines_of_nonempty r []) as Hne. fold (lines r) in Hne.
    destruct (lines r) as [|l ls]; [done|].
    rewrite unlines_cons in *. simpl. by rewrite IH.
Qed.

(** The lines of a text are the tokenizer's segments without the break
    segments. *)
Lemma lines_split_newlines text :
  exists l ls segs,
    lines text = l :: ls
    /\ split_newlines text = l :: segs
    /\ no_newline l
    /\ forall f : jsstring -> jsstring,
        (forall x, no_newline x -> f x = normalize_segment x) ->
        concat (map normalize_segment segs)
        = concat (map (fun x => 10%N :: f x) ls).
Proof.
  induction text as [|c r (l & ls & segs & Hl & Hs & Hn & Hf)].
  - exists [], [], []. split; [done|]. split; [done|].
    split; [constructor | done].
  - rewrite lines_cons. simpl. rewrite Hl, Hs.
    unfold is_newline, LF.
    destruct (c =? 10)%N eqn:Hc.
    + exists [], (l :: ls), ([10%N] :: l :: segs).
      split; [done|]. split; [done|]. split; [constructor|].
      intros f Hfn. simpl. rewrite (Hf f Hfn), (Hfn l Hn). done.
    + exists (c :: l), ls, segs.
      split; [done|]. split; [done|]. split; [|done].
      constructor; [exact Hc | exact Hn].
Qed.

Lemma drop_white_space_trimStart s : drop_white_space s = trimStart s.
Proof.
  induction s as [|c r IH]; simpl; [done|].
  by destruct (is_white_space c).
Qed.

Lemma trimEnd_snoc s c :
  trimEnd (s ++ [c]) = if is_white_space c then trimEnd s else s ++ [c].
Proof.
  induction s as [|a s IH]; simpl.
  - by destruct (is_white_space c).
  - rewrite IH. destruct (is_white_space c); [done|].
    by destruct s.
Qed.

Lemma drop_white_space_trimEnd s :
  rev (drop_white_space (rev s)) = trimEnd s.
Proof.
  induction s as [|c s IH] using rev_ind; [done|].
  rewrite rev_app_distr, trimEnd_snoc. simpl.
  destruct (is_white_space c); [done|].
  simpl. by rewrite rev_involutive.
Qed.

Lemma strip_trim s : strip s = trim s.
Proof.
  unfold strip, trim.
  by rewrite drop_white_space_trimEnd, drop_white_space_trimStart.
Qed.

Lemma collapse_spaces_space s :
  collapse_spaces (SPACE :: SPACE :: s) = collapse_spaces (SPACE :: s).
Proof. reflexivity. Qed.

Lemma collapse_spaces_other c s :
  is_space c = false -> collapse_spaces (c :: s) = c :: collapse_spaces s.
Proof. intros H. simpl. by rewrite H. Qed.

Lemma collapse_spaces_space_other c s :
  is_space c = false ->
  collapse_spaces (SPACE :: c :: s) = SPACE :: collapse_spaces (c :: s).
Proof. intros H. cbn [collapse_spaces]. by rewrite H, andb_false_r. Qed.

Lemma squeeze_collapse_spaces s :
  squeeze false s = collapse_spaces s
  /\ collapse_spaces (SPACE :: s) = SPACE :: squeeze true s.
Proof.
  induction s as [|c r [IH1 IH2]]; [done|].
  cbn [squeeze].
  destruct (c =? 32)%N eqn:Hc.
  - apply N.eqb_eq in Hc. subst c. change 32%N with SPACE.
    split; [done|]. by rewrite collapse_spaces_space.
  - split.
    + by rewrite collapse_spaces_other, IH1.
    + by rewrite collapse_spaces_space_other, collapse_spaces_other, IH1.
Qed.

(** The normal form written after the specification is the text that the
    tokenizer's own pieces give. *)
Lemma normal_form_normalize_whitespace text :
  normal_form text = normalize_whitespace text.
Proof.
  unfold normal_form, normalize_whitespace.
  destruct (lines_split_newlines text) as (l & ls & segs & Hl & Hs & Hn & Hf).
  rewrite Hl, Hs. cbn [map concat]. rewrite unlines_cons, map_map.
  assert (Hfn : forall x, no_newline x ->
             squeeze false (strip x) = normalize_segment x).
  { intros x Hx. unfold normalize_segment.
    rewrite (no_newline_not_break x Hx), strip_trim.
    apply squeeze_collapse_spaces. }
  by rewrite (Hf _ Hfn), (Hfn l Hn).
Qed.

Lemma visible_app s t : visible (s ++ t) = visible s ++ visible t.
Proof. unfold visible. apply List.filter_app. Qed.

Lemma visible_cons c s :
  visible (c :: s) = if is_white_space c then visible s else c :: visible s.
Proof. unfold visible. simpl. by destruct (is_white_space c). Qed.

Lemma visible_rev s : visible (rev s) = rev (visible s).
Proof.
  induction s as [|c s IH]; [done|].
  cbn [rev]. rewrite visible_app, IH, !visible_cons.
  destruct (is_white_space c); [by rewrite app_nil_r | done].
Qed.

Lemma visible_drop_white_space s : visible (drop_white_space s) = visible s.
Proof.
  induction s as [|c s IH]; [done|].
  cbn [drop_white_space]. destruct (is_white_space c) eqn:Hc; [|done].
  by rewrite IH, visible_cons, Hc.
Qed.

Lemma visible_strip s : visible (strip s) = visible s.
Proof.
  unfold strip.
  rewrite visible_rev, visible_drop_white_space, visible_rev, rev_involutive.
  apply visible_drop_white_space.
Qed.

Lemma visible_squeeze b s : visible (squeeze b s) = visible s.
Proof.
  revert b. induction s as [|c s IH]; intros b; [done|].
  cbn [squeeze]. destruct (c =? 32)%N eqn:Hc.
  - apply N.eqb_eq in Hc. subst c.
    rewrite (visible_cons 32%N s). change (is_white_space 32%N) with true.
    destruct b; [apply IH|]. rewrite visible_cons.
    change (is_white_space 32%N) with true. apply IH.
  - rewrite !visible_cons, IH. done.
Qed.

Lemma visible_unlines ls : visible (unlines ls) = concat (map visible ls).
Proof.
  destruct ls as [|l ls]; [done|].
  rewrite unlines_cons, visible_app. cbn [map concat]. f_equal.
  induction ls as [|l' ls IH]; [done|].
  cbn [map concat]. rewrite visible_app, IH. done.
Qed.

(** Normalizing moves no character that is not white space. *)
Lemma visible_normal_form text : visible (normal_form text) = visible text.
Proof.
  unfold normal_form. rewrite visible_unlines, map_map.
  rewrite <- (unlines_lines text) at 2. rewrite visible_unlines.
  f_equal. apply map_ext. intros l.
  by rewrite visible_squeeze, visible_strip.
Qed.

(** C3: tokenization is a function of the text alone: whatever the Reader
    held before, the effect leaves the same token array, of the same
    length.  Joining the tokens with single spaces, break tokens written as
    newlines, gives the normal form of the original text: its lines, each
    without the white space at its two ends and without the spaces that
    follow a space, put together with the same newlines.  The rejoined
    text has the characters of the original that are not white space, in
    their order, and tokenizes to the same tokens again; two texts of the
    same normal form have the same tokens.  With a space put between all
    tokens, break tokens included ([tokens.join(' ')]), the text obtained
    has the normal form of the original and tokenizes to the same tokens. *)
Theorem C3_tokenize_stable_and_rejoin_normalizes (text : jsstring) :
  (forall r1 r2 : Playback.Reader,
      Playback.words (Playback.tokenization_effect text r1)
      = Playback.words (Playback.tokenization_effect text r2)
      /\ Playback.words (Playback.tokenization_effect text r1) = tokenize text
      /\ length (Playback.words (Playback.tokenization_effect text r1))
         = length (tokenize text))
  /\ rejoin (tokenize text) = normal_form text
  /\ visible (rejoin (tokenize text)) = visible text
  /\ tokenize (rejoin (tokenize text)) = tokenize text
  /\ (forall text', normal_form text' = normal_form text ->
                    tokenize text' = tokenize text)
  /\ normal_form (join [SPACE] (tokenize text)) = normal_form text
  /\ tokenize (join [SPACE] (tokenize text)) = tokenize text.
Proof.
  split; [done|].
  split; [by rewrite rejoin_tokenize, normal_form_normalize_whitespace|].
  split.
  { rewrite rejoin_tokenize, <- normal_form_normalize_whitespace.
    apply visible_normal_form. }
  split; [rewrite rejoin_tokenize; apply tokenize_normalize|].
  split.
  { intros text' H. rewrite !normal_form_normalize_whitespace in H.
    by rewrite <- (tokenize_normalize text'), H, tokenize_normalize. }
  split; [| apply tokenize_join].
  rewrite !normal_form_normalize_whitespace. apply join_tokenize.
Qed.

End TokenizerFacts.

(* ===================================================================== *)
(** * Facts about sentence ranges *)
(* ===================================================================== *)

Module SentenceFacts.

Import Sentence.

Example range_in_example_text :
  getSentenceRange Playback.demo_tokens 7 = {| r_start := 2; r_end := 8 |}.
Proof. reflexivity. Qed.

Example range_of_break_token :
  getSentenceRange Playback.demo_tokens 9 = {| r_start := 9; r_end := 9 |}.
Proof. reflexivity. Qed.

Lemma at_index_negative {A} (l : list A) i : i < 0 -> at_index l i = None.
Proof. unfold at_index. intros H. by rewrite (proj2 (Z.ltb_lt _ _) H). Qed.

Lemma at_index_beyond {A} (l : list A) i :
  Z.of_nat (length l) <= i -> at_index l i = None.
Proof.
  unfold at_index. intros H. destruct (i <? 0); [done|].
  apply lookup_ge_None. lia.
Qed.

Lemma at_index_in_range {A} (l : list A) i :
  0 <= i < Z.of_nat (length l) -> is_Some (at_index l i).
Proof.
  unfold at_index. intros H. rewrite (proj2 (Z.ltb_ge _ _)) by lia.
  apply lookup_lt_is_Some. lia.
Qed.

Lemma scan_start_spec words i fuel cur :
  cur <= i ->
  fuel = Z.to_nat cur ->
  (forall j, cur <= j < i -> is_boundary (at_index words j) = false) ->
  sentence_start words i (scan_start words fuel cur).
Proof.
  revert cur. induction fuel as [|fuel IH]; intros cur Hle Hfuel Hnone; simpl.
  - repeat split; [done | left; lia | done].
  - destruct (is_boundary (at_index words (cur - 1))) eqn:Hb.
    + repeat split; [done | by right | done].
    + apply IH; [lia | lia |].
      intros j Hj. destruct (decide (j = cur - 1)) as [->|]; [done|].
      apply Hnone. lia.
Qed.

Lemma scan_end_spec words i fuel cur :
  i <= cur <= Z.max i (Z.of_nat (length words) - 1) ->
  fuel = Z.to_nat (Z.of_nat (length words) - 1 - cur) ->
  (forall j, i <= j < cur -> is_boundary (at_index words j) = false) ->
  sentence_end words i (scan_end words fuel cur).
Proof.
  revert cur. induction fuel as [|fuel IH]; intros cur Hle Hfuel Hnone; simpl.
  - repeat split; [lia | lia | left; lia | done].
  - destruct (is_boundary (at_index words cur)) eqn:Hb.
    + repeat split; [lia | lia | by right | done].
    + apply IH; [lia | lia |].
      intros j Hj. destruct (decide (j = cur)) as [->|]; [done|].
      apply Hnone. lia.
Qed.

Lemma getSentenceRange_start words i :
  sentence_start words i (r_start (getSentenceRange words i)).
Proof. simpl. apply scan_start_spec; [lia | done | intros; lia]. Qed.

Lemma getSentenceRange_end words i :
  sentence_end words i (r_end (getSentenceRange words i)).
Proof. simpl. apply scan_end_spec; [lia | done | intros; lia]. Qed.

Lemma sentence_start_unique words i s s' :
  sentence_start words i s -> sentence_start words i s' -> s = s'.
Proof.
  assert (Hlt : forall a b, sentence_start words i a ->
                            sentence_start words i b -> ~ a < b).
  { intros a b (Ha1 & Ha2 & Ha3) (Hb1 & Hb2 & Hb3) Hab.
    assert (Hnb : is_boundary (at_index words (b - 1)) = false)
      by (apply Ha3; lia).
    destruct Hb2 as [Hb2 | Hb2]; [|congruence].
    rewrite at_index_negative in Hnb by lia. done. }
  intros Hs Hs'. pose proof (Hlt _ _ Hs Hs'). pose proof (Hlt _ _ Hs' Hs). lia.
Qed.

Lemma sentence_end_unique words i e e' :
  sentence_end words i e -> sentence_end words i e' -> e = e'.
Proof.
  assert (Hlt : forall a b, sentence_end words i a ->
                            sentence_end words i b -> ~ a < b).
  { intros a b (Ha1 & Ha2 & Ha3) (Hb1 & Hb2 & Hb3) Hab.
    assert (Hnb : is_boundary (at_index words a) = false)
      by (apply Hb3; lia).
    destruct Ha2 as [Ha2 | Ha2]; [lia | congruence]. }
  intros He He'. pose proof (Hlt _ _ He He'). pose proof (Hlt _ _ He' He). lia.
Qed.

(** The range is the same from every position inside it, as long as the
    position asked for is not the one just past the last token. *)
Lemma getSentenceRange_inside words i k :
  i <> Z.of_nat (length words) ->
  r_start (getSentenceRange words i) <= k <= r_end (getSentenceRange words i) ->
  getSentenceRange words k = getSentenceRange words i.
Proof.
  intros Hi Hk.
  pose proof (getSentenceRange_start words i) as Hs.
  pose proof (getSentenceRange_end words i) as He.
  pose proof (getSentenceRange_start words k) as Hsk.
  pose proof (getSentenceRange_end words k) as Hek.
  destruct (getSentenceRange words i) as [s e].
  destruct (getSentenceRange words k) as [s' e']. simpl in *.
  destruct Hs as (Hs1 & Hs2 & Hs3). destruct He as (He1 & He2 & He3).
  assert (Hpast : Z.of_nat (length words) < i -> s = i).
  { intros Hgt. destruct (decide (s = i)) as [|Hne]; [done|].
    assert (Hnb : is_boundary (at_index words (i - 1)) = false)
      by (apply Hs3; lia).
    rewrite at_index_beyond in Hnb by lia. done. }
  f_equal.
  - apply (sentence_start_unique words k); [done|].
    repeat split; [lia | done |].
    intros j Hj. destruct (decide (j < i)); [apply Hs3 | apply He3]; lia.
  - apply (sentence_end_unique words k); [done|].
    repeat split; [lia | lia | done |].
    intros j Hj. destruct (decide (j < i)); [apply Hs3 | apply He3]; lia.
Qed.

End SentenceFacts.

(* ===================================================================== *)
(** * Facts about the playback synchronizer *)
(* ===================================================================== *)

Module PlaybackFacts.

Import Tokenizer Sentence Playback TokenizerFacts SentenceFacts.

(** ** Slices and joins *)

Lemma slice_length {A} (l : list A) a b :
  0 <= a <= b -> b <= Z.of_nat (length l) ->
  Z.of_nat (length (slice l a b)) = b - a.
Proof.
  intros Ha Hb. unfold slice, rel_index.
  rewrite !(proj2 (Z.ltb_ge _ _)) by lia.
  rewrite length_take, length_drop. lia.
Qed.

Lemma slice_sublist {A} (l : list A) a b : sublist (slice l a b) l.
Proof. unfold slice. etrans; [apply sublist_take | apply sublist_drop]. Qed.

Lemma slice_prefix {A} (l : list A) n : exists m, slice l 0 n = take m l.
Proof.
  unfold slice, rel_index. change (0 <? 0) with false. cbv iota.
  replace (Z.to_nat (Z.min 0 (Z.of_nat (length l)))) with 0%nat by lia.
  rewrite drop_0. eauto.
Qed.

Lemma count_spaces_app s t : count_spaces (s ++ t) = count_spaces s + count_spaces t.
Proof. unfold count_spaces. rewrite filter_app, length_app. lia. Qed.

Lemma count_spaces_nonneg s : 0 <= count_spaces s.
Proof. unfold count_spaces. lia. Qed.

Lemma count_spaces_no_space w : no_space w -> count_spaces w = 0.
Proof.
  unfold count_spaces. induction 1 as [|c r Hc Hr IH]; [done|].
  rewrite filter_cons. destruct (decide (is_space c = true)); [congruence | done].
Qed.

Lemma count_spaces_take n s : count_spaces (take n s) <= count_spaces s.
Proof.
  rewrite <- (take_drop n s) at 2. rewrite count_spaces_app.
  pose proof (count_spaces_nonneg (drop n s)). lia.
Qed.

Lemma count_spaces_join ws :
  Forall no_space ws ->
  count_spaces (join [SPACE] ws) = Z.max 0 (Z.of_nat (length ws) - 1).
Proof.
  induction 1 as [|w ws Hw Hws IH]; [done|].
  rewrite join_space_cons, count_spaces_app, (count_spaces_no_space w Hw).
  destruct ws as [|w' ws']; [done|].
  unfold space_join. change (SPACE :: ?x) with ([SPACE] ++ x).
  rewrite count_spaces_app, IH. cbn [length]. 
  change (count_spaces [SPACE]) with 1. lia.
Qed.

Lemma strip_trailing_marks_prefix s : exists n, strip_trailing_marks s = take n s.
Proof.
  unfold strip_trailing_marks.
  assert (H : forall t, exists k, drop_marks t = drop k t).
  { induction t as [|c r [k IH]]; simpl; [by exists 0%nat|].
    destruct (is_phrase_mark c); [by exists (S k) | by exists 0%nat]. }
  destruct (H (rev s)) as [k ->].
  exists (length s - k)%nat. by rewrite skipn_rev, rev_involutive.
Qed.

(** ** Chunks *)

Lemma no_space_slice ws a b :
  Forall no_space ws -> Forall no_space (slice ws a b).
Proof.
  intros H. rewrite Forall_forall in *. intros w Hw. apply H.
  eapply sublist_subseteq; [apply slice_sublist | done].
Qed.

Lemma slice_chunk_valid ws a b :
  Forall no_space ws ->
  0 <= a < b -> b <= Z.of_nat (length ws) ->
  valid_chunk ws {| c_text := join [SPACE] (slice ws a b);
                    c_start := a; c_end := b |}.
Proof.
  intros Hws Ha Hb. repeat split; simpl; try lia.
  rewrite count_spaces_join by by apply no_space_slice.
  rewrite slice_length by lia. lia.
Qed.

Lemma unit_scan_bounds mark ws fuel idx :
  idx <= unit_scan mark ws fuel idx <= idx + Z.of_nat fuel.
Proof.
  revert idx. induction fuel as [|fuel IH]; intros idx; simpl; [lia|].
  destruct (unit_stop mark (at_index ws idx)); [lia|].
  specialize (IH (idx + 1)). lia.
Qed.

Lemma lookback_scan_bounds ws fuel lookback end_ :
  lookback_scan ws fuel lookback end_ = end_
  \/ lookback - Z.of_nat fuel + 2 <= lookback_scan ws fuel lookback end_
     <= lookback + 1.
Proof.
  revert lookback. induction fuel as [|fuel IH]; intros lookback; simpl;
    [by left|].
  destruct (large_chunk_stop (at_index ws lookback)); [right; lia|].
  destruct (IH (lookback - 1)) as [->|H]; [by left | right; lia].
Qed.

Lemma getNextLargeChunk_valid ws start :
  Forall no_space ws ->
  0 <= start < Z.of_nat (length ws) ->
  valid_chunk ws (getNextLargeChunk ws start).
Proof.
  intros Hws Hstart. unfold getNextLargeChunk.
  set (len := Z.of_nat (length ws)) in *.
  set (end0 := Z.min len (start + 4000)).
  destruct (end0 <? len) eqn:Hlt.
  - apply Z.ltb_lt in Hlt.
    set (limit := Z.max start (end0 - 500)).
    destruct (lookback_scan_bounds ws (Z.to_nat (end0 - limit)) end0 end0)
      as [-> | H].
    + apply slice_chunk_valid; [done | lia | lia].
    + apply slice_chunk_valid; [done | lia | lia].
  - apply slice_chunk_valid; [done | lia | lia].
Qed.

Lemma unit_chunk_valid mark ws start :
  Forall no_space ws ->
  0 <= start < Z.of_nat (length ws) ->
  valid_chunk ws (unit_chunk mark ws start).
Proof.
  intros Hws Hstart. unfold unit_chunk.
  pose proof (unit_scan_bounds mark ws
                (Z.to_nat (Z.of_nat (length ws) - start)) start).
  apply slice_chunk_valid; [done | lia | lia].
Qed.

Lemma next_chunk_valid rm ws start :
  Forall no_space ws ->
  0 <= start < Z.of_nat (length ws) ->
  exists chunk, next_chunk rm ws start = Some chunk
                /\ valid_chunk ws chunk /\ c_start chunk = start.
Proof.
  intros Hws Hstart. destruct rm; simpl.
  - eexists. split; [done|]. split; [|done]. by apply getNextLargeChunk_valid.
  - destruct (at_index_in_range ws start Hstart) as [w Hw]. rewrite Hw.
    eexists. split; [done|]. split; [|done]. repeat split; simpl; try lia.
    rewrite count_spaces_no_space; [lia|].
    rewrite Forall_forall in Hws. apply Hws.
    unfold at_index in Hw. destruct (start <? 0); [done|].
    by eapply list_elem_of_lookup_2.
  - eexists. split; [done|]. split; [|done]. by apply unit_chunk_valid.
  - eexists. split; [done|]. split; [|done]. by apply unit_chunk_valid.
Qed.

(** ** The invariant along the speech queue *)

Lemma enqueue_loop_ok cfg fuel r :
  reader_ok r ->
  (Z.to_nat (total r - queueNext r) + (2 - length (active r)) < fuel)%nat ->
  exists r', enqueue_loop fuel cfg r = Some r'
             /\ reader_ok r'
             /\ words r' = words r
             /\ currentIndex r' = currentIndex r
             /\ isPlaying r' = isPlaying r
             /\ shouldPlay r' = shouldPlay r
             /\ timer r' = timer r.
Proof.
  revert r. induction fuel as [|fuel IH]; intros r Hok Hfuel; [lia|].
  cbn [enqueue_loop].
  destruct (negb (shouldPlay r)); [by exists r|].
  destruct (2 <=? length (active r))%nat eqn:Hsize; [by exists r|].
  apply Nat.leb_gt in Hsize.
  destruct (total r <=? queueNext r) eqn:Hend; [by exists r|].
  apply Z.leb_gt in Hend.
  destruct Hok as [Hws Hidx Hq Hact].
  destruct (next_chunk_valid (repeatMode cfg) (words r) (queueNext r) Hws)
    as (chunk & -> & Hchunk & Hcs); [unfold total in Hend; lia|].
  pose proof Hchunk as (Hc1 & Hc2 & Hc3).
  destruct (is_blank (c_text chunk)).
  - destruct (c_end chunk <? total r) eqn:Hmore.
    + apply Z.ltb_lt in Hmore.
      destruct (IH (set_queueNext (c_end chunk) r)) as (r' & Hr' & Hok' & H);
        [split; simpl; [done | done | lia | done] | simpl; unfold total in *; simpl; lia |].
      exists r'. split; [done|]. split; [done|]. exact H.
    + eexists. split; [done|]. split; [|done].
      split; simpl; [done | done | lia | done].
  - destruct (IH (set_active (active r ++ [make_utterance cfg chunk])
                             (set_queueNext (c_end chunk) r)))
      as (r' & Hr' & Hok' & H).
    + split; simpl; [done | done | lia |].
      apply Forall_app. split; [done|].
      apply Forall_cons. split; [|constructor]. by split.
    + simpl. rewrite length_app. simpl. unfold total in *. simpl. lia.
    + exists r'. split; [done|]. split; [done|]. exact H.
Qed.

Lemma enqueueNextChunk_ok cfg r :
  reader_ok r ->
  exists r', enqueueNextChunk cfg r = Some r'
             /\ reader_ok r'
             /\ words r' = words r
             /\ currentIndex r' = currentIndex r
             /\ isPlaying r' = isPlaying r
             /\ shouldPlay r' = shouldPlay r
             /\ timer r' = timer r.
Proof.
  intros Hok. apply enqueue_loop_ok; [done|]. unfold enqueue_fuel. lia.
Qed.

Lemma speakText_ok cfg start r :
  reader_ok r -> 0 <= start ->
  exists r', speakText cfg start r = Some r'
             /\ reader_ok r'
             /\ words r' = words r
             /\ currentIndex r' = currentIndex r
             /\ isPlaying r' = isPlaying r.
Proof.
  intros [Hws Hidx Hq Hact] Hstart. unfold speakText.
  set (r1 := set_queueNext start
               (clear_timer (cancel_speech (set_shouldPlay true r)))).
  assert (Hok1 : reader_ok r1) by (split; simpl; done).
  destruct (negb (isVoiceEnabled cfg)).
  - destruct (is_wheel (mode cfg) && wheelContinuousMode cfg);
      eexists; (split; [done|]); (split; [|done]); split; simpl; done.
  - destruct (enqueueNextChunk_ok cfg r1 Hok1)
      as (r2 & -> & Hok2 & Hw2 & Hi2 & Hp2 & _).
    destruct (enqueueNextChunk_ok cfg r2 Hok2)
      as (r3 & -> & Hok3 & Hw3 & Hi3 & Hp3 & _).
    exists r3. split; [done|]. split; [done|].
    rewrite Hw3, Hw2, Hi3, Hi2, Hp3, Hp2. done.
Qed.

(** ** Where a sentence seek lands *)

Lemma sentence_start_bounds ws i s :
  sentence_start ws i s -> 0 <= i -> 0 <= s <= i.
Proof.
  intros (H1 & H2 & H3) Hi. split; [|done].
  destruct (decide (0 <= s)) as [|Hneg]; [done|].
  assert (Hnb : is_boundary (at_index ws s) = false) by (apply H3; lia).
  rewrite at_index_negative in Hnb by lia. done.
Qed.

Lemma navigate_target_bounds ws cur forward :
  0 <= cur <= Z.of_nat (length ws) - 1 ->
  0 <= navigate_target ws cur forward <= Z.of_nat (length ws) - 1.
Proof.
  intros Hcur. unfold navigate_target.
  pose proof (sentence_start_bounds ws cur _ (getSentenceRange_start ws cur)) as Hs.
  pose proof (getSentenceRange_end ws cur) as (He & _).
  destruct forward; [lia|].
  destruct (r_start (getSentenceRange ws cur) + 2 <? cur); [lia|].
  pose proof (sentence_start_bounds ws _ _
    (getSentenceRange_start ws
       (Z.max 0 (r_start (getSentenceRange ws cur) - 2)))).
  lia.
Qed.

(** ** Where a word boundary lands *)

Lemma onboundary_index ws u charIndex r :
  valid_utterance ws u ->
  currentIndex (onboundary u charIndex r) = currentIndex r
  \/ c_start (u_chunk u) <= currentIndex (onboundary u charIndex r)
     <= c_end (u_chunk u) - 1.
Proof.
  intros [(Hc1 & Hc2 & Hc3) Hfirst]. unfold onboundary.
  destruct (u_isRepeating u && (_ <? _)); [by left|].
  match goal with
  | |- context [slice ?ref 0 ?n] =>
      destruct (slice_prefix ref n) as [m ->];
      assert (Hcount : count_spaces (take m ref)
                       <= c_end (u_chunk u) - c_start (u_chunk u) - 1)
  end.
  { etrans; [apply count_spaces_take|].
    destruct (u_isRepeating u); [|done].
    rewrite Hfirst.
    destruct (strip_trailing_marks_prefix (c_text (u_chunk u))) as [n ->].
    etrans; [apply count_spaces_take | done]. }
  match goal with
  | |- context [count_spaces ?t] => pose proof (count_spaces_nonneg t)
  end.
  destruct (_ =? currentIndex r); [by left|]. right. simpl. lia.
Qed.

Lemma onboundary_ok u charIndex r :
  reader_ok r -> valid_utterance (words r) u ->
  reader_ok (onboundary u charIndex r)
  /\ words (onboundary u charIndex r) = words r.
Proof.
  intros Hok Hu.
  pose proof (onboundary_index (words r) u charIndex r Hu) as Hidx.
  destruct Hu as [(Hc1 & Hc2 & Hc3) _].
  destruct Hok as [Hws Hi Hq Hact].
  assert (Hsame : words (onboundary u charIndex r) = words r
                  /\ queueNext (onboundary u charIndex r) = queueNext r
                  /\ active (onboundary u charIndex r) = active r).
  { unfold onboundary. destruct (_ && _); [done|].
    by destruct (_ =? _). }
  destruct Hsame as (Hw' & Hq' & Ha'). split; [|done].
  split; unfold total; rewrite ?Hw', ?Hq', ?Ha'; try done.
  unfold total in Hi. lia.
Qed.

(** ** Every event keeps the invariant *)

Lemma timer_tick_ok r :
  reader_ok r -> reader_ok (timer_tick r) /\ words (timer_tick r) = words r.
Proof.
  intros [Hws Hi Hq Hact]. unfold timer_tick.
  destruct (negb (shouldPlay r)); [by split|].
  destruct (total r - 1 <=? currentIndex r) eqn:Hlast; [by split|].
  apply Z.leb_gt in Hlast. split; [|done].
  split; simpl; try done. unfold total in *. simpl. lia.
Qed.

Lemma step_ok cfg r ev :
  reader_ok r -> enabled r ev = true ->
  exists r', step cfg r ev = Some r' /\ reader_ok r' /\ words r' = words r.
Proof.
  intros Hok Hen. pose proof Hok as [Hws Hi Hq Hact].
  destruct ev as [|delta|forward|index| |k charIndex|k|k]; simpl in *.
  - (* togglePlay *)
    unfold togglePlay. destruct (isPlaying r).
    + eexists. split; [done|]. split; [|done]. split; simpl; done.
    + destruct (speakText_ok cfg (currentIndex r)
                  (set_isPlaying true (set_shouldPlay true r)))
        as (r' & Hr' & Hok' & Hw' & _); [by split | lia |].
      exists r'. by rewrite Hr'.
  - (* changePosition *)
    unfold changePosition.
    set (newIndex := Z.max 0 (Z.min (total r - 1) (currentIndex r + delta))).
    assert (Hnew : 0 <= newIndex <= total r - 1) by lia.
    assert (Hok1 : reader_ok (set_currentIndex newIndex r))
      by (split; simpl; done).
    destruct (isPlaying r).
    + destruct (speakText_ok cfg newIndex _ Hok1) as (r' & Hr' & Hok' & Hw' & _);
        [lia|].
      exists r'. by rewrite Hr'.
    + by eexists.
  - (* navigateBySentence *)
    unfold navigateBySentence.
    pose proof (navigate_target_bounds (words r) (currentIndex r) forward Hi)
      as Hnew.
    set (newIndex := navigate_target (words r) (currentIndex r) forward) in *.
    destruct (isPlaying r).
    + destruct (speakText_ok cfg newIndex
                  (set_queueNext newIndex
                     (cancel_speech (set_shouldPlay true
                        (set_currentIndex newIndex r)))))
        as (r' & Hr' & Hok' & Hw' & _); [split; simpl; done || lia | lia |].
      exists r'. by rewrite Hr'.
    + eexists. split; [done|]. split; [|done]. split; simpl; done.
  - (* handleWordClick *)
    rewrite Hen. apply andb_true_iff in Hen as [H0 H1].
    apply Z.leb_le in H0. apply Z.ltb_lt in H1. unfold handleWordClick.
    destruct (speakText_ok cfg index
                (set_shouldPlay true (set_isPlaying true
                   (set_currentIndex index r))))
      as (r' & Hr' & Hok' & Hw' & _); [split; simpl; done || (unfold total in *; simpl; lia) | lia |].
    exists r'. by rewrite Hr'.
  - (* timer tick *)
    destruct (timer r); [|done].
    eexists. split; [done|]. by apply timer_tick_ok.
  - (* word boundary *)
    destruct (active r !! k) as [u|] eqn:Hu; [|done].
    eexists. split; [done|]. apply onboundary_ok; [done|].
    rewrite Forall_forall in Hact. apply Hact.
    by eapply list_elem_of_lookup_2.
  - (* utterance end *)
    destruct (active r !! k) as [u|] eqn:Hu; [|done].
    unfold onend.
    destruct (enqueueNextChunk_ok cfg (set_active (delete k (active r)) r))
      as (r' & -> & Hok' & Hw' & _).
    { split; simpl; try done.
      rewrite Forall_forall in *. intros x Hx. apply Hact.
      eapply sublist_subseteq; [apply sublist_delete | done]. }
    destruct (_ && _); eexists; (split; [done|]); (split; [|done]).
    + destruct Hok'. split; simpl; done.
    + done.
  - (* utterance error *)
    destruct (active r !! k) as [u|] eqn:Hu; [|done].
    eexists. split; [done|]. split; [|done]. unfold onerror.
    split; simpl; try done.
    rewrite Forall_forall in *. intros x Hx. apply Hact.
    eapply sublist_subseteq; [apply sublist_delete | done].
Qed.

Lemma run_ok cfg r evs r' :
  reader_ok r -> run cfg r evs = Some r' ->
  reader_ok r' /\ words r' = words r.
Proof.
  revert r. induction evs as [|ev evs IH]; intros r Hok; simpl.
  - by intros [= <-].
  - destruct (step cfg r ev) as [r1|] eqn:Hstep; [|done].
    assert (Hen : enabled r ev = true).
    { destruct ev; simpl in *; try done.
      - by destruct (_ && _).
      - by destruct (timer r).
      - by destruct (active r !! k).
      - by destruct (active r !! k).
      - by destruct (active r !! k). }
    destruct (step_ok cfg r ev Hok Hen) as (r1' & Hr1 & Hok1 & Hw1).
    rewrite Hstep in Hr1. injection Hr1 as <-.
    intros Hrun. destruct (IH r1 Hok1 Hrun) as [Hok' Hw']. split; [done|].
    by rewrite Hw'.
Qed.

(** ** Fixed-delta seek *)

Lemma changePosition_index cfg delta r r' :
  reader_ok r -> changePosition cfg delta r = Some r' ->
  currentIndex r' = Z.max 0 (Z.min (total r - 1) (currentIndex r + delta)).
Proof.
  intros Hok. pose proof Hok as [Hws Hi Hq Hact]. unfold changePosition.
  set (newIndex := Z.max 0 (Z.min (total r - 1) (currentIndex r + delta))).
  destruct (isPlaying r); [|by intros [= <-]].
  destruct (speakText_ok cfg newIndex (set_currentIndex newIndex r))
    as (r1 & -> & _ & _ & Hi1 & _);
    [split; simpl; try done; unfold total in *; simpl; lia | lia |].
  by intros [= <-].
Qed.

Lemma open_book_ok content lastPosition :
  0 <= lastPosition <= Z.of_nat (length (tokenize content)) - 1 ->
  reader_ok (open_book content lastPosition).
Proof.
  intros H. split; simpl; [apply tokenize_no_space | done | done | constructor].
Qed.

(** C2, amended: from a book whose token array is not empty and whose
    stored position is an index of it, after every sequence of play/pause,
    fixed seek, sentence seek, word click, timer tick, speech boundary,
    utterance end and utterance error events the current index is between
    [0] and [totalTokens - 1], and every event that can occur in the state
    reached does lead to a next state; a fixed-delta seek sets the index
    to [currentIndex + delta] clamped to [0 .. totalTokens - 1], so a seek
    past the end lands on the last index and a seek before the start on
    [0]. *)
Theorem C2_current_index_within_bounds
  (cfg : Config) (content : jsstring) (lastPosition : Z) :
  tokenize content <> [] ->
  0 <= lastPosition <= Z.of_nat (length (tokenize content)) - 1 ->
  forall (evs : list Event) (r : Reader),
    run cfg (open_book content lastPosition) evs = Some r ->
    total r = Z.of_nat (length (tokenize content))
    /\ 0 <= currentIndex r <= total r - 1
    /\ (forall ev, enabled r ev = true -> is_Some (step cfg r ev))
    /\ (forall delta r',
           changePosition cfg delta r = Some r' ->
           currentIndex r'
           = Z.max 0 (Z.min (total r - 1) (currentIndex r + delta))
           /\ (total r - 1 <= currentIndex r + delta ->
               currentIndex r' = total r - 1)
           /\ (currentIndex r + delta <= 0 -> currentIndex r' = 0)).
Proof.
  intros _ Hpos evs r Hrun.
  destruct (run_ok cfg _ evs r (open_book_ok content lastPosition Hpos) Hrun)
    as [Hok Hw].
  pose proof Hok as [Hws Hi Hq Hact].
  split; [unfold total; by rewrite Hw|]. split; [done|]. split.
  - intros ev Hen. destruct (step_ok cfg r ev Hok Hen) as (r' & -> & _). by eexists.
  - intros delta r' Hseek.
    rewrite (changePosition_index cfg delta r r' Hok Hseek). lia.
Qed.

(** ** Silent playback *)









Lemma is_break_LF w : is_break w = true <-> w = [LF].
Proof.
  split; [|by intros ->].
  destruct w as [|c [|c' r]]; try done. simpl. by intros ->%is_newline_LF.
Qed.



(** C6: for a position [i] other than the one just past the last token (so
    for every index of the token array), the sentence range found from any
    position [k] inside the range of [i] is the range of [i]; in particular
    the range found from the range's own start is the same range. *)
Theorem C6_sentence_range_idempotent (ws : list jsstring) (i k : Z) :
  i <> Z.of_nat (length ws) ->
  r_start (getSentenceRange ws i) <= k <= r_end (getSentenceRange ws i) ->
  getSentenceRange ws k = getSentenceRange ws i
  /\ getSentenceRange ws (r_start (getSentenceRange ws i))
     = getSentenceRange ws i.
Proof.
  intros Hi Hk. split; [by apply getSentenceRange_inside|].
  apply getSentenceRange_inside; [done|]. lia.
Qed.

End PlaybackFacts.

(* ===================================================================== *)
(** * Facts about the spritz renderer *)
(* ===================================================================== *)

Module SpritzFacts.

Import Spritz SentenceFacts.

Lemma pivot_of_bounds word :
  word <> [] -> 0 <= pivot_of word < Z.of_nat (length word).
Proof.
  intros Hne. unfold pivot_of.
  assert (1 <= Z.of_nat (length word)) by (destruct word; [done | simpl; lia]).
  split.
  - assert (1 <= (Z.of_nat (length word) + 1) / 2)
      by (apply Z.div_le_lower_bound; lia).
    lia.
  - assert ((Z.of_nat (length word) + 1) / 2 <= Z.of_nat (length word))
      by (apply Z.div_le_upper_bound; lia).
    lia.
Qed.

(** C9: for the word shown by the spritz renderer, the pivot index is
    [floor((L + 1) / 2) - 1] with [L] the length of the word; the focal
    character is the character at that index, the left part is the
    characters before it and the right part the characters after it, so
    the three parts make up the word; [getPivot] of the wheel computes the
    same index.  For "cat" the pivot is 1 and the focal character is the
    'a'; for "a" the pivot is 0. *)
Theorem C9_spritz_pivot (ws : list jsstring) (i : Z) (word : jsstring) :
  at_index ws i = Some word -> word <> [] ->
  (exists c,
      at_index word ((Z.of_nat (length word) + 1) / 2 - 1) = Some c
      /\ center (renderSpritz ws i) = [c])
  /\ Z.of_nat (length (pre (renderSpritz ws i)))
     = (Z.of_nat (length word) + 1) / 2 - 1
  /\ pre (renderSpritz ws i) ++ center (renderSpritz ws i)
       ++ post (renderSpritz ws i) = word
  /\ getPivot (Some word) = (Z.of_nat (length word) + 1) / 2 - 1
  /\ pivot_of (str "cat") = 1
  /\ renderSpritz [str "cat"] 0
     = {| pre := str "c"; center := str "a"; post := str "t" |}
  /\ pivot_of (str "a") = 0
  /\ renderSpritz [str "a"] 0 = {| pre := []; center := str "a"; post := [] |}.
Proof.
  intros Hword Hne. pose proof (pivot_of_bounds word Hne) as Hp.
  destruct (at_index_in_range word (pivot_of word) Hp) as [c Hc].
  assert (Hlook : word !! Z.to_nat (pivot_of word) = Some c).
  { unfold at_index in Hc. by rewrite (proj2 (Z.ltb_ge _ _)) in Hc by lia. }
  assert (Hpre : slice word 0 (pivot_of word) = take (Z.to_nat (pivot_of word)) word).
  { unfold slice, rel_index. change (0 <? 0) with false.
    rewrite (proj2 (Z.ltb_ge _ _)) by lia. cbv iota.
    rewrite !Z.min_l by lia. rewrite drop_0. f_equal. lia. }
  assert (Hpost : slice_from word (pivot_of word + 1)
                  = drop (S (Z.to_nat (pivot_of word))) word).
  { unfold slice_from, slice, rel_index.
    rewrite !(proj2 (Z.ltb_ge _ _)) by lia.
    rewrite Z.min_id, Z.min_l by lia.
    replace (Z.to_nat (pivot_of word + 1)) with (S (Z.to_nat (pivot_of word)))
      by lia.
    apply take_ge. rewrite length_drop. lia. }
  assert (Hrender : renderSpritz ws i
                    = {| pre := take (Z.to_nat (pivot_of word)) word;
                         center := [c];
                         post := drop (S (Z.to_nat (pivot_of word))) word |}).
  { unfold renderSpritz. rewrite Hword.
    change (default [] (Some word)) with word. by rewrite Hc, Hpre, Hpost. }
  rewrite Hrender. cbn [pre center post]. fold (pivot_of word).
  split; [by exists c|]. split; [rewrite length_take; lia|].
  split; [by apply take_drop_middle|].
  split; [by destruct word|]. by vm_compute.
Qed.

End SpritzFacts.

(* ===================================================================== *)
(** * Facts about the persistence gateway *)
(* ===================================================================== *)

Module StorageFacts.

Import Storage.

(** ** Records and keys *)

Lemma key_at_set_prop keyPath name v x :
  keyPath <> name -> is_Some (key_at keyPath v) ->
  key_at keyPath (set_prop v name x) = key_at keyPath v.
Proof.
  intros Hne [k Hk]. unfold key_at, get_prop, set_prop in *.
  destruct v; try done. by rewrite lookup_insert_ne.
Qed.

Lemma key_at_truthy keyPath v :
  is_Some (key_at keyPath v) -> truthy (Some v) = true.
Proof. intros [k Hk]. unfold key_at, get_prop in Hk. by destruct v. Qed.

Lemma get_prop_set_prop v name x :
  is_Some (key_at "id" v) -> get_prop (set_prop v name x) name = Some x.
Proof.
  intros [k Hk]. unfold key_at, get_prop, set_prop in *.
  destruct v; try done. by rewrite lookup_insert_eq.
Qed.

(** ** Putting lists of records *)

Lemma upsert_all_cons keyPath v rest m :
  upsert_all keyPath (v :: rest) m
  = upsert_all keyPath rest
      (match key_at keyPath v with Some k => <[k := v]> m | None => m end).
Proof. done. Qed.

Lemma upsert_all_lookup keyPath records m k :
  upsert_all keyPath records m !! k
  = match last_with_key keyPath k records with
    | Some v => Some v
    | None => m !! k
    end.
Proof.
  revert m. induction records as [|v rest IH]; intros m; [done|].
  rewrite upsert_all_cons, IH. cbn [last_with_key].
  destruct (last_with_key keyPath k rest); [done|].
  case_bool_decide as Hk.
  - rewrite Hk. by rewrite lookup_insert_eq.
  - destruct (key_at keyPath v) as [k'|]; [|done].
    rewrite lookup_insert_ne; [done | congruence].
Qed.

Lemma last_with_key_elem keyPath k records v :
  last_with_key keyPath k records = Some v ->
  v ∈ records /\ key_at keyPath v = Some k.
Proof.
  induction records as [|x rest IH]; [done|]. cbn [last_with_key].
  destruct (last_with_key keyPath k rest) as [w|].
  - intros [= ->]. destruct (IH eq_refl). split; [by right | done].
  - case_bool_decide; [|done]. intros [= ->]. split; [by left | done].
Qed.

Lemma last_with_key_none keyPath k records v :
  last_with_key keyPath k records = None ->
  v ∈ records -> key_at keyPath v <> Some k.
Proof.
  induction records as [|x rest IH]; [by intros _ ?%elem_of_nil|].
  cbn [last_with_key].
  destruct (last_with_key keyPath k rest) as [w|]; [done|].
  case_bool_decide; [done|].
  intros _ [->|Hin]%elem_of_cons; [done | by apply IH].
Qed.

(** Putting the records of a keyed collection, in any order, into an empty
    collection gives the collection back. *)
Lemma upsert_all_values keyPath (m : gmap string jsval) records :
  keyed keyPath m -> records ≡ₚ (map_to_list m).*2 ->
  upsert_all keyPath records ∅ = m.
Proof.
  intros Hkeyed Hperm. apply map_eq. intros k.
  rewrite upsert_all_lookup, lookup_empty.
  assert (Hin : forall v, v ∈ records <-> exists k', m !! k' = Some v).
  { intros v. rewrite Hperm, list_elem_of_fmap. split.
    - intros ([k' v'] & -> & Hkv). exists k'. by apply elem_of_map_to_list.
    - intros (k' & Hk'). exists (k', v). split; [done|].
      by apply elem_of_map_to_list. }
  destruct (last_with_key keyPath k records) as [v|] eqn:Hlast.
  - apply last_with_key_elem in Hlast as [Hv Hk].
    apply Hin in Hv as (k' & Hk').
    pose proof (Hkeyed _ _ Hk') as Hkey. by simplify_eq.
  - destruct (m !! k) as [v|] eqn:Hmk; [|done].
    exfalso. apply (last_with_key_none _ _ _ v Hlast).
    + apply Hin. by exists k.
    + by apply Hkeyed.
Qed.

Lemma forEach_put_in coll set_coll keyPath records db :
  (forall m db', coll (set_coll m db') = m) ->
  (forall m m' db', set_coll m (set_coll m' db') = set_coll m db') ->
  (forall db', set_coll (coll db') db' = db') ->
  Forall (has_key keyPath) records ->
  forEach (put_in coll set_coll keyPath) records db
  = (inl tt, set_coll (upsert_all keyPath records (coll db)) db).
Proof.
  intros Hget Hset Hid Hkeys. revert db.
  induction Hkeys as [|v rest [k Hk] Hrest IH]; intros db.
  - simpl. unfold ret. by rewrite Hid.
  - cbn [forEach]. unfold bind at 1. unfold put_in at 1. unfold put.
    rewrite Hk, IH, upsert_all_cons, Hk, Hget, Hset. done.
Qed.

Lemma import_writes_keyed data db :
  Forall (has_key "id") (array_items (get_prop data "books")) ->
  Forall (has_key "id") (array_items (get_prop data "folders")) ->
  Forall (has_key "word") (array_items (get_prop data "glossary")) ->
  import_writes data db = (inl tt, imported data db).
Proof.
  intros Hb Hf Hg. unfold import_writes, bind.
  rewrite (forEach_put_in books set_books) by (done || by intros []).
  rewrite (forEach_put_in folders set_folders) by (done || by intros []).
  rewrite (forEach_put_in glossary set_glossary) by (done || by intros []).
  unfold imported, when, put_if_truthy. cbn [books folders glossary settings
    set_books set_folders set_glossary].
  destruct (truthy (get_prop data "settings")); [|done].
  destruct (settings_prop data "app") as [app|];
    destruct (settings_prop data "voice") as [voice|];
    repeat match goal with
           | |- context [truthy (Some ?v)] => destruct (truthy (Some v))
           end;
    done.
Qed.

Lemma importBackup_keyed `{Platform} jsonString data db :
  JSON_parse jsonString = Some data ->
  valid_backup data = true ->
  Forall (has_key "id") (array_items (get_prop data "books")) ->
  Forall (has_key "id") (array_items (get_prop data "folders")) ->
  Forall (has_key "word") (array_items (get_prop data "glossary")) ->
  importBackup jsonString db = (inl tt, imported data db).
Proof.
  intros Hparse Hvalid Hb Hf Hg. unfold importBackup.
  rewrite Hparse, Hvalid. by apply import_writes_keyed.
Qed.

(** A record without a valid key stops the writes: the records put before
    it stay written, the rest of the file is not looked at. *)
Lemma forEach_put_in_stops coll set_coll keyPath pre v post db :
  (forall db', set_coll (coll db') db' = db') ->
  (forall m db', coll (set_coll m db') = m) ->
  (forall m m' db', set_coll m (set_coll m' db') = set_coll m db') ->
  Forall (has_key keyPath) pre ->
  valid_key_at keyPath v = false ->
  forEach (put_in coll set_coll keyPath) (pre ++ v :: post) db
  = (inr DataError, set_coll (upsert_all keyPath pre (coll db)) db).
Proof.
  intros Hid Hget Hset Hkeys Hv. revert db.
  induction Hkeys as [|x rest [k Hk] Hrest IH]; intros db.
  - cbn [app forEach]. unfold bind, put_in, put.
    assert (Hnone : key_at keyPath v = None).
    { unfold valid_key_at, key_at in *.
      destruct (get_prop v keyPath) as [[]|]; done. }
    rewrite Hnone, Hv. cbn. by rewrite Hid.
  - cbn [app forEach]. unfold bind at 1. unfold put_in at 1. unfold put.
    rewrite Hk, IH, upsert_all_cons, Hk, Hget, Hset. done.
Qed.

Lemma importBackup_rejects `{Platform} (jsonString : text) (db : Store) :
  (JSON_parse jsonString = None ->
   importBackup jsonString db = (inr SyntaxError, db))
  /\ (forall data,
         JSON_parse jsonString = Some data ->
         get_prop data "version" = None \/ valid_backup data = false ->
         importBackup jsonString db = (inr InvalidBackup, db)).
Proof.
  split.
  - intros Hparse. unfold importBackup. by rewrite Hparse.
  - intros data Hparse Hbad. unfold importBackup. rewrite Hparse.
    assert (Hvalid : valid_backup data = false).
    { destruct Hbad as [Hversion|]; [|done].
      unfold valid_backup. rewrite Hversion. by rewrite andb_false_r. }
    by rewrite Hvalid.
Qed.

Lemma imported_lookup data db :
  (forall k,
      books (imported data db) !! k
      = match last_with_key "id" k (array_items (get_prop data "books")) with
        | Some v => Some v
        | None => books db !! k
        end)
  /\ (forall k,
         folders (imported data db) !! k
         = match last_with_key "id" k
                   (array_items (get_prop data "folders")) with
           | Some v => Some v
           | None => folders db !! k
           end)
  /\ (forall k,
         glossary (imported data db) !! k
         = match last_with_key "word" k
                   (array_items (get_prop data "glossary")) with
           | Some v => Some v
           | None => glossary db !! k
           end)
  /\ (forall k, k <> "app" -> k <> "voice" ->
                settings (imported data db) !! k = settings db !! k).
Proof.
  unfold imported. cbn [books folders glossary settings].
  repeat split; try (intros k; apply upsert_all_lookup).
  intros k Happ Hvoice. unfold put_if_truthy.
  destruct (truthy (get_prop data "settings")); [|done].
  destruct (settings_prop data "voice") as [voice|];
    destruct (settings_prop data "app") as [app|];
    repeat match goal with
           | |- context [truthy (Some ?v)] => destruct (truthy (Some v))
           end;
    by rewrite ?lookup_insert_ne.
Qed.

Lemma importBackup_stops_at_book `{Platform} jsonString data db pre v post :
  JSON_parse jsonString = Some data ->
  valid_backup data = true ->
  array_items (get_prop data "books") = pre ++ v :: post ->
  Forall (has_key "id") pre ->
  valid_key_at "id" v = false ->
  importBackup jsonString db
  = (inr DataError, set_books (upsert_all "id" pre (books db)) db).
Proof.
  intros Hparse Hvalid Hbooks Hpre Hv. unfold importBackup.
  rewrite Hparse, Hvalid. unfold import_writes, bind at 1.
  rewrite Hbooks.
  by rewrite (forEach_put_in_stops books set_books)
    by (done || by intros []).
Qed.

(** ** Export then import *)

Lemma getAll_keyed `{Platform} keyPath (m : gmap string jsval) :
  keyed keyPath m -> Forall (has_key keyPath) (getAll m).
Proof.
  intros Hkeyed. apply Forall_forall. intros v Hv.
  rewrite getAll_values, list_elem_of_fmap in Hv.
  destruct Hv as ([k v'] & -> & Hkv). apply elem_of_map_to_list in Hkv.
  exists k. by apply Hkeyed.
Qed.

Lemma Object_values_keyed `{Platform} keyPath (m : gmap string jsval) :
  keyed keyPath m -> Forall (has_key keyPath) (Object_values m).
Proof.
  intros Hkeyed. apply Forall_forall. intros v Hv.
  rewrite Object_values_values, list_elem_of_fmap in Hv.
  destruct Hv as ([k v'] & -> & Hkv). apply elem_of_map_to_list in Hkv.
  exists k. by apply Hkeyed.
Qed.

(** What the loop of [getGlossary] leaves under a name: nothing new under
    [__proto__], and elsewhere what putting the records would leave. *)
Lemma fold_assign_property_lookup records (m : gmap string jsval) k :
  fold_left (fun glossaryMap item =>
               match key_at "word" item with
               | Some w => assign_property w item glossaryMap
               | None => glossaryMap
               end) records m !! k
  = if bool_decide (k = "__proto__") then m !! k
    else upsert_all "word" records m !! k.
Proof.
  revert m. induction records as [|v rest IH]; intros m.
  - cbn. by case_bool_decide.
  - cbn [fold_left]. rewrite IH, upsert_all_cons.
    case_bool_decide as Hk.
    + subst k. destruct (key_at "word" v) as [w|]; [|done].
      unfold assign_property. case_bool_decide as Hw; [done|].
      by rewrite lookup_insert_ne.
    + rewrite !upsert_all_lookup.
      destruct (last_with_key "word" k rest); [done|].
      destruct (key_at "word" v) as [w|]; [|done].
      unfold assign_property. case_bool_decide as Hw; [|done].
      subst w. by rewrite lookup_insert_ne.
Qed.

Lemma getGlossary_glossary `{Platform} db :
  keyed "word" (glossary db) ->
  getGlossary db = delete "__proto__" (glossary db).
Proof.
  intros Hkeyed. apply map_eq. intros k. unfold getGlossary.
  rewrite fold_assign_property_lookup, lookup_empty.
  case_bool_decide as Hk.
  - subst k. by rewrite lookup_delete_eq.
  - rewrite lookup_delete_ne by done.
    by rewrite (upsert_all_values "word" (glossary db)) by
      (done || apply getAll_values).
Qed.

Lemma keyed_delete keyPath (m : gmap string jsval) k :
  keyed keyPath m -> keyed keyPath (delete k m).
Proof.
  intros Hkeyed k' v Hk'. apply lookup_delete_Some in Hk' as [_ Hk'].
  by apply Hkeyed.
Qed.


(** ** Batch move *)

Lemma keyed_insert keyPath (m : gmap string jsval) k v :
  keyed keyPath m -> key_at keyPath v = Some k -> keyed keyPath (<[k := v]> m).
Proof.
  intros Hm Hv k' v'. rewrite lookup_insert. case_decide as Hk.
  - intros [= <-]. by rewrite <- Hk.
  - apply Hm.
Qed.

Lemma fold_move_book target (before : gmap string jsval) bookIds m :
  keyed "id" before ->
  is_Some (fold_left (move_book target before) bookIds (Some m)).
Proof.
  intros Hkeyed. revert m. induction bookIds as [|id ids IH]; intros m; [done|].
  cbn [fold_left]. unfold move_book at 2.
  destruct (before !! id) as [book|] eqn:Hbook; [|apply IH].
  pose proof (Hkeyed _ _ Hbook) as Hkey.
  rewrite (key_at_truthy "id") by by eexists.
  unfold put. rewrite key_at_set_prop, Hkey by (done || by eexists).
  apply IH.
Qed.

(** The folders after the move: a folder that was listed, exists and is not
    the target has its parent reference replaced; every other folder is
    as before. *)
Lemma fold_move_folder target (before : gmap string jsval) folderIds :
  keyed "id" before ->
  exists fs,
    fold_left (move_folder target before) folderIds (Some before) = Some fs
    /\ forall k,
         fs !! k
         = if bool_decide (k ∈ folderIds /\ Some k <> target)
           then (fun f => set_prop f "parentId" (parent_value target))
                  <$> before !! k
           else before !! k.
Proof.
  intros Hkeyed.
  assert (Hgen : forall ids (m : gmap string jsval) done_ids,
    (forall k, m !! k
               = if bool_decide (k ∈ done_ids /\ Some k <> target)
                 then (fun f => set_prop f "parentId" (parent_value target))
                        <$> before !! k
                 else before !! k) ->
    exists fs,
      fold_left (move_folder target before) ids (Some m) = Some fs
      /\ forall k,
           fs !! k
           = if bool_decide (k ∈ done_ids ++ ids /\ Some k <> target)
             then (fun f => set_prop f "parentId" (parent_value target))
                    <$> before !! k
             else before !! k).
  { induction ids as [|id ids IH]; intros m done_ids Hm.
    - exists m. split; [done|]. intros k. by rewrite app_nil_r.
    - cbn [fold_left]. unfold move_folder at 2.
      assert (Hstep : exists m',
        match before !! id with
        | Some folder =>
            if truthy (Some folder)
            then if bool_decide (Some id <> target)
                 then put "id" (set_prop folder "parentId" (parent_value target)) m
                 else Some m
            else Some m
        | None => Some m
        end = Some m'
        /\ forall k, m' !! k
               = if bool_decide (k ∈ done_ids ++ [id] /\ Some k <> target)
                 then (fun f => set_prop f "parentId" (parent_value target))
                        <$> before !! k
                 else before !! k).
      { destruct (before !! id) as [folder|] eqn:Hfolder.
        - pose proof (Hkeyed _ _ Hfolder) as Hkey.
          rewrite (key_at_truthy "id") by by eexists.
          case_bool_decide as Hself.
          + unfold put. rewrite key_at_set_prop, Hkey by (done || by eexists).
            eexists. split; [done|]. intros k.
            rewrite lookup_insert. case_decide as Hk.
            * subst k. rewrite bool_decide_eq_true_2, Hfolder; [done|].
              split; [|done]. apply elem_of_app. right. by left.
            * rewrite Hm. erewrite bool_decide_ext; [done|].
              rewrite elem_of_app, list_elem_of_singleton. intuition congruence.
          + exists m. split; [done|]. intros k. rewrite Hm.
            erewrite bool_decide_ext; [done|].
            rewrite elem_of_app, list_elem_of_singleton. intuition congruence.
        - exists m. split; [done|]. intros k. rewrite Hm.
          destruct (decide (k = id)) as [->|Hk].
          + rewrite Hfolder. by do 2 case_bool_decide.
          + erewrite bool_decide_ext; [done|].
            rewrite elem_of_app, list_elem_of_singleton. intuition congruence. }
      destruct Hstep as (m' & -> & Hm').
      destruct (IH m' (done_ids ++ [id]) Hm') as (fs & Hfs & Hlook).
      exists fs. split; [done|]. intros k. rewrite Hlook.
      by rewrite <- app_assoc. }
  destruct (Hgen folderIds before []) as (fs & Hfs & Hlook).
  - intros k. rewrite bool_decide_eq_false_2; [done|].
    intros [Hin _]. by apply elem_of_nil in Hin.
  - by exists fs.
Qed.

Lemma moveItems_folders bookIds folderIds target db :
  store_wf db ->
  exists db',
    moveItems bookIds folderIds target db = Some db'
    /\ forall k,
         folders db' !! k
         = if bool_decide (k ∈ folderIds /\ Some k <> target)
           then (fun f => set_prop f "parentId" (parent_value target))
                  <$> folders db !! k
           else folders db !! k.
Proof.
  intros (Hbooks & Hfolders & _). unfold moveItems.
  destruct (fold_move_book target (books db) bookIds (books db) Hbooks)
    as [bs ->].
  destruct (fold_move_folder target (folders db) folderIds Hfolders)
    as (fs & -> & Hlook).
  by eexists.
Qed.

Lemma parent_of_moveItems bookIds folderIds target db db' :
  store_wf db -> moveItems bookIds folderIds target db = Some db' ->
  forall k,
    (moved folderIds target db k -> parent_of db' k = target)
    /\ (~ moved folderIds target db k -> parent_of db' k = parent_of db k).
Proof.
  intros Hwf Hmove k.
  destruct (moveItems_folders bookIds folderIds target db Hwf)
    as (db'' & Hmove' & Hlook).
  rewrite Hmove in Hmove'. injection Hmove' as <-.
  unfold parent_of, moved. rewrite Hlook. split.
  - intros (Hin & Hne & [f Hf]). rewrite bool_decide_eq_true_2 by done.
    rewrite Hf. cbn [fmap option_fmap option_map].
    destruct Hwf as (_ & Hfolders & _).
    rewrite get_prop_set_prop by (exists k; by apply Hfolders).
    by destruct target.
  - intros Hnot. case_bool_decide as Hc; [|done].
    destruct (folders db !! k) as [f|] eqn:Hf; [|done].
    exfalso. apply Hnot. destruct Hc. by eauto.
Qed.

Lemma moved_dec folderIds target db id :
  moved folderIds target db id \/ ~ moved folderIds target db id.
Proof.
  unfold moved.
  destruct (decide (id ∈ folderIds /\ Some id <> target
                    /\ is_Some (folders db !! id))); by eauto.
Qed.

(** A cycle after the move runs through a moved folder, and then the
    target was already that folder or below it. *)
Lemma moveItems_acyclic bookIds folderIds target db db' :
  store_wf db -> acyclic db ->
  (forall id t, moved folderIds target db id -> target = Some t ->
                ~ ancestor db id t) ->
  moveItems bookIds folderIds target db = Some db' ->
  acyclic db'.
Proof.
  intros Hwf Hacyclic Hbelow Hmove.
  pose proof (parent_of_moveItems _ _ _ _ _ Hwf Hmove) as Hparent.
  set (R := fun x y => parent_of db x = Some y).
  set (R' := fun x y => parent_of db' x = Some y).
  assert (Hstep : forall x y, R' x y ->
            (moved folderIds target db x /\ target = Some y) \/ R x y).
  { intros x y Hxy. unfold R, R' in *. destruct (Hparent x) as [H1 H2].
    destruct (moved_dec folderIds target db x) as [Hm|Hm].
    - left. split; [done|]. rewrite <- Hxy. symmetry. by apply H1.
    - right. by rewrite <- H2. }
  (* from the target, the new references lead to old descendants only *)
  assert (Hfrom : forall t y, rtc R' t y ->
            rtc R t y \/ exists m, moved folderIds target db m /\ rtc R t m).
  { intros t. apply (rtc_ind_r (fun y => rtc R t y
        \/ exists m, moved folderIds target db m /\ rtc R t m)); [by left|].
    intros y z Hty Hyz IH.
    destruct IH as [IH | IH]; [|by right].
    destruct (Hstep _ _ Hyz) as [[Hm _] | Hold].
    - right. by exists y.
    - left. by eapply rtc_r. }
  (* a new path is old, or passes a moved folder and then the target *)
  assert (Hpath : forall x y, tc R' x y ->
            tc R x y
            \/ exists m t, moved folderIds target db m /\ target = Some t
                           /\ rtc R' x m /\ rtc R' t y).
  { intros x y Hxy. induction Hxy as [x y Hxy | x z y Hxz Hzy IH].
    - destruct (Hstep _ _ Hxy) as [[Hm Ht] | Hold]; [|by left; apply tc_once].
      right. exists x, y.
      split; [done|]. split; [done|]. split; apply rtc_refl.
    - destruct (Hstep _ _ Hxz) as [[Hm Ht] | Hold].
      + right. exists x, z.
        split; [done|]. split; [done|]. split; [apply rtc_refl | by apply tc_rtc].
      + destruct IH as [IH | (m & t & Hm & Ht & Hzm & Hty)].
        * left. by eapply tc_l.
        * right. exists m, t.
          split; [done|]. split; [done|]. split; [by eapply rtc_l | done]. }
  intros id Hcycle. unfold ancestor in Hcycle. fold R' in Hcycle.
  destruct (Hpath _ _ Hcycle) as [Hold | (m & t & Hm & Ht & Hidm & Htid)].
  - by apply (Hacyclic id).
  - assert (Htm : rtc R' t m) by (by etrans).
    assert (Hdesc : exists m', moved folderIds target db m' /\ rtc R t m').
    { destruct (Hfrom _ _ Htm) as [H | H]; [by exists m | done]. }
    destruct Hdesc as (m' & Hm' & Htm').
    apply rtc_tc in Htm' as [<- | Htc].
    + destruct Hm' as (_ & Hne & _). congruence.
    + by apply (Hbelow m' t Hm' Ht).
Qed.

(** Moving a folder into itself changes nothing about that folder. *)
Lemma moveItems_self bookIds folderIds id db :
  store_wf db ->
  exists db', moveItems bookIds folderIds (Some id) db = Some db'
              /\ folders db' !! id = folders db !! id.
Proof.
  intros Hwf.
  destruct (moveItems_folders bookIds folderIds (Some id) db Hwf)
    as (db' & Hmove & Hlook).
  exists db'. split; [done|]. rewrite Hlook.
  rewrite bool_decide_eq_false_2; [done|]. by intros [_ H].
Qed.

End StorageFacts.

Module StorageClaims.

Import Storage StorageFacts.

(** ** The example library *)

Lemma keyed_decide keyPath (m : gmap string jsval) :
  bool_decide (map_Forall (fun k v => key_at keyPath v = Some k) m) = true ->
  keyed keyPath m.
Proof. intros H. by apply bool_decide_eq_true_1 in H. Qed.

Lemma demo_store_wf : store_wf demo_store.
Proof. repeat split; apply keyed_decide; by vm_compute. Qed.

Lemma demo_store_parent x y :
  parent_of demo_store x = Some y -> x = "B"%string /\ y = "A"%string.
Proof.
  unfold parent_of, demo_store. cbn [folders].
  rewrite lookup_insert. case_decide as HA; [by vm_compute|].
  rewrite lookup_singleton. case_decide as HB; [|done].
  subst x. vm_compute. by intros [= <-].
Qed.

Lemma demo_store_acyclic : acyclic demo_store.
Proof.
  intros id Hcycle. unfold ancestor in Hcycle.
  inversion Hcycle as [? ? Hstep | ? y ? Hstep Hrest]; subst.
  - apply demo_store_parent in Hstep as [-> [=]].
  - apply demo_store_parent in Hstep as [-> ->].
    inversion Hrest as [? ? Hstep | ? y ? Hstep _]; subst;
      by apply demo_store_parent in Hstep as [[=] _].
Qed.

(** C1 as stated fails: in the example library folder [B] lies inside
    folder [A]; moving [A] into [B] is carried out, [A] gets [B] as its
    parent and is then its own ancestor. *)
Lemma C1_move_into_descendant_makes_cycle :
  store_wf demo_store
  /\ acyclic demo_store
  /\ ancestor demo_store "A" "B"
  /\ exists db',
       moveItems [] ["A"%string] (Some "B"%string) demo_store = Some db'
       /\ parent_of db' "A" = Some "B"%string
       /\ ancestor db' "A" "A"
       /\ ~ acyclic db'.
Proof.
  split; [apply demo_store_wf|]. split; [apply demo_store_acyclic|].
  split; [by apply tc_once|].
  exists demo_store_after_move. split; [by vm_compute|].
  assert (HAB : parent_of demo_store_after_move "A" = Some "B"%string)
    by by vm_compute.
  assert (HBA : parent_of demo_store_after_move "B" = Some "A"%string)
    by by vm_compute.
  assert (Hcycle : ancestor demo_store_after_move "A" "A")
    by (eapply tc_l; [exact HAB | by apply tc_once]).
  split; [done|]. split; [done|]. intros Hacyclic. by apply (Hacyclic "A"%string).
Qed.

(** C1, amended: in a store whose records sit under their keys, moving a
    folder into itself leaves that folder's record unchanged; and when the
    folder graph is acyclic and the target is not a descendant of any of
    the folders that are moved, the folder graph is acyclic after the
    move. *)
Theorem C1_move_keeps_folder_tree
  (bookIds folderIds : list string) (target : option string) (db : Store) :
  store_wf db ->
  (forall id, target = Some id ->
      exists db', moveItems bookIds folderIds target db = Some db'
                  /\ folders db' !! id = folders db !! id)
  /\ (acyclic db ->
      (forall id t, moved folderIds target db id -> target = Some t ->
                    ~ ancestor db id t) ->
      exists db', moveItems bookIds folderIds target db = Some db'
                  /\ acyclic db').
Proof.
  intros Hwf. split.
  - intros id ->. by apply moveItems_self.
  - intros Hacyclic Hbelow.
    destruct (moveItems_folders bookIds folderIds target db Hwf)
      as (db' & Hmove & _).
    exists db'. split; [done|]. by eapply moveItems_acyclic.
Qed.

(** In the example library, moving [B] to the root and moving [B] into
    itself. *)
Lemma C1_move_keeps_folder_tree_witness :
  store_wf demo_store
  /\ (exists db', moveItems [] ["B"%string] (Some "B"%string) demo_store
                  = Some db'
                  /\ folders db' !! "B" = folders demo_store !! "B")
  /\ (exists db', moveItems ["b1"%string] ["B"%string] None demo_store
                  = Some db'
                  /\ acyclic db').
Proof.
  split; [exact demo_store_wf|]. split.
  - exact (proj1 (C1_move_keeps_folder_tree [] ["B"%string] (Some "B"%string)
                    demo_store demo_store_wf) "B"%string eq_refl).
  - apply (proj2 (C1_move_keeps_folder_tree ["b1"%string] ["B"%string] None
                    demo_store demo_store_wf)).
    + exact demo_store_acyclic.
    + intros id t _ Ht. discriminate Ht.
Defined.

(** ** Backups of the example library *)


(** An unreadable file leaves the library alone; the example backup replaces
    book [b1] and adds folder [C]. *)
Example importBackup_demo_backup :
  importBackup (None : @text demo_platform) demo_store
  = (inr SyntaxError, demo_store)
  /\ (exists db',
         importBackup (Some demo_backup : @text demo_platform) demo_store
         = (inl tt, db')
         /\ books db' !! "b1"
            = Some (book_record "b1" "Walden" "I went to the woods." None 0 5)
         /\ folders db' !! "A" = folders demo_store !! "A"
         /\ folders db' !! "C" = Some (folder_record "C" "Poems" None 3)).
Proof.
  split; [reflexivity|].
  exists (imported demo_backup demo_store). split.
  - apply (@importBackup_keyed demo_platform); try reflexivity.
    + apply Forall_cons. split; [by exists "b1"%string | constructor].
    + apply Forall_cons. split; [by exists "C"%string | constructor].
    + constructor.
  - by vm_compute.
Qed.

(** C8: an input that is not valid JSON makes [importBackup] fail with a
    [SyntaxError], and one whose parsed value has no version tag with the
    error [Invalid backup format]; in both cases every collection is
    exactly as before the call.  For an input that passes the validation
    and whose listed records carry their keys, the import succeeds and in
    every collection each key holds the last record of the file with that
    key if there is one and what it held before otherwise.  But a book of
    the file without a valid key stops the import with a [DataError]
    after the books listed before it were put, and these stay written:
    importing the example backup with a book without [id] into the
    example library fails, leaves book [b2] of the file in the library
    and never writes folder [C] of the file. *)
Theorem C8_import_stops_at_a_record_without_key :
  (forall (P : Platform) (jsonString : text) (db : Store),
      (JSON_parse jsonString = None ->
       importBackup jsonString db = (inr SyntaxError, db))
      /\ (forall data,
             JSON_parse jsonString = Some data ->
             get_prop data "version" = None \/ valid_backup data = false ->
             importBackup jsonString db = (inr InvalidBackup, db)))
  /\ (forall (P : Platform) (jsonString : text) (data : jsval) (db : Store),
         JSON_parse jsonString = Some data ->
         valid_backup data = true ->
         Forall (has_key "id") (array_items (get_prop data "books")) ->
         Forall (has_key "id") (array_items (get_prop data "folders")) ->
         Forall (has_key "word") (array_items (get_prop data "glossary")) ->
         exists db',
           importBackup jsonString db = (inl tt, db')
           /\ db' = imported data db
           /\ (forall k,
                  books db' !! k
                  = match last_with_key "id" k
                            (array_items (get_prop data "books")) with
                    | Some v => Some v
                    | None => books db !! k
                    end)
           /\ (forall k,
                  folders db' !! k
                  = match last_with_key "id" k
                            (array_items (get_prop data "folders")) with
                    | Some v => Some v
                    | None => folders db !! k
                    end)
           /\ (forall k,
                  glossary db' !! k
                  = match last_with_key "word" k
                            (array_items (get_prop data "glossary")) with
                    | Some v => Some v
                    | None => glossary db !! k
                    end)
           /\ (forall k, k <> "app" -> k <> "voice" ->
                         settings db' !! k = settings db !! k))
  /\ (forall (P : Platform) (jsonString : text) (data : jsval) (db : Store)
             (pre : list jsval) (v : jsval) (post : list jsval),
         JSON_parse jsonString = Some data ->
         valid_backup data = true ->
         array_items (get_prop data "books") = pre ++ v :: post ->
         Forall (has_key "id") pre ->
         valid_key_at "id" v = false ->
         importBackup jsonString db
         = (inr DataError, set_books (upsert_all "id" pre (books db)) db))
  /\ (valid_backup keyless_backup = true
      /\ exists db',
           importBackup (Some keyless_backup : @text demo_platform) demo_store
           = (inr DataError, db')
           /\ books demo_store !! "b2" = None
           /\ books db' !! "b2"
              = Some (book_record "b2" "Moby-Dick" "Call me Ishmael."
                                  None 0 3)
           /\ folders db' = folders demo_store
           /\ folders db' !! "C" = None
           /\ db' <> demo_store).
Proof.
  split; [intros P jsonString db; apply importBackup_rejects|].
  split.
  { intros P jsonString data db Hparse Hvalid Hb Hf Hg.
    exists (imported data db).
    split; [by apply importBackup_keyed|]. split; [done|].
    apply imported_lookup. }
  split; [intros P; intros; by eapply importBackup_stops_at_book|].
  split; [reflexivity|].
  destruct (importBackup (Some keyless_backup : @text demo_platform)
                         demo_store) as [[[]|e] db'] eqn:Himp;
    [by vm_compute in Himp|].
  assert (e = DataError) as -> by (vm_compute in Himp; congruence).
  exists db'. split; [done|].
  apply (f_equal snd) in Himp. cbn [snd] in Himp. rewrite <- Himp.
  split; [by vm_compute|]. split; [by vm_compute|].
  split; [by vm_compute|]. split; [by vm_compute|].
  intros Heq. apply (f_equal (fun s => books s !! "b2")) in Heq.
  by vm_compute in Heq.
Qed.



End StorageClaims.

Module PlaybackClaims.

Import Tokenizer Sentence Playback Spritz.
Import TokenizerFacts SentenceFacts PlaybackFacts SpritzFacts.

(** C2 as stated fails: the example text has 15 tokens; opened at the
    stored position 15, the position just past its last token, and played
    without voice, the first tick of the timer stops the playback and
    leaves the index at 15, which is not an index of the token array. *)
Lemma C2_stored_position_past_the_end :
  tokenize demo_text <> []
  /\ exists r,
       run silent_config (open_book demo_text 15) [TogglePlay; TimerTick]
       = Some r
       /\ total r = 15
       /\ currentIndex r = 15
       /\ ~ (0 <= currentIndex r <= total r - 1).
Proof.
  split; [by vm_compute|].
  destruct (run silent_config (open_book demo_text 15) [TogglePlay; TimerTick])
    as [r|] eqn:Hrun; [|by vm_compute in Hrun].
  exists r. split; [reflexivity|].
  vm_compute in Hrun. injection Hrun as <-.
  split; [reflexivity|]. split; [reflexivity|].
  unfold total. cbn. lia.
Qed.

(** The example text opened at its start: a seek far past the end lands on
    the last of its 15 tokens, a seek far before the start on the first. *)
Lemma C2_current_index_within_bounds_witness :
  tokenize demo_text <> []
  /\ 0 <= 0 <= Z.of_nat (length (tokenize demo_text)) - 1
  /\ (exists r, run silent_config (open_book demo_text 0)
                    [TogglePlay; TimerTick; ChangePosition 100] = Some r
                /\ 0 <= currentIndex r <= total r - 1
                /\ currentIndex r = 14)
  /\ (exists r, run silent_config (open_book demo_text 0)
                    [WordClick 5; NavigateBySentence true; ChangePosition (-100)]
                = Some r
                /\ 0 <= currentIndex r <= total r - 1
                /\ currentIndex r = 0).
Proof.
  assert (Hne : tokenize demo_text <> []) by by vm_compute.
  assert (Hpos : 0 <= 0 <= Z.of_nat (length (tokenize demo_text)) - 1)
    by by vm_compute.
  split; [exact Hne|]. split; [exact Hpos|]. split.
  - destruct (run silent_config (open_book demo_text 0)
                  [TogglePlay; TimerTick; ChangePosition 100])
      as [r|] eqn:Hrun; [|by vm_compute in Hrun].
    exists r. split; [reflexivity|].
    split; [apply (C2_current_index_within_bounds silent_config demo_text 0
                     Hne Hpos _ r Hrun)|].
    vm_compute in Hrun. by injection Hrun as <-.
  - destruct (run silent_config (open_book demo_text 0)
                  [WordClick 5; NavigateBySentence true; ChangePosition (-100)])
      as [r|] eqn:Hrun; [|by vm_compute in Hrun].
    exists r. split; [reflexivity|].
    split; [apply (C2_current_index_within_bounds silent_config demo_text 0
                     Hne Hpos _ r Hrun)|].
    vm_compute in Hrun. by injection Hrun as <-.
Defined.



(** In the example text the sentence around index 7 spans the indices 2
    to 8, and index 4 gives the same range. *)
Lemma C6_sentence_range_idempotent_witness :
  7 <> Z.of_nat (length demo_tokens)
  /\ r_start (getSentenceRange demo_tokens 7) <= 4
     <= r_end (getSentenceRange demo_tokens 7)
  /\ getSentenceRange demo_tokens 4 = getSentenceRange demo_tokens 7
  /\ getSentenceRange demo_tokens (r_start (getSentenceRange demo_tokens 7))
     = getSentenceRange demo_tokens 7.
Proof.
  assert (H1 : 7 <> Z.of_nat (length demo_tokens)) by by vm_compute.
  assert (H2 : r_start (getSentenceRange demo_tokens 7) <= 4
               <= r_end (getSentenceRange demo_tokens 7)) by by vm_compute.
  split; [exact H1|]. split; [exact H2|].
  exact (C6_sentence_range_idempotent demo_tokens 7 4 H1 H2).
Defined.

(** The word "rained." (seven characters) has its pivot at index 3. *)
Lemma C9_spritz_pivot_witness :
  at_index demo_tokens 1 = Some (str "rained.")
  /\ str "rained." <> []
  /\ Z.of_nat (length (pre (renderSpritz demo_tokens 1))) = (7 + 1) / 2 - 1
  /\ pre (renderSpritz demo_tokens 1) ++ center (renderSpritz demo_tokens 1)
       ++ post (renderSpritz demo_tokens 1) = str "rained.".
Proof.
  assert (H1 : at_index demo_tokens 1 = Some (str "rained.")) by reflexivity.
  assert (H2 : str "rained." <> []) by discriminate.
  split; [exact H1|]. split; [exact H2|].
  pose proof (C9_spritz_pivot demo_tokens 1 (str "rained.") H1 H2)
    as (_ & Hpre & Hparts & _).
  split; [exact Hpre | exact Hparts].
Defined.

End PlaybackClaims.

(* ===================================================================== *)
(** * Facts about single records and batches of the gateway *)
(* ===================================================================== *)

Module GatewayFacts.

Import Storage Gateway StorageFacts.

(** ** Deleting *)

Lemma delete_all_lookup ids (m : gmap string jsval) k :
  delete_all ids m !! k = if bool_decide (k ∈ ids) then None else m !! k.
Proof.
  unfold delete_all. revert m. induction ids as [|id ids IH]; intros m.
  - by rewrite bool_decide_eq_false_2 by apply not_elem_of_nil.
  - cbn [fold_left]. rewrite IH. destruct (decide (k = id)) as [->|Hne].
    + rewrite lookup_delete_eq.
      rewrite (bool_decide_eq_true_2 (id ∈ id :: ids)) by by left.
      by case_bool_decide.
    + rewrite lookup_delete_ne by done.
      erewrite bool_decide_ext; [done|].
      rewrite elem_of_cons. intuition congruence.
Qed.

Lemma keyed_subseteq keyPath (m m' : gmap string jsval) :
  (forall k v, m' !! k = Some v -> m !! k = Some v) ->
  keyed keyPath m -> keyed keyPath m'.
Proof. intros Hsub Hm k v Hk. by apply Hm, Hsub. Qed.

Lemma keyed_delete_all keyPath ids (m : gmap string jsval) :
  keyed keyPath m -> keyed keyPath (delete_all ids m).
Proof.
  apply keyed_subseteq. intros k v. rewrite delete_all_lookup.
  by case_bool_decide.
Qed.

Lemma elem_of_getAll `{Platform} (m : gmap string jsval) v :
  v ∈ getAll m <-> exists k, m !! k = Some v.
Proof.
  rewrite (getAll_values m), list_elem_of_fmap. split.
  - intros ([k v'] & -> & Hin). exists k. by apply elem_of_map_to_list.
  - intros [k Hk]. exists (k, v). split; [done|]. by apply elem_of_map_to_list.
Qed.

(** X1: [deleteItems] removes exactly the listed books and folders: a
    listed id is absent afterwards, whether or not it was there before,
    and every other book and folder, every setting and every glossary
    entry is as before; [getBooks] lists the books that are left.
    Nothing is removed along with a folder: a book that is not listed
    stays, with its parent reference, when the folder it names is
    deleted. *)
Theorem deleteItems_removes_listed `{Platform}
  (bookIds folderIds : list string) (db : Store) :
  (forall k, books (deleteItems bookIds folderIds db) !! k
             = if bool_decide (k ∈ bookIds) then None else books db !! k)
  /\ (forall k, folders (deleteItems bookIds folderIds db) !! k
                = if bool_decide (k ∈ folderIds) then None
                  else folders db !! k)
  /\ settings (deleteItems bookIds folderIds db) = settings db
  /\ glossary (deleteItems bookIds folderIds db) = glossary db
  /\ (store_wf db -> store_wf (deleteItems bookIds folderIds db))
  /\ (forall v, v ∈ getBooks (deleteItems bookIds folderIds db)
                <-> (exists k, (k ∉ bookIds) /\ books db !! k = Some v))
  /\ (forall k book f,
         k ∉ bookIds -> f ∈ folderIds ->
         books db !! k = Some book ->
         get_prop book "parentId" = Some (JStr f) ->
         books (deleteItems bookIds folderIds db) !! k = Some book
         /\ folders (deleteItems bookIds folderIds db) !! f = None).
Proof.
  assert (Hb : forall k, books (deleteItems bookIds folderIds db) !! k
             = if bool_decide (k ∈ bookIds) then None else books db !! k)
    by (intros k; apply delete_all_lookup).
  assert (Hf : forall k, folders (deleteItems bookIds folderIds db) !! k
             = if bool_decide (k ∈ folderIds) then None else folders db !! k)
    by (intros k; apply delete_all_lookup).
  split; [done|]. split; [done|]. split; [done|]. split; [done|].
  split; [|split].
  - intros (Hbooks & Hfolders & Hglossary). split; [|split]; [| |done].
    + by apply keyed_delete_all.
    + by apply keyed_delete_all.
  - intros v. unfold getBooks. rewrite elem_of_getAll. split.
    + intros [k Hk]. rewrite Hb in Hk. case_bool_decide; [done|]. by exists k.
    + intros (k & Hk & Hv). exists k. rewrite Hb.
      by rewrite bool_decide_eq_false_2.
  - intros k book f Hk Hfin Hbook _. rewrite Hb, Hf.
    rewrite bool_decide_eq_false_2 by done.
    by rewrite bool_decide_eq_true_2.
Qed.

(** ** Saving *)

Lemma put_in_keyed coll set_coll keyPath v k db :
  key_at keyPath v = Some k ->
  put_in coll set_coll keyPath v db
  = (inl tt, set_coll (<[k := v]> (coll db)) db).
Proof. intros Hk. unfold put_in, put. by rewrite Hk. Qed.

Lemma put_in_keyless coll set_coll keyPath v db :
  valid_key_at keyPath v = false ->
  put_in coll set_coll keyPath v db = (inr DataError, db).
Proof.
  intros Hv. unfold put_in, put.
  assert (Hk : key_at keyPath v = None).
  { unfold valid_key_at, key_at in *.
    destruct (get_prop v keyPath) as [[]|]; done. }
  by rewrite Hk, Hv.
Qed.

(** X2: [saveBook] of a record whose [id] is the string [k] stores the
    record under [k], in place of any book stored there, and leaves every
    other book and the other three collections as they were; [getBooks]
    then lists the record, and records that sat under their keys still
    do.  A record in which the key path [id] finds no valid key (no [id],
    or [null], a boolean or an object as [id]) is refused with a
    [DataError] and nothing is written.  [saveFolder] behaves the same
    way. *)
Theorem saveBook_then_getBooks `{Platform} (record : jsval) (db : Store) :
  (forall k, key_at "id" record = Some k ->
     exists db',
       saveBook record db = (inl tt, db')
       /\ books db' !! k = Some record
       /\ (forall k', k' <> k -> books db' !! k' = books db !! k')
       /\ folders db' = folders db
       /\ settings db' = settings db
       /\ glossary db' = glossary db
       /\ record ∈ getBooks db'
       /\ (store_wf db -> store_wf db'))
  /\ (valid_key_at "id" record = false ->
      saveBook record db = (inr DataError, db))
  /\ (forall k, key_at "id" record = Some k ->
        exists db',
          saveFolder record db = (inl tt, db')
          /\ folders db' !! k = Some record
          /\ (forall k', k' <> k -> folders db' !! k' = folders db !! k')
          /\ books db' = books db
          /\ settings db' = settings db
          /\ glossary db' = glossary db
          /\ record ∈ getFolders db'
          /\ (store_wf db -> store_wf db'))
  /\ (valid_key_at "id" record = false ->
      saveFolder record db = (inr DataError, db)).
Proof.
  split; [|split; [|split]].
  - intros k Hk. eexists. split; [by apply put_in_keyed|].
    cbn [books folders settings glossary set_books].
    split; [by rewrite lookup_insert_eq|].
    split; [by intros k' Hne; rewrite lookup_insert_ne|].
    do 3 (split; [done|]). split.
    + unfold getBooks. apply elem_of_getAll. exists k.
      cbn [books set_books]. by rewrite lookup_insert_eq.
    + intros (Hb & Hf & Hg). split; [|done]. by apply keyed_insert.
  - apply put_in_keyless.
  - intros k Hk. eexists. split; [by apply put_in_keyed|].
    cbn [books folders settings glossary set_folders].
    split; [by rewrite lookup_insert_eq|].
    split; [by intros k' Hne; rewrite lookup_insert_ne|].
    do 3 (split; [done|]). split.
    + unfold getFolders. apply elem_of_getAll. exists k.
      cbn [folders set_folders]. by rewrite lookup_insert_eq.
    + intros (Hb & Hf & Hg). split; [done|]. split; [|done].
      by apply keyed_insert.
  - apply put_in_keyless.
Qed.

(** ** Reading progress *)

Lemma get_prop_set_prop_eq props name x :
  get_prop (set_prop (JObj props) name x) name = Some x.
Proof. cbn. by rewrite lookup_insert_eq. Qed.

Lemma get_prop_set_prop_ne v name name' x :
  name <> name' -> get_prop (set_prop v name x) name' = get_prop v name'.
Proof. intros Hne. destruct v; try done. cbn. by rewrite lookup_insert_ne. Qed.

Lemma key_at_object keyPath v k :
  key_at keyPath v = Some k -> exists props, v = JObj props.
Proof. unfold key_at, get_prop. destruct v; try done. by eexists. Qed.

(** X3: [saveProgress] for an id that is not stored writes nothing and
    still succeeds.  For a stored book it succeeds and replaces that book
    by a record with the new [lastPosition] and [lastRead] and every other
    field as before; every other book stays, and the records still sit
    under their keys. *)
Theorem saveProgress_updates_one_book
  (now : Z) (id : string) (position : Qc) (db : Store) :
  store_wf db ->
  (books db !! id = None -> saveProgress now id position db = (inl tt, db))
  /\ (forall book, books db !! id = Some book ->
        exists book' db',
          saveProgress now id position db = (inl tt, db')
          /\ books db' !! id = Some book'
          /\ get_prop book' "lastPosition" = Some (JNum position)
          /\ get_prop book' "lastRead" = Some (JInt now)
          /\ (forall name, name <> "lastPosition"%string ->
                           name <> "lastRead"%string ->
                           get_prop book' name = get_prop book name)
          /\ (forall k, k <> id -> books db' !! k = books db !! k)
          /\ folders db' = folders db
          /\ settings db' = settings db
          /\ glossary db' = glossary db
          /\ store_wf db').
Proof.
  intros (Hb & Hf & Hg). split.
  - intros Hnone. unfold saveProgress. by rewrite Hnone.
  - intros book Hbook. pose proof (Hb _ _ Hbook) as Hkey.
    destruct (key_at_object _ _ _ Hkey) as [props ->].
    set (book' := set_prop (set_prop (JObj props) "lastPosition"
                                     (JNum position))
                           "lastRead" (JInt now)).
    assert (Hkey' : key_at "id" book' = Some id).
    { unfold book', key_at. rewrite !get_prop_set_prop_ne by done.
      apply Hkey. }
    exists book', (set_books (<[id := book']> (books db)) db).
    split; [|split; [|split; [|split; [|split; [|split]]]]].
    + unfold saveProgress. rewrite Hbook. cbn [truthy].
      by apply put_in_keyed.
    + cbn [books set_books]. by rewrite lookup_insert_eq.
    + unfold book'. rewrite get_prop_set_prop_ne by done.
      apply get_prop_set_prop_eq.
    + unfold book'. apply get_prop_set_prop_eq.
    + intros name Hn1 Hn2. unfold book'.
      by rewrite !get_prop_set_prop_ne.
    + intros k Hk. cbn [books set_books]. by rewrite lookup_insert_ne.
    + do 3 (split; [done|]). split; [|done]. by apply keyed_insert.
Qed.

(** ** Moving books *)

Lemma fold_move_book_lookup target (before : gmap string jsval) bookIds :
  keyed "id" before ->
  exists bs,
    fold_left (move_book target before) bookIds (Some before) = Some bs
    /\ forall k,
         bs !! k
         = if bool_decide (k ∈ bookIds)
           then (fun b => set_prop b "parentId" (parent_value target))
                  <$> before !! k
           else before !! k.
Proof.
  intros Hkeyed.
  assert (Hgen : forall ids (m : gmap string jsval) done_ids,
    (forall k, m !! k
               = if bool_decide (k ∈ done_ids)
                 then (fun b => set_prop b "parentId" (parent_value target))
                        <$> before !! k
                 else before !! k) ->
    exists bs,
      fold_left (move_book target before) ids (Some m) = Some bs
      /\ forall k,
           bs !! k
           = if bool_decide (k ∈ done_ids ++ ids)
             then (fun b => set_prop b "parentId" (parent_value target))
                    <$> before !! k
             else before !! k).
  { induction ids as [|id ids IH]; intros m done_ids Hm.
    - exists m. split; [done|]. intros k. by rewrite app_nil_r.
    - cbn [fold_left]. unfold move_book at 2.
      assert (Hstep : exists m',
        match before !! id with
        | Some book =>
            if truthy (Some book)
            then put "id" (set_prop book "parentId" (parent_value target)) m
            else Some m
        | None => Some m
        end = Some m'
        /\ forall k, m' !! k
               = if bool_decide (k ∈ done_ids ++ [id])
                 then (fun b => set_prop b "parentId" (parent_value target))
                        <$> before !! k
                 else before !! k).
      { destruct (before !! id) as [book|] eqn:Hbook.
        - pose proof (Hkeyed _ _ Hbook) as Hkey.
          rewrite (key_at_truthy "id") by by eexists.
          unfold put. rewrite key_at_set_prop, Hkey by (done || by eexists).
          eexists. split; [done|]. intros k.
          rewrite lookup_insert. case_decide as Hk.
          + subst k. rewrite bool_decide_eq_true_2, Hbook; [done|].
            apply elem_of_app. right. by left.
          + rewrite Hm. erewrite bool_decide_ext; [done|].
            rewrite elem_of_app, list_elem_of_singleton. intuition congruence.
        - exists m. split; [done|]. intros k. rewrite Hm.
          destruct (decide (k = id)) as [->|Hk].
          + rewrite Hbook. by do 2 case_bool_decide.
          + erewrite bool_decide_ext; [done|].
            rewrite elem_of_app, list_elem_of_singleton. intuition congruence. }
      destruct Hstep as (m' & -> & Hm').
      destruct (IH m' (done_ids ++ [id]) Hm') as (bs & Hbs & Hlook).
      exists bs. split; [done|]. intros k. rewrite Hlook.
      by rewrite <- app_assoc. }
  destruct (Hgen bookIds before []) as (bs & Hbs & Hlook).
  - intros k. rewrite bool_decide_eq_false_2; [done|]. apply not_elem_of_nil.
  - by exists bs.
Qed.

Lemma keyed_reparent (before m : gmap string jsval) (P : string -> Prop)
  `{forall k, Decision (P k)} target :
  keyed "id" before ->
  (forall k, m !! k
             = if bool_decide (P k)
               then (fun b => set_prop b "parentId" (parent_value target))
                      <$> before !! k
               else before !! k) ->
  keyed "id" m /\ dom m = dom before.
Proof.
  intros Hkeyed Hm. split.
  - intros k v. rewrite Hm. case_bool_decide; [|apply Hkeyed].
    destruct (before !! k) as [b|] eqn:Hb; [|done]. intros [= <-].
    rewrite key_at_set_prop; [by apply Hkeyed|done|].
    exists k. by apply Hkeyed.
  - apply set_eq. intros k. rewrite !elem_of_dom, Hm.
    case_bool_decide; [|done]. by rewrite fmap_is_Some.
Qed.

(** X4: on a store whose records sit under their keys, [moveItems]
    succeeds; every listed book that is stored gets the target as its
    [parentId] and keeps every other field, listed ids that are not
    stored are skipped, and every other book is as before.  The move
    creates and deletes nothing: both collections keep their key sets,
    the settings and the glossary are untouched, and the records still
    sit under their keys. *)
Theorem moveItems_reparents_books
  (bookIds folderIds : list string) (target : option string) (db : Store) :
  store_wf db ->
  exists db',
    moveItems bookIds folderIds target db = Some db'
    /\ (forall k,
           books db' !! k
           = if bool_decide (k ∈ bookIds)
             then (fun b => set_prop b "parentId" (parent_value target))
                    <$> books db !! k
             else books db !! k)
    /\ (forall k book,
           k ∈ bookIds -> books db !! k = Some book ->
           exists book',
             books db' !! k = Some book'
             /\ get_prop book' "parentId" = Some (parent_value target)
             /\ forall name, name <> "parentId"%string ->
                             get_prop book' name = get_prop book name)
    /\ dom (books db') = dom (books db)
    /\ dom (folders db') = dom (folders db)
    /\ settings db' = settings db
    /\ glossary db' = glossary db
    /\ store_wf db'.
Proof.
  intros (Hb & Hf & Hg). unfold moveItems.
  destruct (fold_move_book_lookup target (books db) bookIds Hb)
    as (bs & -> & Hbs).
  destruct (fold_move_folder target (folders db) folderIds Hf)
    as (fs & -> & Hfs).
  destruct (keyed_reparent (books db) bs (fun k => k ∈ bookIds) target Hb Hbs)
    as [Hbk Hbd].
  destruct (keyed_reparent (folders db) fs
              (fun k => k ∈ folderIds /\ Some k <> target) target Hf Hfs)
    as [Hfk Hfd].
  eexists. split; [done|]. cbn [books folders settings glossary set_books
                                 set_folders].
  split; [done|]. split.
  - intros k book Hin Hbook. pose proof (Hb _ _ Hbook) as Hkey.
    destruct (key_at_object _ _ _ Hkey) as [props ->].
    eexists. rewrite Hbs, bool_decide_eq_true_2, Hbook by done.
    split; [done|]. split; [apply get_prop_set_prop_eq|].
    intros name Hne. by apply get_prop_set_prop_ne.
  - done.
Qed.

(** ** Importing twice, and restoring a store from its own backup *)

Lemma upsert_all_idemp keyPath records (m : gmap string jsval) :
  upsert_all keyPath records (upsert_all keyPath records m)
  = upsert_all keyPath records m.
Proof.
  apply map_eq. intros k. rewrite !upsert_all_lookup.
  by destruct (last_with_key keyPath k records).
Qed.

Lemma put_if_truthy_lookup key v (m : gmap string jsval) k :
  put_if_truthy key v m !! k
  = if bool_decide (k = key) && truthy v then v else m !! k.
Proof.
  unfold put_if_truthy. destruct v as [x|].
  - destruct (truthy (Some x)) eqn:Ht.
    + rewrite andb_true_r, lookup_insert. case_decide; case_bool_decide; done || congruence.
    + by rewrite andb_false_r.
  - by rewrite andb_false_r.
Qed.

Lemma imported_idemp data db :
  imported data (imported data db) = imported data db.
Proof.
  unfold imported. cbn [books folders settings glossary].
  f_equal; try apply upsert_all_idemp.
  destruct (truthy (get_prop data "settings")); [|done].
  apply map_eq. intros k. rewrite !put_if_truthy_lookup.
  destruct (bool_decide (k = "voice") && truthy (settings_prop data "voice"));
    [done|].
  by destruct (bool_decide (k = "app") && truthy (settings_prop data "app")).
Qed.

(** X5: importing the same backup a second time changes nothing: for a
    backup that passes the validation and whose records carry their keys,
    both imports succeed and the store after the second import is the
    store after the first. *)
Theorem importBackup_twice `{Platform}
  (jsonString : text) (data : jsval) (db : Store) :
  JSON_parse jsonString = Some data ->
  valid_backup data = true ->
  Forall (has_key "id") (array_items (get_prop data "books")) ->
  Forall (has_key "id") (array_items (get_prop data "folders")) ->
  Forall (has_key "word") (array_items (get_prop data "glossary")) ->
  exists db',
    importBackup jsonString db = (inl tt, db')
    /\ importBackup jsonString db' = (inl tt, db').
Proof.
  intros Hparse Hvalid Hb Hf Hg. exists (imported data db).
  rewrite !(importBackup_keyed jsonString data) by done.
  by rewrite imported_idemp.
Qed.

Lemma upsert_all_own keyPath (m : gmap string jsval) records :
  keyed keyPath m ->
  (forall v, v ∈ records -> exists k, m !! k = Some v) ->
  upsert_all keyPath records m = m.
Proof.
  intros Hkeyed Hown. apply map_eq. intros k. rewrite upsert_all_lookup.
  destruct (last_with_key keyPath k records) as [v|] eqn:Hlast; [|done].
  apply last_with_key_elem in Hlast as [Hin Hkey].
  destruct (Hown v Hin) as [k' Hk'].
  pose proof (Hkeyed _ _ Hk') as Hkey'. congruence.
Qed.

Lemma settings_object_prop db name :
  name = "app"%string \/ name = "voice"%string ->
  get_prop (settings_object db) name = settings db !! name.
Proof.
  intros Hname. unfold settings_object. cbn [get_prop].
  destruct Hname as [-> | ->].
  - destruct (settings db !! "app") as [a|] eqn:Ha.
    + by rewrite lookup_insert_eq.
    + destruct (settings db !! "voice") as [v|] eqn:Hv.
      * by rewrite lookup_insert_ne.
      * done.
  - destruct (settings db !! "app") as [a|] eqn:Ha.
    + rewrite lookup_insert_ne by done.
      destruct (settings db !! "voice") as [v|] eqn:Hv.
      * by rewrite lookup_insert_eq.
      * done.
    + destruct (settings db !! "voice") as [v|] eqn:Hv.
      * by rewrite lookup_insert_eq.
      * done.
Qed.

Lemma put_if_truthy_own key (m : gmap string jsval) :
  put_if_truthy key (m !! key) m = m.
Proof.
  unfold put_if_truthy. destruct (m !! key) as [x|] eqn:Hx; [|done].
  destruct (truthy (Some x)); [|done]. by apply insert_id.
Qed.

(** X6: restoring a store from its own backup changes nothing: on a store
    whose records sit under their keys, importing the text that
    [exportBackup] just produced from the store succeeds and leaves all
    four collections exactly as they were. *)
Theorem restore_own_backup `{Platform} (db : Store) (now : Z) :
  store_wf db ->
  importBackup (exportBackup now db) db = (inl tt, db).
Proof.
  intros (Hbooks & Hfolders & Hglossary).
  unfold exportBackup. rewrite (getGlossary_glossary db Hglossary).
  match goal with
  | |- context [JSON_stringify ?b] => set (backup := b)
  end.
  assert (Hversion : get_prop backup "version" = Some (JInt 1)) by done.
  assert (Hb : get_prop backup "books" = Some (JArr (getAll (books db))))
    by done.
  assert (Hf : get_prop backup "folders" = Some (JArr (getAll (folders db))))
    by done.
  assert (Hg : get_prop backup "glossary"
               = Some (JArr (Object_values
                               (delete "__proto__" (glossary db))))) by done.
  assert (Hs : get_prop backup "settings" = Some (settings_object db))
    by done.
  rewrite (importBackup_keyed _ backup).
  - f_equal. unfold imported. rewrite Hb, Hf, Hg, Hs. cbn [array_items].
    unfold settings_prop. rewrite Hs.
    rewrite !settings_object_prop by auto.
    assert (Hsettings : truthy (Some (settings_object db)) = true) by done.
    rewrite Hsettings.
    rewrite (upsert_all_own "id" (books db)), (upsert_all_own "id" (folders db)),
      (upsert_all_own "word" (glossary db)); try done.
    + rewrite !put_if_truthy_own. by destruct db.
    + intros v.
      rewrite (Object_values_values (delete "__proto__" (glossary db))),
        list_elem_of_fmap.
      intros ([k v'] & -> & Hin). exists k.
      apply elem_of_map_to_list in Hin.
      by apply lookup_delete_Some in Hin as [_ Hin].
    + intros v. by rewrite elem_of_getAll.
    + intros v. by rewrite elem_of_getAll.
  - apply JSON_parse_stringify.
  - unfold valid_backup. by rewrite Hversion.
  - rewrite Hb. by apply getAll_keyed.
  - rewrite Hf. by apply getAll_keyed.
  - rewrite Hg. by apply Object_values_keyed, keyed_delete.
Qed.

End GatewayFacts.

(* ===================================================================== *)
(** * Facts about the application state *)
(* ===================================================================== *)

Module AppFacts.

Import Storage Gateway App StorageFacts GatewayFacts.

(** ** The glossary in the state and in the store *)

Lemma key_at_item_value item : key_at "word" (item_value item) = Some (gi_word item).
Proof. unfold key_at, item_value. cbn. by rewrite lookup_insert_eq. Qed.

(** X7: [handleGlossaryUpdate] keeps the glossary shown by the
    application equal to the glossary that [getGlossary] reads back from
    the store, for every word but [__proto__]: when the two agree before
    an update and the stored entries sit under their words, they agree
    after it, unless the update adds an item for the word [__proto__];
    the state then holds the item as an own property (a computed key),
    the store holds it too, and [getGlossary] reads back no entry for it.
    Adding an item makes it the entry of its word in the state, removing
    a word leaves no entry for it, every other entry is untouched, and a
    call whose argument does not fit the action changes neither state nor
    store. *)
Theorem handleGlossaryUpdate_keeps_state_and_store_equal `{Platform}
  (item : GlossaryArg) (action : GlossaryAction)
  (glossaryState : gmap string jsval) (db : Store) :
  keyed "word" (glossary db) ->
  glossaryState = getGlossary db ->
  keyed "word" (glossary (handleGlossaryUpdate item action glossaryState db).2)
  /\ ((forall it, item = an_item it -> action = add ->
                  gi_word it <> "__proto__"%string) ->
      (handleGlossaryUpdate item action glossaryState db).1
      = getGlossary (handleGlossaryUpdate item action glossaryState db).2)
  /\ (forall it, item = an_item it -> action = add ->
        gi_word it = "__proto__"%string ->
        (handleGlossaryUpdate item action glossaryState db).1 !! "__proto__"
        = Some (item_value it)
        /\ glossary (handleGlossaryUpdate item action glossaryState db).2
             !! "__proto__" = Some (item_value it)
        /\ getGlossary (handleGlossaryUpdate item action glossaryState db).2
             !! "__proto__" = None)
  /\ (forall it, item = an_item it -> action = add ->
        (handleGlossaryUpdate item action glossaryState db).1 !! gi_word it
        = Some (item_value it)
        /\ forall w, w <> gi_word it ->
             (handleGlossaryUpdate item action glossaryState db).1 !! w
             = glossaryState !! w)
  /\ (forall w, item = a_word w -> action = remove ->
        (handleGlossaryUpdate item action glossaryState db).1 !! w = None
        /\ forall w', w' <> w ->
             (handleGlossaryUpdate item action glossaryState db).1 !! w'
             = glossaryState !! w')
  /\ (forall it, item = an_item it -> action = remove ->
        handleGlossaryUpdate item action glossaryState db
        = (glossaryState, db))
  /\ (forall w, item = a_word w -> action = add ->
        handleGlossaryUpdate item action glossaryState db
        = (glossaryState, db)).
Proof.
  intros Hkeyed Hsync. rewrite (getGlossary_glossary db Hkeyed) in Hsync.
  assert (Hstore : keyed "word"
            (glossary (handleGlossaryUpdate item action glossaryState db).2)).
  { destruct action, item as [it|w]; cbn; try done.
    - unfold saveGlossaryItem.
      rewrite (put_in_keyed _ _ _ _ (gi_word it)) by apply key_at_item_value.
      cbn. apply keyed_insert; [done|apply key_at_item_value].
    - by apply keyed_delete. }
  split; [done|]. split.
  - intros Hword. rewrite (getGlossary_glossary _ Hstore).
    destruct action, item as [it|w]; cbn; try done.
    + unfold saveGlossaryItem.
      rewrite (put_in_keyed _ _ _ _ (gi_word it)) by apply key_at_item_value.
      cbn. rewrite Hsync.
      specialize (Hword it eq_refl eq_refl).
      by rewrite delete_insert_ne.
    + rewrite Hsync. apply delete_delete.
  - split; [|split; [|split; [|split]]].
    + intros it -> -> Hword.
      rewrite (getGlossary_glossary _ Hstore). cbn.
      unfold saveGlossaryItem.
      rewrite (put_in_keyed _ _ _ _ (gi_word it)) by apply key_at_item_value.
      cbn. rewrite Hword.
      by rewrite !lookup_insert_eq, lookup_delete_eq.
    + intros it -> ->. cbn. split; [by rewrite lookup_insert_eq|].
      intros w Hw. by rewrite lookup_insert_ne.
    + intros w -> ->. cbn. split; [by rewrite lookup_delete_eq|].
      intros w' Hw. by rewrite lookup_delete_ne.
    + by intros it -> ->.
    + by intros w -> ->.
Qed.

(** ** Loading the settings *)

Lemma coalesce_not_nullish a b x :
  nullish (Some x) = false ->
  nullish (coalesce a (coalesce b (Some x))) = false.
Proof.
  intros Hx. unfold coalesce.
  destruct (nullish a) eqn:Ha; [|done]. by destruct (nullish b) eqn:Hb.
Qed.

Lemma coalesce_some a b x :
  nullish (Some x) = false ->
  exists y, coalesce a (coalesce b (Some x)) = Some y /\ nullish (Some y) = false.
Proof.
  intros Hx. pose proof (coalesce_not_nullish a b x Hx) as Hn.
  destruct (coalesce a (coalesce b (Some x))) as [y|]; [by exists y|done].
Qed.

Lemma coalesce_own a b : nullish a = false -> coalesce a b = a.
Proof. intros Ha. unfold coalesce. by rewrite Ha. Qed.

Lemma load_app_settings_shape saved :
  load_app_settings saved
  = load_with DEFAULT_SETTINGS "spritzWpm" "wpm" "spritzFontSize"
              (Some "fontSize"%string) saved.
Proof. done. Qed.

Lemma load_voice_settings_shape saved :
  load_voice_settings saved
  = load_with DEFAULT_VOICE_SETTINGS "normalEnabled" "enabled" "spritzEnabled"
              None saved.
Proof. done. Qed.

Section load_with.

Variables (defaults : gmap string jsval) (k1 legacy1 k2 : string)
          (legacy2 : option string) (d1 d2 : jsval).
Hypothesis Hk : k1 <> k2.
Hypothesis Hd1 : defaults !! k1 = Some d1.
Hypothesis Hd2 : defaults !! k2 = Some d2.
Hypothesis Hn1 : nullish (Some d1) = false.
Hypothesis Hn2 : nullish (Some d2) = false.

Abbreviation load := (load_with defaults k1 legacy1 k2 legacy2).

Lemma load_with_k1 (s : gmap string jsval) :
  load (Some s) !! k1
  = coalesce (s !! k1) (coalesce (s !! legacy1) (Some d1)).
Proof using Hk Hd1 Hn1.
  unfold load_with. rewrite Hd1.
  destruct (coalesce_some (s !! k1) (s !! legacy1) d1 Hn1) as (y & Hy & _).
  rewrite Hy.
  assert (Hinner : with_prop k1 (Some y) (s ∪ defaults) !! k1 = Some y)
    by apply lookup_insert_eq.
  destruct (coalesce (s !! k2) _) as [z|]; cbn [with_prop].
  - by rewrite lookup_insert_ne.
  - by rewrite lookup_delete_ne.
Qed.

Lemma load_with_k2_some (s : gmap string jsval) :
  exists y,
    coalesce (s !! k2)
      (match legacy2 with
       | Some l => coalesce (s !! l) (defaults !! k2)
       | None => defaults !! k2
       end) = Some y
    /\ nullish (Some y) = false.
Proof using Hd2 Hn2.
  rewrite Hd2. destruct legacy2 as [l|].
  - by apply coalesce_some.
  - unfold coalesce. destruct (nullish (s !! k2)) eqn:Hs; [by exists d2|].
    destruct (s !! k2) as [y|]; [by exists y|done].
Qed.

Lemma load_with_k2 (s : gmap string jsval) :
  load (Some s) !! k2
  = coalesce (s !! k2)
      (match legacy2 with
       | Some l => coalesce (s !! l) (Some d2)
       | None => Some d2
       end).
Proof using Hd2 Hn2.
  unfold load_with.
  destruct (load_with_k2_some s) as (y & Hy & _).
  rewrite Hy. cbn [with_prop]. rewrite lookup_insert_eq.
  by rewrite <- Hy, Hd2.
Qed.

Lemma load_with_other (s : gmap string jsval) name :
  name <> k1 -> name <> k2 ->
  load (Some s) !! name
  = match s !! name with
    | Some v => Some v
    | None => defaults !! name
    end.
Proof using Hd1 Hd2 Hn1 Hn2.
  intros H1 H2. unfold load_with.
  destruct (load_with_k2_some s) as (y & -> & _).
  rewrite Hd1.
  destruct (coalesce_some (s !! k1) (s !! legacy1) d1 Hn1) as (z & -> & _).
  cbn [with_prop]. rewrite !lookup_insert_ne by done.
  rewrite lookup_union. by destruct (s !! name), (defaults !! name).
Qed.

Lemma load_with_not_nullish saved :
  nullish (load saved !! k1) = false /\ nullish (load saved !! k2) = false.
Proof using Hk Hd1 Hd2 Hn1 Hn2.
  destruct saved as [s|].
  - rewrite load_with_k1, load_with_k2. split.
    + by apply coalesce_not_nullish.
    + destruct legacy2 as [l|]; [by apply coalesce_not_nullish|].
      unfold coalesce. by destruct (nullish (s !! k2)) eqn:Hs.
  - unfold load_with. by rewrite Hd1, Hd2.
Qed.

Lemma load_with_defaults_present saved name :
  is_Some (defaults !! name) -> is_Some (load saved !! name).
Proof using Hk Hd1 Hd2 Hn1 Hn2.
  intros Hdef. destruct (load_with_not_nullish saved) as [H1 H2].
  destruct (decide (name = k1)) as [->|Hne1].
  { by destruct (load saved !! k1). }
  destruct (decide (name = k2)) as [->|Hne2].
  { by destruct (load saved !! k2). }
  destruct saved as [s|]; [|done].
  rewrite load_with_other by done. by destruct (s !! name).
Qed.

Lemma load_with_idemp saved : load (Some (load saved)) = load saved.
Proof using Hk Hd1 Hd2 Hn1 Hn2.
  apply map_eq. intros name.
  destruct (load_with_not_nullish saved) as [H1 H2].
  destruct (decide (name = k1)) as [->|Hne1].
  { rewrite load_with_k1. by apply coalesce_own. }
  destruct (decide (name = k2)) as [->|Hne2].
  { rewrite load_with_k2. by apply coalesce_own. }
  rewrite load_with_other by done.
  destruct (load saved !! name) as [v|] eqn:Hv; [done|].
  destruct (defaults !! name) as [d|] eqn:Hdn; [|done].
  destruct (load_with_defaults_present saved name) as [v Hv'];
    [by rewrite Hdn|congruence].
Qed.

End load_with.

(** X8: the settings that [loadData] computes from the saved ones lose
    nothing and lack nothing.  Every property that has a default is
    present; a saved property is kept as saved and a property that was
    not saved takes its default; [spritzWpm] and [spritzFontSize] are
    never null or missing, taking the saved value, else the value saved
    under the former name [wpm] or [fontSize], else the default; with
    nothing saved the result is the defaults; and loading what was
    computed gives the same settings again.  The voice settings are
    computed the same way, with [enabled] as the former name of
    [normalEnabled]. *)
Theorem loadData_settings_migration (saved : option (gmap string jsval)) :
  (forall name, is_Some (DEFAULT_SETTINGS !! name) ->
                is_Some (load_app_settings saved !! name))
  /\ (forall savedApp name,
         saved = Some savedApp ->
         name <> "spritzWpm"%string -> name <> "spritzFontSize"%string ->
         load_app_settings saved !! name
         = match savedApp !! name with
           | Some v => Some v
           | None => DEFAULT_SETTINGS !! name
           end)
  /\ (forall savedApp,
         saved = Some savedApp ->
         load_app_settings saved !! "spritzWpm"
         = coalesce (savedApp !! "spritzWpm")
             (coalesce (savedApp !! "wpm") (Some (JInt 300)))
         /\ load_app_settings saved !! "spritzFontSize"
            = coalesce (savedApp !! "spritzFontSize")
                (coalesce (savedApp !! "fontSize") (Some (JInt 32))))
  /\ nullish (load_app_settings saved !! "spritzWpm") = false
  /\ nullish (load_app_settings saved !! "spritzFontSize") = false
  /\ load_app_settings None = DEFAULT_SETTINGS
  /\ load_app_settings (Some (load_app_settings saved))
     = load_app_settings saved
  /\ (forall name, is_Some (DEFAULT_VOICE_SETTINGS !! name) ->
                   is_Some (load_voice_settings saved !! name))
  /\ (forall v,
         saved = Some v ->
         load_voice_settings saved !! "normalEnabled"
         = coalesce (v !! "normalEnabled")
             (coalesce (v !! "enabled") (Some (JBool true)))
         /\ load_voice_settings saved !! "spritzEnabled"
            = coalesce (v !! "spritzEnabled") (Some (JBool true))
         /\ forall name,
              name <> "normalEnabled"%string ->
              name <> "spritzEnabled"%string ->
              load_voice_settings saved !! name
              = match v !! name with
                | Some x => Some x
                | None => DEFAULT_VOICE_SETTINGS !! name
                end)
  /\ load_voice_settings (Some (load_voice_settings saved))
     = load_voice_settings saved.
Proof.
  assert (Hw : DEFAULT_SETTINGS !! "spritzWpm" = Some (JInt 300))
    by by vm_compute.
  assert (Hf : DEFAULT_SETTINGS !! "spritzFontSize" = Some (JInt 32))
    by by vm_compute.
  assert (Hn : DEFAULT_VOICE_SETTINGS !! "normalEnabled" = Some (JBool true))
    by by vm_compute.
  assert (Hs : DEFAULT_VOICE_SETTINGS !! "spritzEnabled" = Some (JBool true))
    by by vm_compute.
  rewrite !load_app_settings_shape, !load_voice_settings_shape.
  assert (Hk : "spritzWpm"%string <> "spritzFontSize"%string) by done.
  assert (Hk' : "normalEnabled"%string <> "spritzEnabled"%string) by done.
  split; [|split; [|split; [|split; [|split; [|split; [|split; [|split;
    [|split]]]]]]]].
  - intros name. by eapply load_with_defaults_present.
  - intros savedApp name -> H1 H2. by eapply load_with_other.
  - intros savedApp ->. split.
    + by eapply load_with_k1.
    + by eapply (load_with_k2 _ _ _ _ (Some "fontSize"%string)).
  - by eapply load_with_not_nullish.
  - by eapply load_with_not_nullish.
  - done.
  - by eapply load_with_idemp.
  - intros name. by eapply load_with_defaults_present.
  - intros v ->. split; [|split].
    + by eapply load_with_k1.
    + by eapply (load_with_k2 _ _ _ _ None).
    + intros name H1 H2. by eapply load_with_other.
  - by eapply load_with_idemp.
Qed.

End AppFacts.

(* ===================================================================== *)
(** * Facts about the library view *)
(* ===================================================================== *)

Module LibraryFacts.

Import Library.

Lemma find_folder_elem folders id f :
  find_folder folders id = Some f -> f ∈ folders.
Proof.
  destruct id as [i|]; [|done]. cbn [find_folder]. intros Hfind.
  apply find_some in Hfind as [Hin _]. by apply list_elem_of_In.
Qed.

(** ** Runs of the loop *)

Lemma visits_reach folders c path x :
  visits folders c path -> x ∈ path -> rtc (parent_step folders) c x.
Proof.
  intros Hv. induction Hv as [c|c p path Hstep Hv IH]; intros Hin.
  - by apply list_elem_of_singleton in Hin as ->.
  - apply elem_of_cons in Hin as [->|Hin]; [done|].
    eapply rtc_l; [exact Hstep|]. by apply IH.
Qed.

Lemma visits_elems folders c path :
  c ∈ folders -> visits folders c path -> Forall (fun x => x ∈ folders) path.
Proof.
  intros Hc Hv. induction Hv as [c|c p path Hstep Hv IH].
  - by constructor.
  - constructor; [done|]. apply IH. by eapply find_folder_elem.
Qed.

Lemma visits_NoDup folders c path :
  ~ reaches_cycle folders c -> visits folders c path -> NoDup path.
Proof.
  intros Hacyc Hv. induction Hv as [c|c p path Hstep Hv IH].
  - apply NoDup_singleton.
  - constructor.
    + intros Hin. apply Hacyc. exists c. split; [done|].
      eapply tc_rtc_r; [by apply tc_once|]. by eapply visits_reach.
    + apply IH. intros (x & Hreach & Hcycle). apply Hacyc.
      exists x. split; [|done]. by eapply rtc_l.
Qed.

Lemma visits_bounded folders c path :
  c ∈ folders -> ~ reaches_cycle folders c -> visits folders c path ->
  (length path <= length folders)%nat.
Proof.
  intros Hc Hacyc Hv. apply submseteq_length, NoDup_submseteq.
  - by eapply visits_NoDup.
  - intros x Hx. pose proof (visits_elems _ _ _ Hc Hv) as Hall.
    rewrite Forall_forall in Hall. by apply Hall.
Qed.

(** The loop either leaves with the chain of parents, or is still running
    after [fuel] rounds and has visited [fuel + 1] folders. *)
Lemma breadcrumbs_loop_cases folders fuel curr crumbs :
  (exists path,
      parent_chain folders curr path
      /\ breadcrumbs_loop fuel folders curr crumbs = Some (reverse path ++ crumbs))
  \/ (exists c visited,
         curr = Some c
         /\ breadcrumbs_loop fuel folders curr crumbs = None
         /\ length visited = S fuel
         /\ visits folders c visited).
Proof.
  revert curr crumbs. induction fuel as [|fuel IH]; intros curr crumbs.
  - destruct curr as [c|].
    + right. exists c, [c]. repeat split. constructor.
    + left. exists []. split; [constructor|done].
  - destruct curr as [c|].
    + cbn [breadcrumbs_loop].
      destruct (IH (find_folder folders (f_parentId c)) (c :: crumbs))
        as [(path & Hpath & Hloop) | (p & visited & Hp & Hloop & Hlen & Hv)].
      * left. exists (c :: path). split; [by constructor|].
        rewrite Hloop. by rewrite reverse_cons, <- app_assoc.
      * right. exists c, (c :: visited). split; [done|]. split; [done|].
        split; [cbn; lia|]. by econstructor.
    + left. exists []. split; [constructor|done].
Qed.

Lemma breadcrumbs_loop_more folders fuel fuel' curr crumbs result :
  breadcrumbs_loop fuel folders curr crumbs = Some result ->
  (fuel <= fuel')%nat ->
  breadcrumbs_loop fuel' folders curr crumbs = Some result.
Proof.
  revert fuel' curr crumbs.
  induction fuel as [|fuel IH]; intros fuel' curr crumbs Hloop Hle.
  - destruct curr as [c|]; [done|]. by destruct fuel'.
  - destruct curr as [c|]; [|by destruct fuel'].
    destruct fuel' as [|fuel']; [lia|]. cbn [breadcrumbs_loop] in *.
    apply IH; [done|lia].
Qed.

Lemma parent_chain_last folders c path :
  parent_chain folders (Some c) path -> head path = Some c.
Proof. intros Hp. by inversion Hp. Qed.

Lemma parent_chain_adjacent folders curr path i c p :
  parent_chain folders curr path ->
  path !! i = Some c -> path !! S i = Some p ->
  find_folder folders (f_parentId c) = Some p.
Proof.
  intros Hp. revert i. induction Hp as [|c' path Hp IH]; intros i Hc Hnext.
  - done.
  - destruct i as [|i].
    + cbn in Hc, Hnext. injection Hc as ->.
      inversion Hp as [|p' path' Hp' Hcurr]; subst; [done|].
      cbn in Hnext. by injection Hnext as ->.
    + by apply (IH i).
Qed.

Lemma parent_chain_end_root folders curr path c :
  parent_chain folders curr path -> last path = Some c ->
  find_folder folders (f_parentId c) = None.
Proof.
  intros Hp. induction Hp as [|c' path Hp IH]; intros Hlast; [done|].
  destruct path as [|p path].
  - cbn in Hlast. injection Hlast as ->. by inversion Hp.
  - apply IH. by rewrite last_cons_cons in Hlast.
Qed.

(** X9: when following the parent references from the current folder
    does not lead into a cycle, [getBreadcrumbs] leaves its loop after at
    most as many rounds as there are folders, and more rounds change
    nothing.  The crumbs are the chain of parents, outermost first: the
    last crumb is the current folder, each crumb is the folder found for
    the parent reference of the next one, no folder occurs twice, and the
    first crumb has a parent reference that finds no folder (it is [null]
    or names a folder that is not there).  With no current folder, or one
    that is not found, there are no crumbs. *)
Theorem getBreadcrumbs_lists_the_ancestors
  (folders : list Folder) (currentFolderId : option string) :
  (forall c, find_folder folders currentFolderId = Some c ->
             ~ reaches_cycle folders c) ->
  exists crumbs,
    (forall fuel, (length folders <= fuel)%nat ->
                  getBreadcrumbs fuel folders currentFolderId = Some crumbs)
    /\ (length crumbs <= length folders)%nat
    /\ NoDup crumbs
    /\ last crumbs = find_folder folders currentFolderId
    /\ (forall i p c,
           crumbs !! i = Some p -> crumbs !! S i = Some c ->
           find_folder folders (f_parentId c) = Some p)
    /\ (forall root, head crumbs = Some root ->
                     find_folder folders (f_parentId root) = None)
    /\ (find_folder folders currentFolderId = None -> crumbs = []).
Proof.
  intros Hacyc. unfold getBreadcrumbs.
  destruct (breadcrumbs_loop_cases folders (length folders)
              (find_folder folders currentFolderId) [])
    as [(path & Hpath & Hloop) | (c & visited & Hc & Hloop & Hlen & Hv)].
  - rewrite app_nil_r in Hloop.
    assert (Hbound : (length path <= length folders)%nat
                     /\ NoDup path).
    { destruct (find_folder folders currentFolderId) as [c|] eqn:Hc.
      - assert (Hvis : forall q rest,
                  parent_chain folders (Some q) rest -> visits folders q rest).
        { intros q rest Hq. remember (Some q) as curr eqn:Hcurr.
          revert q Hcurr.
          induction Hq as [|q' rest Hq IH]; intros q [= <-].
          destruct (find_folder folders (f_parentId q')) as [p|] eqn:Hp.
          - econstructor; [exact Hp|]. by apply IH.
          - inversion Hq. constructor. }
        split.
        + eapply visits_bounded; [by eapply find_folder_elem|by apply Hacyc|].
          by apply Hvis.
        + eapply visits_NoDup; [by apply Hacyc|]. by apply Hvis.
      - inversion Hpath. split; [cbn; lia|constructor]. }
    destruct Hbound as [Hbound Hnodup].
    exists (reverse path).
    split; [|split; [|split; [|split; [|split; [|split]]]]].
    + intros fuel Hfuel. by eapply breadcrumbs_loop_more.
    + by rewrite length_reverse.
    + by rewrite reverse_Permutation.
    + rewrite last_reverse. destruct (find_folder folders currentFolderId) as [c|].
      * by eapply parent_chain_last.
      * by inversion Hpath.
    + intros i p c Hi HSi.
      apply lookup_lt_Some in HSi as Hlt. rewrite length_reverse in Hlt.
      rewrite reverse_lookup in Hi, HSi by lia.
      eapply (parent_chain_adjacent _ _ _ (length path - S (S i))); [done|done|].
      by replace (S (length path - S (S i)))%nat
        with (length path - S i)%nat by lia.
    + intros root Hroot. rewrite head_reverse in Hroot.
      by eapply parent_chain_end_root.
    + intros Hnone. rewrite Hnone in Hpath. by inversion Hpath.
  - exfalso.
    assert (Hin : c ∈ folders) by by eapply find_folder_elem.
    pose proof (visits_bounded _ _ _ Hin (Hacyc c Hc) Hv) as Hle. lia.
Qed.

(** ** Cycles *)

Lemma reaches_cycle_step folders c :
  reaches_cycle folders c ->
  exists p, parent_step folders c p /\ reaches_cycle folders p.
Proof.
  intros (x & Hreach & Hcycle).
  apply rtc_inv in Hreach as [<- | (p & Hstep & Hreach)].
  - inversion Hcycle as [? ? Hstep | ? p ? Hstep Hback]; subst.
    + exists c. split; [done|]. exists c. split; [done|]. by apply tc_once.
    + exists p. split; [done|]. exists p. split; [done|].
      eapply tc_r; [exact Hback|done].
  - exists p. split; [done|]. by exists x.
Qed.

(** X10: when following the parent references from the current folder
    leads into a cycle (a folder that is, through its parents, its own
    ancestor), [getBreadcrumbs] never leaves its loop: however many rounds
    it is given, it is still running. *)
Theorem getBreadcrumbs_loops_on_a_cycle
  (folders : list Folder) (currentFolderId : option string) (c : Folder) :
  find_folder folders currentFolderId = Some c ->
  reaches_cycle folders c ->
  forall fuel, getBreadcrumbs fuel folders currentFolderId = None.
Proof.
  intros Hc Hcycle fuel. unfold getBreadcrumbs. rewrite Hc.
  clear Hc. generalize (@nil Folder) as crumbs. revert c Hcycle.
  induction fuel as [|fuel IH]; intros c Hcycle crumbs; [done|].
  cbn [breadcrumbs_loop].
  destruct (reaches_cycle_step _ _ Hcycle) as (p & Hstep & Hp).
  rewrite Hstep. by apply IH.
Qed.

End LibraryFacts.

(* ===================================================================== *)
(** * Facts about the EPUB import *)
(* ===================================================================== *)

Module EpubFacts.

Import Tokenizer Epub TokenizerFacts.

Example walk_paragraph_with_break :
  extractTokensAndAnchors
    (Element [] (str "BODY")
       [Element (str "c1") (str "P")
          [TextNode (str "Call me" ++ [9%N] ++ str "Ishmael.");
           Element [] (str "BR") [];
           TextNode (str "  Some years ago ")]]) []
  = ([str "Call"; str "me"; str "Ishmael."; [LF]; str "Some"; str "years";
      str "ago"; [LF]],
     {[str "c1" := 0%nat]}).
Proof. by vm_compute. Qed.

(** ** The words of a text node *)

Lemma replace_runs_from_chars b cls by_ s :
  Forall (fun c => c = by_ \/ (c ∈ s /\ cls c = false))
         (replace_runs_from b cls by_ s).
Proof.
  revert b. induction s as [|c r IH]; intros b; [constructor|].
  cbn [replace_runs_from].
  assert (Hweak : forall b',
    Forall (fun c' => c' = by_ \/ (c' ∈ c :: r /\ cls c' = false))
           (replace_runs_from b' cls by_ r)).
  { intros b'. eapply Forall_impl; [apply IH|]. intros c' [->|[Hin Hc]].
    - by left.
    - right. split; [by right|done]. }
  destruct (cls c) eqn:Hc.
  - destruct b; [apply Hweak|]. constructor; [by left|apply Hweak].
  - constructor; [|apply Hweak]. right. split; [by left|done].
Qed.

Lemma split_on_space_cons s :
  exists piece pieces, split_on_space s = piece :: pieces.
Proof.
  destruct s as [|c r]; [by eexists _, _|]. cbn [split_on_space].
  destruct (is_space c); [by eexists _, _|].
  destruct (split_on_space r); by eexists _, _.
Qed.

Lemma split_on_space_chars s :
  Forall (Forall (fun c => c ∈ s /\ is_space c = false)) (split_on_space s).
Proof.
  induction s as [|c r IH]; [by repeat constructor|].
  cbn [split_on_space].
  assert (Hweak : Forall (Forall (fun c' => c' ∈ c :: r /\ is_space c' = false))
                         (split_on_space r)).
  { eapply Forall_impl; [apply IH|]. intros piece Hpiece.
    eapply Forall_impl; [apply Hpiece|]. intros c' [Hin Hc].
    split; [by right|done]. }
  destruct (is_space c) eqn:Hc.
  - by constructor.
  - destruct (split_on_space r) as [|piece pieces]; [by repeat constructor|].
    inversion Hweak; subst. constructor; [|done].
    constructor; [|done]. split; [by left|done].
Qed.

Lemma is_line_or_tab_SPACE : is_line_or_tab SPACE = false.
Proof. done. Qed.

Lemma text_tokens_words textContent :
  Forall walker_word (text_tokens textContent).
Proof.
  unfold text_tokens.
  set (clean1 := replace_runs is_line_or_tab SPACE textContent).
  set (clean := replace_runs is_space SPACE clean1).
  assert (Hclean : Forall (fun c => is_line_or_tab c = false) clean).
  { pose proof (replace_runs_from_chars false is_space SPACE clean1) as H2.
    pose proof (replace_runs_from_chars false is_line_or_tab SPACE textContent)
      as H1.
    eapply Forall_impl; [exact H2|]. intros c [->|[Hin _]]; [done|].
    rewrite Forall_forall in H1. by destruct (H1 c Hin) as [->|[_ Hc]]. }
  destruct (trim clean); [constructor|].
  apply Forall_forall. intros w Hw.
  apply list_elem_of_In, filter_In in Hw as [Hw Hne].
  apply list_elem_of_In in Hw. split.
  - unfold nonempty in Hne. by destruct w.
  - pose proof (split_on_space_chars clean) as Hpieces.
    rewrite Forall_forall in Hpieces.
    eapply Forall_impl; [apply (Hpieces w Hw)|].
    intros c [Hin Hc]. split; [done|].
    rewrite Forall_forall in Hclean. by apply Hclean.
Qed.

(** ** The walk *)

Lemma Node_induction (P : Node -> Prop) :
  (forall id tagName childNodes,
      Forall P childNodes -> P (Element id tagName childNodes)) ->
  (forall textContent, P (TextNode textContent)) ->
  P OtherNode ->
  forall n, P n.
Proof.
  intros Helement Htext Hother.
  fix IH 1. intros [id tagName childNodes|textContent|].
  - apply Helement. induction childNodes as [|c rest IHrest].
    + constructor.
    + constructor; [apply IH|apply IHrest].
  - apply Htext.
  - apply Hother.
Qed.

Lemma walker_token_LF : walker_token [LF].
Proof. by left. Qed.

Lemma assign_index_lookup (key : list N) (n : nat)
  (obj : gmap (list N) nat) (k : list N) :
  assign_index key n obj !! k
  = if bool_decide (k = key) && negb (bool_decide (key = str "__proto__"))
    then Some n else obj !! k.
Proof.
  unfold assign_index. case_bool_decide as Hproto; cbn.
  - by rewrite andb_false_r.
  - rewrite andb_true_r. case_bool_decide as Hk.
    + subst k. by rewrite lookup_insert_eq.
    + by rewrite lookup_insert_ne.
Qed.

Lemma assign_index_Some (key : list N) (n : nat)
  (obj : gmap (list N) nat) (k : list N) (pos : nat) :
  assign_index key n obj !! k = Some pos ->
  (k = key /\ pos = n /\ key <> str "__proto__") \/ obj !! k = Some pos.
Proof.
  rewrite assign_index_lookup.
  case_bool_decide as Hk; case_bool_decide as Hproto; cbn; auto.
  intros [= <-]. by left.
Qed.

Lemma assign_index_proto (key : list N) (n : nat)
  (obj : gmap (list N) nat) :
  assign_index key n obj !! str "__proto__" = obj !! str "__proto__".
Proof.
  rewrite assign_index_lookup.
  case_bool_decide as Hk; case_bool_decide as Hproto; cbn; congruence.
Qed.

Lemma assign_index_is_Some (key : list N) (n : nat)
  (obj : gmap (list N) nat) (k : list N) :
  is_Some (obj !! k) -> is_Some (assign_index key n obj !! k).
Proof.
  intros Hsome. rewrite assign_index_lookup.
  by destruct (_ && _).
Qed.

Lemma process_children_ok childNodes :
  Forall process_ok childNodes ->
  forall tokens (anchors : gmap (list N) nat),
    exists new,
      ((fix children (ns : list Node) (st : list jsstring * gmap (list N) nat) :=
          match ns with
          | [] => st
          | c :: rest => children rest (process c st)
          end) childNodes (tokens, anchors)).1 = tokens ++ new
      /\ Forall walker_token new
      /\ (forall id pos,
             ((fix children (ns : list Node)
                   (st : list jsstring * gmap (list N) nat) :=
                 match ns with
                 | [] => st
                 | c :: rest => children rest (process c st)
                 end) childNodes (tokens, anchors)).2 !! id = Some pos ->
             anchors !! id = Some pos
             \/ (length tokens <= pos <= length (tokens ++ new))%nat)
      /\ (anchors !! str "__proto__" = None ->
          ((fix children (ns : list Node)
                (st : list jsstring * gmap (list N) nat) :=
              match ns with
              | [] => st
              | c :: rest => children rest (process c st)
              end) childNodes (tokens, anchors)).2 !! str "__proto__" = None).
Proof.
  intros Hall. induction Hall as [|c rest Hc Hrest IH]; intros tokens anchors.
  - exists []. rewrite app_nil_r. split; [done|]. split; [done|].
    split; [by left | done].
  - destruct (Hc tokens anchors) as (new1 & Htok1 & Hnew1 & Hanch1 & Hproto1).
    destruct (process c (tokens, anchors)) as [tokens1 anchors1] eqn:Hstep.
    cbn [fst snd] in Htok1, Hanch1, Hproto1. subst tokens1.
    destruct (IH (tokens ++ new1) anchors1)
      as (new2 & Htok2 & Hnew2 & Hanch2 & Hproto2).
    exists (new1 ++ new2). rewrite Htok2, app_assoc. split; [done|].
    split; [by apply Forall_app|]. split.
    + intros id pos Hpos. destruct (Hanch2 id pos Hpos) as [Hold | Hrange].
      * destruct (Hanch1 id pos Hold) as [Hold' | Hrange]; [by left|].
        right. rewrite !length_app in *. lia.
      * right. rewrite !length_app in *. lia.
    + intros Hnone. by apply Hproto2, Hproto1.
Qed.

Lemma process_spec n : process_ok n.
Proof.
  induction n as [id tagName childNodes IH|textContent|] using Node_induction;
    intros tokens anchors.
  - cbn [process fst snd].
    set (anchors1 := if nonempty id then assign_index id (length tokens) anchors
                     else anchors).
    set (tokens1 := if isBreak tagName then tokens ++ [[LF]] else tokens).
    destruct (process_children_ok childNodes IH tokens1 anchors1)
      as (new & Htok & Hnew & Hanch & Hproto).
    rewrite Htok.
    assert (Htokens1 : exists pre, tokens1 = tokens ++ pre
                                   /\ Forall walker_token pre).
    { unfold tokens1. destruct (isBreak tagName).
      - exists [[LF]]. split; [done|]. constructor; [by left|done].
      - exists []. by rewrite app_nil_r. }
    destruct Htokens1 as (pre & Hpre & Hprew). rewrite Hpre in *.
    exists (pre ++ new ++ if isBlock tagName then [[LF]] else []).
    split; [|split; [|split]].
    + destruct (isBlock tagName); by rewrite <- ?app_assoc, ?app_nil_r.
    + repeat apply Forall_app_2; try done.
      destruct (isBlock tagName); [|done]. constructor; [by left|done].
    + intros key pos Hpos. destruct (Hanch key pos Hpos) as [Hold | Hrange].
      * unfold anchors1 in Hold. destruct (nonempty id); [|by left].
        apply assign_index_Some in Hold as [(_ & -> & _) | Hold]; [|by left].
        right. rewrite !length_app. lia.
      * right. rewrite !length_app in *. lia.
    + intros Hnone. apply Hproto. unfold anchors1.
      destruct (nonempty id); [|done]. by rewrite assign_index_proto.
  - cbn [process fst snd]. exists (text_tokens textContent).
    split; [done|]. split; [|split; [by left | done]].
    eapply Forall_impl; [apply text_tokens_words|]. intros w Hw. by right.
  - exists []. rewrite app_nil_r. split; [done|]. split; [done|].
    split; [by left | done].
Qed.

Lemma children_keep_anchor_if (id : list N) ns :
  Forall (fun n => forall tokens (anchors : gmap (list N) nat),
            is_Some (anchors !! id) ->
            is_Some ((process n (tokens, anchors)).2 !! id)) ns ->
  forall tokens (anchors : gmap (list N) nat),
    is_Some (anchors !! id) ->
    is_Some (((fix children (ns : list Node)
                  (st : list jsstring * gmap (list N) nat) :=
                match ns with
                | [] => st
                | c :: rest => children rest (process c st)
                end) ns (tokens, anchors)).2 !! id).
Proof.
  intros Hall. induction Hall as [|c rest Hc Hrest IH];
    intros tokens anchors Hsome; [done|].
  destruct (process c (tokens, anchors)) as [t a] eqn:Hstep.
  apply IH. pose proof (Hc tokens anchors Hsome) as Hs.
  by rewrite Hstep in Hs.
Qed.

Lemma process_keeps_anchor (id : list N) n :
  forall tokens (anchors : gmap (list N) nat),
    is_Some (anchors !! id) ->
    is_Some ((process n (tokens, anchors)).2 !! id).
Proof.
  induction n as [id' tagName childNodes IH|textContent|]
    using Node_induction; intros tokens anchors Hsome; [|done|done].
  cbn [process fst snd]. apply children_keep_anchor_if; [done|].
  destruct (nonempty id'); [|done]. by apply assign_index_is_Some.
Qed.

Lemma children_keep_anchor (id : list N) (ns : list Node)
  (tokens : list jsstring) (anchors : gmap (list N) nat) :
  is_Some (anchors !! id) ->
  is_Some (((fix children (ns : list Node)
                (st : list jsstring * gmap (list N) nat) :=
              match ns with
              | [] => st
              | c :: rest => children rest (process c st)
              end) ns (tokens, anchors)).2 !! id).
Proof.
  apply children_keep_anchor_if, Forall_forall. intros n _.
  apply process_keeps_anchor.
Qed.

(** X11: the walk over a document pushes tokens behind those it was
    given and never alters them.  Every token it pushes is a newline or
    a non-empty word that holds no space, tab, line feed or carriage
    return; a [BR] element contributes a newline before its content and
    a block element ends with one.  Every anchor recorded lies between
    the number of tokens at the start of the walk and the number at its
    end, so for a walk that starts with no tokens every anchor is at
    most the number of tokens: it is the index of a token, or the first
    index past the last token.  An element with an id other than
    [__proto__] gets an anchor; under the name [__proto__] the walk
    records nothing, whatever the ids of the document. *)
Theorem extractTokensAndAnchors_tokens_and_anchors
  (node : Node) (currentTokens : list jsstring) :
  (exists new,
      (extractTokensAndAnchors node currentTokens).1 = currentTokens ++ new
      /\ Forall walker_token new)
  /\ (forall id pos,
         (extractTokensAndAnchors node currentTokens).2 !! id = Some pos ->
         (length currentTokens <= pos
          <= length (extractTokensAndAnchors node currentTokens).1)%nat)
  /\ (forall id pos,
         (extractTokensAndAnchors node []).2 !! id = Some pos ->
         (pos <= length (extractTokensAndAnchors node []).1)%nat)
  /\ (forall id tagName childNodes,
         node = Element id tagName childNodes -> isBlock tagName = true ->
         last (extractTokensAndAnchors node currentTokens).1 = Some [LF])
  /\ (forall id tagName childNodes,
         node = Element id tagName childNodes -> isBreak tagName = true ->
         (extractTokensAndAnchors node currentTokens).1
           !! length currentTokens = Some [LF])
  /\ (forall id tagName childNodes,
         node = Element id tagName childNodes -> nonempty id = true ->
         id <> str "__proto__" ->
         (forall pos, (extractTokensAndAnchors node currentTokens).2 !! id
                      = Some pos ->
                      (length currentTokens <= pos)%nat)
         /\ is_Some ((extractTokensAndAnchors node currentTokens).2 !! id))
  /\ (extractTokensAndAnchors node currentTokens).2 !! str "__proto__" = None.
Proof.
  unfold extractTokensAndAnchors.
  assert (Hspec : forall tokens,
    exists new,
      (process node (tokens, ∅)).1 = tokens ++ new
      /\ Forall walker_token new
      /\ forall id pos,
           (process node (tokens, ∅)).2 !! id = Some pos ->
           (length tokens <= pos <= length (tokens ++ new))%nat).
  { intros tokens. destruct (process_spec node tokens ∅)
      as (new & Htok & Hnew & Hanch & _).
    exists new. split; [done|]. split; [done|].
    intros id pos Hpos. by destruct (Hanch id pos Hpos). }
  split; [|split; [|split; [|split; [|split; [|split]]]]].
  - destruct (Hspec currentTokens) as (new & Htok & Hnew & _). by exists new.
  - intros id pos Hpos.
    destruct (Hspec currentTokens) as (new & Htok & _ & Hanch).
    rewrite Htok. by apply (Hanch id).
  - intros id pos Hpos. destruct (Hspec []) as (new & Htok & _ & Hanch).
    rewrite Htok. apply (Hanch id pos) in Hpos. lia.
  - intros id tagName childNodes -> Hblock. cbn [process fst snd].
    rewrite Hblock. by rewrite last_snoc.
  - intros id tagName childNodes -> Hbreak. cbn [process fst snd].
    rewrite Hbreak.
    set (anchors1 := if nonempty id then _ else _).
    destruct (process_children_ok childNodes
                ltac:(apply Forall_forall; intros; apply process_spec)
                (currentTokens ++ [[LF]]) anchors1) as (new & -> & _).
    assert (Hlook : ((currentTokens ++ [[LF]]) ++ new) !! length currentTokens
                    = Some [LF]).
    { rewrite <- app_assoc. by rewrite lookup_app_r, Nat.sub_diag by lia. }
    destruct (isBlock tagName); [|done].
    rewrite lookup_app_l; [done|]. rewrite !length_app. cbn. lia.
  - intros id tagName childNodes -> Hid Hproto. split.
    + intros pos Hpos.
      destruct (Hspec currentTokens) as (new & _ & _ & Hanch).
      apply (Hanch id pos) in Hpos. lia.
    + cbn [process fst snd]. rewrite Hid.
      apply children_keep_anchor. rewrite assign_index_lookup.
      rewrite bool_decide_eq_true_2 by done.
      by rewrite (bool_decide_eq_false_2 _ Hproto).
  - destruct (process_spec node currentTokens ∅) as (new & _ & _ & _ & Hnone).
    by apply Hnone.
Qed.

(** ** The spine *)

Lemma separator_cases allTokens chunkTokens :
  separator allTokens chunkTokens = []
  \/ separator allTokens chunkTokens = [[LF]].
Proof.
  unfold separator. destruct (last allTokens), (head chunkTokens); auto.
  destruct (_ || _); auto.
Qed.

Lemma assign_index_Forall (P : nat -> Prop) (key : list N) (n : nat)
  (obj : gmap (list N) nat) :
  map_Forall (fun _ pos => P pos) obj -> P n ->
  map_Forall (fun _ pos => P pos) (assign_index key n obj).
Proof.
  intros Hobj Hn. unfold assign_index. case_bool_decide; [done|].
  by apply map_Forall_insert_2.
Qed.

Lemma fold_anchor_entries (hrefOf : list N -> list N) (start bound : nat)
  (entries : list (list N * nat)) (m : gmap (list N) nat) :
  map_Forall (fun _ pos => (pos <= bound)%nat) m ->
  Forall (fun entry => (start + entry.2 <= bound)%nat) entries ->
  map_Forall (fun _ pos => (pos <= bound)%nat)
    (fold_left (fun m entry =>
                  assign_index (hrefOf entry.1) (start + entry.2)%nat m)
               entries m).
Proof.
  intros Hm Hentries. revert m Hm.
  induction Hentries as [|entry entries Hentry Hentries IH]; intros m Hm;
    [done|].
  cbn [fold_left]. apply IH. by apply assign_index_Forall.
Qed.

Lemma fold_anchor_entries_proto (hrefOf : list N -> list N) (start : nat)
  (entries : list (list N * nat)) (m : gmap (list N) nat) :
  m !! str "__proto__" = None ->
  fold_left (fun m entry =>
               assign_index (hrefOf entry.1) (start + entry.2)%nat m)
            entries m !! str "__proto__" = None.
Proof.
  revert m. induction entries as [|entry entries IH]; intros m Hm; [done|].
  cbn [fold_left]. apply IH. by rewrite assign_index_proto.
Qed.

Lemma spine_step_ok st item :
  spine_ok st ->
  spine_ok (spine_step st item)
  /\ exists new, (spine_step st item).1 = st.1 ++ new.
Proof.
  destruct st as [allTokens m]. intros [Htokens Hm]. cbn [fst snd] in *.
  unfold spine_step. cbn [fst snd].
  set (map1 := match href item with
               | Some h => _
               | None => m
               end).
  assert (Hmap1 : map_Forall (fun _ pos => (pos <= length allTokens)%nat) map1).
  { unfold map1. destruct (href item) as [h|]; [|done].
    destruct (nonempty h); [|done].
    destruct (decodedHref item); repeat apply assign_index_Forall; done. }
  destruct (body item) as [b|]; [|split; [done|]; exists []; by rewrite app_nil_r].
  destruct (process_spec b [] ∅) as (new & Htok & Hnew & Hanch & _).
  unfold extractTokensAndAnchors.
  destruct (process b ([], ∅)) as [chunkTokens anchors] eqn:Hchunk.
  cbn [fst snd app] in *. subst new.
  set (tokens' := match chunkTokens with
                  | [] => allTokens
                  | _ => allTokens ++ separator allTokens chunkTokens
                           ++ chunkTokens
                  end).
  assert (Hlen : (length allTokens <= length tokens')%nat
                 /\ (chunkTokens <> [] ->
                     length allTokens + length chunkTokens <= length tokens')%nat).
  { unfold tokens'. destruct chunkTokens as [|t ts]; [done|].
    rewrite !length_app. split; lia. }
  destruct Hlen as [Hlen Hlen'].
  split; [split|].
  - cbn [fst]. unfold tokens'. destruct chunkTokens as [|t ts]; [done|].
    repeat apply Forall_app_2; try done.
    destruct (separator_cases allTokens (t :: ts)) as [-> | ->]; [done|].
    constructor; [by left|done].
  - cbn [fst snd]. apply fold_anchor_entries.
    + eapply map_Forall_impl; [exact Hmap1|]. intros key pos Hpos. cbn in *. lia.
    + apply Forall_forall. intros [id pos] Hin.
      apply elem_of_map_to_list in Hin. cbn [snd].
      destruct (Hanch id pos Hin) as [Hold | Hrange]; [done|].
      destruct chunkTokens as [|t ts].
      * cbn in Hrange. lia.
      * pose proof (Hlen' ltac:(done)) as Hl. cbn in Hrange, Hl |- *. lia.
  - cbn [fst]. unfold tokens'. destruct chunkTokens as [|t ts].
    + exists []. by rewrite app_nil_r.
    + by eexists.
Qed.

Lemma spine_ok_empty : spine_ok ([], ∅).
Proof. split; [done|]. apply map_Forall_empty. Qed.

Lemma fold_spine_step_ok items st :
  spine_ok st -> spine_ok (fold_left spine_step items st).
Proof.
  revert st. induction items as [|item items IH]; intros st Hst; [done|].
  cbn [fold_left]. apply IH. by apply spine_step_ok.
Qed.

Lemma spine_tokens_ok items : spine_ok (spine_tokens items).
Proof. apply fold_spine_step_ok, spine_ok_empty. Qed.

Lemma fold_spine_step_proto items st :
  st.2 !! str "__proto__" = None ->
  (fold_left spine_step items st).2 !! str "__proto__" = None.
Proof.
  revert st. induction items as [|item items IH]; intros st Hst; [done|].
  cbn [fold_left]. apply IH.
  clear IH. destruct st as [allTokens m]. cbn [snd] in Hst.
  unfold spine_step. cbn [fst snd].
  set (map1 := match href item with
               | Some h => _
               | None => m
               end).
  assert (Hproto1 : map1 !! str "__proto__" = None).
  { unfold map1. destruct (href item) as [h|]; [|done].
    destruct (nonempty h); [|done].
    destruct (decodedHref item); by rewrite !assign_index_proto. }
  destruct (body item) as [b|]; [|done]. cbn [snd].
  by apply (fold_anchor_entries_proto (full_href (href item))).
Qed.

(** ** The table of contents *)

Lemma TocItem_induction (P : TocItem -> Prop) :
  (forall href decoded label subitems,
      Forall P subitems -> P (toc_item href decoded label subitems)) ->
  forall item, P item.
Proof.
  intros Hitem. fix IH 1. intros [href decoded label subitems].
  apply Hitem. induction subitems as [|i rest IHrest].
  - constructor.
  - constructor; [apply IH|apply IHrest].
Qed.

Lemma ParsedChapter_induction (P : ParsedChapter -> Prop) :
  (forall title position subchapters,
      Forall P subchapters -> P (parsed_chapter title position subchapters)) ->
  forall c, P c.
Proof.
  intros Hchapter. fix IH 1. intros [title position subchapters].
  apply Hchapter. induction subchapters as [|c rest IHrest].
  - constructor.
  - constructor; [apply IH|apply IHrest].
Qed.

Lemma read_index_ok (m : gmap (list N) nat) (bound : nat) key f :
  map_Forall (fun _ pos => (pos <= bound)%nat) m ->
  read_index m key = Some f -> position_ok bound f.
Proof.
  intros Hm. unfold read_index. destruct (m !! key) as [n|] eqn:Hn.
  - intros [= <-]. by apply (Hm _ _ Hn).
  - case_bool_decide as Hkey; [|done]. by intros [= <-].
Qed.

Lemma read_index_own (m : gmap (list N) nat) (bound : nat) key f :
  map_Forall (fun _ pos => (pos <= bound)%nat) m ->
  key ∉ object_prototype_names ->
  read_index m key = Some f -> exists n, f = Index n /\ (n <= bound)%nat.
Proof.
  intros Hm Hkey. unfold read_index. destruct (m !! key) as [n|] eqn:Hn.
  - intros [= <-]. exists n. split; [done|]. by apply (Hm _ _ Hn).
  - by rewrite bool_decide_eq_false_2.
Qed.

(** The positions that [mapTocItem] gives are results of the lookups
    under the keys of the entry, or 0. *)
Lemma mapTocItem_positions (P : Found -> Prop) (m : gmap (list N) nat) item c :
  P (Index 0) ->
  (forall key f, key ∈ lookup_keys item -> read_index m key = Some f -> P f) ->
  mapTocItem m item = Some c ->
  Forall P (chapter_positions c).
Proof.
  intros H0. revert c.
  induction item as [cleanHref decoded label subitems IH]
    using TocItem_induction; intros c Hkeys Hc.
  cbn [mapTocItem] in Hc. destruct decoded as [decodedHref|]; [|done].
  match type of Hc with
  | match ?subs with _ => _ end = _ => destruct subs as [cs|] eqn:Hsubs
  end; [|done].
  injection Hc as <-. cbn [chapter_positions]. constructor.
  - cbn [lookup_keys] in Hkeys. unfold or_else.
    destruct (read_index m cleanHref) as [f|] eqn:H1.
    { apply (Hkeys cleanHref); [by left | done]. }
    destruct (read_index m decodedHref) as [f|] eqn:H2.
    { apply (Hkeys decodedHref); [|done]. right. cbn. by left. }
    destruct (read_index m (before_hash cleanHref)) as [f|] eqn:H3; [|done].
    apply (Hkeys (before_hash cleanHref)); [|done].
    right. cbn. right. by left.
  - assert (Hsubkeys : forall i key f,
              i ∈ subitems -> key ∈ lookup_keys i ->
              read_index m key = Some f -> P f).
    { intros i key f Hi Hkey. apply Hkeys. cbn [lookup_keys].
      right. apply elem_of_app. right. right.
      apply list_elem_of_In, in_flat_map. exists i.
      split; by apply list_elem_of_In. }
    clear label cleanHref decodedHref Hkeys. revert cs Hsubs.
    induction IH as [|i rest Hi Hrest IHrest]; intros cs Hsubs.
    + by injection Hsubs as <-.
    + destruct (mapTocItem m i) as [c|] eqn:Hc; [|done].
      match type of Hsubs with
      | match ?r with _ => _ end = _ => destruct r as [cs'|] eqn:Hrest'
      end; [|done].
      injection Hsubs as <-. cbn [flat_map]. apply Forall_app_2.
      * apply Hi; [|done]. intros key f. apply Hsubkeys. by left.
      * apply IHrest; [|done]. intros i' key f Hi'. apply Hsubkeys.
        by right.
Qed.

Lemma mapTocItems_positions (P : Found -> Prop) (m : gmap (list N) nat) toc cs :
  P (Index 0) ->
  (forall item key f, item ∈ toc -> key ∈ lookup_keys item ->
                      read_index m key = Some f -> P f) ->
  mapTocItems m toc = Some cs ->
  Forall (fun c => Forall P (chapter_positions c)) cs.
Proof.
  intros H0. revert cs. induction toc as [|i rest IH]; intros cs Hkeys Hcs.
  - by injection Hcs as <-.
  - cbn [mapTocItems] in Hcs.
    destruct (mapTocItem m i) as [c|] eqn:Hc; [|done].
    destruct (mapTocItems m rest) as [cs'|]; [|done].
    injection Hcs as <-. constructor.
    + eapply mapTocItem_positions; [done| |done].
      intros key f. apply Hkeys. by left.
    + apply IH; [|done]. intros item key f Hitem. apply Hkeys. by right.
Qed.

(** A parsed chapter whose positions are all numbers is a [Chapter]. *)
Lemma as_chapter_numbers c :
  Forall (fun p => exists n, p = Index n) (chapter_positions c) ->
  is_Some (as_chapter c).
Proof.
  induction c as [title position subchapters IH] using ParsedChapter_induction.
  cbn [chapter_positions]. intros Hall.
  apply Forall_cons in Hall as [[n ->] Hsubs].
  cbn [as_chapter].
  assert (Hall : is_Some
            ((fix all (cs : list ParsedChapter) : option (list Chapter) :=
                match cs with
                | [] => Some []
                | c' :: rest =>
                    match as_chapter c', all rest with
                    | Some x, Some xs => Some (x :: xs)
                    | _, _ => None
                    end
                end) subchapters)).
  { induction IH as [|c rest Hc Hrest IHrest]; [by eexists|].
    cbn [flat_map] in Hsubs. apply Forall_app in Hsubs as [Hc' Hrest'].
    destruct (Hc Hc') as [x ->]. destruct (IHrest Hrest') as [xs ->].
    by eexists. }
  destruct Hall as [subs ->]. by eexists.
Qed.

(** X12: whatever the spine items and the table of contents are, the
    tokens that [parseEpub] collects are newlines and non-empty words
    without space, tab, line feed or carriage return; every index in
    [hrefToIndexMap] is at most the number of tokens, and the map holds
    nothing under the name [__proto__].  The position of every chapter
    and sub-chapter is what the lookups in that plain object find: a
    number that is at most the number of tokens (0 for a link that is
    not found), or, for a link that is the name of a member of
    [Object.prototype] and has no index of its own, that member, which is
    no number.  When no link of the table of contents (as written,
    decoded, or cut before its [#]) is such a name, every position is a
    number between 0 and the number of tokens and the chapters are
    [Chapter]s.  When [decodeURI] throws for an entry of the table of
    contents there are no chapters at all. *)
Theorem parseEpub_positions_within_tokens
  (items : list SpineItem) (toc : list TocItem) :
  Forall walker_token (spine_tokens items).1
  /\ (forall key pos,
         (spine_tokens items).2 !! key = Some pos ->
         (pos <= length (spine_tokens items).1)%nat)
  /\ (spine_tokens items).2 !! str "__proto__" = None
  /\ Forall (fun c =>
               Forall (position_ok (length (spine_tokens items).1))
                      (chapter_positions c))
            (epub_chapters items toc)
  /\ ((forall item key, item ∈ toc -> key ∈ lookup_keys item ->
                        key ∉ object_prototype_names) ->
      Forall (fun c =>
                Forall (fun p => exists n,
                            p = Index n
                            /\ (n <= length (spine_tokens items).1)%nat)
                       (chapter_positions c)
                /\ is_Some (as_chapter c))
             (epub_chapters items toc))
  /\ (mapTocItems (spine_tokens items).2 toc = None ->
      epub_chapters items toc = []).
Proof.
  destruct (spine_tokens_ok items) as [Htokens Hmap].
  split; [done|]. split; [apply Hmap|].
  split; [by apply fold_spine_step_proto|].
  split; [|split].
  - unfold epub_chapters.
    destruct (mapTocItems (spine_tokens items).2 toc) as [cs|] eqn:Hcs;
      [|done].
    eapply mapTocItems_positions; [|by intros; eapply read_index_ok|done].
    cbn. lia.
  - intros Hnames. unfold epub_chapters.
    destruct (mapTocItems (spine_tokens items).2 toc) as [cs|] eqn:Hcs;
      [|done].
    assert (Hnum : Forall (fun c =>
              Forall (fun p => exists n,
                          p = Index n
                          /\ (n <= length (spine_tokens items).1)%nat)
                     (chapter_positions c)) cs).
    { eapply mapTocItems_positions; [| |done].
      - exists 0%nat. split; [done|lia].
      - intros item key f Hitem Hkey.
        apply (read_index_own _ _ _ _ Hmap), (Hnames item key Hitem Hkey). }
    cbn [default]. eapply Forall_impl; [exact Hnum|].
    intros c Hc. split; [done|]. apply as_chapter_numbers.
    eapply Forall_impl; [exact Hc|]. intros p (n & -> & _). by exists n.
  - intros Hnone. unfold epub_chapters. by rewrite Hnone.
Qed.

(** The example book with a table of contents whose one link is
    [constructor]: the map has no index under that name, and the lookup
    gives the member of [Object.prototype] as the position. *)
Example constructor_link_is_inherited :
  (spine_tokens nbsp_spine).2 !! str "constructor" = None
  /\ epub_chapters nbsp_spine constructor_toc
     = [parsed_chapter (str "Notes") (Inherited (str "constructor")) []]
  /\ map as_chapter (epub_chapters nbsp_spine constructor_toc) = [None]
  /\ map as_chapter (epub_chapters demo_spine demo_toc)
     = [Some (chapter (str "Chapter One") 0 [])].
Proof. repeat split; by vm_compute. Qed.

(** ** The rebuilt text *)

Lemma split_spaces_from_word b w t :
  w <> [] -> no_space w ->
  split_spaces_from b (w ++ SPACE :: t) = w :: split_spaces_from true t.
Proof.
  intros Hne Hw. revert b.
  induction Hw as [|c w Hc Hw IH]; intros b; [done|].
  cbn [app split_spaces_from]. rewrite Hc.
  destruct w as [|c' w'].
  - cbn [app split_spaces_from]. done.
  - by rewrite IH.
Qed.

Lemma split_spaces_from_last b w :
  w <> [] -> no_space w -> split_spaces_from b w = [w].
Proof.
  intros Hne Hw. revert b.
  induction Hw as [|c w Hc Hw IH]; intros b; [done|].
  cbn [split_spaces_from]. rewrite Hc.
  destruct w as [|c' w']; [done|]. by rewrite IH.
Qed.

Lemma split_spaces_from_join b ws :
  ws <> [] -> Forall (fun w => w <> [] /\ no_space w) ws ->
  split_spaces_from b (join [SPACE] ws) = ws.
Proof.
  intros Hne Hws. revert b.
  induction Hws as [|w ws [Hw Hsp] Hws IH]; intros b; [done|].
  destruct ws as [|w' ws'].
  - by apply split_spaces_from_last.
  - rewrite join_cons. cbn [app].
    rewrite split_spaces_from_word by done. f_equal. by apply IH.
Qed.

Lemma join_no_newline ws :
  Forall no_newline ws -> no_newline (join [SPACE] ws).
Proof.
  intros Hws. induction Hws as [|w ws Hw Hws IH]; [constructor|].
  rewrite join_cons. apply Forall_app_2; [done|].
  destruct ws; [constructor|]. by constructor.
Qed.

Lemma join_last_edge ws :
  Forall (fun w => w <> [] /\ edge_ok (last w)) ws -> ws <> [] ->
  edge_ok (last (join [SPACE] ws)).
Proof.
  intros Hws. induction Hws as [|w ws [Hw Hlast] Hws IH]; intros Hne; [done|].
  destruct ws as [|w' ws']; [done|].
  specialize (IH ltac:(done)).
  change (join [SPACE] (w :: w' :: ws'))
    with (w ++ SPACE :: join [SPACE] (w' :: ws')).
  rewrite last_app_cons. inversion Hws as [|? ? [Hw' _] _]; subst.
  rewrite join_cons in *. destruct w' as [|c' w'']; [done|].
  cbn [app] in *. by rewrite last_cons_cons.
Qed.

Lemma join_trimmed ws :
  Forall (fun w => w <> [] /\ trimmed w) ws -> trimmed (join [SPACE] ws).
Proof.
  intros Hws. destruct ws as [|w ws]; [done|]. split.
  - inversion Hws as [|? ? [Hw [Hhead _]] _]; subst.
    rewrite join_cons. by destruct w.
  - apply join_last_edge; [|done].
    eapply Forall_impl; [exact Hws|]. intros w' [Hw' [_ Hl]]. done.
Qed.

Lemma filter_nonempty_id ws :
  Forall (fun w : jsstring => w <> []) ws -> List.filter nonempty ws = ws.
Proof.
  intros Hws. induction Hws as [|w ws Hw Hws IH]; [done|].
  cbn [List.filter]. destruct w; [done|]. cbn. by rewrite IH.
Qed.

Lemma segment_tokens_join ws :
  Forall (fun w => w <> [] /\ no_space w /\ no_newline w /\ trimmed w) ws ->
  segment_tokens (join [SPACE] ws) = ws.
Proof.
  intros Hws. unfold segment_tokens.
  rewrite no_newline_not_break.
  2:{ apply join_no_newline. eapply Forall_impl; [exact Hws|]. by intros ? (? & ? & ? & ?). }
  rewrite trim_id.
  2:{ apply join_trimmed. eapply Forall_impl; [exact Hws|]. by intros ? (? & ? & ? & ?). }
  destruct ws as [|w ws]; [done|].
  unfold split_spaces. rewrite split_spaces_from_join; [|done|].
  - apply filter_nonempty_id. eapply Forall_impl; [exact Hws|]. by intros ? (? & ? & ? & ?).
  - eapply Forall_impl; [exact Hws|]. by intros ? (? & ? & ? & ?).
Qed.

Lemma tokenize_line seg s :
  no_newline seg ->
  tokenize (seg ++ LF :: s) = segment_tokens seg ++ [LF] :: tokenize s.
Proof.
  intros Hseg. rewrite !tokenize_flat_map, split_newlines_app by done.
  done.
Qed.

Lemma tokenize_last_line seg :
  no_newline seg -> tokenize seg = segment_tokens seg.
Proof.
  intros Hseg. rewrite tokenize_flat_map, split_newlines_no_newline by done.
  cbn [flat_map]. by rewrite app_nil_r.
Qed.

Lemma tokenize_rejoin_words ws ts :
  Forall (fun w => w <> [] /\ no_space w /\ no_newline w /\ trimmed w) ws ->
  Forall reader_token ts ->
  tokenize (rejoin (ws ++ ts)) = ws ++ ts.
Proof.
  intros Hws Hts. revert ws Hws.
  induction Hts as [|t ts Ht Hts IH]; intros ws Hws.
  - rewrite app_nil_r.
    assert (Hnl : Forall no_newline ws)
      by (eapply Forall_impl; [exact Hws|]; by intros ? (? & ? & ? & ?)).
    pose proof (rejoin_words ws [] Hnl I) as Hre.
    rewrite !app_nil_r in Hre. rewrite Hre.
    rewrite tokenize_last_line by by apply join_no_newline.
    by apply segment_tokens_join.
  - destruct (decide (t = [LF])) as [->|Hword].
    + assert (Hnl : Forall no_newline ws)
        by (eapply Forall_impl; [exact Hws|]; by intros ? (? & ? & ? & ?)).
      rewrite (rejoin_words ws ([LF] :: ts) Hnl) by done.
      cbn [rejoin is_break is_newline]. cbn.
      rewrite tokenize_line by by apply join_no_newline.
      rewrite segment_tokens_join by done. f_equal. f_equal.
      by apply (IH []).
    + destruct Ht as [->|Ht]; [done|].
      replace (ws ++ t :: ts) with ((ws ++ [t]) ++ ts)
        by by rewrite <- app_assoc.
      apply IH. apply Forall_app_2; [done|]. by constructor.
Qed.

Lemma tokenize_epub_text (items : list SpineItem) :
  Forall (fun t => t = [LF] \/ trimmed t) (spine_tokens items).1 ->
  tokenize (epub_text items) = (spine_tokens items).1.
Proof.
  intros Htrim. destruct (spine_tokens_ok items) as [Htokens Hmap].
  assert (Hreader : Forall reader_token (spine_tokens items).1).
  { apply Forall_forall. intros t Hin.
    rewrite Forall_forall in Htrim, Htokens.
    destruct (Htokens t Hin) as [->|[Hne Hchars]]; [by left|].
    destruct (Htrim t Hin) as [->|Ht]; [by left|].
    right. split; [done|]. split; [|split; [|done]].
    - eapply Forall_impl; [exact Hchars|]. by intros ? [? ?].
    - eapply Forall_impl; [exact Hchars|]. intros c [_ Hc].
      unfold is_line_or_tab in Hc. unfold is_newline, LF.
      by destruct (c =? 10)%N. }
  unfold epub_text. by apply (tokenize_rejoin_words []).
Qed.

(** X13: the text that [parseEpub] rebuilds from its tokens gives the
    Reader the same tokens back, provided every word among them neither
    starts nor ends with a white-space character: tokenizing the text
    yields exactly the collected tokens, and [countTokens] of the text
    (the stored [totalWords]) is their number.  Every chapter position
    that is a number is then at most that number (equal to it for an
    anchor behind the last token), and one below it is the index, in the
    Reader's token array, of the token that the walk had reached when it
    recorded the position. *)
Theorem parseEpub_text_round_trip
  (items : list SpineItem) (toc : list TocItem) :
  Forall (fun t => t = [LF] \/ trimmed t) (spine_tokens items).1 ->
  tokenize (epub_text items) = (spine_tokens items).1
  /\ countTokens (epub_text items) = length (spine_tokens items).1
  /\ Forall (fun c =>
               Forall (fun p =>
                         forall n, p = Index n ->
                           (n <= countTokens (epub_text items))%nat
                           /\ tokenize (epub_text items) !! n
                              = (spine_tokens items).1 !! n)
                      (chapter_positions c))
            (epub_chapters items toc).
Proof.
  intros Htrim. destruct (spine_tokens_ok items) as [Htokens Hmap].
  pose proof (tokenize_epub_text items Htrim) as Hround.
  assert (Hcount : countTokens (epub_text items)
                   = length (spine_tokens items).1).
  { unfold countTokens.
    rewrite fold_count_segment, <- tokenize_flat_map, Hround. lia. }
  split; [done|]. split; [done|]. rewrite Hcount, Hround.
  unfold epub_chapters.
  destruct (mapTocItems (spine_tokens items).2 toc) as [cs|] eqn:Hcs; [|done].
  eapply mapTocItems_positions; [| |done].
  - intros n [= <-]. split; [lia | done].
  - intros item key f _ _ Hread n ->. split; [|done].
    by apply (read_index_ok _ _ _ _ Hmap Hread).
Qed.

(** ** The positions of an EPUB and the Reader's tokens *)

(** C10: the token counter of the importer and the tokenizer of the
    Reader agree on every text, so the [totalWords] stored for a book is
    the number of tokens of the Reader for its content; and the Reader
    finds the tokens of an EPUB again when every word among them neither
    starts nor ends with a white-space character.  The positions stored
    for the chapters of an EPUB are counted by the walk over the
    documents, though, and a word that the walk keeps and the Reader
    trims away moves them: in the example book, whose first paragraph
    begins with a no-break space and a space, the walk collects five
    tokens and records position 3 for the heading [Title]; the Reader
    finds four tokens in the text rebuilt from them, which is also what
    [countTokens] gives, and has the newline after [Title] at index 3. *)
Theorem C10_counts_agree_but_positions_shift :
  (forall text : jsstring, countTokens text = length (tokenize text))
  /\ (forall items : list SpineItem,
         Forall (fun t => t = [LF] \/ trimmed t) (spine_tokens items).1 ->
         tokenize (epub_text items) = (spine_tokens items).1)
  /\ (spine_tokens nbsp_spine).1
     = [[NBSP]; str "Intro"; [LF]; str "Title"; [LF]]
  /\ epub_chapters nbsp_spine nbsp_toc
     = [parsed_chapter (str "Title") (Index 3) []]
  /\ (spine_tokens nbsp_spine).1 !! 3%nat = Some (str "Title")
  /\ tokenize (epub_text nbsp_spine)
     = [str "Intro"; [LF]; str "Title"; [LF]]
  /\ countTokens (epub_text nbsp_spine) = 4%nat
  /\ tokenize (epub_text nbsp_spine) !! 3%nat = Some [LF]
  /\ tokenize (epub_text nbsp_spine) !! 2%nat = Some (str "Title").
Proof.
  split; [exact countTokens_length_tokenize|].
  split; [exact tokenize_epub_text|].
  repeat split; by vm_compute.
Qed.

End EpubFacts.

(* ===================================================================== *)
(** * Facts about the plain-text import *)
(* ===================================================================== *)

Module TxtFacts.

Import Tokenizer Epub Txt TokenizerFacts EpubFacts.

Example normalize_wrapped_paragraphs :
  normalize_txt
    (str "Call me" ++ [CR; LF] ++ str "Ishmael." ++ [LF; SPACE; TAB; LF; LF]
         ++ str "Some  years" ++ [TAB] ++ str "ago" ++ [LF])
  = str "Call me Ishmael." ++ [LF] ++ str "Some years ago".
Proof. by vm_compute. Qed.

(** ** The characters of each step *)

Lemma crlf_to_lf_chars (P : N -> Prop) s :
  Forall P s -> Forall P (crlf_to_lf s).
Proof.
  assert (Hgen : forall n s, (length s <= n)%nat ->
                             Forall P s -> Forall P (crlf_to_lf s)).
  { induction n as [|n IH]; intros s' Hlen Hs.
    { destruct s'; [done|cbn in Hlen; lia]. }
    destruct s' as [|c [|c' r']]; [done|done|].
    cbn [crlf_to_lf]. inversion Hs as [|? ? Hc Hr]; subst.
    inversion Hr as [|? ? Hc' Hr']; subst.
    destruct ((c =? CR)%N && (c' =? LF)%N) eqn:Hpair.
    - apply andb_true_iff in Hpair as [_ Hlf]. apply N.eqb_eq in Hlf as ->.
      constructor; [done|]. apply IH; [cbn in *; lia|done].
    - constructor; [done|]. apply (IH (c' :: r')); [cbn in *; lia|done]. }
  by apply (Hgen (length s)).
Qed.

Lemma replace_char_chars (P : N -> Prop) x y s :
  P y -> Forall P s -> Forall P (replace_char x y s).
Proof.
  intros Hy Hs. unfold replace_char. apply Forall_fmap.
  eapply Forall_impl; [exact Hs|]. intros c Hc. cbn.
  by destruct (c =? x)%N.
Qed.

Lemma replace_char_gone x y s :
  x <> y -> Forall (fun c => c <> x) (replace_char x y s).
Proof.
  intros Hne. unfold replace_char. apply Forall_fmap, Forall_forall.
  intros c _. cbn. destruct (c =? x)%N eqn:Hc; [done|].
  by apply N.eqb_neq.
Qed.

Lemma mark_paragraphs_from_chars (P : N -> Prop) skip s :
  Forall P PARAGRAPH -> Forall P s -> Forall P (mark_paragraphs_from skip s).
Proof.
  intros Hmark Hs. revert skip.
  induction Hs as [|c r Hc Hr IH]; intros skip; [done|].
  cbn [mark_paragraphs_from]. destruct skip as [|k]; [|apply IH].
  destruct (is_newline c); [|by constructor].
  destruct (paragraph_gap r); [|by constructor].
  by apply Forall_app_2.
Qed.

Lemma replace_all_from_chars (P : N -> Prop) skip pat by_ s :
  Forall P by_ -> Forall P s -> Forall P (replace_all_from skip pat by_ s).
Proof.
  intros Hby Hs. revert skip.
  induction Hs as [|c r Hc Hr IH]; intros skip; [done|].
  cbn [replace_all_from]. destruct skip as [|k]; [|apply IH].
  destruct (starts_with pat (c :: r)); [|by constructor].
  by apply Forall_app_2.
Qed.

Lemma replace_runs_chars (P : N -> Prop) cls by_ s :
  P by_ -> Forall P s -> Forall P (replace_runs cls by_ s).
Proof.
  intros Hby Hs. rewrite Forall_forall in Hs.
  eapply Forall_impl; [apply replace_runs_from_chars|].
  intros c [->|[Hin _]]; [done|by apply Hs].
Qed.

Lemma replace_runs_gone cls by_ s :
  Forall (fun c => c = by_ \/ cls c = false) (replace_runs cls by_ s).
Proof.
  eapply Forall_impl; [apply replace_runs_from_chars|].
  intros c [->|[_ Hc]]; auto.
Qed.

Lemma trim_chars (P : N -> Prop) s : Forall P s -> Forall P (trim s).
Proof.
  intros Hs. rewrite Forall_forall in *. intros c Hc. apply Hs.
  by apply (sublist_subseteq _ _ (trim_sublist s)).
Qed.

(** ** Neighbours *)

Lemma adjacent_cons s c x y : adjacent s x y -> adjacent (c :: s) x y.
Proof. intros (before & after & ->). by exists (c :: before), after. Qed.

Lemma adjacent_cons_inv s c x y :
  adjacent (c :: s) x y -> (c = x /\ head s = Some y) \/ adjacent s x y.
Proof.
  intros (before & after & Heq). destruct before as [|b before].
  - injection Heq as -> ->. by left.
  - injection Heq as -> ->. right. by exists before, after.
Qed.

Lemma adjacent_nil x y : ~ adjacent [] x y.
Proof. intros (before & after & Heq). by destruct before. Qed.

Lemma adjacent_app_l s t x y : adjacent s x y -> adjacent (s ++ t) x y.
Proof.
  intros (before & after & ->). exists before, (after ++ t).
  by rewrite <- app_assoc.
Qed.

Lemma adjacent_app_r s t x y : adjacent t x y -> adjacent (s ++ t) x y.
Proof.
  intros (before & after & ->). exists (s ++ before), after.
  by rewrite <- app_assoc.
Qed.

Lemma replace_runs_from_head_true cls by_ s h :
  head (replace_runs_from true cls by_ s) = Some h -> cls h = false.
Proof.
  induction s as [|c r IH]; [done|]. cbn [replace_runs_from].
  destruct (cls c) eqn:Hc; [done|]. by intros [= <-].
Qed.

Lemma replace_runs_from_head_false cls by_ s h :
  cls by_ = true ->
  head (replace_runs_from false cls by_ s) = Some h -> cls h = false ->
  head s = Some h.
Proof.
  intros Hby. destruct s as [|c r]; [done|]. cbn [replace_runs_from].
  destruct (cls c) eqn:Hc; intros [= <-]; [congruence|done].
Qed.

(** What stands next to what after the runs of a class have been
    replaced by a character of the class: the replacement next to a
    character outside the class, or two characters outside the class that
    were neighbours before. *)
Lemma replace_runs_from_adjacent b cls by_ s x y :
  cls by_ = true ->
  adjacent (replace_runs_from b cls by_ s) x y ->
  (x = by_ /\ cls y = false)
  \/ (cls x = false /\ y = by_)
  \/ (cls x = false /\ cls y = false /\ adjacent s x y).
Proof.
  intros Hby. revert b. induction s as [|c r IH]; intros b Hadj.
  { by apply adjacent_nil in Hadj. }
  assert (Hrest : forall b',
    adjacent (replace_runs_from b' cls by_ r) x y ->
    (x = by_ /\ cls y = false)
    \/ (cls x = false /\ y = by_)
    \/ (cls x = false /\ cls y = false /\ adjacent (c :: r) x y)).
  { intros b' Hadj'. destruct (IH b' Hadj') as [H1|[H2|(H3 & H4 & H5)]]; auto.
    right. right. split; [done|]. split; [done|]. by apply adjacent_cons. }
  cbn [replace_runs_from] in Hadj. destruct (cls c) eqn:Hc.
  - destruct b; [by apply (Hrest true)|].
    apply adjacent_cons_inv in Hadj as [[<- Hhead] | Hadj];
      [|by apply (Hrest true)].
    left. split; [done|]. by eapply replace_runs_from_head_true.
  - apply adjacent_cons_inv in Hadj as [[<- Hhead] | Hadj];
      [|by apply (Hrest false)].
    destruct (cls y) eqn:Hy.
    + right. left. split; [done|].
      pose proof (replace_runs_from_chars false cls by_ r) as Hchars.
      rewrite Forall_forall in Hchars.
      destruct (Hchars y) as [->|[_ Hy']]; [|done|congruence].
      destruct (replace_runs_from false cls by_ r); [done|].
      injection Hhead as ->. by left.
    + right. right. split; [done|]. split; [done|].
      apply replace_runs_from_head_false in Hhead; [|done|done].
      destruct r as [|c' r']; [done|]. injection Hhead as ->.
      by exists [], r'.
Qed.

Lemma trimStart_suffix s : exists before, s = before ++ trimStart s.
Proof.
  induction s as [|c r [before IH]]; [by exists []|].
  cbn [trimStart]. destruct (is_white_space c).
  - exists (c :: before). by rewrite IH at 1.
  - by exists [].
Qed.

Lemma trimEnd_prefix s : exists after, s = trimEnd s ++ after.
Proof.
  induction s as [|c r [after IH]]; [by exists []|].
  cbn [trimEnd]. destruct (trimEnd r) as [|k kept] eqn:Hkept.
  - destruct (is_white_space c).
    + by exists (c :: r).
    + exists r. done.
  - exists after. cbn [app]. by rewrite IH at 1.
Qed.

Lemma adjacent_trim s x y : adjacent (trim s) x y -> adjacent s x y.
Proof.
  unfold trim. intros Hadj.
  destruct (trimStart_suffix s) as [before Hs].
  destruct (trimEnd_prefix (trimStart s)) as [after Ht].
  rewrite Hs, Ht. by apply adjacent_app_r, adjacent_app_l.
Qed.

(** X14: the text that [parseFile] stores for a plain-text file holds no
    carriage return and no tab, no two spaces in a row and no two
    newlines in a row, and neither starts nor ends with white space,
    whatever the file contains. *)
Theorem normalize_txt_shape (content : jsstring) :
  Forall (fun c => c <> CR /\ c <> TAB) (normalize_txt content)
  /\ ~ adjacent (normalize_txt content) SPACE SPACE
  /\ ~ adjacent (normalize_txt content) LF LF
  /\ trimmed (normalize_txt content).
Proof.
  unfold normalize_txt.
  set (s2 := replace_char CR LF (crlf_to_lf content)).
  set (s3 := mark_paragraphs s2).
  set (s4 := replace_char LF SPACE s3).
  set (s5 := replace_all PARAGRAPH [LF] s4).
  set (s6 := replace_runs is_space_or_tab SPACE s5).
  set (s7 := replace_runs is_newline LF s6).
  assert (Hcr5 : Forall (fun c => c <> CR) s5).
  { apply replace_all_from_chars; [by repeat constructor|].
    apply replace_char_chars; [done|].
    apply mark_paragraphs_from_chars; [by repeat constructor|].
    by apply replace_char_gone. }
  assert (Hs6 : Forall (fun c => c <> CR /\ c <> TAB) s6).
  { apply Forall_and. split.
    - by apply replace_runs_chars.
    - eapply Forall_impl; [apply replace_runs_gone|].
      intros c [->|Hc]; [done|]. intros ->. done. }
  assert (Hsp6 : ~ adjacent s6 SPACE SPACE).
  { intros Hadj.
    apply replace_runs_from_adjacent in Hadj
      as [[_ H]|[[H _]|[H _]]]; done. }
  split; [|split; [|split]].
  - apply trim_chars, replace_runs_chars; done.
  - intros Hadj%adjacent_trim.
    apply replace_runs_from_adjacent in Hadj
      as [[H _]|[[_ H]|(_ & _ & H)]]; done.
  - intros Hadj%adjacent_trim.
    apply replace_runs_from_adjacent in Hadj
      as [[_ H]|[[H _]|[H _]]]; done.
  - apply trim_trimmed.
Qed.

End TxtFacts.

(* ===================================================================== *)
(** * Facts about the speech queue *)
(* ===================================================================== *)

Module SpeechQueueFacts.

Import Tokenizer Sentence Playback SpeechQueue.
Import TokenizerFacts SentenceFacts PlaybackFacts.

(** ** Chunks in order *)

Lemma in_order_weaken us next next' :
  in_order us next -> next <= next' -> in_order us next'.
Proof.
  induction us as [|u rest IH]; [done|]. cbn [in_order].
  intros (Hu & Hnext & Hrest) Hle. split; [done|]. split.
  - destruct rest; [lia|done].
  - by apply IH.
Qed.

Lemma in_order_snoc us u next next' :
  in_order us next -> next <= c_start (u_chunk u) ->
  c_start (u_chunk u) < c_end (u_chunk u) -> c_end (u_chunk u) <= next' ->
  in_order (us ++ [u]) next'.
Proof.
  intros Hus Hnext Hu Hend. induction us as [|u0 rest IH].
  - cbn. done.
  - cbn [in_order app] in *. destruct Hus as (Hu0 & Hnext0 & Hrest).
    split; [done|]. split.
    + destruct rest; cbn; [lia|done].
    + by apply IH.
Qed.

Lemma in_order_first us u next :
  in_order (u :: us) next ->
  c_start (u_chunk u) < match us with
                        | u' :: _ => c_end (u_chunk u')
                        | [] => next + 1
                        end.
Proof.
  cbn [in_order]. intros (Hu & Hnext & Hrest).
  destruct us as [|u' rest]; [lia|].
  cbn [in_order] in Hrest. lia.
Qed.

Lemma in_order_delete k us next :
  in_order us next -> in_order (delete k us) next.
Proof.
  revert k. induction us as [|u rest IH]; intros k Hus; [by destruct k|].
  destruct k as [|k]; [by destruct Hus as (_ & _ & Hrest)|].
  cbn [in_order] in Hus. destruct Hus as (Hu & Hnext & Hrest).
  change (delete (S k) (u :: rest)) with (u :: delete k rest).
  cbn [in_order]. split; [done|]. split; [|by apply IH].
  destruct rest as [|u' rest']; [by destruct k|].
  destruct k as [|k].
  - change (delete 0%nat (u' :: rest')) with rest'.
    cbn [in_order] in Hrest. destruct Hrest as (Hu' & Hnext' & Hrest').
    destruct rest'; lia.
  - done.
Qed.

Lemma queue_ok_delete k r :
  queue_ok r -> queue_ok (set_active (delete k (active r)) r).
Proof.
  intros [Hsize Horder Htext]. split; cbn.
  - pose proof (sublist_length _ _ (sublist_delete (active r) k)) as Hlen. lia.
  - by apply in_order_delete.
  - rewrite Forall_forall in *. intros u Hu. apply Htext.
    by eapply sublist_subseteq; [apply sublist_delete|].
Qed.

(** ** Queueing *)

Lemma enqueue_loop_queue cfg fuel r r' :
  reader_ok r -> queue_ok r ->
  enqueue_loop fuel cfg r = Some r' ->
  queue_ok r'
  /\ queueNext r <= queueNext r'
  /\ (remaining r' <= remaining r)%nat
  /\ (length (active r) <= length (active r'))%nat
  /\ (shouldPlay r = true ->
      length (active r') = 2%nat \/ total r' <= queueNext r').
Proof.
  revert r. induction fuel as [|fuel IH]; intros r Hok Hq Hloop; [done|].
  cbn [enqueue_loop] in Hloop.
  destruct (shouldPlay r) eqn:Hplay; cbn [negb] in Hloop.
  2:{ injection Hloop as <-. repeat (split; [done || lia|]). done. }
  destruct (2 <=? length (active r))%nat eqn:Hsize.
  { injection Hloop as <-. apply Nat.leb_le in Hsize.
    pose proof (q_size _ Hq) as Hle.
    repeat (split; [done || lia|]). intros _. left. lia. }
  apply Nat.leb_gt in Hsize.
  destruct (total r <=? queueNext r) eqn:Hend.
  { injection Hloop as <-. apply Z.leb_le in Hend.
    repeat (split; [done || lia|]). intros _. by right. }
  apply Z.leb_gt in Hend.
  pose proof Hok as [Hws Hidx Hqn Hact].
  destruct (next_chunk_valid (repeatMode cfg) (words r) (queueNext r) Hws)
    as (chunk & Hchunk & Hvalid & Hcs); [unfold total in Hend; lia|].
  rewrite Hchunk in Hloop. pose proof Hvalid as (Hc1 & Hc2 & Hc3).
  destruct Hq as [Hqs Hqo Hqt].
  destruct (is_blank (c_text chunk)) eqn:Hblank.
  - set (r1 := set_queueNext (c_end chunk) r) in *.
    assert (Hok1 : reader_ok r1) by (split; cbn; [done|done|lia|done]).
    assert (Hq1 : queue_ok r1).
    { split; cbn; [done| |done]. eapply in_order_weaken; [done|lia]. }
    assert (Hrem1 : (remaining r1 <= remaining r)%nat)
      by (unfold remaining, total in *; cbn; lia).
    destruct (c_end chunk <? total r) eqn:Hmore.
    + destruct (IH r1 Hok1 Hq1 Hloop) as (Hq' & Hn' & Hrem' & Hlen' & Hfull').
      split; [done|]. cbn in Hn', Hlen'.
      repeat (split; [lia|]). intros _. by apply Hfull'.
    + injection Hloop as <-. apply Z.ltb_ge in Hmore.
      split; [done|]. split; [cbn; lia|]. split; [done|].
      split; [cbn; lia|]. intros _. right. unfold total in *. cbn. lia.
  - set (u := make_utterance cfg chunk) in *.
    set (r2 := set_active (active r ++ [u]) (set_queueNext (c_end chunk) r))
      in *.
    assert (Hok2 : reader_ok r2).
    { split; cbn; [done|done|lia|].
      apply Forall_app. split; [done|].
      apply Forall_cons. split; [|constructor]. by split. }
    assert (Hq2 : queue_ok r2).
    { split; cbn.
      - rewrite length_app. cbn. lia.
      - eapply in_order_snoc; [done|cbn; lia|cbn; lia|cbn; lia].
      - apply Forall_app. split; [done|]. by repeat constructor. }
    assert (Hrem2 : (remaining r2 <= remaining r)%nat).
    { unfold remaining, total in *. cbn. rewrite length_app. cbn. lia. }
    destruct (IH r2 Hok2 Hq2 Hloop) as (Hq' & Hn' & Hrem' & Hlen' & Hfull').
    split; [done|]. cbn in Hn', Hlen'. rewrite length_app in Hlen'.
    cbn in Hlen'. repeat (split; [lia|]). intros _. by apply Hfull'.
Qed.

Lemma enqueueNextChunk_queue cfg r :
  reader_ok r -> queue_ok r ->
  exists r',
    enqueueNextChunk cfg r = Some r'
    /\ reader_ok r' /\ queue_ok r'
    /\ words r' = words r
    /\ currentIndex r' = currentIndex r
    /\ isPlaying r' = isPlaying r
    /\ shouldPlay r' = shouldPlay r
    /\ (remaining r' <= remaining r)%nat
    /\ (shouldPlay r = true ->
        length (active r') = 2%nat \/ total r' <= queueNext r').
Proof.
  intros Hok Hq.
  destruct (enqueueNextChunk_ok cfg r Hok)
    as (r' & Hr' & Hok' & Hw & Hi & Hp & Hs & _).
  destruct (enqueue_loop_queue _ _ _ _ Hok Hq Hr')
    as (Hq' & _ & Hrem & _ & Hfull).
  by exists r'.
Qed.

Lemma speakText_queue cfg start r :
  reader_ok r -> 0 <= start ->
  exists r',
    speakText cfg start r = Some r' /\ reader_ok r' /\ queue_ok r'.
Proof.
  intros [Hws Hidx Hq Hact] Hstart. unfold speakText.
  set (r1 := set_queueNext start
               (clear_timer (cancel_speech (set_shouldPlay true r)))).
  assert (Hok1 : reader_ok r1) by (split; cbn; done).
  assert (Hq1 : queue_ok r1) by (split; cbn; [lia|done|done]).
  destruct (negb (isVoiceEnabled cfg)).
  - destruct (is_wheel (mode cfg) && wheelContinuousMode cfg);
      eexists; (split; [done|]); split; split; cbn; done || lia.
  - destruct (enqueueNextChunk_queue cfg r1 Hok1 Hq1)
      as (r2 & -> & Hok2 & Hq2 & _).
    destruct (enqueueNextChunk_queue cfg r2 Hok2 Hq2)
      as (r3 & -> & Hok3 & Hq3 & _).
    by exists r3.
Qed.

Lemma queue_ok_same r r' :
  active r' = active r -> queueNext r' = queueNext r ->
  queue_ok r -> queue_ok r'.
Proof. intros Ha Hn [H1 H2 H3]. split; by rewrite Ha, ?Hn. Qed.

Lemma step_queue_ok cfg r ev r' :
  reader_ok r -> queue_ok r -> step cfg r ev = Some r' -> queue_ok r'.
Proof.
  intros Hok Hq Hstep. pose proof Hok as [Hws Hi Hqn Hact].
  destruct ev as [|delta|forward|index| |k charIndex|k|k]; cbn [step] in Hstep.
  - unfold togglePlay in Hstep. destruct (isPlaying r).
    + injection Hstep as <-. eapply queue_ok_same; [| |exact Hq]; done.
    + destruct (speakText_queue cfg (currentIndex r)
                  (set_isPlaying true (set_shouldPlay true r)))
        as (r1 & Hr1 & _ & Hq1); [by split|lia|]. congruence.
  - unfold changePosition in Hstep.
    set (newIndex := Z.max 0 (Z.min (total r - 1) (currentIndex r + delta)))
      in *.
    assert (Hnew : 0 <= newIndex <= total r - 1)
      by (unfold newIndex, total in *; lia).
    assert (Hok1 : reader_ok (set_currentIndex newIndex r))
      by (split; cbn; done).
    destruct (isPlaying r).
    + destruct (speakText_queue cfg newIndex _ Hok1) as (r1 & Hr1 & _ & Hq1);
        [lia|]. congruence.
    + injection Hstep as <-. eapply queue_ok_same; [| |exact Hq]; done.
  - unfold navigateBySentence in Hstep.
    pose proof (navigate_target_bounds (words r) (currentIndex r) forward Hi)
      as Hnew.
    set (newIndex := navigate_target (words r) (currentIndex r) forward) in *.
    destruct (isPlaying r).
    + destruct (speakText_queue cfg newIndex
                  (set_queueNext newIndex
                     (cancel_speech (set_shouldPlay true
                        (set_currentIndex newIndex r)))))
        as (r1 & Hr1 & _ & Hq1); [split; cbn; done || lia|lia|]. congruence.
    + injection Hstep as <-. eapply queue_ok_same; [| |exact Hq]; done.
  - destruct ((0 <=? index) && (index <? total r)) eqn:Hen; [|done].
    apply andb_true_iff in Hen as [H0 H1].
    apply Z.leb_le in H0. apply Z.ltb_lt in H1. unfold handleWordClick in Hstep.
    destruct (speakText_queue cfg index
                (set_shouldPlay true (set_isPlaying true
                   (set_currentIndex index r))))
      as (r1 & Hr1 & _ & Hq1);
      [split; cbn; done || (unfold total in *; cbn; lia)|lia|]. congruence.
  - destruct (timer r); [|done]. injection Hstep as <-.
    eapply queue_ok_same; [| |exact Hq]; unfold timer_tick;
      destruct (negb (shouldPlay r)); try done;
      by destruct (total r - 1 <=? currentIndex r).
  - destruct (active r !! k) as [u|]; [|done]. injection Hstep as <-.
    eapply queue_ok_same; [| |exact Hq]; unfold onboundary;
      repeat match goal with
             | |- context [if ?b then _ else _] => destruct b
             end; done.
  - destruct (active r !! k) as [u|] eqn:Hu; [|done]. unfold onend in Hstep.
    destruct (enqueueNextChunk_queue cfg (set_active (delete k (active r)) r))
      as (r1 & Hr1 & _ & Hq1 & _).
    { split; cbn; try done. by apply Forall_delete. }
    { by apply queue_ok_delete. }
    rewrite Hr1 in Hstep.
    destruct ((length (active r1) =? 0)%nat && (total r1 <=? queueNext r1));
      injection Hstep as <-; [|done].
    eapply queue_ok_same; [| |exact Hq1]; done.
  - destruct (active r !! k) as [u|] eqn:Hu; [|done]. injection Hstep as <-.
    by apply queue_ok_delete.
Qed.

Lemma step_enabled cfg r ev r' : step cfg r ev = Some r' -> enabled r ev = true.
Proof.
  destruct ev; cbn; try done.
  - by destruct (_ && _).
  - by destruct (timer r).
  - by destruct (active r !! k).
  - by destruct (active r !! k).
  - by destruct (active r !! k).
Qed.

Lemma run_queue_ok cfg r evs r' :
  reader_ok r -> queue_ok r -> run cfg r evs = Some r' -> queue_ok r'.
Proof.
  revert r. induction evs as [|ev evs IH]; intros r Hok Hq; cbn [run].
  - by intros [= <-].
  - destruct (step cfg r ev) as [r1|] eqn:Hstep; [|done].
    destruct (step_ok cfg r ev Hok (step_enabled _ _ _ _ Hstep))
      as (r1' & Hr1 & Hok1 & _).
    rewrite Hstep in Hr1. injection Hr1 as <-.
    intros Hrun. eapply IH; [exact Hok1| |exact Hrun].
    exact (step_queue_ok cfg r ev r1 Hok Hq Hstep).
Qed.

Lemma in_order_bounds us next :
  in_order us next ->
  forall u, u ∈ us ->
            c_start (u_chunk u) < c_end (u_chunk u)
            /\ c_end (u_chunk u) <= next.
Proof.
  induction us as [|u0 rest IH]; intros Hus u Hin.
  - by apply elem_of_nil in Hin.
  - cbn [in_order] in Hus. destruct Hus as (Hu0 & Hnext & Hrest).
    apply elem_of_cons in Hin as [->|Hin]; [|by apply IH].
    split; [done|]. destruct rest as [|u' rest']; [done|].
    destruct (IH Hrest u') as [H1 H2]; [by left|]. lia.
Qed.

(** X15: in every reading session that starts from a book opened at a
    stored position inside its token array
    ([0 <= lastPosition <= totalTokens - 1]), after any sequence of
    player events (play and pause, seeks, word clicks, timer ticks, and
    the boundary, end and error callbacks of the registered utterances)
    the set of registered utterances holds at most two of them.  Each
    speaks a non-empty range of tokens whose text is not blank; the
    ranges lie inside the token array, come in order without overlapping
    (no token is in two registered utterances), and the position at which
    the queue goes on lies behind all of them and within the token
    array's length. *)
Theorem speech_queue_holds_two_chunks_in_order
  (cfg : Config) (content : jsstring) (lastPosition : Z)
  (evs : list Event) (r : Reader) :
  0 <= lastPosition <= Z.of_nat (length (tokenize content)) - 1 ->
  run cfg (open_book content lastPosition) evs = Some r ->
  (length (active r) <= 2)%nat
  /\ in_order (active r) (queueNext r)
  /\ Forall (fun u =>
               0 <= c_start (u_chunk u) < c_end (u_chunk u)
               /\ c_end (u_chunk u) <= Z.min (total r) (queueNext r)
               /\ is_blank (c_text (u_chunk u)) = false)
            (active r)
  /\ (forall i j u u',
         active r !! i = Some u -> active r !! j = Some u' -> (i < j)%nat ->
         c_end (u_chunk u) <= c_start (u_chunk u')).
Proof.
  intros Hpos Hrun.
  pose proof (open_book_ok content lastPosition Hpos) as Hok0.
  assert (Hq0 : queue_ok (open_book content lastPosition))
    by (split; cbn; [lia|done|done]).
  destruct (run_ok _ _ _ _ Hok0 Hrun) as [[Hws Hi Hqn Hact] _].
  destruct (run_queue_ok _ _ _ _ Hok0 Hq0 Hrun) as [Hsize Horder Htext].
  split; [done|]. split; [done|]. split.
  - apply Forall_forall. intros u Hu.
    rewrite Forall_forall in Hact, Htext.
    destruct (Hact u Hu) as [(Hc1 & Hc2 & _) _].
    destruct (in_order_bounds _ _ Horder u Hu) as [_ Hnext].
    unfold total. split; [lia|]. split; [lia|]. by apply Htext.
  - intros i j u u' Hu Hu' Hij.
    destruct (active r) as [|u0 [|u1 [|u2 rest]]]; cbn in Hsize; try lia.
    + done.
    + destruct i, j; try done; lia.
    + destruct i as [|[|i]], j as [|[|j]]; try done; try lia.
      cbn in Hu, Hu'. injection Hu as <-. injection Hu' as <-.
      cbn [in_order] in Horder. lia.
Qed.

(** ** Reading to the end *)

Lemma onend_first cfg r u rest :
  reader_ok r -> queue_ok r -> shouldPlay r = true ->
  active r = u :: rest ->
  exists r',
    step cfg r (SpeechEnd 0) = Some r'
    /\ reader_ok r' /\ queue_ok r'
    /\ words r' = words r
    /\ ((isPlaying r' = false /\ shouldPlay r' = false /\ active r' = []
         /\ total r' <= queueNext r')
        \/ (shouldPlay r' = true /\ active r' <> []
            /\ (remaining r' < remaining r)%nat)).
Proof.
  intros Hok Hq Hplay Hactive. cbn [step]. rewrite Hactive. cbn [lookup].
  change ((u :: rest) !! 0%nat) with (Some u). cbn beta iota.
  unfold onend. rewrite Hactive.
  change (delete 0%nat (u :: rest)) with rest.
  set (r0 := set_active rest r).
  assert (Hok0 : reader_ok r0).
  { destruct Hok as [Hws Hi Hqn Hact]. split; cbn; try done.
    rewrite Hactive in Hact. by inversion Hact. }
  assert (Hq0 : queue_ok r0).
  { pose proof (queue_ok_delete 0 r Hq) as Hd. by rewrite Hactive in Hd. }
  assert (Hrem0 : (remaining r0 < remaining r)%nat).
  { unfold remaining, total. cbn. rewrite Hactive. cbn. lia. }
  destruct (enqueueNextChunk_queue cfg r0 Hok0 Hq0)
    as (r1 & -> & Hok1 & Hq1 & Hw1 & Hi1 & Hp1 & Hs1 & Hrem1 & Hfull1).
  destruct (Hfull1 Hplay) as [Hfull | Hdone].
  - rewrite Hfull. cbn [Nat.eqb andb]. exists r1.
    split; [done|]. split; [done|]. split; [done|]. split; [done|]. right.
    split; [by rewrite Hs1|]. split; [|lia]. by destruct (active r1).
  - rewrite (proj2 (Z.leb_le _ _) Hdone), andb_true_r.
    destruct (length (active r1) =? 0)%nat eqn:Hempty.
    + apply Nat.eqb_eq in Hempty. eexists. split; [done|].
      destruct Hok1 as [Hws1 Hidx1 Hqn1 Hact1]. destruct Hq1 as [Hq1 Hq2 Hq3].
      split; [by split|]. split; [by split|]. split; [done|]. left.
      cbn. split; [done|]. split; [done|]. split; [|done].
      by destruct (active r1).
    + apply Nat.eqb_neq in Hempty. exists r1.
      split; [done|]. split; [done|]. split; [done|]. split; [done|]. right.
      split; [by rewrite Hs1|]. split; [|lia]. by destruct (active r1).
Qed.

Lemma speech_ends cfg n r :
  (remaining r <= n)%nat ->
  reader_ok r -> queue_ok r -> shouldPlay r = true -> active r <> [] ->
  exists k r',
    run cfg r (repeat (SpeechEnd 0) k) = Some r'
    /\ (1 <= k <= remaining r)%nat
    /\ isPlaying r' = false /\ shouldPlay r' = false
    /\ active r' = [] /\ total r' <= queueNext r'
    /\ words r' = words r.
Proof.
  revert r. induction n as [|n IH]; intros r Hn Hok Hq Hplay Hactive.
  { unfold remaining in Hn. destruct (active r); [done|cbn in Hn; lia]. }
  destruct (active r) as [|u rest] eqn:Hu; [done|].
  destruct (onend_first cfg r u rest Hok Hq Hplay Hu)
    as (r1 & Hstep & Hok1 & Hq1 & Hw1 & Hcases).
  assert (Hpos : (1 <= remaining r)%nat)
    by (unfold remaining; rewrite Hu; cbn; lia).
  destruct Hcases as [(Hp & Hs & Ha & Hend) | (Hs & Ha & Hrem)].
  - exists 1%nat, r1. cbn [repeat run]. rewrite Hstep.
    split; [done|]. split; [lia|]. done.
  - destruct (IH r1 ltac:(lia) Hok1 Hq1 Hs Ha)
      as (k & r' & Hrun & Hk & Hp' & Hs' & Ha' & Hend' & Hw').
    exists (S k), r'. cbn [repeat run]. rewrite Hstep.
    split; [done|]. split; [lia|]. split; [done|]. split; [done|].
    split; [done|]. split; [done|]. by rewrite Hw'.
Qed.

(** X16: voice playback reads to the end and then stops.  In every
    reading session that starts from a book opened at a stored position
    inside its token array ([0 <= lastPosition <= totalTokens - 1]), from
    a state in which speech is playing with an utterance registered,
    letting the utterances end one by one ends the playback after
    finitely many of them (at most twice the number of tokens not yet
    queued, plus the utterances registered): every token up to the end of
    the book has been queued, no utterance is registered any more and the
    player shows as stopped. *)
Theorem voice_playback_reads_to_the_end
  (cfg : Config) (content : jsstring) (lastPosition : Z)
  (evs : list Event) (r : Reader) :
  0 <= lastPosition <= Z.of_nat (length (tokenize content)) - 1 ->
  run cfg (open_book content lastPosition) evs = Some r ->
  shouldPlay r = true -> active r <> [] ->
  exists k r',
    run cfg r (repeat (SpeechEnd 0) k) = Some r'
    /\ (1 <= k <= remaining r)%nat
    /\ isPlaying r' = false /\ shouldPlay r' = false
    /\ active r' = [] /\ total r' <= queueNext r'
    /\ words r' = words r.
Proof.
  intros Hpos Hrun Hplay Hactive.
  pose proof (open_book_ok content lastPosition Hpos) as Hok0.
  assert (Hq0 : queue_ok (open_book content lastPosition))
    by (split; cbn; [lia|done|done]).
  destruct (run_ok _ _ _ _ Hok0 Hrun) as [Hok _].
  pose proof (run_queue_ok _ _ _ _ Hok0 Hq0 Hrun) as Hq.
  by apply (speech_ends cfg (remaining r)).
Qed.

(** ** Pausing *)

Lemma enqueueNextChunk_paused cfg r :
  shouldPlay r = false -> enqueueNextChunk cfg r = Some r.
Proof.
  intros Hpaused. unfold enqueueNextChunk, enqueue_fuel.
  rewrite Nat.add_comm. cbn [Nat.add enqueue_loop]. by rewrite Hpaused.
Qed.

(** While the player is paused, the end and error callbacks of the
    utterances only take utterances out of the set. *)
Lemma paused_callbacks cfg evs r r' :
  isPlaying r = false -> shouldPlay r = false -> timer r = None ->
  Forall (fun ev => exists k, ev = SpeechEnd k \/ ev = SpeechError k) evs ->
  run cfg r evs = Some r' ->
  isPlaying r' = false /\ shouldPlay r' = false /\ timer r' = None
  /\ currentIndex r' = currentIndex r /\ words r' = words r
  /\ queueNext r' = queueNext r
  /\ sublist (active r') (active r).
Proof.
  intros Hp Hs Ht Hevs. revert r Hp Hs Ht.
  induction Hevs as [|ev evs (k & Hev) Hevs IH]; intros r Hp Hs Ht.
  - by intros [= <-].
  - cbn [run]. destruct (step cfg r ev) as [r1|] eqn:Hstep; [|done].
    intros Hrun.
    assert (H1 : isPlaying r1 = false /\ shouldPlay r1 = false
                 /\ timer r1 = None
                 /\ currentIndex r1 = currentIndex r /\ words r1 = words r
                 /\ queueNext r1 = queueNext r
                 /\ active r1 = delete k (active r)).
    { destruct Hev as [-> | ->]; cbn [step] in Hstep;
        (destruct (active r !! k) as [u|]; [|done]).
      - unfold onend in Hstep.
        rewrite enqueueNextChunk_paused in Hstep by done.
        destruct (_ && _); by injection Hstep as <-.
      - by injection Hstep as <-. }
    destruct H1 as (Hp1 & Hs1 & Ht1 & Hi1 & Hw1 & Hq1 & Ha1).
    destruct (IH r1 Hp1 Hs1 Ht1 Hrun) as (? & ? & ? & Hi' & Hw' & Hq' & Ha').
    repeat (split; [done || congruence|]).
    etrans; [exact Ha'|]. rewrite Ha1. apply sublist_delete.
Qed.

(** X17: pausing stops the player and keeps the place.  [togglePlay] on
    a playing reader leaves it not playing, with the interval cleared
    (so no tick of the timer follows) and the current index, the tokens
    and the position of the queue unchanged.  The utterances stay
    registered, and their end and error callbacks still run after the
    pause; whatever number of them run, they only take utterances out of
    the set: the player stays paused, nothing is queued, and the index,
    the tokens and the position of the queue stay as they are.  On a
    paused reader whose index lies inside the token array and whose
    registered utterances speak ranges of it, pressing play and then
    pause leaves the index where it was. *)
Theorem pause_stops_and_keeps_the_place (cfg : Config) (r : Reader) :
  reader_ok r ->
  (isPlaying r = true ->
   exists r',
     togglePlay cfg r = Some r'
     /\ isPlaying r' = false /\ shouldPlay r' = false
     /\ timer r' = None /\ active r' = active r
     /\ queueNext r' = queueNext r
     /\ currentIndex r' = currentIndex r /\ words r' = words r
     /\ step cfg r' TimerTick = None
     /\ (forall k, (k < length (active r))%nat ->
           is_Some (step cfg r' (SpeechEnd k))
           /\ is_Some (step cfg r' (SpeechError k)))
     /\ (forall evs r'',
           Forall (fun ev => exists k, ev = SpeechEnd k \/ ev = SpeechError k)
                  evs ->
           run cfg r' evs = Some r'' ->
           isPlaying r'' = false /\ shouldPlay r'' = false
           /\ timer r'' = None
           /\ currentIndex r'' = currentIndex r /\ words r'' = words r
           /\ queueNext r'' = queueNext r
           /\ sublist (active r'') (active r)))
  /\ (isPlaying r = false ->
      exists r',
        run cfg r [TogglePlay; TogglePlay] = Some r'
        /\ isPlaying r' = false /\ shouldPlay r' = false
        /\ timer r' = None
        /\ currentIndex r' = currentIndex r /\ words r' = words r).
Proof.
  intros Hok. split.
  - intros Hplaying. unfold togglePlay. rewrite Hplaying.
    eexists. split; [done|]. cbn.
    do 8 (split; [done|]). split.
    + intros k Hk. destruct (lookup_lt_is_Some_2 (active r) k Hk) as [u Hu].
      rewrite Hu. unfold onend.
      rewrite enqueueNextChunk_paused by done.
      split; [by destruct (_ && _) | done].
    + intros evs r'' Hevs Hrun.
      exact (paused_callbacks cfg evs
               (set_isPlaying false (clear_timer (set_shouldPlay false r)))
               r'' eq_refl eq_refl eq_refl Hevs Hrun).
  - intros Hpaused. cbn [run step]. unfold togglePlay at 1. rewrite Hpaused.
    destruct (speakText_ok cfg (currentIndex r)
                (set_isPlaying true (set_shouldPlay true r)))
      as (r1 & -> & Hok1 & Hw1 & Hi1 & Hp1);
      [by destruct Hok; split|by destruct Hok; lia|].
    unfold togglePlay. cbn in Hp1. rewrite Hp1.
    eexists. split; [done|]. cbn. repeat (split; [done|]). done.
Qed.

(** ** Word boundaries *)

Lemma join_word_prefix ws k :
  (k < length ws)%nat ->
  exists rest,
    join [SPACE] ws
    = concat (map (fun w => w ++ [SPACE]) (take k ws)) ++ rest.
Proof.
  revert ws. induction k as [|k IH]; intros ws Hk.
  - exists (join [SPACE] ws). by rewrite take_0.
  - destruct ws as [|w ws]; [cbn in Hk; lia|].
    destruct (IH ws ltac:(cbn in Hk; lia)) as [rest Hrest].
    exists rest. rewrite join_cons. destruct ws as [|w' ws'];
      [cbn in Hk; lia|].
    rewrite Hrest. cbn [take map concat]. by rewrite <- !app_assoc.
Qed.

Lemma word_prefix_length ws :
  length (concat (map (fun w : jsstring => w ++ [SPACE]) ws))
  = list_sum (map (fun w => S (length w)) ws).
Proof.
  induction ws as [|w ws IH]; [done|].
  cbn [map concat]. rewrite !length_app, IH.
  change (list_sum (S (length w) :: ?l)) with (S (length w) + list_sum l)%nat.
  cbn [length]. lia.
Qed.

Lemma word_prefix_spaces ws :
  Forall no_space ws ->
  count_spaces (concat (map (fun w => w ++ [SPACE]) ws))
  = Z.of_nat (length ws).
Proof.
  intros Hws. induction Hws as [|w ws Hw Hws IH]; [done|].
  cbn [map concat]. rewrite !count_spaces_app, IH.
  rewrite (count_spaces_no_space w Hw). cbn [length].
  change (count_spaces [SPACE]) with 1. lia.
Qed.

Lemma slice_take {A} (l : list A) n :
  0 <= n <= Z.of_nat (length l) -> slice l 0 n = take (Z.to_nat n) l.
Proof.
  intros Hn. unfold slice, rel_index. change (0 <? 0) with false. cbv iota.
  replace (Z.to_nat (Z.min 0 (Z.of_nat (length l)))) with 0%nat by lia.
  rewrite drop_0, (proj2 (Z.ltb_ge _ _)) by lia. f_equal. lia.
Qed.

Lemma word_offset_bounds ws k :
  (k < length ws)%nat ->
  0 <= word_offset ws k <= Z.of_nat (length (join [SPACE] ws)).
Proof.
  intros Hk. unfold word_offset. split; [lia|].
  destruct (join_word_prefix ws k Hk) as [rest ->].
  rewrite length_app, word_prefix_length. lia.
Qed.

(** The spaces before the [k]-th word, in any prefix of the text that
    reaches the word. *)
Lemma spaces_before_word ws k n :
  Forall no_space ws -> (k < length ws)%nat ->
  word_offset ws k <= Z.of_nat n ->
  count_spaces (take (Z.to_nat (word_offset ws k))
                     (take n (join [SPACE] ws)))
  = Z.of_nat k.
Proof.
  intros Hws Hk Hn. rewrite take_take.
  replace (Z.to_nat (word_offset ws k) `min` n)%nat
    with (Z.to_nat (word_offset ws k)) by lia.
  destruct (join_word_prefix ws k Hk) as [rest ->].
  unfold word_offset. rewrite Nat2Z.id, <- word_prefix_length.
  rewrite take_app_length, word_prefix_spaces.
  - rewrite length_take. lia.
  - by apply Forall_take.
Qed.

Lemma onboundary_current u charIndex r newIndex :
  (if u_isRepeating u
      && (Z.of_nat (length (u_firstPart u)) + 1 <=? charIndex)
   then charIndex - (Z.of_nat (length (u_firstPart u)) + 1)
   else charIndex) <= Z.of_nat (length (u_firstPart u))
  \/ u_isRepeating u = false ->
  c_start (u_chunk u)
  + count_spaces
      (slice (if u_isRepeating u then u_firstPart u else c_text (u_chunk u))
             0
             (if u_isRepeating u
                 && (Z.of_nat (length (u_firstPart u)) + 1 <=? charIndex)
              then charIndex - (Z.of_nat (length (u_firstPart u)) + 1)
              else charIndex))
  = newIndex ->
  currentIndex (onboundary u charIndex r) = newIndex.
Proof.
  intros Hin Hnew. unfold onboundary.
  set (charIndex' := if _ && _ then _ else charIndex) in *.
  assert (Hgo : u_isRepeating u
                && (Z.of_nat (length (u_firstPart u)) <? charIndex') = false).
  { destruct Hin as [Hle | ->]; [|done].
    rewrite (proj2 (Z.ltb_ge _ _) Hle). by rewrite andb_false_r. }
  rewrite Hgo, Hnew.
  destruct (newIndex =? currentIndex r) eqn:Heq; [|done].
  by apply Z.eqb_eq in Heq.
Qed.

Lemma slice_one {A} (ws : list A) i w :
  at_index ws i = Some w -> slice ws i (i + 1) = [w].
Proof.
  unfold at_index. destruct (i <? 0) eqn:Hi; [done|]. intros Hw.
  apply Z.ltb_ge in Hi. apply lookup_lt_Some in Hw as Hlt.
  unfold slice, rel_index.
  rewrite !(proj2 (Z.ltb_ge _ _)) by lia.
  replace (Z.to_nat (Z.min (i + 1) (Z.of_nat (length ws)) -
                     Z.min i (Z.of_nat (length ws)))) with 1%nat by lia.
  replace (Z.to_nat (Z.min i (Z.of_nat (length ws)))) with (Z.to_nat i) by lia.
  destruct (drop (Z.to_nat i) ws) as [|w' rest] eqn:Hdrop.
  - apply (f_equal length) in Hdrop. rewrite length_drop in Hdrop. cbn in Hdrop.
    lia.
  - apply (f_equal (fun l => l !! 0%nat)) in Hdrop.
    rewrite lookup_drop, Nat.add_0_r, Hw in Hdrop. cbn in Hdrop.
    injection Hdrop as ->. done.
Qed.

(** X18: a word-boundary event moves the index to the word that is being
    spoken.  The text of every chunk that [enqueueNextChunk] takes is
    the tokens of its range joined by single spaces.  For an utterance
    that speaks such a text once, a boundary event at the offset where
    the [k]-th word of the chunk starts sets the current index to the
    chunk's start plus [k].  For an utterance that repeats its text, the
    same holds at that offset in the first reading and at the same offset
    behind the separator in the repetition, as long as the word starts
    inside the first part (the text without its trailing punctuation). *)
Theorem word_boundary_moves_to_the_spoken_word
  (chunkWords : list jsstring) (u : Utterance) (k : nat) (r : Reader) :
  Forall no_space chunkWords ->
  c_text (u_chunk u) = join [SPACE] chunkWords ->
  u_firstPart u = strip_trailing_marks (c_text (u_chunk u)) ->
  (k < length chunkWords)%nat ->
  (u_isRepeating u = false ->
   currentIndex (onboundary u (word_offset chunkWords k) r)
   = c_start (u_chunk u) + Z.of_nat k)
  /\ (u_isRepeating u = true ->
      word_offset chunkWords k <= Z.of_nat (length (u_firstPart u)) ->
      currentIndex (onboundary u (word_offset chunkWords k) r)
      = c_start (u_chunk u) + Z.of_nat k
      /\ currentIndex
           (onboundary u (Z.of_nat (length (u_firstPart u)) + 1
                          + word_offset chunkWords k) r)
         = c_start (u_chunk u) + Z.of_nat k)
  /\ (forall rm ws start chunk,
         next_chunk rm ws start = Some chunk ->
         c_text chunk
         = join [SPACE] (slice ws (c_start chunk) (c_end chunk))).
Proof.
  intros Hws Htext Hfirst Hk.
  pose proof (word_offset_bounds chunkWords k Hk) as Hoff.
  split; [|split].
  - intros Hrep. apply onboundary_current; [by right|].
    rewrite Hrep. cbn [andb]. rewrite Htext, slice_take by done.
    rewrite <- (firstn_all (join [SPACE] chunkWords)) at 1.
    rewrite (spaces_before_word chunkWords k) by (done || lia). done.
  - intros Hrep Hinside.
    destruct (strip_trailing_marks_prefix (c_text (u_chunk u))) as [n Hn].
    rewrite <- Hfirst, Htext in Hn.
    assert (Hlen : (length (u_firstPart u) <= n)%nat).
    { rewrite Hn, length_take. lia. }
    assert (Hcount :
      count_spaces (slice (u_firstPart u) 0 (word_offset chunkWords k))
      = Z.of_nat k).
    { rewrite slice_take by lia. rewrite Hn.
      apply spaces_before_word; [done|done|lia]. }
    split.
    + apply onboundary_current.
      * left. rewrite Hrep. cbn [andb].
        by rewrite (proj2 (Z.leb_gt _ _)) by lia.
      * rewrite Hrep. cbn [andb].
        rewrite (proj2 (Z.leb_gt _ _)) by lia. by rewrite Hcount.
    + apply onboundary_current.
      * left. rewrite Hrep. cbn [andb].
        rewrite (proj2 (Z.leb_le _ _)) by lia. lia.
      * rewrite Hrep. cbn [andb].
        rewrite (proj2 (Z.leb_le _ _)) by lia.
        replace (Z.of_nat (length (u_firstPart u)) + 1
                 + word_offset chunkWords k
                 - (Z.of_nat (length (u_firstPart u)) + 1))
          with (word_offset chunkWords k) by lia.
        by rewrite Hcount.
  - intros rm ws start chunk Hchunk.
    destruct rm; cbn [next_chunk] in Hchunk.
    + by injection Hchunk as <-.
    + destruct (at_index ws start) as [w|] eqn:Hw; [|done].
      injection Hchunk as <-. cbn [c_text c_start c_end].
      by rewrite (slice_one ws start w).
    + by injection Hchunk as <-.
    + by injection Hchunk as <-.
Qed.

(** ** Large chunks *)

Lemma lookback_scan_spec ws fuel lookback end_ :
  (lookback_scan ws fuel lookback end_ = end_
   /\ forall j, lookback - Z.of_nat fuel < j <= lookback ->
                large_chunk_stop (at_index ws j) = false)
  \/ (exists j,
         lookback - Z.of_nat fuel < j <= lookback
         /\ large_chunk_stop (at_index ws j) = true
         /\ lookback_scan ws fuel lookback end_ = j + 1
         /\ forall j', j < j' <= lookback ->
                       large_chunk_stop (at_index ws j') = false).
Proof.
  revert lookback. induction fuel as [|fuel IH]; intros lookback.
  - left. split; [done|]. intros j Hj. lia.
  - cbn [lookback_scan].
    destruct (large_chunk_stop (at_index ws lookback)) eqn:Hstop.
    + right. exists lookback. split; [lia|]. split; [done|]. split; [done|].
      intros j' Hj'. lia.
    + destruct (IH (lookback - 1)) as [[Hres Hnone] | (j & Hj & Hs & Hres & Hn)].
      * left. split; [done|]. intros j Hj.
        destruct (decide (j = lookback)) as [->|Hne]; [done|].
        apply Hnone. lia.
      * right. exists j. split; [lia|]. split; [done|]. split; [done|].
        intros j' Hj'. destruct (decide (j' = lookback)) as [->|Hne]; [done|].
        apply Hn. lia.
Qed.

(** X19: a chunk taken by [getNextLargeChunk] at a start inside the token
    array begins at the start, is not empty and ends within the array.
    When at most 4,000 tokens are left it runs to the end of the book.
    Otherwise it is cut behind the last token, among the 500 tokens up to
    and including the one at distance 4,000 from the start, that ends a
    sentence or is a newline (so it holds between 3,502 and 4,001
    tokens), and after exactly 4,000 tokens when none of them does. *)
Theorem getNextLargeChunk_cuts_at_a_sentence_end
  (ws : list jsstring) (startIndex : Z) :
  0 <= startIndex < Z.of_nat (length ws) ->
  c_start (getNextLargeChunk ws startIndex) = startIndex
  /\ startIndex < c_end (getNextLargeChunk ws startIndex)
     <= Z.of_nat (length ws)
  /\ c_text (getNextLargeChunk ws startIndex)
     = join [SPACE] (slice ws startIndex
                           (c_end (getNextLargeChunk ws startIndex)))
  /\ (Z.of_nat (length ws) <= startIndex + 4000 ->
      c_end (getNextLargeChunk ws startIndex) = Z.of_nat (length ws))
  /\ (startIndex + 4000 < Z.of_nat (length ws) ->
      (c_end (getNextLargeChunk ws startIndex) = startIndex + 4000
       /\ forall j, startIndex + 3500 < j <= startIndex + 4000 ->
                    large_chunk_stop (at_index ws j) = false)
      \/ (exists j,
             startIndex + 3500 < j <= startIndex + 4000
             /\ large_chunk_stop (at_index ws j) = true
             /\ c_end (getNextLargeChunk ws startIndex) = j + 1
             /\ forall j', j < j' <= startIndex + 4000 ->
                           large_chunk_stop (at_index ws j') = false)).
Proof.
  intros Hstart. unfold getNextLargeChunk. cbn [c_start c_end c_text].
  set (len := Z.of_nat (length ws)) in *.
  split; [done|].
  destruct (Z.min len (startIndex + 4000) <? len) eqn:Hlt.
  - apply Z.ltb_lt in Hlt.
    replace (Z.min len (startIndex + 4000)) with (startIndex + 4000) by lia.
    replace (Z.max startIndex (startIndex + 4000 - 500))
      with (startIndex + 3500) by lia.
    replace (Z.to_nat (startIndex + 4000 - (startIndex + 3500)))
      with 500%nat by lia.
    destruct (lookback_scan_spec ws 500 (startIndex + 4000)
                (startIndex + 4000))
      as [[Hres Hnone] | (j & Hj & Hs & Hres & Hn)].
    + rewrite Hres. split; [lia|]. split; [done|]. split; [lia|].
      intros _. left. split; [done|]. intros j Hj. apply Hnone. lia.
    + rewrite Hres. split; [lia|]. split; [done|]. split; [lia|].
      intros _. right. exists j. split; [lia|]. done.
  - apply Z.ltb_ge in Hlt.
    replace (Z.min len (startIndex + 4000)) with len by lia.
    split; [lia|]. split; [done|]. split; [done|]. lia.
Qed.

(** ** Repeat units *)

Lemma unit_scan_spec mark ws fuel idx :
  fuel = Z.to_nat (Z.of_nat (length ws) - idx) ->
  idx <= unit_scan mark ws fuel idx <= Z.max idx (Z.of_nat (length ws))
  /\ (forall j, idx <= j < unit_scan mark ws fuel idx ->
                unit_stop mark (at_index ws j) = false)
  /\ (unit_stop mark (at_index ws (unit_scan mark ws fuel idx)) = true
      \/ Z.of_nat (length ws) <= unit_scan mark ws fuel idx).
Proof.
  revert idx. induction fuel as [|fuel IH]; intros idx Hfuel.
  - cbn [unit_scan]. split; [lia|]. split; [intros j Hj; lia|]. right. lia.
  - cbn [unit_scan]. destruct (unit_stop mark (at_index ws idx)) eqn:Hstop.
    + split; [lia|]. split; [intros j Hj; lia|]. by left.
    + destruct (IH (idx + 1) ltac:(lia)) as (Hb & Hnone & Hend).
      split; [lia|]. split; [|done].
      intros j Hj. destruct (decide (j = idx)) as [->|Hne]; [done|].
      apply Hnone. lia.
Qed.

Lemma unit_stop_word mark w :
  unit_stop mark (Some w) = true <-> ends_with_mark mark w = true \/ w = [LF].
Proof.
  unfold unit_stop. by rewrite orb_true_iff, PlaybackFacts.is_break_LF.
Qed.

(** X20: in the phrase and sentence repeat modes, the unit taken at a start
    inside the token array begins at the start and runs up to and
    including the first token from there that closes a unit: a newline
    token, or a word whose last character, or whose last character before
    a closing quote, is one of the marks of the mode.  No earlier token of
    the unit closes one, and a unit that ends without such a token ends
    with the book. *)
Theorem repeat_unit_ends_at_the_first_mark
  (rm : RepeatMode) (mark : char -> bool) (ws : list jsstring) (start : Z) :
  (rm = repeat_phrase /\ mark = is_phrase_mark)
  \/ (rm = repeat_sentence /\ mark = is_sentence_mark) ->
  0 <= start < Z.of_nat (length ws) ->
  exists chunk,
    next_chunk rm ws start = Some chunk
    /\ c_start chunk = start
    /\ start < c_end chunk <= Z.of_nat (length ws)
    /\ c_text chunk = join [SPACE] (slice ws start (c_end chunk))
    /\ (forall j w,
           start <= j < c_end chunk - 1 -> at_index ws j = Some w ->
           ends_with_mark mark w = false /\ w <> [LF])
    /\ (c_end chunk < Z.of_nat (length ws) ->
        exists w, at_index ws (c_end chunk - 1) = Some w
                  /\ (ends_with_mark mark w = true \/ w = [LF])).
Proof.
  intros Hmode Hstart. exists (unit_chunk mark ws start).
  split; [by destruct Hmode as [[-> ->] | [-> ->]]|].
  unfold unit_chunk. cbn [c_start c_end c_text].
  destruct (unit_scan_spec mark ws
              (Z.to_nat (Z.of_nat (length ws) - start)) start eq_refl)
    as (Hb & Hnone & Hend).
  set (endIdx := unit_scan mark ws _ start) in *.
  split; [done|]. split; [lia|]. split; [done|]. split.
  - intros j w Hj Hw.
    assert (Hstop : unit_stop mark (at_index ws j) = false)
      by (apply Hnone; lia).
    rewrite Hw in Hstop. split.
    + destruct (ends_with_mark mark w) eqn:He; [|done].
      by rewrite (proj2 (unit_stop_word mark w)) in Hstop by by left.
    + intros ->. by rewrite (proj2 (unit_stop_word mark [LF])) in Hstop
        by by right.
  - intros Hlt.
    replace (Z.min (Z.of_nat (length ws)) (endIdx + 1) - 1) with endIdx by lia.
    destruct Hend as [Hstop | Hge]; [|lia].
    destruct (at_index ws endIdx) as [w|] eqn:Hw; [|done].
    exists w. split; [done|]. by apply unit_stop_word.
Qed.

(** ** Forward sentence seeks *)



End SpeechQueueFacts.

(* ===================================================================== *)
(** * Facts about the table of contents *)
(* ===================================================================== *)

Module TocFacts.

Import Epub Toc.

Lemma Chapter_induction (P : Chapter -> Prop) :
  (forall title position subchapters,
      Forall P subchapters -> P (chapter title position subchapters)) ->
  forall c, P c.
Proof.
  intros Hchapter. fix IH 1. intros [title position subchapters].
  apply Hchapter. induction subchapters as [|c rest IHrest].
  - constructor.
  - constructor; [apply IH|apply IHrest].
Qed.

Lemma render_chapter_eq cur depth title position subchapters next :
  render_chapter cur depth (chapter title position subchapters) next
  = {| b_title := title; b_position := position; b_depth := depth;
       b_active :=
         (position <=? cur) && (cur <? next)
         && negb (first_position subchapters MAX_SAFE_INTEGER <=? cur) |}
    :: render_items cur (S depth) subchapters next.
Proof.
  cbn [render_chapter]. f_equal.
  induction subchapters as [|c rest IH]; [done|].
  cbn [render_items]. by rewrite <- IH.
Qed.

Lemma render_items_chapters cur depth items limit :
  map (fun b => (b_title b, b_position b)) (render_items cur depth items limit)
  = map (fun c => (title_of c, position_of c)) (flattenChapters items).
Proof.
  assert (Hone : forall c depth next,
    map (fun b => (b_title b, b_position b)) (render_chapter cur depth c next)
    = map (fun c => (title_of c, position_of c)) (flatten_chapter c)).
  { clear. intros c.
    induction c as [title position subchapters IH] using Chapter_induction.
    intros depth next. rewrite render_chapter_eq. cbn [flatten_chapter map].
    f_equal. generalize (S depth) as d. intros d.
    induction IH as [|c rest Hc Hrest IHrest]; [done|].
    cbn [render_items flat_map]. rewrite !map_app. by rewrite Hc, IHrest. }
  revert depth. induction items as [|c rest IH]; intros depth; [done|].
  unfold flattenChapters in *. cbn [render_items flat_map].
  rewrite !map_app. by rewrite Hone, IH.
Qed.

Lemma toc_ok_first_le lo limit items :
  toc_ok lo limit items -> first_position items limit <= limit.
Proof.
  induction 1 as [|lo limit title position subchapters rest
                    Hlo Hnext _ _ _ IHrest]; [cbn; lia|].
  cbn [first_position position_of]. lia.
Qed.

Lemma toc_ok_first_ge lo limit items :
  toc_ok lo limit items -> lo <= limit -> lo <= first_position items limit.
Proof. intros Hok Hle. by destruct Hok. Qed.

(** Before the first chapter of a level has started, nothing of the level
    has. *)
Lemma render_items_ahead cur lo limit items :
  toc_ok lo limit items ->
  cur < first_position items limit ->
  forall depth,
    Forall (fun b => inactive b /\ cur < b_position b)
           (render_items cur depth items limit).
Proof.
  induction 1 as [|lo limit title position subchapters rest
                    Hlo Hnext Hsub IHsub Hrest IHrest];
    intros Hcur depth; [constructor|].
  cbn [first_position position_of] in Hcur.
  cbn [render_items]. rewrite render_chapter_eq.
  apply Forall_app_2; [constructor|].
  - cbn. split; [|done]. unfold inactive. cbn.
    by rewrite (proj2 (Z.leb_gt _ _)) by lia.
  - apply IHsub. pose proof (toc_ok_first_ge _ _ _ Hsub Hnext). lia.
  - apply IHrest. lia.
Qed.

(** Behind the limit of a level, nothing of the level is active. *)
Lemma render_items_behind cur lo limit items :
  toc_ok lo limit items ->
  limit <= cur ->
  forall depth, Forall inactive (render_items cur depth items limit).
Proof.
  induction 1 as [|lo limit title position subchapters rest
                    Hlo Hnext Hsub IHsub Hrest IHrest];
    intros Hcur depth; [constructor|].
  pose proof (toc_ok_first_le _ _ _ Hrest) as Hle.
  cbn [render_items]. rewrite render_chapter_eq.
  apply Forall_app_2; [constructor|].
  - unfold inactive. cbn.
    rewrite (proj2 (Z.ltb_ge cur (first_position rest limit))) by lia.
    by rewrite andb_false_r.
  - apply IHsub. lia.
  - by apply IHrest.
Qed.

(** Inside a level, one button is active; everything behind it starts
    later. *)
Lemma render_items_inside cur lo limit items :
  toc_ok lo limit items ->
  cur < MAX_SAFE_INTEGER ->
  first_position items limit <= cur < limit ->
  forall depth,
    exists before b after,
      render_items cur depth items limit = before ++ b :: after
      /\ b_active b = true
      /\ b_position b <= cur
      /\ Forall inactive before
      /\ Forall (fun b' => inactive b' /\ cur < b_position b') after.
Proof.
  intros Hok Hmax.
  induction Hok as [|lo limit title position subchapters rest
                      Hlo Hnext Hsub IHsub Hrest IHrest];
    intros Hcur depth; [cbn in Hcur; lia|].
  cbn [first_position position_of] in Hcur.
  cbn [render_items]. rewrite render_chapter_eq.
  set (next := first_position rest limit) in *.
  destruct (decide (cur < next)) as [Hin | Hout].
  - pose proof (render_items_ahead cur _ _ _ Hrest Hin depth) as Hlater.
    destruct (decide (first_position subchapters next <= cur))
      as [Hstarted | Hnot].
    + destruct (IHsub ltac:(lia) (S depth))
        as (before & b & after & Heq & Hb & Hpos & Hbefore & Hafter).
      assert (Hfirst : first_position subchapters MAX_SAFE_INTEGER <= cur).
      { destruct subchapters; [cbn in Hstarted; lia|done]. }
      eexists (_ :: before), b, (after ++ _).
      split; [rewrite Heq; cbn [app]; by rewrite <- app_assoc|].
      split; [done|]. split; [done|]. split.
      * constructor; [|done]. unfold inactive. cbn.
        rewrite (proj2 (Z.leb_le _ _) Hfirst). by rewrite andb_false_r.
      * by apply Forall_app_2.
    + assert (Hfirst : cur < first_position subchapters MAX_SAFE_INTEGER).
      { destruct subchapters; [done|cbn in Hnot |- *; lia]. }
      eexists [], _, _. split; [done|]. split.
      { cbn. rewrite (proj2 (Z.leb_le _ _)) by lia.
        rewrite (proj2 (Z.ltb_lt _ _)) by lia.
        by rewrite (proj2 (Z.leb_gt _ _)) by lia. }
      split; [cbn; lia|]. split; [constructor|].
      apply Forall_app_2; [|done].
      apply (render_items_ahead cur _ _ _ Hsub). lia.
  - destruct (IHrest ltac:(lia) depth)
      as (before & b & after & Heq & Hb & Hpos & Hbefore & Hafter).
    eexists (_ :: _ ++ before), b, after.
    split; [rewrite Heq; cbn [app]; by rewrite <- app_assoc|].
    split; [done|]. split; [done|]. split; [|done].
    constructor.
    + unfold inactive. cbn.
      rewrite (proj2 (Z.ltb_ge cur next)) by lia. by rewrite andb_false_r.
    + apply Forall_app_2; [|done].
      apply (render_items_behind cur _ _ _ Hsub). lia.
Qed.

(** X22: the table of contents shows one button per chapter, in the order
    of [flattenChapters].  For chapters in reading order and a current
    index from the first chapter's position on and below the word count,
    exactly one button is marked active: that of the last chapter, in
    reading order, that starts at or before the current index; all the
    chapters behind it start later.  For a current index before the first
    chapter or not below the word count, no button is active. *)
Theorem toc_marks_the_chapter_being_read
  (currentIndex totalWords lo : Z) (chapters : list Chapter) :
  toc_ok lo totalWords chapters ->
  currentIndex < MAX_SAFE_INTEGER ->
  map (fun b => (b_title b, b_position b))
      (renderTocItems currentIndex totalWords chapters)
  = map (fun c => (title_of c, position_of c)) (flattenChapters chapters)
  /\ (first_position chapters totalWords <= currentIndex < totalWords ->
      exists before b after,
        renderTocItems currentIndex totalWords chapters
        = before ++ b :: after
        /\ b_active b = true
        /\ b_position b <= currentIndex
        /\ Forall inactive before
        /\ Forall (fun b' => inactive b' /\ currentIndex < b_position b')
                  after)
  /\ (currentIndex < first_position chapters totalWords
      \/ totalWords <= currentIndex ->
      Forall inactive (renderTocItems currentIndex totalWords chapters)).
Proof.
  intros Hok Hmax. unfold renderTocItems.
  split; [apply render_items_chapters|]. split.
  - intros Hcur. by eapply render_items_inside.
  - intros [Hbefore | Hbehind].
    + eapply Forall_impl; [by eapply render_items_ahead|].
      by intros b [Hb _].
    + by eapply render_items_behind.
Qed.

Lemma chapterMap_fold (p : Z) (flat : list Chapter) (m : gmap Z jsstring) :
  fold_left (fun m c => <[position_of c := title_of c]> m) flat m !! p
  = match last (title_of <$> filter (fun c => position_of c = p) flat) with
    | Some title => Some title
    | None => m !! p
    end.
Proof.
  revert m. induction flat as [|c rest IH]; intros m; [done|].
  cbn [fold_left]. rewrite IH.
  destruct (decide (position_of c = p)) as [Hp | Hp].
  - rewrite filter_cons_True by done. rewrite fmap_cons, last_cons.
    rewrite Hp, lookup_insert_eq.
    by destruct (last (title_of <$> filter _ rest)).
  - rewrite filter_cons_False by done. by rewrite lookup_insert_ne.
Qed.

(** X23: the heading that the text view looks up for a token index is the
    title of the last chapter, in the order of [flattenChapters], whose
    position is that index, and there is none when no chapter has that
    position.  Of several chapters at one position (a part and its first
    chapter, say) only the last one has its heading looked up. *)
Theorem chapterMap_keeps_the_last_title (chapters : list Chapter) (p : Z) :
  chapterMap chapters !! p
  = last (title_of <$> filter (fun c => position_of c = p)
                              (flattenChapters chapters))
  /\ (chapterMap chapters !! p = None
      <-> p ∉ position_of <$> flattenChapters chapters).
Proof.
  assert (Hmap : chapterMap chapters !! p
                 = last (title_of <$> filter (fun c => position_of c = p)
                                             (flattenChapters chapters))).
  { unfold chapterMap. rewrite chapterMap_fold, lookup_empty.
    by destruct (last _). }
  split; [done|]. rewrite Hmap, last_None. split.
  - intros Hnone%fmap_nil_inv (c & Hp & Hc)%list_elem_of_fmap.
    by apply (filter_nil_not_elem_of _ _ c Hnone).
  - intros Hnot.
    destruct (filter (fun c => position_of c = p) (flattenChapters chapters))
      as [|c kept] eqn:Hkept; [done|].
    assert (Hin : c ∈ filter (fun c => position_of c = p)
                             (flattenChapters chapters))
      by (rewrite Hkept; apply elem_of_cons; by left).
    apply list_elem_of_filter in Hin as [Hp Hc].
    exfalso. apply Hnot. apply list_elem_of_fmap. by exists c.
Qed.

End TocFacts.

(* ===================================================================== *)
(** * Facts about the wheel display *)
(* ===================================================================== *)

Module WheelFacts.

Import Spritz Wheel SentenceFacts.

Lemma add_width_acc ws l a :
  fold_left (add_width ws) l a = a + fold_left (add_width ws) l 0.
Proof.
  revert a. induction l as [|i l IH]; intros a; [cbn; lia|].
  cbn [fold_left]. rewrite IH, (IH (add_width ws 0 i)).
  unfold add_width. destruct (at_index ws i) as [[|c w]|]; lia.
Qed.

Lemma add_width_snoc ws l i :
  fold_left (add_width ws) (l ++ [i]) 0
  = fold_left (add_width ws) l 0 + add_width ws 0 i.
Proof.
  rewrite fold_left_app. cbn [fold_left]. unfold add_width.
  destruct (at_index ws i) as [[|c w]|]; lia.
Qed.

Lemma word_chars_length ws e i :
  i < e - 1 -> Z.of_nat (length (word_chars ws e i)) = add_width ws 0 i.
Proof.
  intros Hi. unfold word_chars, add_width.
  destruct (at_index ws i) as [[|c w]|]; [done| |done].
  rewrite (proj2 (Z.ltb_lt _ _) Hi), length_app, length_fmap.
  cbn [length]. lia.
Qed.

Lemma prefix_length ws e l :
  Forall (fun i => i < e - 1) l ->
  Z.of_nat (length (flat_map (word_chars ws e) l))
  = fold_left (add_width ws) l 0.
Proof.
  induction 1 as [|i l Hi Hl IH]; [done|].
  cbn [flat_map fold_left].
  rewrite length_app, Nat2Z.inj_add, IH, word_chars_length by done.
  rewrite (add_width_acc ws l (add_width ws 0 i)). lia.
Qed.

(** Where the characters of a word of the window stand in [charList]. *)
Lemma charList_word ws floorIndex j w k c :
  startIdx floorIndex <= j < endIdx ws floorIndex ->
  at_index ws j = Some w ->
  at_index w k = Some c ->
  at_index (charList ws floorIndex)
           (fold_left (add_width ws)
                      (seqZ (startIdx floorIndex) (j - startIdx floorIndex)) 0
            + k)
  = Some {| wc_char := c; wc_wordIndex := j; wc_isCenter := false |}.
Proof.
  intros Hj Hw Hc. unfold charList.
  set (s := startIdx floorIndex) in *. set (e := endIdx ws floorIndex) in *.
  replace (e - s) with ((j - s) + (e - j)) by lia.
  rewrite seqZ_app by lia. replace (s + (j - s)) with j by lia.
  rewrite (seqZ_cons j) by lia. rewrite flat_map_app. cbn [flat_map].
  assert (Hlen : Z.of_nat (length (flat_map (word_chars ws e)
                                            (seqZ s (j - s))))
                 = fold_left (add_width ws) (seqZ s (j - s)) 0).
  { apply prefix_length, Forall_forall. intros i Hi%elem_of_seqZ. lia. }
  unfold at_index in Hc |- *. destruct (k <? 0) eqn:Hk; [done|].
  apply Z.ltb_ge in Hk. apply lookup_lt_Some in Hc as Hlt.
  rewrite (proj2 (Z.ltb_ge _ _)) by lia.
  rewrite lookup_app_r by lia.
  set (before := fold_left (add_width ws) (seqZ s (j - s)) 0) in *.
  replace (Z.to_nat (before + k)
           - length (flat_map (word_chars ws e) (seqZ s (j - s))))%nat
    with (Z.to_nat k) by lia.
  unfold word_chars at 1. rewrite Hw.
  destruct w as [|c0 w0]; [cbn in Hlt; lia|].
  rewrite lookup_app_l by (rewrite length_app, length_fmap; lia).
  rewrite lookup_app_l by (by rewrite length_fmap).
  by rewrite list_lookup_fmap, Hc.
Qed.

Lemma pivot_in_word (w : jsstring) :
  w <> [] -> exists c, at_index w (getPivot (Some w)) = Some c.
Proof.
  intros Hw. destruct w as [|c0 w0]; [done|]. cbn [getPivot].
  unfold pivot_of.
  assert (Hp : 0 <= (Z.of_nat (length (c0 :: w0)) + 1) / 2 - 1
                 < Z.of_nat (length (c0 :: w0))).
  { cbn [length]. Z.to_euclidean_division_equations; lia. }
  destruct (at_index_in_range (c0 :: w0) _ Hp) as [c Hc]. by exists c.
Qed.

(** X24: the wheel is laid out around the pivot of the current word.  For
    a current word that is not empty, the entry of [charList] at
    [activeCharIndex] (the character drawn at angle 0 when the index has
    no fractional part) is the pivot character of that word, the same
    character that the spritz view shows in its centre; and when the next
    word is not empty either, the entry [stepDist] places further is the
    pivot character of the next word. *)
Theorem wheel_centres_the_pivot
  (words : list jsstring) (floorIndex : Z) (w : jsstring) :
  at_index words floorIndex = Some w ->
  w <> [] ->
  exists c,
    center (renderSpritz words floorIndex) = [c]
    /\ at_index (charList words floorIndex) (activeCharIndex words floorIndex)
       = Some {| wc_char := c; wc_wordIndex := floorIndex;
                 wc_isCenter := false |}
    /\ forall w',
         at_index words (floorIndex + 1) = Some w' ->
         w' <> [] ->
         exists c',
           at_index w' (getPivot (Some w')) = Some c'
           /\ at_index (charList words floorIndex)
                       (activeCharIndex words floorIndex
                        + stepDist words floorIndex)
              = Some {| wc_char := c'; wc_wordIndex := floorIndex + 1;
                        wc_isCenter := false |}.
Proof.
  intros Hw Hne.
  assert (Hfloor : 0 <= floorIndex < Z.of_nat (length words)).
  { unfold at_index in Hw. destruct (floorIndex <? 0) eqn:Hneg; [done|].
    apply Z.ltb_ge in Hneg. apply lookup_lt_Some in Hw. lia. }
  destruct (pivot_in_word w Hne) as [c Hc]. exists c.
  split; [|split].
  - unfold renderSpritz. rewrite Hw. cbv zeta. cbn [center default].
    destruct w as [|c0 w0]; [done|]. cbn [getPivot] in Hc.
    unfold id. by rewrite Hc.
  - unfold activeCharIndex. rewrite Hw.
    apply (charList_word words floorIndex floorIndex w); [|done|done].
    unfold startIdx, endIdx, contextRange. lia.
  - intros w' Hw' Hne'.
    assert (Hnext : floorIndex + 1 < Z.of_nat (length words)).
    { unfold at_index in Hw'. destruct (floorIndex + 1 <? 0); [done|].
      apply lookup_lt_Some in Hw'. lia. }
    destruct (pivot_in_word w' Hne') as [c' Hc']. exists c'.
    split; [done|].
    pose proof (charList_word words floorIndex (floorIndex + 1) w'
                  (getPivot (Some w')) c') as Hword.
    replace (floorIndex + 1 - startIdx floorIndex)
      with (Z.of_nat (S (Z.to_nat (floorIndex - startIdx floorIndex))))
      in Hword by (unfold startIdx, contextRange; lia).
    rewrite seqZ_S, add_width_snoc in Hword.
    replace (Z.of_nat (Z.to_nat (floorIndex - startIdx floorIndex)))
      with (floorIndex - startIdx floorIndex)
      in Hword by (unfold startIdx, contextRange; lia).
    replace (startIdx floorIndex + (floorIndex - startIdx floorIndex))
      with floorIndex in Hword by lia.
    assert (Hwidth : add_width words 0 floorIndex = Z.of_nat (length w) + 1).
    { unfold add_width. rewrite Hw. destruct w; [done|lia]. }
    rewrite Hwidth in Hword.
    unfold activeCharIndex, stepDist, curLen. rewrite Hw, Hw'.
    rewrite <- Hword; [f_equal; lia| |done|done].
    unfold startIdx, endIdx, contextRange. lia.
Qed.

End WheelFacts.

(* ===================================================================== *)
(** * Facts about the rendered window *)
(* ===================================================================== *)

Module WindowFacts.

Import Playback Window.

Local Open Scope Q_scope.

Lemma Qle_bool_false x y : Qle_bool x y = false -> y < x.
Proof.
  intros Hb. apply Qnot_le_lt. intros Hle%Qle_bool_iff. congruence.
Qed.

Lemma Qlt_bool_true x y : Qlt_bool x y = true -> x < y.
Proof.
  unfold Qlt_bool. intros Hb%negb_true_iff. by apply Qle_bool_false.
Qed.

Lemma Qlt_bool_false x y : Qlt_bool x y = false -> y <= x.
Proof.
  unfold Qlt_bool. intros Hb%negb_false_iff. by apply Qle_bool_iff.
Qed.

Lemma Qmax_cases a b : (a < b /\ Qmax a b = b) \/ (b <= a /\ Qmax a b = a).
Proof.
  unfold Qmax, GenericMinMax.gmax.
  destruct (Qcompare_spec a b) as [Heq | Hlt | Hgt];
    [right | left | right]; (split; [lra|done]).
Qed.

Lemma Qmin_cases a b : (a <= b /\ Qmin a b = a) \/ (b < a /\ Qmin a b = b).
Proof.
  unfold Qmin, GenericMinMax.gmin.
  destruct (Qcompare_spec a b) as [Heq | Hlt | Hgt];
    [left | left | right]; (split; [lra|done]).
Qed.

(** The three ways of the effect in the scroll view that follows the
    reading: jump ahead, jump back, stay. *)
Lemma window_effect_cases v ws :
  (ws + 2000 <= v
   /\ window_effect scroll false None v ws = Qmax 0 (v - 200))
  \/ (v < ws + 2000 /\ v < ws + 100 /\ 0 < ws
      /\ window_effect scroll false None v ws = Qmax 0 (v - 2500 + 200))
  \/ (v < ws + 2000 /\ (ws + 100 <= v \/ ws <= 0)
      /\ window_effect scroll false None v ws = ws).
Proof.
  unfold window_effect, WINDOW_SIZE, BUFFER. cbn [is_scroll negb orb].
  destruct (Qle_bool (ws + 2500 - 500) v) eqn:Hahead.
  { left. apply Qle_bool_iff in Hahead. split; [lra|done]. }
  apply Qle_bool_false in Hahead. right.
  destruct (Qlt_bool v (ws + 100)) eqn:Hback; cbn [andb].
  - apply Qlt_bool_true in Hback.
    destruct (Qlt_bool 0 ws) eqn:Hpos.
    + apply Qlt_bool_true in Hpos. left.
      split; [lra|]. split; [done|]. split; [done|done].
    + apply Qlt_bool_false in Hpos. right.
      split; [lra|]. split; [by right|done].
  - apply Qlt_bool_false in Hback. right.
    split; [lra|]. split; [by left|done].
Qed.

Lemma window_effect_settled v ws :
  0 <= v -> 0 <= ws ->
  v < ws + 2000 -> ws + 100 <= v \/ ws <= 0 ->
  window_effect scroll false None v ws = ws
  /\ 0 <= ws /\ ws <= v /\ v < ws + 2000.
Proof.
  intros Hv Hws Hahead Hback.
  destruct (window_effect_cases v ws)
    as [[H1 _] | [(_ & H2 & H3 & _) | (_ & _ & Heq)]]; [lra|lra|].
  split; [done|]. lra.
Qed.

(** X25: in the scroll view that follows the reading, the window of
    rendered tokens is moved after the visual index by an effect that runs
    again whenever it has moved the window.  From any window start and
    visual index that are not negative, the window is at rest after at
    most two runs of the effect, and at rest the visual index lies at or
    behind the window start and less than 2,000 tokens behind it, inside
    the 3,000 tokens that are rendered.  The visual index itself, for a
    delay and a speed that are not negative, is at or past the current
    index and not past the last token; the window of the paginated view
    holds it as well.  In browse mode, in the page view and in the other
    modes the effect leaves the window where it is. *)
Theorem rendered_window_holds_the_visual_index
  (isPlaying : bool) (audioTextDelay : option Q) (wpm currentIndex : Q)
  (len : Z) (normalWindowStart v settled : Q) :
  0 <= currentIndex <= inject_Z len - 1 ->
  0 <= wpm ->
  (forall delay, audioTextDelay = Some delay -> 0 <= delay) ->
  0 <= normalWindowStart ->
  v = visualIndex isPlaying audioTextDelay wpm currentIndex len ->
  settled = window_effect scroll false None v
              (window_effect scroll false None v normalWindowStart) ->
  currentIndex <= v <= inject_Z len - 1
  /\ window_effect scroll false None v settled = settled
  /\ 0 <= settled <= v
  /\ v < settled + 2000
  /\ 0 <= fst (paginatedWindow paginated len v) <= v
  /\ v < snd (paginatedWindow paginated len v) <= inject_Z len
  /\ (forall mode pageView browserWindowStart,
         mode <> scroll \/ pageView = true \/ is_Some browserWindowStart ->
         window_effect mode pageView browserWindowStart v normalWindowStart
         = normalWindowStart).
Proof.
  intros Hcur Hwpm Hdelay Hws Hv Hsettled.
  assert (Hvis : currentIndex <= v <= inject_Z len - 1).
  { rewrite Hv. unfold visualIndex.
    destruct audioTextDelay as [delay|]; [|lra].
    destruct (negb isPlaying || Qeq_bool delay 0); [lra|].
    pose proof (Hdelay delay eq_refl) as Hd.
    assert (Hoff : 0 <= delay / 60000 * wpm).
    { apply Qmult_le_0_compat; [|done].
      apply Qle_shift_div_l; [done|lra]. }
    destruct (Qmin_cases (inject_Z len - 1)
                (currentIndex + delay / 60000 * wpm))
      as [[Hle ->] | [Hlt ->]]; lra. }
  assert (Hv0 : 0 <= v) by lra.
  split; [done|].
  assert (Hrest :
    window_effect scroll false None v settled = settled
    /\ 0 <= settled /\ settled <= v /\ v < settled + 2000).
  { rewrite Hsettled.
    destruct (window_effect_cases v normalWindowStart)
      as [[Hahead ->] | [(_ & Hback & Hpos & ->) | (Hnear & Hfar & ->)]].
    - destruct (Qmax_cases 0 (v - 200)) as [[Hlt ->] | [Hle ->]].
      + rewrite (proj1 (window_effect_settled v (v - 200) Hv0
                          ltac:(lra) ltac:(lra) ltac:(left; lra))).
        apply window_effect_settled; [done|lra|lra|left; lra].
      + lra.
    - destruct (Qmax_cases 0 (v - 2500 + 200)) as [[Hlt ->] | [Hle ->]].
      + destruct (window_effect_cases v (v - 2500 + 200))
          as [[_ ->] | [(Hnear & _) | (Hnear & _)]]; [|lra|lra].
        destruct (Qmax_cases 0 (v - 200)) as [[Hlt' ->] | [Hle' ->]]; [|lra].
        apply window_effect_settled; [done|lra|lra|left; lra].
      + destruct (window_effect_cases v 0)
          as [[Hahead ->] | [(_ & _ & Hpos' & _) | (Hnear & _ & ->)]]; [|lra|].
        * destruct (Qmax_cases 0 (v - 200)) as [[Hlt' ->] | [Hle' ->]]; [|lra].
          apply window_effect_settled; [done|lra|lra|left; lra].
        * apply window_effect_settled; [done|lra|done|right; lra].
    - rewrite (proj1 (window_effect_settled v normalWindowStart Hv0 Hws
                        Hnear Hfar)).
      by apply window_effect_settled. }
  destruct Hrest as (Hfix & H0 & Hle & Hlt).
  split; [done|]. split; [done|]. split; [done|].
  cbn [paginatedWindow fst snd].
  split; [|split].
  - destruct (Qmax_cases 0 (v - 500)) as [[? ->] | [? ->]]; lra.
  - destruct (Qmin_cases (inject_Z len) (v + 3000)) as [[? ->] | [? ->]]; lra.
  - intros mode pageView browserWindowStart Hwhy. unfold window_effect.
    destruct Hwhy as [Hmode | [-> | [b ->]]].
    + by destruct mode.
    + by rewrite orb_true_r.
    + by destruct (negb (is_scroll mode) || pageView).
Qed.

End WindowFacts.

(* ===================================================================== *)
(** * The facts on the examples *)
(* ===================================================================== *)

Module GatewayExamples.

Import Storage Gateway App.
Import StorageFacts StorageClaims GatewayFacts AppFacts.

(** Saving position 3 for book [b1] of the example library. *)
Lemma saveProgress_updates_one_book_witness :
  store_wf demo_store
  /\ exists book' db',
       saveProgress 1700000000000 "b1" (Q2Qc (inject_Z 3)) demo_store
       = (inl tt, db')
       /\ books db' !! "b1" = Some book'
       /\ get_prop book' "lastPosition" = Some (JInt 3)
       /\ get_prop book' "lastRead" = Some (JInt 1700000000000)
       /\ folders db' = folders demo_store.
Proof.
  split; [exact demo_store_wf|].
  destruct (books demo_store !! "b1") as [book|] eqn:Hbook;
    [|by vm_compute in Hbook].
  destruct (proj2 (saveProgress_updates_one_book 1700000000000 "b1"
                     (Q2Qc (inject_Z 3)) demo_store demo_store_wf)
              book Hbook)
    as (book' & db' & Hsave & Hnew & Hpos & Hread & _ & _ & Hfolders & _).
  exists book', db'. split; [exact Hsave|]. split; [exact Hnew|].
  split; [exact Hpos|]. split; [exact Hread|]. exact Hfolders.
Defined.

(** Moving book [b1] of the example library to the root. *)
Lemma moveItems_reparents_books_witness :
  store_wf demo_store
  /\ exists db' book',
       moveItems ["b1"%string] [] None demo_store = Some db'
       /\ books db' !! "b1" = Some book'
       /\ get_prop book' "parentId" = Some JNull
       /\ get_prop book' "title" = Some (JStr "Walden")
       /\ store_wf db'.
Proof.
  split; [exact demo_store_wf|].
  destruct (moveItems_reparents_books ["b1"%string] [] None demo_store
              demo_store_wf)
    as (db' & Hmove & _ & Hbooks & _ & _ & _ & _ & Hwf).
  destruct (books demo_store !! "b1") as [book|] eqn:Hbook;
    [|by vm_compute in Hbook].
  destruct (Hbooks "b1"%string book) as (book' & Hnew & Hparent & Hother).
  - apply elem_of_cons. by left.
  - exact Hbook.
  - exists db', book'. split; [exact Hmove|]. split; [exact Hnew|].
    split; [exact Hparent|]. split; [|exact Hwf].
    rewrite Hother by done. vm_compute in Hbook. by injection Hbook as <-.
Defined.

(** Importing the example backup a second time changes nothing. *)
Lemma importBackup_twice_witness :
  exists db',
    importBackup (Some demo_backup : @text demo_platform) demo_store
    = (inl tt, db')
    /\ importBackup (Some demo_backup : @text demo_platform) db'
       = (inl tt, db').
Proof.
  apply (@importBackup_twice demo_platform (Some demo_backup) demo_backup
           demo_store).
  - reflexivity.
  - reflexivity.
  - apply Forall_cons. split; [by exists "b1"%string | constructor].
  - apply Forall_cons. split; [by exists "C"%string | constructor].
  - constructor.
Defined.

(** Restoring the example library from its own backup. *)
Lemma restore_own_backup_witness :
  store_wf demo_store
  /\ importBackup (@exportBackup demo_platform 1700000000000 demo_store)
                  demo_store
     = (inl tt, demo_store).
Proof.
  split; [exact demo_store_wf|].
  exact (@restore_own_backup demo_platform demo_store 1700000000000
           demo_store_wf).
Defined.

(** Adding the entry for "pond" to the glossary of the example library,
    and adding one for the word [__proto__]. *)
Lemma handleGlossaryUpdate_keeps_state_and_store_equal_witness :
  keyed "word" (glossary demo_store)
  /\ (handleGlossaryUpdate (an_item demo_item) add
        (@getGlossary demo_platform demo_store) demo_store).1
     = @getGlossary demo_platform
         (handleGlossaryUpdate (an_item demo_item) add
            (@getGlossary demo_platform demo_store) demo_store).2
  /\ (handleGlossaryUpdate (an_item demo_item) add
        (@getGlossary demo_platform demo_store) demo_store).1 !! "pond"
     = Some (item_value demo_item)
  /\ (handleGlossaryUpdate (an_item proto_item) add
        (@getGlossary demo_platform demo_store) demo_store).1 !! "__proto__"
     = Some (item_value proto_item)
  /\ @getGlossary demo_platform
       (handleGlossaryUpdate (an_item proto_item) add
          (@getGlossary demo_platform demo_store) demo_store).2 !! "__proto__"
     = None.
Proof.
  assert (Hkeyed : keyed "word" (glossary demo_store))
    by exact (proj2 (proj2 demo_store_wf)).
  split; [exact Hkeyed|].
  destruct (@handleGlossaryUpdate_keeps_state_and_store_equal demo_platform
              (an_item demo_item) add (@getGlossary demo_platform demo_store)
              demo_store Hkeyed eq_refl)
    as (_ & Hsame & _ & Hadd & _).
  split.
  { apply Hsame. intros it Hit _ Hword.
    injection Hit as <-. discriminate Hword. }
  split; [exact (proj1 (Hadd demo_item eq_refl eq_refl))|].
  destruct (@handleGlossaryUpdate_keeps_state_and_store_equal demo_platform
              (an_item proto_item) add (@getGlossary demo_platform demo_store)
              demo_store Hkeyed eq_refl)
    as (_ & _ & Hproto & _).
  destruct (Hproto proto_item eq_refl eq_refl eq_refl) as (Hstate & _ & Hread).
  split; [exact Hstate | exact Hread].
Defined.

End GatewayExamples.

Module LibraryExamples.

Import Library LibraryFacts.

Lemma nested_folders_step a b :
  a ∈ nested_folders -> parent_step nested_folders a b ->
  f_id a = "B"%string /\ f_id b = "A"%string.
Proof.
  intros Ha Hab. unfold nested_folders in Ha.
  repeat (apply elem_of_cons in Ha as [-> | Ha]);
    [| |  |by apply elem_of_nil in Ha];
    vm_compute in Hab; try discriminate Hab.
  by injection Hab as <-.
Qed.

Lemma tc_last_step {A} (R : relation A) a b : tc R a b -> exists y, R y b.
Proof.
  induction 1 as [a b Hab | a y b Hay Hyb IH]; [by exists a | exact IH].
Qed.

Lemma nested_folders_acyclic c : ~ reaches_cycle nested_folders c.
Proof.
  intros (x & _ & Hcycle).
  assert (Hin : x ∈ nested_folders).
  { destruct (tc_last_step _ _ _ Hcycle) as [y Hy].
    by eapply find_folder_elem. }
  inversion Hcycle as [? ? Hstep | ? y ? Hstep Hback]; subst.
  - destruct (nested_folders_step _ _ Hin Hstep) as [HB HA]. congruence.
  - destruct (nested_folders_step _ _ Hin Hstep) as [_ HA].
    assert (Hy : y ∈ nested_folders) by by eapply find_folder_elem.
    inversion Hback as [? ? Hnext | ? z ? Hnext _]; subst;
      destruct (nested_folders_step _ _ Hy Hnext) as [HB _]; congruence.
Qed.

(** The crumbs of folder [B] inside folder [A]. *)
Lemma getBreadcrumbs_lists_the_ancestors_witness :
  (forall c, find_folder nested_folders (Some "B"%string) = Some c ->
             ~ reaches_cycle nested_folders c)
  /\ exists crumbs,
       getBreadcrumbs 3 nested_folders (Some "B"%string) = Some crumbs
       /\ f_name <$> crumbs = ["Essays"%string; "Thoreau"%string]
       /\ NoDup crumbs.
Proof.
  assert (Hacyc : forall c,
             find_folder nested_folders (Some "B"%string) = Some c ->
             ~ reaches_cycle nested_folders c)
    by (intros c _; apply nested_folders_acyclic).
  split; [exact Hacyc|].
  destruct (getBreadcrumbs_lists_the_ancestors nested_folders
              (Some "B"%string) Hacyc)
    as (crumbs & Hrun & _ & Hnodup & _).
  exists crumbs. pose proof (Hrun 3%nat (le_n 3)) as Hthree.
  split; [exact Hthree|]. split; [|exact Hnodup].
  vm_compute in Hthree. by injection Hthree as <-.
Defined.

(** Folder [C] lies inside the folders [A] and [B], which name each other
    as parent. *)
Lemma getBreadcrumbs_loops_on_a_cycle_witness :
  (exists c, find_folder looped_folders (Some "C"%string) = Some c
             /\ reaches_cycle looped_folders c)
  /\ getBreadcrumbs 1000 looped_folders (Some "C"%string) = None.
Proof.
  destruct (find_folder looped_folders (Some "C"%string)) as [c|] eqn:Hc;
    [|by vm_compute in Hc].
  assert (Hcycle : reaches_cycle looped_folders c).
  { vm_compute in Hc. injection Hc as <-.
    destruct (find_folder looped_folders (Some "B"%string)) as [b|] eqn:Hb;
      [|by vm_compute in Hb].
    destruct (find_folder looped_folders (Some "A"%string)) as [a|] eqn:Ha;
      [|by vm_compute in Ha].
    exists b. split.
    - apply rtc_once. exact Hb.
    - apply (tc_l _ b a b).
      + unfold parent_step. rewrite <- Ha. vm_compute in Hb.
        by injection Hb as <-.
      + apply tc_once. unfold parent_step. rewrite <- Hb. vm_compute in Ha.
        by injection Ha as <-. }
  split; [by exists c|].
  exact (getBreadcrumbs_loops_on_a_cycle looped_folders (Some "C"%string) c
           Hc Hcycle 1000%nat).
Defined.

End LibraryExamples.

Module ImportExamples.

Import Tokenizer Epub EpubFacts.

(** The example book: its text splits into the tokens of the walk, and
    its chapter starts at token 0. *)
Lemma parseEpub_text_round_trip_witness :
  Forall (fun t => t = [LF] \/ trimmed t) (spine_tokens demo_spine).1
  /\ tokenize (epub_text demo_spine) = (spine_tokens demo_spine).1
  /\ countTokens (epub_text demo_spine) = 9%nat
  /\ epub_chapters demo_spine demo_toc
     = [parsed_chapter (str "Chapter One") (Index 0) []].
Proof.
  assert (Htokens : Forall (fun t => t = [LF] \/ trimmed t)
                           (spine_tokens demo_spine).1).
  { assert (Heq : (spine_tokens demo_spine).1
                  = [str "Chapter"; str "One"; [LF]; str "It"; str "was";
                     str "a"; str "dark"; str "night."; [LF]])
      by by vm_compute.
    rewrite Heq.
    repeat (apply Forall_cons; split;
            [first [by left | right; by split]|]).
    constructor. }
  split; [exact Htokens|].
  destruct (parseEpub_text_round_trip demo_spine demo_toc Htokens)
    as (Hround & Hcount & _).
  split; [exact Hround|]. split; [|by vm_compute].
  rewrite Hcount. by vm_compute.
Defined.

End ImportExamples.

Module SpeechExamples.

Import Tokenizer Sentence Playback SpeechQueue.
Import TokenizerFacts SentenceFacts PlaybackFacts SpeechQueueFacts.

(** The example text read aloud sentence by sentence: after the first
    sentence has ended, the second and the third are in flight and the
    newline between them has been skipped. *)
Lemma speech_queue_holds_two_chunks_in_order_witness :
  0 <= 0 <= Z.of_nat (length (tokenize demo_text)) - 1
  /\ exists r,
       run voiced_config (open_book demo_text 0)
           [TogglePlay; SpeechBoundary 0 3; SpeechEnd 0] = Some r
       /\ (length (active r) <= 2)%nat
       /\ in_order (active r) (queueNext r)
       /\ (c_start ∘ u_chunk) <$> active r = [2; 10]
       /\ queueNext r = 15.
Proof.
  assert (Hpos : 0 <= 0 <= Z.of_nat (length (tokenize demo_text)) - 1)
    by by vm_compute.
  split; [exact Hpos|].
  destruct (run voiced_config (open_book demo_text 0)
                [TogglePlay; SpeechBoundary 0 3; SpeechEnd 0])
    as [r|] eqn:Hrun; [|by vm_compute in Hrun].
  exists r. split; [reflexivity|].
  destruct (speech_queue_holds_two_chunks_in_order voiced_config demo_text 0
              _ r Hpos Hrun) as (Hsize & Horder & _).
  split; [exact Hsize|]. split; [exact Horder|].
  vm_compute in Hrun. by injection Hrun as <-.
Defined.

(** The example text read aloud: from the state after the press on play,
    the speech ends and the playback stops. *)
Lemma voice_playback_reads_to_the_end_witness :
  0 <= 0 <= Z.of_nat (length (tokenize demo_text)) - 1
  /\ exists r,
       run voiced_config (open_book demo_text 0) [TogglePlay] = Some r
       /\ shouldPlay r = true
       /\ active r <> []
       /\ exists k r',
            run voiced_config r (repeat (SpeechEnd 0) k) = Some r'
            /\ isPlaying r' = false
            /\ active r' = []
            /\ total r' <= queueNext r'.
Proof.
  assert (Hpos : 0 <= 0 <= Z.of_nat (length (tokenize demo_text)) - 1)
    by by vm_compute.
  split; [exact Hpos|].
  destruct (run voiced_config (open_book demo_text 0) [TogglePlay])
    as [r|] eqn:Hrun; [|by vm_compute in Hrun].
  assert (Hplay : shouldPlay r = true).
  { pose proof Hrun as Hr. vm_compute in Hr. by injection Hr as <-. }
  assert (Hactive : active r <> []).
  { pose proof Hrun as Hr. vm_compute in Hr. by injection Hr as <-. }
  exists r. split; [reflexivity|]. split; [exact Hplay|].
  split; [exact Hactive|].
  destruct (voice_playback_reads_to_the_end voiced_config demo_text 0
              _ r Hpos Hrun Hplay Hactive)
    as (k & r' & Hend & _ & Hstop & _ & Hnone & Hqueue & _).
  exists k, r'. split; [exact Hend|]. split; [exact Hstop|].
  split; [exact Hnone|]. exact Hqueue.
Defined.

(** Play and pause on the example text, opened at its start: the two
    utterances queued by the press on play stay registered over the
    pause, and their callbacks take them out without moving the index. *)
Lemma pause_stops_and_keeps_the_place_witness :
  reader_ok (open_book demo_text 0)
  /\ (exists r',
         run voiced_config (open_book demo_text 0) [TogglePlay; TogglePlay]
         = Some r'
         /\ isPlaying r' = false /\ shouldPlay r' = false
         /\ timer r' = None
         /\ currentIndex r' = 0)
  /\ (exists r1 r' r'',
         run voiced_config (open_book demo_text 0) [TogglePlay] = Some r1
         /\ reader_ok r1
         /\ isPlaying r1 = true
         /\ togglePlay voiced_config r1 = Some r'
         /\ length (active r') = 2%nat
         /\ run voiced_config r' [SpeechError 0; SpeechEnd 0] = Some r''
         /\ isPlaying r'' = false
         /\ currentIndex r'' = currentIndex r1
         /\ active r'' = []).
Proof.
  assert (Hok : reader_ok (open_book demo_text 0))
    by (apply open_book_ok; by vm_compute).
  split; [exact Hok|]. split.
  - destruct (proj2 (pause_stops_and_keeps_the_place voiced_config
                       (open_book demo_text 0) Hok) eq_refl)
      as (r' & Hrun & Hp & Hs & Ht & Hi & _).
    exists r'. split; [exact Hrun|]. split; [exact Hp|]. split; [exact Hs|].
    split; [exact Ht|]. exact Hi.
  - destruct (run voiced_config (open_book demo_text 0) [TogglePlay])
      as [r1|] eqn:Hrun; [|by vm_compute in Hrun].
    destruct (run_ok voiced_config _ _ r1 Hok Hrun) as [Hok1 _].
    assert (Hplaying : isPlaying r1 = true).
    { pose proof Hrun as Hr. vm_compute in Hr. by injection Hr as <-. }
    destruct (proj1 (pause_stops_and_keeps_the_place voiced_config r1 Hok1)
                Hplaying)
      as (r' & Htoggle & _ & _ & _ & Ha & _ & Hi & _ & _ & _ & Hcallbacks).
    assert (Hlen : length (active r') = 2%nat).
    { rewrite Ha. pose proof Hrun as Hr. vm_compute in Hr.
      by injection Hr as <-. }
    destruct (run voiced_config r' [SpeechError 0; SpeechEnd 0])
      as [r''|] eqn:Hrun2.
    2:{ exfalso. pose proof Hrun as Hr. vm_compute in Hr. injection Hr as <-.
        vm_compute in Htoggle. injection Htoggle as <-.
        by vm_compute in Hrun2. }
    destruct (Hcallbacks [SpeechError 0; SpeechEnd 0] r'')
      as (Hp'' & _ & _ & Hi'' & _ & _ & _); [|exact Hrun2|].
    { repeat constructor; eexists; [by right | by left]. }
    exists r1, r', r''. split; [reflexivity|]. split; [exact Hok1|].
    split; [exact Hplaying|]. split; [exact Htoggle|]. split; [exact Hlen|].
    split; [exact Hrun2|]. split; [exact Hp''|]. split; [exact Hi''|].
    pose proof Hrun as Hr. vm_compute in Hr. injection Hr as <-.
    vm_compute in Htoggle. injection Htoggle as <-.
    vm_compute in Hrun2. by injection Hrun2 as <-.
Defined.

(** The utterance "It rained" followed by "It rained.": the word
    "rained." starts at offset 3 of the first reading and at offset 13 of
    the whole text. *)
Lemma word_boundary_moves_to_the_spoken_word_witness :
  Forall no_space [str "It"; str "rained."]
  /\ c_text (u_chunk demo_utterance) = join [SPACE] [str "It"; str "rained."]
  /\ u_isRepeating demo_utterance = true
  /\ word_offset [str "It"; str "rained."] 1 = 3
  /\ currentIndex (onboundary demo_utterance 3 (open_book demo_text 0)) = 1
  /\ currentIndex (onboundary demo_utterance 13 (open_book demo_text 0)) = 1.
Proof.
  assert (Hwords : Forall no_space [str "It"; str "rained."])
    by (repeat constructor).
  split; [exact Hwords|]. split; [reflexivity|]. split; [reflexivity|].
  split; [reflexivity|].
  assert (Hk : (1 < length [str "It"; str "rained."])%nat) by (cbn; lia).
  assert (Hinside : word_offset [str "It"; str "rained."] 1
                    <= Z.of_nat (length (u_firstPart demo_utterance)))
    by by vm_compute.
  exact (proj1 (proj2 (word_boundary_moves_to_the_spoken_word
                         [str "It"; str "rained."] demo_utterance 1
                         (open_book demo_text 0) Hwords eq_refl eq_refl Hk))
           eq_refl Hinside).
Defined.

(** The example text is shorter than a large chunk and is taken whole. *)
Lemma getNextLargeChunk_cuts_at_a_sentence_end_witness :
  0 <= 0 < Z.of_nat (length demo_tokens)
  /\ c_start (getNextLargeChunk demo_tokens 0) = 0
  /\ c_end (getNextLargeChunk demo_tokens 0) = Z.of_nat (length demo_tokens).
Proof.
  assert (Hstart : 0 <= 0 < Z.of_nat (length demo_tokens)) by by vm_compute.
  split; [exact Hstart|].
  destruct (getNextLargeChunk_cuts_at_a_sentence_end demo_tokens 0 Hstart)
    as (Hs & _ & _ & Hend & _).
  split; [exact Hs|]. apply Hend. by vm_compute.
Defined.

(** The second sentence of the example text as a repeat unit. *)
Lemma repeat_unit_ends_at_the_first_mark_witness :
  0 <= 2 < Z.of_nat (length demo_tokens)
  /\ exists chunk,
       next_chunk repeat_sentence demo_tokens 2 = Some chunk
       /\ c_start chunk = 2
       /\ 2 < c_end chunk <= Z.of_nat (length demo_tokens)
       /\ c_text chunk = join [SPACE] (slice demo_tokens 2 (c_end chunk)).
Proof.
  assert (Hstart : 0 <= 2 < Z.of_nat (length demo_tokens)) by by vm_compute.
  split; [exact Hstart|].
  destruct (repeat_unit_ends_at_the_first_mark repeat_sentence
              is_sentence_mark demo_tokens 2
              (or_intror (conj eq_refl eq_refl)) Hstart)
    as (chunk & Hnext & Hs & Hbounds & Htext & _).
  exists chunk. split; [exact Hnext|]. split; [exact Hs|].
  split; [exact Hbounds|]. exact Htext.
Defined.


End SpeechExamples.

Module DisplayExamples.

Import Tokenizer Playback Spritz Epub Toc Wheel Window.
Import TocFacts WheelFacts WindowFacts.

(** The example table of contents at index 50 of 120: the second chapter
    of the first part is the active one. *)
Lemma toc_marks_the_chapter_being_read_witness :
  toc_ok 0 120 demo_chapters
  /\ 50 < MAX_SAFE_INTEGER
  /\ first_position demo_chapters 120 <= 50 < 120
  /\ exists before b after,
       renderTocItems 50 120 demo_chapters = before ++ b :: after
       /\ b_active b = true
       /\ b_position b <= 50
       /\ Forall inactive before
       /\ Forall (fun b' => inactive b' /\ 50 < b_position b') after.
Proof.
  assert (Hok : toc_ok 0 120 demo_chapters).
  { unfold demo_chapters.
    repeat first [apply toc_ok_nil | apply toc_ok_cons | (cbn; lia)]. }
  assert (Hmax : 50 < MAX_SAFE_INTEGER) by reflexivity.
  assert (Hcur : first_position demo_chapters 120 <= 50 < 120)
    by (cbn; lia).
  split; [exact Hok|]. split; [exact Hmax|]. split; [exact Hcur|].
  exact (proj1 (proj2 (toc_marks_the_chapter_being_read 50 120 0
                         demo_chapters Hok Hmax)) Hcur).
Defined.

(** The wheel around "rained." in the example text. *)
Lemma wheel_centres_the_pivot_witness :
  at_index demo_tokens 1 = Some (str "rained.")
  /\ exists c,
       center (renderSpritz demo_tokens 1) = [c]
       /\ at_index (charList demo_tokens 1) (activeCharIndex demo_tokens 1)
          = Some {| wc_char := c; wc_wordIndex := 1; wc_isCenter := false |}.
Proof.
  assert (Hword : at_index demo_tokens 1 = Some (str "rained."))
    by reflexivity.
  assert (Hne : str "rained." <> []) by discriminate.
  split; [exact Hword|].
  destruct (wheel_centres_the_pivot demo_tokens 1 (str "rained.") Hword Hne)
    as (c & Hcenter & Hchar & _).
  exists c. split; [exact Hcenter|]. exact Hchar.
Defined.

(** Playing at index 5,000 of 10,000 tokens, 300 words per minute and a
    delay of 600 ms, with the window still at the start of the book. *)
Lemma rendered_window_holds_the_visual_index_witness :
  (0 <= 5000 <= inject_Z 10000 - 1)%Q
  /\ (5000
      <= visualIndex true (Some (600 : Q)) 300 5000 10000
      <= inject_Z 10000 - 1)%Q
  /\ (window_effect scroll false None
        (visualIndex true (Some (600 : Q)) 300 5000 10000)
        (window_effect scroll false None
           (visualIndex true (Some (600 : Q)) 300 5000 10000) 0)
      <= visualIndex true (Some (600 : Q)) 300 5000 10000)%Q
  /\ (visualIndex true (Some (600 : Q)) 300 5000 10000
      < window_effect scroll false None
          (visualIndex true (Some (600 : Q)) 300 5000 10000)
          (window_effect scroll false None
             (visualIndex true (Some (600 : Q)) 300 5000 10000) 0)
        + 2000)%Q.
Proof.
  assert (Hcur : (0 <= 5000 <= inject_Z 10000 - 1)%Q) by by vm_compute.
  assert (Hwpm : (0 <= 300)%Q) by by vm_compute.
  assert (Hdelay : forall delay : Q,
             Some (600 : Q) = Some delay -> (0 <= delay)%Q).
  { intros delay Heq. injection Heq as <-. by vm_compute. }
  assert (Hstart : (0 <= 0)%Q) by by vm_compute.
  destruct (rendered_window_holds_the_visual_index true (Some (600 : Q)) 300
              5000 10000 0 _ _ Hcur Hwpm Hdelay Hstart eq_refl eq_refl)
    as (Hvis & _ & Hle & Hlt & _).
  split; [exact Hcur|]. split; [exact Hvis|].
  split; [exact (proj2 Hle)|]. exact Hlt.
Defined.

End DisplayExamples.
